(** * CPU scheduling simulator (script.js): FCFS, SJF, SRTF, Priority, Round-Robin

    A shallow embedding of the five scheduling functions of [script.js] and of
    the caller-side glue that feeds them ([readProcesses], [compute]).

    Numbers.  A finite JavaScript number is a rational [Q]; the special
    values [Infinity], [-Infinity] and [NaN] are added by [jsnum] where the
    source can produce or receive them (the quantum, the result of
    [Math.min] on an empty argument list, the raw form fields).  The five
    scheduling functions, [compute] and [renderGantt] are given twice: over
    exact arithmetic, and, under a name ending in [64], with each sum,
    difference and product rounded to the nearest IEEE 754 double
    ([round64]); [renderAverages] is given in the rounded form only.  The
    two forms agree on whole-number times with a horizon of at most [2^53].
    What is stated of the exact form is the order in which the source makes
    its choices, which rounding leaves as it is; a property of the numbers
    computed is stated of the rounded form.

    Loops.  Every [while] loop of the source is a [body] function on an
    explicit loop state, run by [while] with a fuel argument; [continue] and
    falling through are [Next], [break] is [Break].

    Exceptions.  The [throw] of [roundRobin] and of [readProcesses], and the
    [TypeError] of a property read on [undefined], are outcomes of the model
    ([Thrown], [Crash]).

    Parameters.  [String.prototype.localeCompare] (the host's collation) and
    [genColor] (number formatting) are parameters. *)

From Stdlib Require Import String Ascii.
From Stdlib Require OrderedTypeEx.
From Stdlib Require Import QArith Qminmax Qround Qabs Qpower Lqa ZArith Lia.
From Stdlib Require Import List Bool Arith PeanoNat Permutation Sorted.
Import ListNotations.
Local Open Scope string_scope.
Local Open Scope Q_scope.
Local Open Scope list_scope.

Set Implicit Arguments.

(* ------------------------------------------------------------------ *)
(** ** Numbers *)

Inductive jsnum : Type :=
| Fin (x : Q)
| PInf
| NInf
| NaN.

(** [a < b] and [a <= b] on finite numbers, as booleans. *)
Definition Qltb (x y : Q) : bool := negb (Qle_bool y x).
Definition Qleb (x y : Q) : bool := Qle_bool x y.

(** [q > 0] *)
Definition gt0 (q : jsnum) : bool :=
  match q with
  | Fin x => Qltb 0 x
  | PInf => true
  | NInf | NaN => false
  end.

(** [Math.min(...xs)]: [Infinity] on no arguments. *)
Fixpoint mathMin (xs : list Q) : jsnum :=
  match xs with
  | [] => PInf
  | x :: r => match mathMin r with
              | Fin m => Fin (Qmin x m)
              | _ => Fin x
              end
  end.

(** [Math.min(q, r)] for a quantum [q] that passed the guard [q > 0] and a
    finite [r]. *)
Definition minQuantum (q : jsnum) (r : Q) : Q :=
  match q with
  | Fin x => Qmin x r
  | PInf => r
  | NInf | NaN => r
  end.

(** [a || b] on numbers: [0] is falsy. *)
Definition numOr (a b : Q) : Q := if Qeq_bool a 0 then b else a.

(* ------------------------------------------------------------------ *)
(** ** Data *)

Record Process : Type := mkProcess {
  pid : string;
  arrival : Q;
  burst : Q;
  priority : Q;
  color : string
}.

Record Block : Type := mkBlock {
  b_pid : string;
  b_start : Q;
  b_end : Q;
  b_color : string
}.

Record ProcResult : Type := mkResult {
  r_start : Q;
  r_completion : Q;
  r_tat : Q;
  r_wt : Q;
  r_response : Q;
  r_arrival : Q;
  r_burst : Q;
  r_priority : Q
}.

(** A JS [Map] keyed by pid: insertion ordered, [set] on a present key
    replaces the value in place. *)
Definition ResMap : Type := list (string * ProcResult).

Fixpoint mapGet (k : string) (m : ResMap) : option ProcResult :=
  match m with
  | [] => None
  | (k', v) :: r => if String.eqb k' k then Some v else mapGet k r
  end.

Fixpoint mapSet (k : string) (v : ProcResult) (m : ResMap) : ResMap :=
  match m with
  | [] => [(k, v)]
  | (k', v') :: r => if String.eqb k' k then (k', v) :: r else (k', v') :: mapSet k v r
  end.

Record SimulationResult : Type := mkSim {
  blocks : list Block;
  results : ResMap;
  endTime : jsnum
}.

Definition IDLE : string := "IDLE".
Definition idleColor : string := "var(--idle)".

Definition idleBlock (s e : Q) : Block := mkBlock IDLE s e idleColor.

(** A JS [Set] of indices: insertion ordered, no duplicates. *)
Definition IdxSet : Type := list nat.
Definition has (s : IdxSet) (i : nat) : bool := existsb (Nat.eqb i) s.
Definition add (s : IdxSet) (i : nat) : IdxSet := if has s i then s else s ++ [i].

(** [a[i] = v] on an array, [i] in range. *)
Fixpoint setNth {A : Type} (i : nat) (v : A) (l : list A) : list A :=
  match l, i with
  | [], _ => []
  | _ :: r, O => v :: r
  | x :: r, S k => x :: setNth k v r
  end.

(* ------------------------------------------------------------------ *)
(** ** Outcomes and loops *)

Inductive Outcome (A : Type) : Type :=
| Returned (a : A)
| Thrown (msg : string)
| OutOfFuel.
Arguments Thrown {A} msg.
Arguments OutOfFuel {A}.

(** One pass through a loop body: fall through or [continue] ([Next]),
    [break] ([Break]), or an uncaught exception ([Crash]). *)
Inductive Step (S : Type) : Type :=
| Next (s : S)
| Break (s : S)
| Crash (msg : string).
Arguments Crash {S} msg.

Section While.
Variable S : Type.
Variable cond : S -> bool.
Variable body : S -> Step S.

Fixpoint while (fuel : nat) (s : S) : Outcome S :=
  if cond s then
    match fuel with
    | O => OutOfFuel
    | Datatypes.S k =>
        match body s with
        | Next s' => while k s'
        | Break s' => Returned s'
        | Crash m => Thrown m
        end
    end
  else Returned s.
End While.

(** The loop states a run passes through, starting from [s0]. *)
Inductive reaches (S : Type) (cond : S -> bool) (body : S -> Step S) (s0 : S)
  : S -> Prop :=
| reaches_start : reaches cond body s0 s0
| reaches_next (s s' : S) :
    reaches cond body s0 s -> cond s = true -> body s = Next s' ->
    reaches cond body s0 s'.

(** [run] returns once it has enough fuel, and its result satisfies [P]. *)
Definition returnsWith (A : Type) (run : nat -> Outcome A) (P : A -> Prop) : Prop :=
  exists fuel0, forall fuel, (fuel0 <= fuel)%nat ->
    exists r, run fuel = Returned r /\ P r.

Definition typeError : string := "TypeError".

(* ------------------------------------------------------------------ *)
(** ** FCFS *)

Record FcfsState : Type := mkFcfs {
  f_blocks : list Block;
  f_res : ResMap;
  f_time : Q
}.

Definition fcfsBody (st : FcfsState) (p : Process) : FcfsState :=
  let blocks1 := if Qltb (f_time st) (arrival p)
                 then f_blocks st ++ [idleBlock (f_time st) (arrival p)]
                 else f_blocks st in
  let time1 := if Qltb (f_time st) (arrival p) then arrival p else f_time st in
  let start := time1 in
  let end_ := time1 + burst p in
  mkFcfs (blocks1 ++ [mkBlock (pid p) start end_ (color p)])
         (mapSet (pid p)
            (mkResult start end_ (end_ - arrival p) (start - arrival p)
               (start - arrival p) (arrival p) (burst p) (priority p))
            (f_res st))
         end_.

Definition fcfs (processes : list Process) : SimulationResult :=
  match mathMin (map arrival processes) with
  | Fin t0 =>
      let st := fold_left fcfsBody processes (mkFcfs [] [] t0) in
      mkSim (f_blocks st) (f_res st) (Fin (f_time st))
  | other => mkSim [] [] other
  end.

(* ------------------------------------------------------------------ *)
(** ** Round Robin *)

Record RRState : Type := mkRR {
  rr_blocks : list Block;
  rr_res : ResMap;
  rr_rem : list Q;
  rr_firstStart : list (option Q);
  rr_queue : list nat;
  rr_arrived : IdxSet;
  rr_time : Q
}.

(** [for(k=0;k<n;k++) if(!arrived.has(k) && processes[k].arrival<=time)
    { queue.push(k); arrived.add(k); }], from index [k] on. *)
Fixpoint pushArrived (time : Q) (k : nat) (ps : list Process)
    (queue : list nat) (arrived : IdxSet) : list nat * IdxSet :=
  match ps with
  | [] => (queue, arrived)
  | p :: r =>
      if negb (has arrived k) && Qleb (arrival p) time
      then pushArrived time (S k) r (queue ++ [k]) (add arrived k)
      else pushArrived time (S k) r queue arrived
  end.

(** [processes.findIndex((p,i)=>!arrived.has(i))] *)
Fixpoint findNotArrived (arrived : IdxSet) (k : nat) (ps : list Process) : option nat :=
  match ps with
  | [] => None
  | _ :: r => if negb (has arrived k) then Some k else findNotArrived arrived (S k) r
  end.

(** The initial queue: [for(i<n) if(processes[i].arrival<=time) queue.push(i)] *)
Fixpoint initQueue (time : Q) (k : nat) (ps : list Process) : list nat :=
  match ps with
  | [] => []
  | p :: r => if Qleb (arrival p) time then k :: initQueue time (S k) r
              else initQueue time (S k) r
  end.

(** [new Set(queue)] *)
Definition setOf (l : list nat) : IdxSet := fold_left add l [].

Definition rrCond (n : nat) (st : RRState) : bool :=
  (0 <? length (rr_queue st))%nat || (length (rr_arrived st) <? n)%nat.

(** One pass of the loop.  [rem] and [firstStart] have the length of
    [processes], so their reads at [i] are in range whenever [processes[i]]
    is. *)
Definition rrBody (processes : list Process) (q : jsnum) (st : RRState) : Step RRState :=
  match rr_queue st with
  | [] =>
      match findNotArrived (rr_arrived st) 0 processes with
      | None => Break st
      | Some nextIdx =>
          match nth_error processes nextIdx with
          | None => Crash typeError
          | Some pn =>
              let nextTime := arrival pn in
              let blocks1 := rr_blocks st ++ [idleBlock (rr_time st) nextTime] in
              let '(queue1, arrived1) :=
                pushArrived nextTime 0 processes (rr_queue st) (rr_arrived st) in
              Next (mkRR blocks1 (rr_res st) (rr_rem st) (rr_firstStart st)
                      queue1 arrived1 nextTime)
          end
      end
  | i :: queue0 =>
      match nth_error processes i with
      | None => Crash typeError
      | Some p =>
          let time := rr_time st in
          let first := match nth i (rr_firstStart st) None with
                       | None => true | Some _ => false end in
          let firstStart1 := if first then setNth i (Some time) (rr_firstStart st)
                             else rr_firstStart st in
          let res1 := if first
                      then mapSet (pid p)
                             (mkResult time 0 0 0 (time - arrival p)
                                (arrival p) (burst p) (priority p))
                             (rr_res st)
                      else rr_res st in
          let run := minQuantum q (nth i (rr_rem st) 0) in
          let start := time in
          let end_ := time + run in
          let blocks1 := rr_blocks st ++ [mkBlock (pid p) start end_ (color p)] in
          let time1 := end_ in
          let rem1 := setNth i (nth i (rr_rem st) 0 - run) (rr_rem st) in
          let '(queue1, arrived1) := pushArrived time1 0 processes queue0 (rr_arrived st) in
          if Qltb 0 (nth i rem1 0)
          then Next (mkRR blocks1 res1 rem1 firstStart1 (queue1 ++ [i]) arrived1 time1)
          else
            let completion := time1 in
            match mapGet (pid p) res1 with
            | None => Crash typeError
            | Some r =>
                let tat := completion - arrival p in
                let r' := mkResult (r_start r) completion tat (tat - burst p)
                            (r_response r) (r_arrival r) (r_burst r) (r_priority r) in
                Next (mkRR blocks1 (mapSet (pid p) r' res1) rem1 firstStart1
                        queue1 arrived1 time1)
            end
      end
  end.

Definition quantumError : string := "Quantum must be a positive number for Round Robin".

Definition rrInit (processes : list Process) (t0 : Q) : RRState :=
  let queue := initQueue t0 0 processes in
  mkRR [] [] (map burst processes) (map (fun _ => None) processes)
       queue (setOf queue) t0.

Definition roundRobin (fuel : nat) (processes : list Process) (q : jsnum)
  : Outcome SimulationResult :=
  if negb (gt0 q) then Thrown quantumError
  else
    match mathMin (map arrival processes) with
    | Fin t0 =>
        match while (rrCond (length processes)) (rrBody processes q) fuel
                (rrInit processes t0) with
        | Returned st => Returned (mkSim (rr_blocks st) (rr_res st) (Fin (rr_time st)))
        | Thrown m => Thrown m
        | OutOfFuel => OutOfFuel
        end
    | other => Returned (mkSim [] [] other)
    end.

(* ------------------------------------------------------------------ *)
(** ** Sorting with a comparator

    [Array.prototype.sort(cmp)] is a stable sort; [cmp a b > 0] puts [a]
    after [b]. *)

Section Sort.
Variable A : Type.
Variable cmp : A -> A -> Q.

Fixpoint insertBy (x : A) (l : list A) : list A :=
  match l with
  | [] => [x]
  | y :: r => if Qltb 0 (cmp x y) then y :: insertBy x r else x :: y :: r
  end.

Fixpoint sortBy (l : list A) : list A :=
  match l with
  | [] => []
  | x :: r => insertBy x (sortBy r)
  end.
End Sort.

(* ------------------------------------------------------------------ *)
(** ** The algorithms that compare pids

    [String.prototype.localeCompare] is the host's collation; it is a
    parameter of the development. *)

Section Collation.
Variable localeCompare : string -> string -> Z.

(** [a.arrival - b.arrival || a.pid.localeCompare(b.pid)] *)
Definition byArrival (a b : Process) : Q :=
  numOr (arrival a - arrival b) (inject_Z (localeCompare (pid a) (pid b))).

(** [a.burst - b.burst || a.arrival - b.arrival || a.pid.localeCompare(b.pid)] *)
Definition byBurst (a b : Process) : Q :=
  numOr (numOr (burst a - burst b) (arrival a - arrival b))
        (inject_Z (localeCompare (pid a) (pid b))).

(** [a.priority - b.priority || a.arrival - b.arrival || a.pid.localeCompare(b.pid)] *)
Definition byPriority (a b : Process) : Q :=
  numOr (numOr (priority a - priority b) (arrival a - arrival b))
        (inject_Z (localeCompare (pid a) (pid b))).

(** The comparator of [ready.sort]: it looks the two indices up in
    [processes] (indices in [ready] come from the admission loop and are
    in range). *)
Definition onIndex (processes : list Process) (key : Process -> Process -> Q)
    (ia ib : nat) : Q :=
  match nth_error processes ia, nth_error processes ib with
  | Some a, Some b => key a b
  | _, _ => 0
  end.

(** *** SJF and Priority (non-preemptive)

    The two functions of the source differ only in the comparator of
    [ready.sort]. *)

Record NPState : Type := mkNP {
  np_blocks : list Block;
  np_res : ResMap;
  np_completed : nat;
  np_time : Q;
  np_ready : list nat;
  np_used : IdxSet
}.

(** [processes.filter((_,idx)=>!used.has(idx)).map(p=>p.arrival)] *)
Fixpoint unusedArrivals (used : IdxSet) (k : nat) (ps : list Process) : list Q :=
  match ps with
  | [] => []
  | p :: r => if negb (has used k) then arrival p :: unusedArrivals used (S k) r
              else unusedArrivals used (S k) r
  end.

Definition npCond (n : nat) (st : NPState) : bool := (np_completed st <? n)%nat.

Definition npBody (key : Process -> Process -> Q) (processes : list Process)
    (st : NPState) : Step NPState :=
  let time := np_time st in
  let '(ready1, used1) := pushArrived time 0 processes (np_ready st) (np_used st) in
  match ready1 with
  | [] =>
      match mathMin (unusedArrivals used1 0 processes) with
      | Fin next =>
          Next (mkNP (np_blocks st ++ [idleBlock time next]) (np_res st)
                  (np_completed st) next ready1 used1)
      | _ => Break (mkNP (np_blocks st) (np_res st) (np_completed st) time ready1 used1)
      end
  | _ :: _ =>
      match sortBy (onIndex processes key) ready1 with
      | [] => Crash typeError
      | idx :: ready2 =>
          match nth_error processes idx with
          | None => Crash typeError
          | Some p =>
              let start := time in
              let end_ := time + burst p in
              Next (mkNP (np_blocks st ++ [mkBlock (pid p) start end_ (color p)])
                      (mapSet (pid p)
                         (mkResult start end_ (end_ - arrival p) (start - arrival p)
                            (start - arrival p) (arrival p) (burst p) (priority p))
                         (np_res st))
                      (S (np_completed st)) end_ ready2 used1)
          end
      end
  end.

Definition nonPreemptive (key : Process -> Process -> Q) (fuel : nat)
    (processes : list Process) : Outcome SimulationResult :=
  match mathMin (map arrival processes) with
  | Fin t0 =>
      match while (npCond (length processes)) (npBody key processes) fuel
              (mkNP [] [] 0 t0 [] []) with
      | Returned st => Returned (mkSim (np_blocks st) (np_res st) (Fin (np_time st)))
      | Thrown m => Thrown m
      | OutOfFuel => OutOfFuel
      end
  | other => Returned (mkSim [] [] other)
  end.

Definition sjf : nat -> list Process -> Outcome SimulationResult :=
  nonPreemptive byBurst.

Definition prioritySchedule : nat -> list Process -> Outcome SimulationResult :=
  nonPreemptive byPriority.

(** *** SRTF *)

Record SrtfState : Type := mkSrtf {
  s_blocks : list Block;
  s_res : ResMap;
  s_rem : list Q;
  s_started : list bool;
  s_time : Q;
  s_lastPID : option string;
  s_blockStart : Q;
  s_done : IdxSet
}.

(** [rem[i] < bestRem] and [rem[i] === bestRem], [bestRem] starting at
    [Infinity]. *)
Definition ltNum (x : Q) (b : jsnum) : bool :=
  match b with Fin y => Qltb x y | PInf => true | _ => false end.
Definition eqNum (x : Q) (b : jsnum) : bool :=
  match b with Fin y => Qeq_bool x y | _ => false end.

(** [(p.arrival - processes[best]?.arrival || 0) < 0]; with [best = -1]
    the difference is [NaN] and the operand of [<] is [0]. *)
Definition arrivesBefore (processes : list Process) (p : Process)
    (best : option nat) : bool :=
  match best with
  | Some b =>
      match nth_error processes b with
      | Some pb => Qltb (numOr (arrival p - arrival pb) 0) 0
      | None => false
      end
  | None => false
  end.

(** [p.pid.localeCompare(processes[best]?.pid || '') < 0] *)
Definition pidBefore (processes : list Process) (p : Process)
    (best : option nat) : bool :=
  let other := match best with
               | Some b => match nth_error processes b with
                           | Some pb => pid pb
                           | None => ""
                           end
               | None => ""
               end in
  (localeCompare (pid p) other <? 0)%Z.

(** The selection scan [for(let i=0;i<n;i++)], from index [i] on; [rem] has
    the length of [processes]. *)
Fixpoint pick (processes : list Process) (rem : list Q) (done : IdxSet)
    (time : Q) (i : nat) (ps : list Process) (best : option nat)
    (bestRem : jsnum) : option nat * jsnum :=
  match ps with
  | [] => (best, bestRem)
  | p :: r =>
      if has done i then pick processes rem done time (S i) r best bestRem
      else if Qleb (arrival p) time && Qltb 0 (nth i rem 0) then
        if ltNum (nth i rem 0) bestRem
           || (eqNum (nth i rem 0) bestRem && arrivesBefore processes p best)
           || (eqNum (nth i rem 0) bestRem && pidBefore processes p best)
        then pick processes rem done time (S i) r (Some i) (Fin (nth i rem 0))
        else pick processes rem done time (S i) r best bestRem
      else pick processes rem done time (S i) r best bestRem
  end.

(** [processes.find(pp=>pp.pid===lastPID)] *)
Definition findPid (processes : list Process) (lp : string) : option Process :=
  find (fun pp => String.eqb (pid pp) lp) processes.

(** The block pushed when the running pid changes:
    [{pid:lastPID, start:blockStart, end:time,
      color: lastPID==='IDLE' ? 'var(--idle)' : processes.find(..).color}] *)
Definition closeBlock (processes : list Process) (lp : string) (s e : Q)
  : option Block :=
  if String.eqb lp IDLE then Some (mkBlock lp s e idleColor)
  else match findPid processes lp with
       | Some pp => Some (mkBlock lp s e (color pp))
       | None => None
       end.

(** The block pushed after the loop; its colour is
    [lastPID==='IDLE' ? 'var(--idle)' : processes.find(..)?.color || 'var(--idle)']. *)
Definition lastBlock (processes : list Process) (lp : string) (s e : Q) : Block :=
  if String.eqb lp IDLE then mkBlock lp s e idleColor
  else match findPid processes lp with
       | Some pp => mkBlock lp s e (if String.eqb (color pp) "" then idleColor
                                    else color pp)
       | None => mkBlock lp s e idleColor
       end.

Definition srtfCond (n : nat) (st : SrtfState) : bool := (length (s_done st) <? n)%nat.

Definition srtfBody (processes : list Process) (st : SrtfState) : Step SrtfState :=
  let time := s_time st in
  match fst (pick processes (s_rem st) (s_done st) time 0 processes None PInf) with
  | None =>
      match s_lastPID st with
      | Some lp =>
          if String.eqb lp IDLE
          then Next (mkSrtf (s_blocks st) (s_res st) (s_rem st) (s_started st)
                       (time + 1) (s_lastPID st) (s_blockStart st) (s_done st))
          else
            match closeBlock processes lp (s_blockStart st) time with
            | None => Crash typeError
            | Some b =>
                Next (mkSrtf (s_blocks st ++ [b]) (s_res st) (s_rem st) (s_started st)
                        (time + 1) (Some IDLE) time (s_done st))
            end
      | None =>
          Next (mkSrtf (s_blocks st) (s_res st) (s_rem st) (s_started st)
                  (time + 1) (Some IDLE) time (s_done st))
      end
  | Some best =>
      match nth_error processes best with
      | None => Crash typeError
      | Some p =>
          let fresh := negb (nth best (s_started st) false) in
          let started1 := if fresh then setNth best true (s_started st)
                          else s_started st in
          let res1 := if fresh
                      then mapSet (pid p)
                             (mkResult time 0 0 0 (time - arrival p)
                                (arrival p) (burst p) (priority p))
                             (s_res st)
                      else s_res st in
          let changed := match s_lastPID st with
                         | Some lp => negb (String.eqb lp (pid p))
                         | None => true
                         end in
          let pushed :=
            if changed then
              match s_lastPID st with
              | Some lp =>
                  match closeBlock processes lp (s_blockStart st) time with
                  | Some b => Some (s_blocks st ++ [b])
                  | None => None
                  end
              | None => Some (s_blocks st)
              end
            else Some (s_blocks st) in
          match pushed with
          | None => Crash typeError
          | Some blocks1 =>
              let lastPID1 := if changed then Some (pid p) else s_lastPID st in
              let blockStart1 := if changed then time else s_blockStart st in
              let rem1 := setNth best (nth best (s_rem st) 0 - 1) (s_rem st) in
              let time1 := time + 1 in
              if Qeq_bool (nth best rem1 0) 0 then
                let completion := time1 in
                match mapGet (pid p) res1 with
                | None => Crash typeError
                | Some r =>
                    let tat := completion - arrival p in
                    let r' := mkResult (r_start r) completion tat (tat - burst p)
                                (r_response r) (r_arrival r) (r_burst r)
                                (r_priority r) in
                    Next (mkSrtf blocks1 (mapSet (pid p) r' res1) rem1 started1
                            time1 lastPID1 blockStart1 (add (s_done st) best))
                end
              else
                Next (mkSrtf blocks1 res1 rem1 started1 time1 lastPID1 blockStart1
                        (s_done st))
          end
      end
  end.

Definition srtfFinish (processes : list Process) (st : SrtfState) : SimulationResult :=
  let blocks1 := match s_lastPID st with
                 | Some lp => s_blocks st ++
                                [lastBlock processes lp (s_blockStart st) (s_time st)]
                 | None => s_blocks st
                 end in
  let filtered := filter (fun b => Qltb (b_start b) (b_end b)) blocks1 in
  mkSim filtered (s_res st) (Fin (s_time st)).

Definition srtfInit (processes : list Process) (t0 : Q) : SrtfState :=
  mkSrtf [] [] (map burst processes) (map (fun _ => false) processes)
    t0 None t0 [].

Definition srtf (fuel : nat) (processes : list Process) : Outcome SimulationResult :=
  match mathMin (map arrival processes) with
  | Fin t0 =>
      match while (srtfCond (length processes)) (srtfBody processes) fuel
              (srtfInit processes t0) with
      | Returned st => Returned (srtfFinish processes st)
      | Thrown m => Thrown m
      | OutOfFuel => OutOfFuel
      end
  | other => Returned (mkSim [] [] other)
  end.

End Collation.

(* ------------------------------------------------------------------ *)
(** ** Caller-side glue: [readProcesses] and [compute] *)

(** One row of the process table as [readProcesses] reads it: [row_pid] is
    [.pid.value.trim()], the numeric fields are [Number(.value)]. *)
Record Row : Type := mkRow {
  row_pid : string;
  row_at : jsnum;
  row_bt : jsnum;
  row_pr : jsnum;
  row_color : string
}.

(** What a call of [compute] ends in: an error message put on the page by
    [setError], the process list and simulation result handed to the
    renderers, an exception nobody catches, or a loop that does not end. *)
Inductive Computed : Type :=
| ErrorShown (msg : string)
| Rendered (procs : list Process) (out : SimulationResult)
| Uncaught (msg : string)
| Hangs.

Definition finiteNonNeg (x : jsnum) : option Q :=
  match x with Fin a => if Qleb 0 a then Some a else None | _ => None end.
Definition finitePos (x : jsnum) : option Q :=
  match x with Fin a => if Qltb 0 a then Some a else None | _ => None end.
Definition finite (x : jsnum) : option Q :=
  match x with Fin a => Some a | _ => None end.

Definition hasPid (seen : list string) (id : string) : bool :=
  existsb (String.eqb id) seen.

Section Glue.
Variable localeCompare : string -> string -> Z.
(** [genColor(i, total)] formats an [hsl(..)] string; only its being a
    function of the two arguments matters here. *)
Variable genColor : nat -> nat -> string.

(** The [for(const tr of rows)] loop of [readProcesses]. *)
Fixpoint readRows (rows : list Row) (seenPIDs : list string)
    (procs : list Process) : Outcome (list Process) :=
  match rows with
  | [] => Returned procs
  | tr :: rest =>
      let id := row_pid tr in
      if String.eqb id "" then Thrown "PID missing in one of the rows."
      else if hasPid seenPIDs id then Thrown (String.append "Duplicate PID: " id)
      else match finiteNonNeg (row_at tr) with
           | None => Thrown (String.append "Invalid arrival for " id)
           | Some at_ =>
               match finitePos (row_bt tr) with
               | None => Thrown (String.append "Invalid burst for " id)
               | Some bt =>
                   match finite (row_pr tr) with
                   | None => Thrown (String.append "Invalid priority for " id)
                   | Some pr =>
                       readRows rest (seenPIDs ++ [id])
                         (procs ++ [mkProcess id at_ bt pr (row_color tr)])
                   end
               end
           end
  end.

Definition readProcesses (rows : list Row) : Outcome (list Process) :=
  match readRows rows [] [] with
  | Returned procs => Returned (sortBy (byArrival localeCompare) procs)
  | other => other
  end.

(** [procs.forEach((p,idx)=>{ if(!p.color) p.color = genColor(idx, procs.length) })] *)
Fixpoint fillColors (total idx : nat) (procs : list Process) : list Process :=
  match procs with
  | [] => []
  | p :: r =>
      (if String.eqb (color p) ""
       then mkProcess (pid p) (arrival p) (burst p) (priority p) (genColor idx total)
       else p) :: fillColors total (S idx) r
  end.

Definition rendered (procs : list Process) (o : Outcome SimulationResult) : Computed :=
  match o with
  | Returned out => Rendered procs out
  | Thrown m => Uncaught m
  | OutOfFuel => Hangs
  end.

(** [compute()]: [algo] is [$('#algo').value], [q] is
    [Number($('#quantum').value)]. *)
Definition compute (fuel : nat) (rows : list Row) (algo : string) (q : jsnum)
  : Computed :=
  match readProcesses rows with
  | Thrown m => ErrorShown m
  | OutOfFuel => Hangs
  | Returned procs0 =>
      if (length procs0 =? 0)%nat then ErrorShown "Add at least one process."
      else
        let procs := fillColors (length procs0) 0 procs0 in
        if String.eqb algo "FCFS" then rendered procs (Returned (fcfs procs))
        else if String.eqb algo "SJF" then rendered procs (sjf localeCompare fuel procs)
        else if String.eqb algo "SRTF" then rendered procs (srtf localeCompare fuel procs)
        else if String.eqb algo "PR"
             then rendered procs (prioritySchedule localeCompare fuel procs)
        else if String.eqb algo "RR" then rendered procs (roundRobin fuel procs q)
        else Uncaught typeError
  end.
End Glue.

(** Code-unit order on strings, one possible collation. *)
Definition codeUnitCompare (a b : string) : Z :=
  match String.compare a b with
  | Lt => (-1)%Z
  | Eq => 0%Z
  | Gt => 1%Z
  end.

Definition P (id : string) (a b : Z) : Process :=
  mkProcess id (inject_Z a) (inject_Z b) 0 "c".


(* ------------------------------------------------------------------ *)
(** ** Properties of a timeline *)

(** [chain s bs e]: the blocks [bs], in the order given, tile [[s, e)]. *)
Fixpoint chain (s : Q) (bs : list Block) (e : Q) : Prop :=
  match bs with
  | [] => s = e
  | b :: r => b_start b = s /\ b_start b < b_end b /\ chain (b_end b) r e
  end.

(** The four items of timeline coverage, on positions of the sequence. *)
Definition tiles (t0 : Q) (bs : list Block) (tend : Q) : Prop :=
  (exists b, nth_error bs 0 = Some b /\ b_start b = t0) /\
  (forall b, In b bs -> b_start b < b_end b) /\
  (forall i b c, nth_error bs i = Some b -> nth_error bs (S i) = Some c ->
                 b_end b = b_start c) /\
  (exists b, nth_error bs (length bs - 1) = Some b /\ b_end b = tend).

(** The sequence is already in increasing order of [start]. *)
Definition sortedByStart (bs : list Block) : Prop :=
  forall i j b c, (i < j)%nat -> nth_error bs i = Some b -> nth_error bs j = Some c ->
                  b_start b < b_start c.

Definition covers (t0 : Q) (r : SimulationResult) : Prop :=
  exists tend, endTime r = Fin tend /\ tiles t0 (blocks r) tend /\
               sortedByStart (blocks r).

(** ** Busy time per process *)

(** [b] is a non-idle block carrying pid [id]. *)
Definition carries (id : string) (b : Block) : bool :=
  negb (String.eqb (b_pid b) IDLE) && String.eqb (b_pid b) id.

(** Sum of [end - start] over the non-idle blocks carrying [id]. *)
Fixpoint busy (id : string) (bs : list Block) : Q :=
  match bs with
  | [] => 0
  | b :: r => (if carries id b then b_end b - b_start b else 0) + busy id r
  end.

Definition occurrences (id : string) (bs : list Block) : nat :=
  length (filter (carries id) bs).

(** Total burst, and number, of the processes named [id]. *)
Fixpoint demand (id : string) (ps : list Process) : Q :=
  match ps with
  | [] => 0
  | p :: r => (if String.eqb (pid p) id then burst p else 0) + demand id r
  end.

Definition copies (id : string) (ps : list Process) : nat :=
  length (filter (fun p => String.eqb (pid p) id) ps).

(** ** Loop invariants and measures *)

(** The indices the admission loop pushes, in the order it pushes them:
    those not in [arrived] whose arrival is at most [time]. *)
Fixpoint newly (time : Q) (k : nat) (ps : list Process) (arrived : IdxSet) : list nat :=
  match ps with
  | [] => []
  | p :: r => if negb (has arrived k) && Qleb (arrival p) time
              then k :: newly time (S k) r arrived
              else newly time (S k) r arrived
  end.

(** The index set stays duplicate free and within [0, n). *)
Definition goodSet (n : nat) (s : IdxSet) : Prop :=
  NoDup s /\ Forall (fun i => (i < n)%nat) s.

(** Remaining burst of the processes named [id]. *)
Fixpoint remaining (id : string) (ps : list Process) (rem : list Q) : Q :=
  match ps, rem with
  | p :: r, x :: xs => (if String.eqb (pid p) id then x else 0) + remaining id r xs
  | _, _ => 0
  end.

(** A result record that went through the completion branch: its completion
    is the end of a block of that process, and turnaround and waiting are
    derived from it. *)
Definition finalized (p : Process) (bs : list Block) (r : ProcResult) : Prop :=
  (exists b, In b bs /\ b_pid b = pid p /\ b_end b = r_completion r) /\
  r_tat r = r_completion r - arrival p /\
  r_wt r = r_tat r - burst p.

(** Number of dispatches a remaining burst [r] still needs under quantum [q]. *)
Definition dispatchesLeft (q : jsnum) (r : Q) : nat :=
  match q with
  | Fin x => Z.to_nat (Qceiling (r / x))
  | _ => if Qltb 0 r then 1 else 0
  end.

Definition rrMeasure (q : jsnum) (n : nat) (st : RRState) : nat :=
  list_sum (map (dispatchesLeft q) (rr_rem st)) + (n - length (rr_arrived st)).

(** The loop invariant of [roundRobin]. *)
Record RRInv (ps : list Process) (t0 : Q) (st : RRState) : Prop := mkRRInv {
  rri_chain : chain t0 (rr_blocks st) (rr_time st);
  rri_rem_len : length (rr_rem st) = length ps;
  rri_arrived : goodSet (length ps) (rr_arrived st);
  rri_queue_nodup : NoDup (rr_queue st);
  rri_queue_arr : forall i, In i (rr_queue st) -> In i (rr_arrived st);
  rri_upto : forall i p, nth_error ps i = Some p -> arrival p <= rr_time st ->
                         In i (rr_arrived st);
  rri_queue_pos : forall i, In i (rr_queue st) -> 0 < nth i (rr_rem st) 0;
  rri_unarrived : forall i p, nth_error ps i = Some p -> ~ In i (rr_arrived st) ->
                              0 < nth i (rr_rem st) 0;
  rri_finished : forall i, In i (rr_arrived st) -> ~ In i (rr_queue st) ->
                           nth i (rr_rem st) 0 == 0;
  rri_busy : forall id, id <> IDLE ->
               busy id (rr_blocks st) + remaining id ps (rr_rem st) == demand id ps;
  rri_started : forall i p, nth_error ps i = Some p ->
                  nth i (rr_firstStart st) None <> None ->
                  mapGet (pid p) (rr_res st) <> None;
  rri_final : forall i p, nth_error ps i = Some p -> In i (rr_arrived st) ->
                ~ In i (rr_queue st) ->
                exists r, mapGet (pid p) (rr_res st) = Some r /\
                          finalized p (rr_blocks st) r;
  rri_nonempty : rr_blocks st = [] -> rr_queue st <> []
}.

(** The state in which the Round Robin loop stops. *)
Definition rrFinal (n : nat) (st : RRState) : Prop :=
  rr_queue st = [] /\ forall i, (i < n)%nat -> In i (rr_arrived st).

(** The processes at the indices [l], in that order. *)
Definition procsAt (ps : list Process) (l : list nat) : list Process :=
  flat_map (fun i => match nth_error ps i with Some p => [p] | None => [] end) l.

(** Number of processes that arrive after [t]. *)
Definition later (ps : list Process) (t : Q) : nat :=
  length (filter (fun p => Qltb t (arrival p)) ps).

Definition npMeasure (ps : list Process) (st : NPState) : nat :=
  (length ps - np_completed st) + later ps (np_time st).

(** The loop invariant of [sjf] and [prioritySchedule]; [dispatched] lists
    the indices already run. *)
Record NPInv (ps : list Process) (t0 : Q) (st : NPState) : Prop := mkNPInv {
  npi_chain : chain t0 (np_blocks st) (np_time st);
  npi_used : goodSet (length ps) (np_used st);
  npi_ghost : exists dispatched,
      Permutation (np_used st) (dispatched ++ np_ready st) /\
      np_completed st = length dispatched /\
      forall id, id <> IDLE ->
        busy id (np_blocks st) == demand id (procsAt ps dispatched) /\
        occurrences id (np_blocks st) = copies id (procsAt ps dispatched);
  npi_nonempty : np_blocks st = [] -> np_completed st = 0%nat
}.

(** ** Valid input *)

(** Valid input: non-empty, pids unique, arrival >= 0 and burst > 0. *)
Definition validSet (ps : list Process) : Prop :=
  ps <> [] /\ NoDup (map pid ps) /\
  Forall (fun p => 0 <= arrival p /\ 0 < burst p) ps.

(** Whole-number bursts. *)
Definition wholeBursts (ps : list Process) : Prop :=
  Forall (fun p => exists k : nat, burst p == inject_Z (Z.of_nat k)) ps.

(** Length of the block still open for [id]: SRTF has counted the ticks
    since [blockStart] for [lastPID] but not yet pushed the block. *)
Definition openRun (id : string) (lastPID : option string) (d : Q) : Q :=
  match lastPID with
  | Some lp => if String.eqb lp id then d else 0
  | None => 0
  end.

(** The latest arrival. *)
Fixpoint lastArrival (ps : list Process) : Q :=
  match ps with
  | [] => 0
  | p :: r => Qmax (arrival p) (lastArrival r)
  end.

Definition ticksLeft (r : Q) : nat := Z.to_nat (Qceiling r).

Definition srtfMeasure (ps : list Process) (st : SrtfState) : nat :=
  list_sum (map ticksLeft (s_rem st)) + ticksLeft (lastArrival ps - s_time st).

(** The loop invariant of [srtf]. *)
Record SrtfInv (ps : list Process) (t0 : Q) (st : SrtfState) : Prop := mkSrtfInv {
  si_chain : chain t0 (s_blocks st) (s_blockStart st);
  si_open : match s_lastPID st with
            | None => s_blocks st = [] /\ s_blockStart st = s_time st /\ s_done st = []
            | Some lp => s_blockStart st < s_time st /\
                         (lp = IDLE \/ findPid ps lp <> None)
            end;
  si_rem_len : length (s_rem st) = length ps;
  si_done : goodSet (length ps) (s_done st);
  si_done_zero : forall i, In i (s_done st) -> nth i (s_rem st) 0 == 0;
  si_zero_done : forall i, (i < length ps)%nat -> nth i (s_rem st) 0 == 0 ->
                           In i (s_done st);
  si_busy : forall id, id <> IDLE ->
      busy id (s_blocks st)
      + openRun id (s_lastPID st) (s_time st - s_blockStart st)
      + remaining id ps (s_rem st) == demand id ps;
  si_started : forall i p, nth_error ps i = Some p ->
                 nth i (s_started st) false = true ->
                 mapGet (pid p) (s_res st) <> None;
  si_whole : wholeBursts ps ->
             forall i, (i < length ps)%nat ->
               exists k : nat, nth i (s_rem st) 0 == inject_Z (Z.of_nat k)
}.

(** ** Arrival order *)

(** The input is in non-decreasing order of arrival (as [readProcesses]
    returns it). *)
Definition arrivalSorted (ps : list Process) : Prop :=
  forall i j pi pj, (i < j)%nat -> nth_error ps i = Some pi ->
                    nth_error ps j = Some pj -> arrival pi <= arrival pj.

(** [processes[j].arrival] *)
Definition arrivalAt (ps : list Process) (j : nat) : Q :=
  match nth_error ps j with Some p => arrival p | None => 0 end.

(** ** Sample inputs *)

(** The three processes of the FCFS and SJF scenarios. *)
Definition sampleSet : list Process := [P "P1" 0 7; P "P2" 2 4; P "P3" 4 1].

(** A process named like the idle marker, and a later one after a gap. *)
Definition idleNamed : Process := mkProcess "IDLE" 0 1 0 "c".
Definition idleGap : list Process := [idleNamed; P "X" 5 1].

(** The scenario of section 8 for Round Robin. *)
Definition rrScenario (pr1 pr2 : Q) (c1 c2 : string) : list Process :=
  [mkProcess "P1" 0 5 pr1 c1; mkProcess "P2" 1 3 pr2 c2].


(** One process with a burst of half a time unit. *)
Definition halfBurst : list Process := [mkProcess "P1" 0 (1 # 2) 0 ""].

(** Two processes that tie on remaining burst at time 1: B arrived first,
    A has the smaller pid.  The list is in [readProcesses] order. *)
Definition srtfTie : list Process := [P "B" 0 3; P "A" 1 2].

(** The states of the run on [halfBurst] after its first tick: the remaining
    burst is negative, nothing is done. *)
Definition overshot (st : SrtfState) : Prop :=
  s_done st = [] /\
  (exists x, s_rem st = [x] /\ x < 0) /\
  (s_lastPID st = Some IDLE \/ s_lastPID st = Some "P1").

(** What [readProcesses] makes of one row that passes its checks (the
    duplicate check apart). *)
Definition rowProcess (tr : Row) : option Process :=
  if String.eqb (row_pid tr) "" then None
  else match finiteNonNeg (row_at tr), finitePos (row_bt tr), finite (row_pr tr) with
       | Some at_, Some bt, Some pr =>
           Some (mkProcess (row_pid tr) at_ bt pr (row_color tr))
       | _, _, _ => None
       end.

(** Two processes with the same pid, and a valid list given latest arrival
    first. *)
Definition duplicatePids : list Process := [P "A" 0 1; P "A" 0 2].
Definition lateFirst : list Process := [P "P1" 5 1; P "P2" 0 1].
Definition earlyFirst : list Process := [P "P2" 0 1; P "P1" 5 1].

(** Two rows of the process table. *)
Definition sampleRows : list Row :=
  [mkRow "P1" (Fin 5) (Fin 1) (Fin 0) "c"; mkRow "P2" (Fin 0) (Fin 1) (Fin 0) "c"].
Definition duplicateRows : list Row :=
  [mkRow "A" (Fin 0) (Fin 1) (Fin 0) "c"; mkRow "A" (Fin 0) (Fin 2) (Fin 0) "c"].

(** What a block shows on the timeline. *)
Definition span (b : Block) : string * Q * Q := (b_pid b, b_start b, b_end b).

(** ** Order of service *)


(** ** Per-process results *)

(** The entry [r] of the result map describes the service of [p]: the input
    fields are copied, service starts at or after the arrival and takes at
    least the burst, and response, turnaround and waiting time are derived
    from start and completion as the source derives them. *)
Definition served (p : Process) (r : ProcResult) : Prop :=
  r_arrival r = arrival p /\ r_burst r = burst p /\ r_priority r = priority p /\
  arrival p <= r_start r /\ r_start r + burst p <= r_completion r /\
  r_response r == r_start r - arrival p /\
  r_tat r == r_completion r - arrival p /\
  r_wt r == r_tat r - burst p.

(** Service without preemption: one block from [r_start] to
    [r_completion], which is [r_start + burst]. *)
Definition servedAtOnce (p : Process) (bs : list Block) (r : ProcResult) : Prop :=
  served p r /\ r_completion r == r_start r + burst p /\
  r_wt r == r_response r /\
  In (mkBlock (pid p) (r_start r) (r_completion r) (color p)) bs.

(** The keys of the result map are pids of the input, each once. *)
Definition keysOk (ps : list Process) (m : ResMap) : Prop :=
  NoDup (map fst m) /\ forall k, In k (map fst m) -> In k (map pid ps).

(** What the loop of [sjf] and [prioritySchedule] has recorded: an index in
    [used] has arrived, and one that has left [ready] again has its result. *)
Record NPServed (ps : list Process) (st : NPState) : Prop := mkNPServed {
  nps_arrived : forall i p, In i (np_used st) -> nth_error ps i = Some p ->
                            arrival p <= np_time st;
  nps_results : forall i p, nth_error ps i = Some p -> In i (np_used st) ->
                  ~ In i (np_ready st) ->
                  exists r, mapGet (pid p) (np_res st) = Some r /\
                            servedAtOnce p (np_blocks st) r /\
                            r_completion r <= np_time st;
  nps_keys : keysOk ps (np_res st)
}.



(** The keys of the result map of [out] are the pids of [ps], each once,
    and every process has its entry, served in one block that ends by
    [endTime]. *)
Definition allServedAtOnce (ps : list Process) (out : SimulationResult) : Prop :=
  Permutation (map fst (results out)) (map pid ps) /\
  forall p, In p ps ->
    exists r, mapGet (pid p) (results out) = Some r /\
              servedAtOnce p (blocks out) r /\
              exists tend, endTime out = Fin tend /\ r_completion r <= tend.

(** ** What [compute] hands to the renderers *)

(** From some fuel on, [run] ends with [procs] and a simulation result
    satisfying [P] handed to the renderers. *)
Definition rendersWith (run : nat -> Computed) (procs : list Process)
    (P : SimulationResult -> Prop) : Prop :=
  exists fuel0, forall fuel, (fuel0 <= fuel)%nat ->
    exists out, run fuel = Rendered procs out /\ P out.

(** [p] is [p0] with, at most, its empty colour filled in. *)
Definition sameButColor (p0 p : Process) : Prop :=
  pid p = pid p0 /\ arrival p = arrival p0 /\ burst p = burst p0 /\
  priority p = priority p0 /\ (color p0 <> "" -> color p = color p0).

(** ** Results under preemption *)

(** The entry [r] was created when [p] first ran, at time [s]. *)
Definition begun (p : Process) (s : Q) (r : ProcResult) : Prop :=
  r_start r = s /\ r_arrival r = arrival p /\ r_burst r = burst p /\
  r_priority r = priority p /\ arrival p <= s /\ r_response r == s - arrival p.

(** The keys of the result map of [out] are the pids of [ps], each once,
    and every process has its entry and completes by [endTime]. *)
Definition allServed (ps : list Process) (out : SimulationResult) : Prop :=
  Permutation (map fst (results out)) (map pid ps) /\
  forall p, In p ps ->
    exists r, mapGet (pid p) (results out) = Some r /\ served p r /\
              exists tend, endTime out = Fin tend /\ r_completion r <= tend.

(** What the Round Robin loop has recorded: a process in [arrived] has
    arrived; one that never ran has its whole burst left; one that first ran
    at [s] has its entry, and what it has run since fits between [s] and
    now; one that has left the queue for good has its final entry. *)
Record RRServed (ps : list Process) (st : RRState) : Prop := mkRRServed {
  rrs_len : length (rr_firstStart st) = length ps;
  rrs_arrived : forall i p, In i (rr_arrived st) -> nth_error ps i = Some p ->
                            arrival p <= rr_time st;
  rrs_fresh : forall i p, nth_error ps i = Some p ->
                nth i (rr_firstStart st) None = None ->
                nth i (rr_rem st) 0 == burst p;
  rrs_started : forall i p s, nth_error ps i = Some p ->
                  nth i (rr_firstStart st) None = Some s ->
                  exists r, mapGet (pid p) (rr_res st) = Some r /\ begun p s r /\
                            s + (burst p - nth i (rr_rem st) 0) <= rr_time st;
  rrs_done : forall i p, nth_error ps i = Some p -> In i (rr_arrived st) ->
               ~ In i (rr_queue st) ->
               exists r, mapGet (pid p) (rr_res st) = Some r /\ served p r /\
                         r_completion r <= rr_time st;
  rrs_keys : keysOk ps (rr_res st)
}.

(** What the SRTF loop has recorded: a process that never ran has its whole
    burst left; one that has run has its entry, and the ticks it has run fit
    between its start and now; one that is done has its final entry. *)
Record SrtfServed (ps : list Process) (st : SrtfState) : Prop := mkSrtfServed {
  ss_len : length (s_started st) = length ps;
  ss_fresh : forall i p, nth_error ps i = Some p ->
               nth i (s_started st) false = false ->
               nth i (s_rem st) 0 == burst p;
  ss_started : forall i p, nth_error ps i = Some p ->
                 nth i (s_started st) false = true ->
                 exists r, mapGet (pid p) (s_res st) = Some r /\
                           begun p (r_start r) r /\
                           r_start r + (burst p - nth i (s_rem st) 0) <= s_time st;
  ss_done : forall i p, nth_error ps i = Some p -> In i (s_done st) ->
              exists r, mapGet (pid p) (s_res st) = Some r /\ served p r /\
                        r_completion r <= s_time st;
  ss_keys : keysOk ps (s_res st)
}.

(** ** Shape of the SRTF timeline *)

(** Neighbouring blocks carry different pids. *)
Definition adjacentDiffer (bs : list Block) : Prop :=
  forall i b c, nth_error bs i = Some b -> nth_error bs (S i) = Some c ->
                b_pid b <> b_pid c.

(** [x] is a whole number of time units after [t0]. *)
Definition onTick (t0 x : Q) : Prop :=
  exists k : nat, x == t0 + inject_Z (Z.of_nat k).

(* ------------------------------------------------------------------ *)
(** ** The Gantt chart and its ruler

    [renderGantt] and [buildTicks] append elements to the page; the model
    keeps, per element appended, the numbers and strings the code computes
    for it (a width [w] stands for the style [w + 'px']). *)

(** [pts.add(x)] on a [Set] of numbers, kept in insertion order. *)
Definition addNum (pts : list Q) (x : Q) : list Q :=
  if existsb (Qeq_bool x) pts then pts else pts ++ [x].

Record Ticks : Type := mkTicks {
  origin : jsnum;
  ticks : list Q
}.

(** [pts] starts as [new Set([0])] and takes the start and the end of every
    block; [arr] is [Array.from(pts).sort((a,b)=>a-b)]; the result is
    [{origin: Math.min(...arr), ticks: arr}]. *)
Definition ticksFromBlocks (blocks : list Block) : Ticks :=
  let pts := fold_left (fun pts b => addNum (addNum pts (b_start b)) (b_end b))
               blocks [0] in
  let arr := sortBy (fun a b => a - b) pts in
  mkTicks (mathMin arr) arr.

(** One [div.tick]: its width and its label. *)
Record TickDiv : Type := mkTickDiv {
  td_width : Q;
  td_label : Q
}.

(** The passes [i >= 1] of the loop of [buildTicks]; [prev] is
    [ticks.ticks[i-1]]. *)
Fixpoint tickDivs (scale prev : Q) (l : list Q) : list TickDiv :=
  match l with
  | [] => []
  | t :: r => mkTickDiv ((t - prev) * scale) t :: tickDivs scale t r
  end.

(** Nothing for no ticks; else one element per tick, the first of width 0,
    and an end cap of width 0 labelled with the last tick. *)
Definition buildTicks (tk : Ticks) (scale : Q) : list TickDiv :=
  match ticks tk with
  | [] => []
  | t :: r => mkTickDiv 0 t :: tickDivs scale t r ++ [mkTickDiv 0 (last r t)]
  end.

(** One [div.block]: whether it has class [idle], its width, background and
    text (the tooltip [title], a formatted string, is left out). *)
Record BlockDiv : Type := mkBlockDiv {
  bd_idle : bool;
  bd_width : Q;
  bd_background : string;
  bd_text : string
}.

(** The children of [#gantt] and, from [buildTicks], those of [#ticks]. *)
Definition renderGantt (blocks : list Block) (scale : Q)
  : list BlockDiv * list TickDiv :=
  (map (fun b =>
          let idle := String.eqb (b_pid b) IDLE in
          mkBlockDiv idle ((b_end b - b_start b) * scale)
            (if idle then "" else b_color b)
            (if idle then "Idle" else b_pid b))
       blocks,
   buildTicks (ticksFromBlocks blocks) scale).

(** Sum of a list of widths. *)
Definition total (l : list Q) : Q := fold_right Qplus 0 l.

(** [y] is, as a number, an element of [l]. *)
Definition hasNum (l : list Q) (y : Q) : Prop := exists x, In x l /\ x == y.

(** Number of elements of [l] equal, as numbers, to [y]. *)
Definition countNum (y : Q) (l : list Q) : nat := length (filter (Qeq_bool y) l).

(* ------------------------------------------------------------------ *)
(** ** Averages

    [renderAverages] writes four numbers to the page, each through
    [toFixed]; the model keeps the numbers before they are formatted.  The
    function itself is modelled with the double arithmetic, below. *)

Record Averages : Type := mkAverages {
  avgCT : jsnum;
  avgTAT : jsnum;
  avgWT : jsnum;
  throughput : jsnum
}.

(** Sum of [f] over the entries of [m] under the keys [keys]. *)
Fixpoint sumOf (f : ProcResult -> Q) (m : ResMap) (keys : list string) : Q :=
  match keys with
  | [] => 0
  | k :: rest => match mapGet k m with Some r => f r | None => 0 end
                 + sumOf f m rest
  end.

(* ------------------------------------------------------------------ *)
(** ** The results table *)

(** One row of the results table: the pid, the arrival, burst and priority of
    the process found under that pid, and the entry of the result map whose
    [start], [completion], [tat], [wt] and [response] fill the other five
    cells; without an entry those cells show a dash. *)
Record TableRow : Type := mkTableRow {
  tr_pid : string;
  tr_arrival : Q;
  tr_burst : Q;
  tr_priority : Q;
  tr_entry : option ProcResult
}.

(** The loop [for(const pid of order)]; [procs.find] coming back empty
    makes [p.arrival] throw. *)
Fixpoint tableRows (procs : list Process) (resMap : ResMap) (order : list string)
  : Outcome (list TableRow) :=
  match order with
  | [] => Returned []
  | id :: rest =>
      match findPid procs id with
      | None => Thrown typeError
      | Some p =>
          match tableRows procs resMap rest with
          | Returned rows =>
              Returned (mkTableRow id (arrival p) (burst p) (priority p)
                          (mapGet id resMap) :: rows)
          | other => other
          end
      end
  end.

(** [order] is [procs.map(p=>p.pid)]. *)
Definition renderResultsTable (procs : list Process) (resMap : ResMap)
  : Outcome (list TableRow) :=
  tableRows procs resMap (map pid procs).

(** The row of the table that shows [p]: its own four fields and the entry
    that [resMap.get(p.pid)] returns. *)
Definition rowOf (resMap : ResMap) (p : Process) (row : TableRow) : Prop :=
  tr_pid row = pid p /\ tr_arrival row = arrival p /\ tr_burst row = burst p /\
  tr_priority row = priority p /\ tr_entry row = mapGet (pid p) resMap.

(* ------------------------------------------------------------------ *)
(** ** Generated colours *)


(* ------------------------------------------------------------------ *)
(** ** Double arithmetic

    The numbers of the source are IEEE 754 binary64 values: [a + b] and
    [a - b] are the exact sum and difference rounded to the nearest double,
    ties to the even mantissa.  [round64] is that rounding on rationals: 53
    bits of mantissa, exponent of the last bit at least -1074 (subnormals).
    Results from 2^1024 on, which the source turns into [Infinity], are left
    as they are: the model is the source's arithmetic below that bound.

    Comparisons, [Math.min] and [Math.max] return one of their arguments and
    need no rounding.  The definitions whose names end in [64] are the
    functions of the source with every operation of arithmetic rounded; the
    definitions above are the same functions over exact arithmetic. *)

(** [2^e], for any integer [e]. *)
Definition pow2 (e : Z) : Q := Qpower 2 e.

(** The integer [e] with [2^e <= |x| < 2^(e+1)], for [x <> 0] in lowest
    terms. *)
Definition ilog2 (x : Q) : Z :=
  let n := Z.log2 (Z.abs (Qnum x)) in
  let d := Z.log2 (Zpos (Qden x)) in
  if Qle_bool (pow2 (n - d)) (Qabs x) then (n - d)%Z else (n - d - 1)%Z.

(** The nearest integer, a tie going to the even one. *)
Definition roundHalfEven (x : Q) : Z :=
  let f := Qfloor x in
  match Qcompare (x - inject_Z f) (1 # 2) with
  | Lt => f
  | Gt => (f + 1)%Z
  | Eq => if Z.even f then f else (f + 1)%Z
  end.

(** The double nearest to [x]. *)
Definition round64 (x : Q) : Q :=
  let y := Qred x in
  if Qeq_bool y 0 then 0
  else
    let e := Z.max (ilog2 y - 52) (-1074) in
    Qred (inject_Z (roundHalfEven (y / pow2 e)) * pow2 e).

(** [a + b] and [a - b] on doubles. *)
Definition fadd (x y : Q) : Q := round64 (x + y).
Definition fsub (x y : Q) : Q := round64 (x - y).

(** The double a decimal literal [n/d] of the input denotes. *)
Definition literal (n : Z) (d : positive) : Q := round64 (n # d).

(** *** FCFS *)

Definition fcfsBody64 (st : FcfsState) (p : Process) : FcfsState :=
  let blocks1 := if Qltb (f_time st) (arrival p)
                 then f_blocks st ++ [idleBlock (f_time st) (arrival p)]
                 else f_blocks st in
  let time1 := if Qltb (f_time st) (arrival p) then arrival p else f_time st in
  let start := time1 in
  let end_ := fadd time1 (burst p) in
  mkFcfs (blocks1 ++ [mkBlock (pid p) start end_ (color p)])
         (mapSet (pid p)
            (mkResult start end_ (fsub end_ (arrival p)) (fsub start (arrival p))
               (fsub start (arrival p)) (arrival p) (burst p) (priority p))
            (f_res st))
         end_.

Definition fcfs64 (processes : list Process) : SimulationResult :=
  match mathMin (map arrival processes) with
  | Fin t0 =>
      let st := fold_left fcfsBody64 processes (mkFcfs [] [] t0) in
      mkSim (f_blocks st) (f_res st) (Fin (f_time st))
  | other => mkSim [] [] other
  end.

(** *** Round Robin *)

Definition rrBody64 (processes : list Process) (q : jsnum) (st : RRState)
  : Step RRState :=
  match rr_queue st with
  | [] =>
      match findNotArrived (rr_arrived st) 0 processes with
      | None => Break st
      | Some nextIdx =>
          match nth_error processes nextIdx with
          | None => Crash typeError
          | Some pn =>
              let nextTime := arrival pn in
              let blocks1 := rr_blocks st ++ [idleBlock (rr_time st) nextTime] in
              let '(queue1, arrived1) :=
                pushArrived nextTime 0 processes (rr_queue st) (rr_arrived st) in
              Next (mkRR blocks1 (rr_res st) (rr_rem st) (rr_firstStart st)
                      queue1 arrived1 nextTime)
          end
      end
  | i :: queue0 =>
      match nth_error processes i with
      | None => Crash typeError
      | Some p =>
          let time := rr_time st in
          let first := match nth i (rr_firstStart st) None with
                       | None => true | Some _ => false end in
          let firstStart1 := if first then setNth i (Some time) (rr_firstStart st)
                             else rr_firstStart st in
          let res1 := if first
                      then mapSet (pid p)
                             (mkResult time 0 0 0 (fsub time (arrival p))
                                (arrival p) (burst p) (priority p))
                             (rr_res st)
                      else rr_res st in
          let run := minQuantum q (nth i (rr_rem st) 0) in
          let start := time in
          let end_ := fadd time run in
          let blocks1 := rr_blocks st ++ [mkBlock (pid p) start end_ (color p)] in
          let time1 := end_ in
          let rem1 := setNth i (fsub (nth i (rr_rem st) 0) run) (rr_rem st) in
          let '(queue1, arrived1) := pushArrived time1 0 processes queue0 (rr_arrived st) in
          if Qltb 0 (nth i rem1 0)
          then Next (mkRR blocks1 res1 rem1 firstStart1 (queue1 ++ [i]) arrived1 time1)
          else
            let completion := time1 in
            match mapGet (pid p) res1 with
            | None => Crash typeError
            | Some r =>
                let tat := fsub completion (arrival p) in
                let r' := mkResult (r_start r) completion tat (fsub tat (burst p))
                            (r_response r) (r_arrival r) (r_burst r) (r_priority r) in
                Next (mkRR blocks1 (mapSet (pid p) r' res1) rem1 firstStart1
                        queue1 arrived1 time1)
            end
      end
  end.

Definition roundRobin64 (fuel : nat) (processes : list Process) (q : jsnum)
  : Outcome SimulationResult :=
  if negb (gt0 q) then Thrown quantumError
  else
    match mathMin (map arrival processes) with
    | Fin t0 =>
        match while (rrCond (length processes)) (rrBody64 processes q) fuel
                (rrInit processes t0) with
        | Returned st => Returned (mkSim (rr_blocks st) (rr_res st) (Fin (rr_time st)))
        | Thrown m => Thrown m
        | OutOfFuel => OutOfFuel
        end
    | other => Returned (mkSim [] [] other)
    end.

Section Collation64.
Variable localeCompare : string -> string -> Z.

(** *** SJF and Priority *)

Definition byBurst64 (a b : Process) : Q :=
  numOr (numOr (fsub (burst a) (burst b)) (fsub (arrival a) (arrival b)))
        (inject_Z (localeCompare (pid a) (pid b))).

Definition byPriority64 (a b : Process) : Q :=
  numOr (numOr (fsub (priority a) (priority b)) (fsub (arrival a) (arrival b)))
        (inject_Z (localeCompare (pid a) (pid b))).

Definition npBody64 (key : Process -> Process -> Q) (processes : list Process)
    (st : NPState) : Step NPState :=
  let time := np_time st in
  let '(ready1, used1) := pushArrived time 0 processes (np_ready st) (np_used st) in
  match ready1 with
  | [] =>
      match mathMin (unusedArrivals used1 0 processes) with
      | Fin next =>
          Next (mkNP (np_blocks st ++ [idleBlock time next]) (np_res st)
                  (np_completed st) next ready1 used1)
      | _ => Break (mkNP (np_blocks st) (np_res st) (np_completed st) time ready1 used1)
      end
  | _ :: _ =>
      match sortBy (onIndex processes key) ready1 with
      | [] => Crash typeError
      | idx :: ready2 =>
          match nth_error processes idx with
          | None => Crash typeError
          | Some p =>
              let start := time in
              let end_ := fadd time (burst p) in
              Next (mkNP (np_blocks st ++ [mkBlock (pid p) start end_ (color p)])
                      (mapSet (pid p)
                         (mkResult start end_ (fsub end_ (arrival p))
                            (fsub start (arrival p)) (fsub start (arrival p))
                            (arrival p) (burst p) (priority p))
                         (np_res st))
                      (S (np_completed st)) end_ ready2 used1)
          end
      end
  end.

Definition nonPreemptive64 (key : Process -> Process -> Q) (fuel : nat)
    (processes : list Process) : Outcome SimulationResult :=
  match mathMin (map arrival processes) with
  | Fin t0 =>
      match while (npCond (length processes)) (npBody64 key processes) fuel
              (mkNP [] [] 0 t0 [] []) with
      | Returned st => Returned (mkSim (np_blocks st) (np_res st) (Fin (np_time st)))
      | Thrown m => Thrown m
      | OutOfFuel => OutOfFuel
      end
  | other => Returned (mkSim [] [] other)
  end.

Definition sjf64 : nat -> list Process -> Outcome SimulationResult :=
  nonPreemptive64 byBurst64.

Definition prioritySchedule64 : nat -> list Process -> Outcome SimulationResult :=
  nonPreemptive64 byPriority64.

(** *** SRTF *)

Definition arrivesBefore64 (processes : list Process) (p : Process)
    (best : option nat) : bool :=
  match best with
  | Some b =>
      match nth_error processes b with
      | Some pb => Qltb (numOr (fsub (arrival p) (arrival pb)) 0) 0
      | None => false
      end
  | None => false
  end.

Fixpoint pick64 (processes : list Process) (rem : list Q) (done : IdxSet)
    (time : Q) (i : nat) (ps : list Process) (best : option nat)
    (bestRem : jsnum) : option nat * jsnum :=
  match ps with
  | [] => (best, bestRem)
  | p :: r =>
      if has done i then pick64 processes rem done time (S i) r best bestRem
      else if Qleb (arrival p) time && Qltb 0 (nth i rem 0) then
        if ltNum (nth i rem 0) bestRem
           || (eqNum (nth i rem 0) bestRem && arrivesBefore64 processes p best)
           || (eqNum (nth i rem 0) bestRem && pidBefore localeCompare processes p best)
        then pick64 processes rem done time (S i) r (Some i) (Fin (nth i rem 0))
        else pick64 processes rem done time (S i) r best bestRem
      else pick64 processes rem done time (S i) r best bestRem
  end.

Definition srtfBody64 (processes : list Process) (st : SrtfState) : Step SrtfState :=
  let time := s_time st in
  match fst (pick64 processes (s_rem st) (s_done st) time 0 processes None PInf) with
  | None =>
      match s_lastPID st with
      | Some lp =>
          if String.eqb lp IDLE
          then Next (mkSrtf (s_blocks st) (s_res st) (s_rem st) (s_started st)
                       (fadd time 1) (s_lastPID st) (s_blockStart st) (s_done st))
          else
            match closeBlock processes lp (s_blockStart st) time with
            | None => Crash typeError
            | Some b =>
                Next (mkSrtf (s_blocks st ++ [b]) (s_res st) (s_rem st) (s_started st)
                        (fadd time 1) (Some IDLE) time (s_done st))
            end
      | None =>
          Next (mkSrtf (s_blocks st) (s_res st) (s_rem st) (s_started st)
                  (fadd time 1) (Some IDLE) time (s_done st))
      end
  | Some best =>
      match nth_error processes best with
      | None => Crash typeError
      | Some p =>
          let fresh := negb (nth best (s_started st) false) in
          let started1 := if fresh then setNth best true (s_started st)
                          else s_started st in
          let res1 := if fresh
                      then mapSet (pid p)
                             (mkResult time 0 0 0 (fsub time (arrival p))
                                (arrival p) (burst p) (priority p))
                             (s_res st)
                      else s_res st in
          let changed := match s_lastPID st with
                         | Some lp => negb (String.eqb lp (pid p))
                         | None => true
                         end in
          let pushed :=
            if changed then
              match s_lastPID st with
              | Some lp =>
                  match closeBlock processes lp (s_blockStart st) time with
                  | Some b => Some (s_blocks st ++ [b])
                  | None => None
                  end
              | None => Some (s_blocks st)
              end
            else Some (s_blocks st) in
          match pushed with
          | None => Crash typeError
          | Some blocks1 =>
              let lastPID1 := if changed then Some (pid p) else s_lastPID st in
              let blockStart1 := if changed then time else s_blockStart st in
              let rem1 := setNth best (fsub (nth best (s_rem st) 0) 1) (s_rem st) in
              let time1 := fadd time 1 in
              if Qeq_bool (nth best rem1 0) 0 then
                let completion := time1 in
                match mapGet (pid p) res1 with
                | None => Crash typeError
                | Some r =>
                    let tat := fsub completion (arrival p) in
                    let r' := mkResult (r_start r) completion tat (fsub tat (burst p))
                                (r_response r) (r_arrival r) (r_burst r)
                                (r_priority r) in
                    Next (mkSrtf blocks1 (mapSet (pid p) r' res1) rem1 started1
                            time1 lastPID1 blockStart1 (add (s_done st) best))
                end
              else
                Next (mkSrtf blocks1 res1 rem1 started1 time1 lastPID1 blockStart1
                        (s_done st))
          end
      end
  end.

Definition srtf64 (fuel : nat) (processes : list Process) : Outcome SimulationResult :=
  match mathMin (map arrival processes) with
  | Fin t0 =>
      match while (srtfCond (length processes)) (srtfBody64 processes) fuel
              (srtfInit processes t0) with
      | Returned st => Returned (srtfFinish processes st)
      | Thrown m => Thrown m
      | OutOfFuel => OutOfFuel
      end
  | other => Returned (mkSim [] [] other)
  end.

End Collation64.

(** *** [compute] and the renderers *)

(** [a * b] and [a / b] on doubles. *)
Definition fmul (x y : Q) : Q := round64 (x * y).
Definition fdiv (x y : Q) : Q := round64 (x / y).

Section Glue64.
Variable localeCompare : string -> string -> Z.
Variable genColor : nat -> nat -> string.

(** [compute()], calling the functions as they run on doubles. *)
Definition compute64 (fuel : nat) (rows : list Row) (algo : string) (q : jsnum)
  : Computed :=
  match readProcesses localeCompare rows with
  | Thrown m => ErrorShown m
  | OutOfFuel => Hangs
  | Returned procs0 =>
      if (length procs0 =? 0)%nat then ErrorShown "Add at least one process."
      else
        let procs := fillColors genColor (length procs0) 0 procs0 in
        if String.eqb algo "FCFS" then rendered procs (Returned (fcfs64 procs))
        else if String.eqb algo "SJF" then rendered procs (sjf64 localeCompare fuel procs)
        else if String.eqb algo "SRTF"
             then rendered procs (srtf64 localeCompare fuel procs)
        else if String.eqb algo "PR"
             then rendered procs (prioritySchedule64 localeCompare fuel procs)
        else if String.eqb algo "RR" then rendered procs (roundRobin64 fuel procs q)
        else Uncaught typeError
  end.
End Glue64.

(** [ticksFromBlocks], its comparator [a - b] rounded. *)
Definition ticksFromBlocks64 (blocks : list Block) : Ticks :=
  let pts := fold_left (fun pts b => addNum (addNum pts (b_start b)) (b_end b))
               blocks [0] in
  let arr := sortBy (fun a b => fsub a b) pts in
  mkTicks (mathMin arr) arr.

(** The passes [i >= 1] of the loop of [buildTicks]:
    [w = (ticks.ticks[i] - ticks.ticks[i-1]) * scale]. *)
Fixpoint tickDivs64 (scale prev : Q) (l : list Q) : list TickDiv :=
  match l with
  | [] => []
  | t :: r => mkTickDiv (fmul (fsub t prev) scale) t :: tickDivs64 scale t r
  end.

Definition buildTicks64 (tk : Ticks) (scale : Q) : list TickDiv :=
  match ticks tk with
  | [] => []
  | t :: r => mkTickDiv 0 t :: tickDivs64 scale t r ++ [mkTickDiv 0 (last r t)]
  end.

(** [renderGantt]: a block is [(b.end - b.start) * scale] wide. *)
Definition renderGantt64 (blocks : list Block) (scale : Q)
  : list BlockDiv * list TickDiv :=
  (map (fun b =>
          let idle := String.eqb (b_pid b) IDLE in
          mkBlockDiv idle (fmul (fsub (b_end b) (b_start b)) scale)
            (if idle then "" else b_color b)
            (if idle then "Idle" else b_pid b))
       blocks,
   buildTicks64 (ticksFromBlocks64 blocks) scale).

(** [a - b] on doubles and the infinities. *)
Definition jsSub64 (a b : jsnum) : jsnum :=
  match a, b with
  | Fin x, Fin y => Fin (fsub x y)
  | NaN, _ | _, NaN => NaN
  | PInf, PInf | NInf, NInf => NaN
  | PInf, _ => PInf
  | NInf, _ => NInf
  | Fin _, PInf => NInf
  | Fin _, NInf => PInf
  end.

(** [s / n] for a finite sum [s] and the count [n = resMap.size]. *)
Definition divCount64 (s : Q) (n : nat) : jsnum :=
  if (n =? 0)%nat
  then (if Qeq_bool s 0 then NaN else if Qltb 0 s then PInf else NInf)
  else Fin (fdiv s (inject_Z (Z.of_nat n))).

(** [n / t] for the count [n] and a [t] that passed [t > 0]. *)
Definition countPer64 (n : nat) (t : jsnum) : jsnum :=
  match t with
  | Fin x => Fin (fdiv (inject_Z (Z.of_nat n)) x)
  | PInf => Fin 0
  | NInf | NaN => NaN
  end.

(** The loop [for(const pid of resMap.keys())] of [renderAverages], with
    [r = resMap.get(pid)]; [sums] is [(sumCT, sumTAT, sumWT)]. *)
Fixpoint sumResults64 (keys : list string) (resMap : ResMap) (sums : Q * Q * Q)
  : option (Q * Q * Q) :=
  match keys with
  | [] => Some sums
  | k :: rest =>
      match mapGet k resMap with
      | Some r =>
          let '(sumCT, sumTAT, sumWT) := sums in
          sumResults64 rest resMap
            (fadd sumCT (r_completion r), fadd sumTAT (r_tat r), fadd sumWT (r_wt r))
      | None => None
      end
  end.

(** [n] is [resMap.size]; the averages are [sum/n]; [throughput] is
    [totalTime>0 ? n/totalTime : n] with
    [totalTime = endTime - Math.min(...procs.map(p=>p.arrival))]. *)
Definition renderAverages64 (resMap : ResMap) (endTime : jsnum)
    (procs : list Process) : Outcome Averages :=
  let minArrival := mathMin (map arrival procs) in
  match sumResults64 (map fst resMap) resMap (0, 0, 0) with
  | None => Thrown typeError
  | Some (sumCT, sumTAT, sumWT) =>
      let n := length resMap in
      let totalTime := jsSub64 endTime minArrival in
      Returned (mkAverages (divCount64 sumCT n) (divCount64 sumTAT n)
                  (divCount64 sumWT n)
                  (if gt0 totalTime then countPer64 n totalTime
                   else Fin (inject_Z (Z.of_nat n))))
  end.

(** *** Input on which double arithmetic is exact *)

(** [x] is a double: rounding leaves it as it is. *)
Definition isDouble (x : Q) : Prop := round64 x = x.

(** Every double is a whole multiple of [2^-1074]. *)
Definition onGrid (x : Q) : Prop := exists m : Z, x == inject_Z m * pow2 (-1074).

(** A whole number, written [k/1]. *)
Definition whole (x : Q) : Prop := Qden x = 1%positive.

(** [2^53]: a double holds every whole number up to it. *)
Definition two53 : Q := inject_Z (2 ^ 53).

(** The latest arrival plus all the bursts: no clock of a run passes it. *)
Definition horizon (ps : list Process) : Q := lastArrival ps + total (map burst ps).

(** Arrivals and bursts are whole numbers with a horizon of at most [2^53];
    the priorities are any doubles. *)
Definition exactSet (ps : list Process) : Prop :=
  Forall (fun p => whole (arrival p) /\ whole (burst p) /\ isDouble (priority p)) ps /\
  horizon ps <= two53.

(** A whole-number quantum, or [Infinity]. *)
Definition exactQuantum (q : jsnum) : Prop :=
  match q with Fin x => whole x | _ => True end.

(** *** Invariants under which the rounded and the exact run agree *)

(** A whole number from [0] to [2^53]: a time the clock can show. *)
Definition wholeTime (x : Q) : Prop := whole x /\ 0 <= x /\ x <= two53.

(** A whole number between [0] and [tend]. *)
Definition inRange (tend x : Q) : Prop := whole x /\ 0 <= x /\ x <= tend.

(** [x] is, as a number, a whole number. *)
Definition integral (x : Q) : Prop := exists z : Z, x == inject_Z z.

(** The end of the timeline and every completion time are whole numbers,
    and [endTime] times the number of entries is at most [2^53]. *)
Definition wholeResult (out : SimulationResult) : Prop :=
  (exists tend, endTime out = Fin tend /\ integral tend /\
                inject_Z (Z.of_nat (length (results out))) * tend <= two53) /\
  forall k r, mapGet k (results out) = Some r -> integral (r_completion r).

(** Every entry under [keys] has whole, non-negative sums to offer. *)
Definition summable (m : ResMap) (keys : list string) : Prop :=
  forall k, In k keys ->
  exists r, mapGet k m = Some r /\
            integral (r_completion r) /\ integral (r_tat r) /\ integral (r_wt r) /\
            0 <= r_wt r /\ r_wt r <= r_tat r /\ r_tat r <= r_completion r.

(** A process the functions may be given, with whole-number times. *)
Definition wholeTimes (p : Process) : Prop :=
  whole (arrival p) /\ whole (burst p) /\ 0 <= arrival p /\ 0 < burst p.

(** [processes[i].burst], and [0] out of range. *)
Definition burstAt (ps : list Process) (i : nat) : Q :=
  match nth_error ps i with Some p => burst p | None => 0 end.

(** Round Robin: the clock and the remaining bursts are whole numbers, the
    clock plus what remains stays within the horizon, and whatever is queued
    has arrived. *)
Record RRWhole (ps : list Process) (st : RRState) : Prop := mkRRWhole {
  rw_time : whole (rr_time st) /\ 0 <= rr_time st;
  rw_len : length (rr_rem st) = length ps;
  rw_rem : Forall (fun r => whole r /\ 0 <= r) (rr_rem st);
  rw_total : total (rr_rem st) <= total (map burst ps);
  rw_bound : rr_time st + total (rr_rem st) <= horizon ps;
  rw_queue : forall i p, In i (rr_queue st) -> nth_error ps i = Some p ->
                         arrival p <= rr_time st
}.

(** SJF and Priority: the clock is a whole number and stays within the
    latest arrival plus the bursts already dispatched. *)
Record NPWhole (ps : list Process) (st : NPState) : Prop := mkNPWhole {
  nw_time : whole (np_time st) /\ 0 <= np_time st;
  nw_used : goodSet (length ps) (np_used st);
  nw_ghost : exists dispatched,
      Permutation (np_used st) (dispatched ++ np_ready st) /\
      np_time st <= lastArrival ps + total (map (burstAt ps) dispatched)
}.

(** SRTF: as for Round Robin. *)
Record SrtfWhole (ps : list Process) (st : SrtfState) : Prop := mkSrtfWhole {
  sw_time : whole (s_time st) /\ 0 <= s_time st;
  sw_rem : Forall (fun r => whole r /\ 0 <= r) (s_rem st);
  sw_total : total (s_rem st) <= total (map burst ps);
  sw_bound : s_time st + total (s_rem st) <= horizon ps
}.

(** Round Robin never reads past its arrays: queued indices are in range,
    and a process that has started has its entry. *)
Record RRSafe (ps : list Process) (st : RRState) : Prop := mkRRSafe {
  rs_queue : Forall (fun i => (i < length ps)%nat) (rr_queue st);
  rs_started : forall i p, nth_error ps i = Some p ->
                 nth i (rr_firstStart st) None <> None ->
                 mapGet (pid p) (rr_res st) <> None
}.

(** *** Inputs on which double arithmetic rounds *)

(** One process arriving at [2^53], where the doubles are two apart. *)
Definition pastExact : list Process := [P "P1" (2 ^ 53) 1].

(** One process with burst [0.7], to be run with quantum [0.1]. *)
Definition tenths : list Process := [mkProcess "P1" 0 (literal 7 10) 0 "c"].

(** One process arriving at [0.1] with burst [0.2]. *)
Definition fractions : list Process :=
  [mkProcess "P1" (literal 1 10) (literal 2 10) 0 "c"].

(** One process with burst [1], to be run with the quantum [1e-17]. *)
Definition unitBurst : list Process := [P "P1" 0 1].
Definition tinyQuantum : jsnum := Fin (literal 1 (10 ^ 17)).


(** *** Order of the input *)

(** What ECMA-262 requires of [localeCompare]: a consistent comparison.
    It may return [0] for two different strings (canonically equivalent
    ones). *)
Record ConsistentCollation (localeCompare : string -> string -> Z) : Prop :=
  mkCollation {
  lc_antisym : forall a b, Z.sgn (localeCompare b a) = (- Z.sgn (localeCompare a b))%Z;
  lc_trans : forall a b c, (localeCompare a b <= 0)%Z -> (localeCompare b c <= 0)%Z ->
                           (localeCompare a c <= 0)%Z
}.





(** The sample lists for Round Robin and SRTF in two orders. *)
Definition tieFirst : list Process := [P "A" 0 1; P "B" 0 1].
Definition tieSecond : list Process := [P "B" 0 1; P "A" 0 1].

(** A consistent collation that tells no two strings apart, and two rows
    with the same arrival. *)
Definition allEquivalent (a b : string) : Z := 0.
Definition tiedRows : list Row :=
  [mkRow "A" (Fin 0) (Fin 1) (Fin 0) "c"; mkRow "B" (Fin 0) (Fin 1) (Fin 0) "c"].
Definition tiedRowsSwapped : list Row :=
  [mkRow "B" (Fin 0) (Fin 1) (Fin 0) "c"; mkRow "A" (Fin 0) (Fin 1) (Fin 0) "c"].

Unset Implicit Arguments.

(* ================================================================== *)
(** * Properties *)

(** ** Loops *)

Section WhileFacts.
Variable S : Type.
Variable cond : S -> bool.
Variable body : S -> Step S.

Lemma while_post (I P : S -> Prop) :
  (forall s, I s -> cond s = false -> P s) ->
  (forall s, I s -> cond s = true ->
     match body s with
     | Next s' => I s'
     | Break s' => P s'
     | Crash _ => True
     end) ->
  forall fuel s r, I s -> while cond body fuel s = Returned r -> P r.
Proof.
  intros Hexit Hstep. induction fuel as [|k IH]; intros s r Hs; simpl.
  - destruct (cond s) eqn:Hc; [discriminate|].
    intros [= <-]. auto.
  - destruct (cond s) eqn:Hc.
    + specialize (Hstep s Hs Hc). destruct (body s) as [s'|s'|m].
      * apply IH; assumption.
      * intros [= <-]. assumption.
      * discriminate.
    + intros [= <-]. auto.
Qed.

Lemma while_total (I : S -> Prop) (m : S -> nat) :
  (forall s, I s -> cond s = true ->
     match body s with
     | Next s' => I s' /\ (m s' < m s)%nat
     | Break _ => True
     | Crash _ => False
     end) ->
  forall fuel s, I s -> (m s < fuel)%nat -> exists r, while cond body fuel s = Returned r.
Proof.
  intros Hstep. induction fuel as [|k IH]; intros s Hs Hm; [lia|]. simpl.
  destruct (cond s) eqn:Hc; [|eauto].
  specialize (Hstep s Hs Hc). destruct (body s) as [s'|s'|msg].
  - destruct Hstep as [Hs' Hlt]. apply IH; [assumption|lia].
  - eauto.
  - contradiction.
Qed.

Lemma while_never (I : S -> Prop) :
  (forall s, I s -> cond s = true /\ exists s', body s = Next s' /\ I s') ->
  forall fuel s, I s -> while cond body fuel s = OutOfFuel.
Proof.
  intros Hstep. induction fuel as [|k IH]; intros s Hs; simpl;
    destruct (Hstep s Hs) as [Hc [s' [Hb Hs']]]; rewrite Hc; [reflexivity|].
  rewrite Hb. apply IH. assumption.
Qed.

Lemma while_more_fuel (fuel fuel' : nat) (s r : S) :
  while cond body fuel s = Returned r -> (fuel <= fuel')%nat ->
  while cond body fuel' s = Returned r.
Proof.
  revert fuel' s. induction fuel as [|k IH]; intros fuel' s; simpl.
  - destruct (cond s) eqn:Hc; [discriminate|]. intros H _.
    destruct fuel'; simpl; rewrite Hc; assumption.
  - destruct (cond s) eqn:Hc.
    + intros H Hle. destruct fuel' as [|k']; [lia|]. simpl. rewrite Hc.
      destruct (body s); try assumption. apply IH; [assumption|lia].
    + intros H _. destruct fuel'; simpl; rewrite Hc; assumption.
Qed.

Lemma reaches_inv (I : S -> Prop) (s0 : S) :
  I s0 ->
  (forall s, I s -> cond s = true ->
     match body s with Next s' => I s' | _ => True end) ->
  forall s, reaches cond body s0 s -> I s.
Proof.
  intros H0 Hstep s Hr. induction Hr as [|s s' Hr IH Hc Hb]; [assumption|].
  specialize (Hstep s IH Hc). rewrite Hb in Hstep. assumption.
Qed.
End WhileFacts.

(** ** Numbers *)

Lemma Qltb_lt (x y : Q) : Qltb x y = true <-> x < y.
Proof.
  unfold Qltb. rewrite negb_true_iff. split; intro H.
  - apply Qnot_le_lt. intro Hle. apply Qle_bool_iff in Hle. congruence.
  - destruct (Qle_bool y x) eqn:E; [|reflexivity].
    apply Qle_bool_iff in E. apply Qle_not_lt in E. contradiction.
Qed.

Lemma Qltb_ge (x y : Q) : Qltb x y = false <-> y <= x.
Proof.
  unfold Qltb. rewrite negb_false_iff. apply Qle_bool_iff.
Qed.

Lemma Qleb_le (x y : Q) : Qleb x y = true <-> x <= y.
Proof. apply Qle_bool_iff. Qed.

Lemma Qleb_gt (x y : Q) : Qleb x y = false <-> y < x.
Proof.
  unfold Qleb. split; intro H.
  - apply Qnot_le_lt. intro Hle. apply Qle_bool_iff in Hle. congruence.
  - destruct (Qle_bool x y) eqn:E; [|reflexivity].
    apply Qle_bool_iff in E. apply Qle_not_lt in E. contradiction.
Qed.

Lemma Qeqb_eq (x y : Q) : Qeq_bool x y = true <-> x == y.
Proof. apply Qeq_bool_iff. Qed.

Lemma Qeqb_neq (x y : Q) : Qeq_bool x y = false <-> ~ x == y.
Proof.
  split; intro H.
  - intro E. apply Qeq_bool_iff in E. congruence.
  - destruct (Qeq_bool x y) eqn:E; [|reflexivity].
    apply Qeq_bool_iff in E. contradiction.
Qed.

(** Turns the boolean tests in the context into propositions. *)
Ltac qprop :=
  repeat match goal with
  | H : Qltb _ _ = true |- _ => apply Qltb_lt in H
  | H : Qltb _ _ = false |- _ => apply Qltb_ge in H
  | H : Qleb _ _ = true |- _ => apply Qleb_le in H
  | H : Qleb _ _ = false |- _ => apply Qleb_gt in H
  | H : Qeq_bool _ _ = true |- _ => apply Qeqb_eq in H
  | H : Qeq_bool _ _ = false |- _ => apply Qeqb_neq in H
  end.

Lemma Qmin_cases (x y : Q) : (Qmin x y = x /\ x <= y) \/ (Qmin x y = y /\ y <= x).
Proof.
  unfold Qmin, GenericMinMax.gmin. destruct (x ?= y) eqn:E.
  - left. split; [reflexivity|]. apply Qeq_alt in E. rewrite E. apply Qle_refl.
  - left. split; [reflexivity|]. apply Qlt_alt in E. apply Qlt_le_weak. assumption.
  - right. split; [reflexivity|]. apply Qgt_alt in E. apply Qlt_le_weak. assumption.
Qed.

Lemma mathMin_nonempty (xs : list Q) : xs <> [] -> exists m, mathMin xs = Fin m.
Proof.
  destruct xs as [|x r]; [congruence|]. intros _. simpl.
  destruct (mathMin r); eauto.
Qed.

Lemma mathMin_fin (xs : list Q) (m : Q) :
  mathMin xs = Fin m -> In m xs /\ Forall (fun x => m <= x) xs.
Proof.
  revert m. induction xs as [|x r IH]; intros m; simpl; [discriminate|].
  destruct (mathMin r) as [m'| | |] eqn:E.
  - intros [= <-]. destruct (IH m' eq_refl) as [Hin Hall].
    destruct (Qmin_cases x m') as [[-> Hle]|[-> Hle]].
    + split; [now left|]. constructor; [apply Qle_refl|].
      eapply Forall_impl; [|exact Hall]. simpl. intros a Ha.
      eapply Qle_trans; eassumption.
    + split; [now right|]. constructor; assumption.
  - intros [= <-]. destruct r as [|y r'].
    + split; [now left|]. constructor; [apply Qle_refl|constructor].
    + simpl in E. destruct (mathMin r'); discriminate.
  - destruct r as [|y r']; simpl in E; [discriminate|].
    destruct (mathMin r'); discriminate.
  - destruct r as [|y r']; simpl in E; [discriminate|].
    destruct (mathMin r'); discriminate.
Qed.

Lemma mathMin_arrival (ps : list Process) (t0 : Q) :
  mathMin (map arrival ps) = Fin t0 ->
  (exists p, In p ps /\ arrival p = t0) /\ Forall (fun p => t0 <= arrival p) ps.
Proof.
  intros H. apply mathMin_fin in H. destruct H as [Hin Hall]. split.
  - apply in_map_iff in Hin. destruct Hin as [p [Hp Hi]]. eauto.
  - rewrite Forall_map in Hall. exact Hall.
Qed.

(** ** Timelines *)

Lemma chain_snoc (s e e' : Q) (bs : list Block) (id c : string) :
  chain s bs e -> e < e' -> chain s (bs ++ [mkBlock id e e' c]) e'.
Proof.
  revert s. induction bs as [|b r IH]; intros s; simpl.
  - intros -> Hlt. auto.
  - intros [Hs [Hpos Hr]] Hlt. auto.
Qed.

Lemma chain_le (s e : Q) (bs : list Block) : chain s bs e -> s <= e.
Proof.
  revert s. induction bs as [|b r IH]; intros s; simpl.
  - intros ->. apply Qle_refl.
  - intros [<- [Hpos Hr]]. apply IH in Hr. apply Qlt_le_weak in Hpos.
    eapply Qle_trans; eassumption.
Qed.

Lemma chain_positive (s e : Q) (bs : list Block) :
  chain s bs e -> forall b, In b bs -> b_start b < b_end b.
Proof.
  revert s. induction bs as [|b r IH]; intros s; simpl; [tauto|].
  intros [_ [Hpos Hr]] c [<-|Hin]; [assumption|]. eapply IH; eassumption.
Qed.

Lemma chain_filter (s e : Q) (bs : list Block) :
  chain s bs e -> filter (fun b => Qltb (b_start b) (b_end b)) bs = bs.
Proof.
  intros H0. pose proof (chain_positive _ _ _ H0) as H. clear H0.
  induction bs as [|b r IH]; [reflexivity|].
  simpl. assert (Hb : Qltb (b_start b) (b_end b) = true)
    by (apply Qltb_lt, H; now left).
  rewrite Hb. f_equal. apply IH. intros c Hc. apply H. now right.
Qed.

Lemma chain_within (s e : Q) (bs : list Block) :
  chain s bs e -> forall j c, nth_error bs j = Some c -> s <= b_start c /\ b_end c <= e.
Proof.
  revert s. induction bs as [|b r IH]; intros s Hch j c Hj.
  - destruct j; discriminate.
  - simpl in Hch. destruct Hch as [Hs [Hpos Hr]]. destruct j as [|j]; simpl in Hj.
    + injection Hj as <-. rewrite Hs. split; [apply Qle_refl|].
      apply chain_le in Hr. exact Hr.
    + destruct (IH _ Hr j c Hj) as [H1 H2]. split; [|assumption].
      rewrite <- Hs. apply Qlt_le_weak in Hpos. eapply Qle_trans; eassumption.
Qed.

Lemma chain_adjacent (s e : Q) (bs : list Block) :
  chain s bs e -> forall i b c,
  nth_error bs i = Some b -> nth_error bs (S i) = Some c -> b_end b = b_start c.
Proof.
  revert s. induction bs as [|a r IH]; intros s Hch i b c Hi Hj.
  - destruct i; discriminate.
  - simpl in Hch. destruct Hch as [_ [_ Hr]]. destruct i as [|i]; simpl in Hi, Hj.
    + injection Hi as <-. destruct r as [|a' r']; [discriminate|].
      simpl in Hj. injection Hj as <-. simpl in Hr. symmetry. apply Hr.
    + eapply IH; eassumption.
Qed.

Lemma chain_last (s e : Q) (bs : list Block) :
  bs <> [] -> chain s bs e ->
  exists b, nth_error bs (length bs - 1) = Some b /\ b_end b = e.
Proof.
  revert s. induction bs as [|a r IH]; intros s Hne Hch; [congruence|].
  simpl in Hch. destruct Hch as [_ [_ Hr]]. destruct r as [|a' r'].
  - simpl in *. eauto.
  - destruct (IH (b_end a)) as [b [Hb He]]; [discriminate|assumption|].
    exists b. split; [|assumption].
    simpl length in *. replace (S (S (length r')) - 1)%nat with (S (S (length r') - 1)) by lia.
    exact Hb.
Qed.

Lemma chain_sorted (s e : Q) (bs : list Block) : chain s bs e -> sortedByStart bs.
Proof.
  revert s. induction bs as [|a r IH]; intros s Hch i j b c Hij Hi Hj.
  - destruct i; discriminate.
  - simpl in Hch. destruct Hch as [_ [Hpos Hr]].
    destruct j as [|j]; [lia|]. simpl in Hj. destruct i as [|i]; simpl in Hi.
    + injection Hi as <-. destruct (chain_within _ _ _ Hr _ _ Hj) as [H1 _].
      eapply Qlt_le_trans; eassumption.
    + eapply (IH _ Hr i j); eauto. lia.
Qed.

Lemma chain_tiles (s e : Q) (bs : list Block) :
  bs <> [] -> chain s bs e -> tiles s bs e.
Proof.
  intros Hne Hch. repeat split.
  - destruct bs as [|b r]; [congruence|]. exists b. split; [reflexivity|]. apply Hch.
  - eapply chain_positive; eassumption.
  - eapply chain_adjacent; eassumption.
  - eapply chain_last; eassumption.
Qed.

Lemma chain_covers (t0 tend : Q) (bs : list Block) (res : ResMap) :
  bs <> [] -> chain t0 bs tend -> covers t0 (mkSim bs res (Fin tend)).
Proof.
  intros Hne Hch. exists tend. simpl. split; [reflexivity|]. split.
  - apply chain_tiles; assumption.
  - eapply chain_sorted; eassumption.
Qed.

(** ** Busy time *)

Arguments String.eqb : simpl never.

Lemma carries_idle (id : string) (s e : Q) : carries id (idleBlock s e) = false.
Proof. reflexivity. Qed.

Lemma carries_proc (id name : string) (s e : Q) (c : string) :
  id <> IDLE -> carries id (mkBlock name s e c) = String.eqb name id.
Proof.
  intros Hid. unfold carries. cbn [b_pid].
  destruct (String.eqb_spec name IDLE) as [->|Hn]; simpl; [|reflexivity].
  symmetry. apply String.eqb_neq. congruence.
Qed.

Lemma busy_app (id : string) (a b : list Block) :
  busy id (a ++ b) == busy id a + busy id b.
Proof.
  induction a as [|x r IH]; simpl; [lra|]. rewrite IH. lra.
Qed.

Lemma occurrences_app (id : string) (a b : list Block) :
  occurrences id (a ++ b) = (occurrences id a + occurrences id b)%nat.
Proof. unfold occurrences. rewrite filter_app, length_app. reflexivity. Qed.

Lemma busy_snoc (id : string) (bs : list Block) (b : Block) :
  busy id (bs ++ [b]) == busy id bs + (if carries id b then b_end b - b_start b else 0).
Proof. rewrite busy_app. simpl. lra. Qed.

Lemma occurrences_snoc (id : string) (bs : list Block) (b : Block) :
  occurrences id (bs ++ [b]) =
  (occurrences id bs + (if carries id b then 1 else 0))%nat.
Proof.
  rewrite occurrences_app. unfold occurrences at 2. simpl.
  destruct (carries id b); reflexivity.
Qed.

Lemma demand_absent (id : string) (ps : list Process) :
  ~ In id (map pid ps) -> demand id ps = 0 /\ copies id ps = 0%nat.
Proof.
  unfold copies. induction ps as [|p r IH]; simpl; [auto|]. intros Hn.
  destruct (String.eqb_spec (pid p) id) as [E|E]; [tauto|].
  destruct IH as [Hd Hc]; [tauto|]. rewrite Hd, Hc. split; reflexivity.
Qed.

Lemma demand_unique (ps : list Process) (p : Process) :
  NoDup (map pid ps) -> In p ps ->
  demand (pid p) ps == burst p /\ copies (pid p) ps = 1%nat.
Proof.
  unfold copies. induction ps as [|a r IH]; simpl; [tauto|].
  intros Hnd [->|Hin]; inversion Hnd as [|x l Hx Hl]; subst.
  - rewrite String.eqb_refl. destruct (demand_absent (pid p) r Hx) as [Hd Hc].
    unfold copies in Hc. simpl. rewrite Hd, Hc. split; [lra|reflexivity].
  - destruct (String.eqb_spec (pid a) (pid p)) as [E|E].
    + exfalso. apply Hx. rewrite E. apply in_map. assumption.
    + destruct (IH Hl Hin) as [Hd Hc]. rewrite Hd. split; [lra|assumption].
Qed.

(** ** FCFS *)

Lemma fcfsBody_spec (t0 : Q) (st : FcfsState) (p : Process) :
  0 < burst p -> chain t0 (f_blocks st) (f_time st) ->
  let st' := fcfsBody st p in
  chain t0 (f_blocks st') (f_time st') /\ f_blocks st' <> [] /\
  forall id, id <> IDLE ->
    busy id (f_blocks st') ==
      busy id (f_blocks st) + (if String.eqb (pid p) id then burst p else 0) /\
    occurrences id (f_blocks st') =
      (occurrences id (f_blocks st) + (if String.eqb (pid p) id then 1 else 0))%nat.
Proof.
  intros Hb Hch. unfold fcfsBody. simpl.
  destruct (Qltb (f_time st) (arrival p)) eqn:E; qprop.
  - split; [|split].
    + apply chain_snoc; [|lra]. apply chain_snoc; assumption.
    + intro H. apply app_eq_nil in H. destruct H; discriminate.
    + intros id Hid. rewrite busy_snoc, occurrences_snoc, busy_snoc, occurrences_snoc.
      rewrite carries_idle, carries_proc by assumption. simpl.
      destruct (String.eqb (pid p) id); split; try lra; lia.
  - split; [|split].
    + apply chain_snoc; [assumption|lra].
    + intro H. apply app_eq_nil in H. destruct H; discriminate.
    + intros id Hid. rewrite busy_snoc, occurrences_snoc.
      rewrite carries_proc by assumption. simpl.
      destruct (String.eqb (pid p) id); split; try lra; lia.
Qed.

Lemma fcfs_fold_spec (t0 : Q) (ps : list Process) :
  Forall (fun p => 0 < burst p) ps ->
  forall st, chain t0 (f_blocks st) (f_time st) ->
  let st' := fold_left fcfsBody ps st in
  chain t0 (f_blocks st') (f_time st') /\
  (ps <> [] -> f_blocks st' <> []) /\
  forall id, id <> IDLE ->
    busy id (f_blocks st') == busy id (f_blocks st) + demand id ps /\
    occurrences id (f_blocks st') = (occurrences id (f_blocks st) + copies id ps)%nat.
Proof.
  unfold copies. induction ps as [|p r IH]; intros Hall st Hch; simpl.
  - split; [assumption|]. split; [congruence|]. intros id _. split; [lra|lia].
  - inversion Hall as [|x l Hp Hr]; subst.
    destruct (fcfsBody_spec t0 st p Hp Hch) as [Hch1 [Hne1 Hbusy1]].
    destruct (IH Hr _ Hch1) as [Hch2 [_ Hbusy2]].
    split; [assumption|]. split.
    + intros _. destruct r as [|p' r'].
      * simpl. assumption.
      * assert (Hr' : Forall (fun p => 0 < burst p) (p' :: r')) by assumption.
        destruct (IH Hr' _ Hch1) as [_ [Hne _]]. apply Hne. discriminate.
    + intros id Hid. destruct (Hbusy1 id Hid) as [B1 O1].
      destruct (Hbusy2 id Hid) as [B2 O2]. rewrite B2, O2, B1, O1.
      destruct (String.eqb (pid p) id); simpl; split; try lra; lia.
Qed.

Lemma valid_bursts (ps : list Process) :
  validSet ps -> Forall (fun p => 0 < burst p) ps.
Proof.
  intros [_ [_ H]]. eapply Forall_impl; [|exact H]. simpl. tauto.
Qed.

Lemma valid_min (ps : list Process) :
  validSet ps -> exists t0, mathMin (map arrival ps) = Fin t0.
Proof.
  intros [Hne _]. apply mathMin_nonempty. destruct ps; [congruence|discriminate].
Qed.

Lemma fcfs_covers (ps : list Process) (t0 : Q) :
  validSet ps -> mathMin (map arrival ps) = Fin t0 -> covers t0 (fcfs ps).
Proof.
  intros Hv Hmin. unfold fcfs. rewrite Hmin.
  destruct (fcfs_fold_spec t0 ps (valid_bursts ps Hv) (mkFcfs [] [] t0) eq_refl)
    as [Hch [Hne _]].
  apply chain_covers; [apply Hne, Hv|assumption].
Qed.

Lemma fcfs_conserves (ps : list Process) (p : Process) :
  validSet ps -> In p ps -> pid p <> IDLE ->
  busy (pid p) (blocks (fcfs ps)) == burst p /\
  occurrences (pid p) (blocks (fcfs ps)) = 1%nat.
Proof.
  intros Hv Hin Hid. destruct (valid_min ps Hv) as [t0 Hmin].
  unfold fcfs. rewrite Hmin. simpl.
  destruct (fcfs_fold_spec t0 ps (valid_bursts ps Hv) (mkFcfs [] [] t0) eq_refl)
    as [_ [_ Hb]].
  destruct (Hb (pid p) Hid) as [B O]. destruct Hv as [_ [Hnd _]].
  destruct (demand_unique ps p Hnd Hin) as [D C].
  rewrite B, O, D, C. simpl. split; [lra|reflexivity].
Qed.

(** ** Index sets and the admission loop *)

Lemma has_In (s : IdxSet) (i : nat) : has s i = true <-> In i s.
Proof.
  unfold has. rewrite existsb_exists. split.
  - intros [x [Hx E]]. apply Nat.eqb_eq in E. subst. assumption.
  - intros H. exists i. split; [assumption|apply Nat.eqb_refl].
Qed.

Lemma has_notIn (s : IdxSet) (i : nat) : has s i = false <-> ~ In i s.
Proof.
  rewrite <- has_In. destruct (has s i); split; congruence.
Qed.

Lemma add_fresh (s : IdxSet) (i : nat) : has s i = false -> add s i = s ++ [i].
Proof. unfold add. intros ->. reflexivity. Qed.

Lemma has_app (s t : IdxSet) (i : nat) : has (s ++ t) i = has s i || has t i.
Proof. unfold has. apply existsb_app. Qed.

Lemma newly_ext (time : Q) (ps : list Process) (a b : IdxSet) (k : nat) :
  (forall j, (k <= j)%nat -> has a j = has b j) ->
  newly time k ps a = newly time k ps b.
Proof.
  revert k. induction ps as [|p r IH]; intros k H; simpl; [reflexivity|].
  rewrite (H k) by lia. rewrite (IH (S k)) by (intros j Hj; apply H; lia).
  reflexivity.
Qed.

Lemma pushArrived_newly (time : Q) (ps : list Process) :
  forall k queue arrived,
  pushArrived time k ps queue arrived =
  (queue ++ newly time k ps arrived, arrived ++ newly time k ps arrived).
Proof.
  induction ps as [|p r IH]; intros k queue arrived; simpl.
  - rewrite !app_nil_r. reflexivity.
  - destruct (has arrived k) eqn:Hk; simpl; [apply IH|].
    destruct (Qleb (arrival p) time); [|apply IH].
    rewrite IH, add_fresh by assumption.
    rewrite (newly_ext time r (arrived ++ [k]) arrived (S k)).
    + rewrite <- !app_assoc. reflexivity.
    + intros j Hj. rewrite has_app. unfold has at 2. simpl.
      destruct (Nat.eqb_spec j k); [lia|]. rewrite !orb_false_r. reflexivity.
Qed.

Lemma newly_In (time : Q) (ps : list Process) (arrived : IdxSet) :
  forall k j, In j (newly time k ps arrived) <->
    (k <= j)%nat /\ has arrived j = false /\
    exists p, nth_error ps (j - k) = Some p /\ arrival p <= time.
Proof.
  induction ps as [|p r IH]; intros k j; simpl.
  - split; [tauto|]. intros [_ [_ [p [H _]]]]. destruct (j - k)%nat; discriminate.
  - assert (Hrest : In j (newly time (S k) r arrived) <->
              (k < j)%nat /\ has arrived j = false /\
              exists p', nth_error (p :: r) (j - k) = Some p' /\ arrival p' <= time).
    { rewrite IH. split.
      - intros [H1 [H2 [p' [H3 H4]]]]. split; [lia|]. split; [assumption|].
        exists p'. replace (j - k)%nat with (S (j - S k)) by lia. simpl. auto.
      - intros [H1 [H2 [p' [H3 H4]]]]. split; [lia|]. split; [assumption|].
        exists p'. replace (j - k)%nat with (S (j - S k)) in H3 by lia. simpl in H3.
        auto. }
    destruct (negb (has arrived k) && Qleb (arrival p) time) eqn:E.
    + apply andb_prop in E. destruct E as [E1 E2]. apply negb_true_iff in E1. qprop.
      simpl. rewrite Hrest. split.
      * intros [<-|[H1 H2]]; [|split; [lia|assumption]].
        split; [lia|]. split; [assumption|]. exists p. rewrite Nat.sub_diag. auto.
      * intros [H1 [H2 H3]]. destruct (Nat.eq_dec k j) as [->|Hne]; [now left|].
        right. split; [lia|auto].
    + rewrite Hrest. split.
      * intros [H1 H2]. split; [lia|assumption].
      * intros [H1 [H2 [p' [H3 H4]]]]. destruct (Nat.eq_dec k j) as [->|Hne].
        -- exfalso. rewrite Nat.sub_diag in H3. simpl in H3. injection H3 as <-.
           rewrite H2 in E. simpl in E. apply Qleb_gt in E. lra.
        -- split; [lia|]. split; [assumption|]. eauto.
Qed.

Lemma newly_In0 (time : Q) (ps : list Process) (arrived : IdxSet) (j : nat) :
  In j (newly time 0 ps arrived) <->
    has arrived j = false /\ exists p, nth_error ps j = Some p /\ arrival p <= time.
Proof.
  rewrite newly_In. rewrite Nat.sub_0_r. split; [tauto|]. intros H. split; [lia|tauto].
Qed.

Lemma newly_increasing (time : Q) (ps : list Process) (arrived : IdxSet) :
  forall k, StronglySorted lt (newly time k ps arrived).
Proof.
  induction ps as [|p r IH]; intros k; simpl; [constructor|].
  destruct (negb (has arrived k) && Qleb (arrival p) time); [|apply IH].
  constructor; [apply IH|]. apply Forall_forall. intros j Hj.
  apply newly_In in Hj. lia.
Qed.

Lemma increasing_NoDup (l : list nat) : StronglySorted lt l -> NoDup l.
Proof.
  induction 1 as [|x l Hs IH Hall]; constructor; [|assumption].
  intro Hin. rewrite Forall_forall in Hall. specialize (Hall x Hin). lia.
Qed.

Lemma nth_error_lt {A : Type} (l : list A) (i : nat) (x : A) :
  nth_error l i = Some x -> (i < length l)%nat.
Proof. intros H. apply nth_error_Some. congruence. Qed.

Lemma goodSet_newly (time : Q) (ps : list Process) (arrived : IdxSet) :
  goodSet (length ps) arrived ->
  goodSet (length ps) (arrived ++ newly time 0 ps arrived).
Proof.
  intros [Hnd Hb]. split.
  - apply NoDup_app; [assumption|apply increasing_NoDup, newly_increasing|].
    intros j Hj Hn. apply newly_In0 in Hn. destruct Hn as [Hh _].
    apply has_notIn in Hh. contradiction.
  - apply Forall_app. split; [assumption|]. apply Forall_forall. intros j Hj.
    apply newly_In0 in Hj. destruct Hj as [_ [p [Hp _]]].
    eapply nth_error_lt; eassumption.
Qed.

Lemma goodSet_length (n : nat) (s : IdxSet) : goodSet n s -> (length s <= n)%nat.
Proof.
  intros [Hnd Hb]. rewrite <- (length_seq n 0). apply NoDup_incl_length; [assumption|].
  intros j Hj. rewrite Forall_forall in Hb. apply in_seq. specialize (Hb j Hj). lia.
Qed.

Lemma goodSet_full (n : nat) (s : IdxSet) :
  goodSet n s -> (n <= length s)%nat -> forall i, (i < n)%nat -> In i s.
Proof.
  intros [Hnd Hb] Hlen i Hi.
  assert (Hincl : incl s (seq 0 n)).
  { intros j Hj. rewrite Forall_forall in Hb. apply in_seq. specialize (Hb j Hj). lia. }
  apply (NoDup_length_incl Hnd) in Hincl.
  - apply Hincl. apply in_seq. lia.
  - rewrite length_seq. assumption.
Qed.

Lemma goodSet_missing (n : nat) (s : IdxSet) :
  goodSet n s -> (length s < n)%nat -> exists i, (i < n)%nat /\ ~ In i s.
Proof.
  intros Hg Hlen.
  destruct (existsb (fun i => negb (has s i)) (seq 0 n)) eqn:E.
  - apply existsb_exists in E. destruct E as [i [Hi Hn]]. apply in_seq in Hi.
    apply negb_true_iff, has_notIn in Hn. exists i. split; [lia|assumption].
  - exfalso. destruct Hg as [Hnd Hb].
    assert (Hincl : incl (seq 0 n) s).
    { intros i Hi. apply has_In. destruct (has s i) eqn:Hh; [reflexivity|].
      assert (existsb (fun i => negb (has s i)) (seq 0 n) = true).
      { apply existsb_exists. exists i. rewrite Hh. auto. }
      congruence. }
    apply NoDup_incl_length in Hincl; [|apply seq_NoDup].
    rewrite length_seq in Hincl. lia.
Qed.

Lemma arrived_after (time : Q) (ps : list Process) (arrived : IdxSet) (j : nat)
    (p : Process) :
  nth_error ps j = Some p -> arrival p <= time ->
  In j (arrived ++ newly time 0 ps arrived).
Proof.
  intros Hp Ha. apply in_or_app. destruct (has arrived j) eqn:Hh.
  - left. apply has_In. assumption.
  - right. apply newly_In0. eauto.
Qed.

(** ** Arrays and maps *)

Lemma length_setNth {A : Type} (i : nat) (v : A) (l : list A) :
  length (setNth i v l) = length l.
Proof.
  revert i. induction l as [|x r IH]; intros [|i]; simpl; auto.
Qed.

Lemma nth_setNth_same {A : Type} (i : nat) (v d : A) (l : list A) :
  (i < length l)%nat -> nth i (setNth i v l) d = v.
Proof.
  revert i. induction l as [|x r IH]; intros [|i]; simpl; intros H; try lia; auto.
  apply IH. lia.
Qed.

Lemma nth_setNth_other {A : Type} (i j : nat) (v d : A) (l : list A) :
  i <> j -> nth j (setNth i v l) d = nth j l d.
Proof.
  revert i j. induction l as [|x r IH]; intros [|i] [|j]; simpl; intros H;
    try reflexivity; try lia.
  apply IH. lia.
Qed.

Lemma mapGet_mapSet (k k' : string) (v : ProcResult) (m : ResMap) :
  mapGet k (mapSet k' v m) = if String.eqb k' k then Some v else mapGet k m.
Proof.
  induction m as [|[k1 v1] r IH]; simpl.
  - destruct (String.eqb k' k); reflexivity.
  - destruct (String.eqb_spec k1 k') as [->|Hne]; simpl.
    + destruct (String.eqb k' k); reflexivity.
    + rewrite IH. destruct (String.eqb_spec k1 k) as [->|Hk].
      * apply String.eqb_neq in Hne. rewrite String.eqb_sym, Hne. reflexivity.
      * reflexivity.
Qed.

Lemma remaining_init (id : string) (ps : list Process) :
  remaining id ps (map burst ps) = demand id ps.
Proof.
  induction ps as [|p r IH]; simpl; [reflexivity|]. rewrite IH. reflexivity.
Qed.

Lemma remaining_setNth (id : string) (ps : list Process) :
  forall (rem : list Q) (i : nat) (p : Process) (v : Q),
  length rem = length ps -> nth_error ps i = Some p ->
  remaining id ps (setNth i v rem) ==
  remaining id ps rem + (if String.eqb (pid p) id then v - nth i rem 0 else 0).
Proof.
  induction ps as [|a r IH]; intros rem i p v Hlen Hi.
  - destruct i; discriminate.
  - destruct rem as [|x xs]; [discriminate|]. simpl in Hlen.
    destruct i as [|i]; simpl in Hi.
    + injection Hi as ->. simpl. destruct (String.eqb (pid p) id); lra.
    + simpl. rewrite (IH xs i p v) by (auto; lia).
      destruct (String.eqb (pid p) id); lra.
Qed.

Lemma remaining_zero (id : string) (ps : list Process) :
  forall rem, length rem = length ps ->
  (forall i, (i < length ps)%nat -> nth i rem 0 == 0) ->
  remaining id ps rem == 0.
Proof.
  induction ps as [|a r IH]; intros rem Hlen Hz; [reflexivity|].
  destruct rem as [|x xs]; [discriminate|]. simpl in *.
  rewrite IH.
  - pose proof (Hz 0%nat ltac:(lia)) as H0. simpl in H0.
    destruct (String.eqb (pid a) id); lra.
  - lia.
  - intros i Hi. apply (Hz (S i)). lia.
Qed.

Lemma pid_injective (ps : list Process) (i j : nat) (p p' : Process) :
  NoDup (map pid ps) -> nth_error ps i = Some p -> nth_error ps j = Some p' ->
  pid p = pid p' -> i = j.
Proof.
  intros Hnd Hi Hj E.
  assert (Hi' : nth_error (map pid ps) i = Some (pid p))
    by (rewrite nth_error_map, Hi; reflexivity).
  assert (Hj' : nth_error (map pid ps) j = Some (pid p'))
    by (rewrite nth_error_map, Hj; reflexivity).
  rewrite <- E in Hj'.
  eapply NoDup_nth_error; [exact Hnd| |congruence].
  apply nth_error_Some. congruence.
Qed.

(** ** The quantum *)

Lemma minQuantum_bounds (q : jsnum) (r : Q) :
  gt0 q = true -> 0 < r -> 0 < minQuantum q r /\ minQuantum q r <= r.
Proof.
  destruct q as [x| | |]; simpl; intros Hq Hr; try discriminate.
  - qprop. destruct (Qmin_cases x r) as [[-> H]|[-> H]]; split; lra.
  - split; lra.
Qed.

Lemma Qceiling_pos (x : Q) : 0 < x -> (0 < Qceiling x)%Z.
Proof.
  intros H. pose proof (Qle_ceiling x) as Hc.
  assert (Hlt : inject_Z 0 < inject_Z (Qceiling x))
    by (change (inject_Z 0) with 0; lra).
  rewrite <- Zlt_Qlt in Hlt. assumption.
Qed.

Lemma Qceiling_pred (x : Q) : (Qceiling (x - 1) <= Qceiling x - 1)%Z.
Proof.
  pose proof (Qle_ceiling x) as Hc.
  assert (Hle : x - 1 <= inject_Z (Qceiling x - 1)).
  { unfold Z.sub. rewrite inject_Z_plus. change (inject_Z (- (1))) with (- (1)). lra. }
  apply Qceiling_resp_le in Hle. rewrite Qceiling_Z in Hle. assumption.
Qed.

Lemma dispatchesLeft_decreases (q : jsnum) (r : Q) :
  gt0 q = true -> 0 < r ->
  (dispatchesLeft q (r - minQuantum q r) < dispatchesLeft q r)%nat.
Proof.
  destruct q as [x| | |]; simpl; intros Hq Hr; try discriminate.
  - qprop.
    assert (Hpos : (0 < Qceiling (r / x))%Z).
    { apply Qceiling_pos. apply Qlt_shift_div_l; lra. }
    destruct (Qmin_cases x r) as [[-> H]|[-> H]].
    + assert (E : (r - x) / x == r / x - 1) by (field; lra).
      rewrite (Qceiling_comp _ _ E). pose proof (Qceiling_pred (r / x)). lia.
    + assert (E : (r - r) / x == 0) by (field; lra).
      rewrite (Qceiling_comp _ _ E). change (Qceiling 0) with 0%Z. lia.
  - assert (E : Qltb 0 (r - r) = false) by (apply Qltb_ge; lra).
    assert (E' : Qltb 0 r = true) by (apply Qltb_lt; lra).
    rewrite E, E'. lia.
Qed.

Lemma list_sum_setNth (f : Q -> nat) (l : list Q) (i : nat) (v : Q) :
  (i < length l)%nat ->
  (list_sum (map f (setNth i v l)) + f (nth i l 0%Q) = list_sum (map f l) + f v)%nat.
Proof.
  revert i. induction l as [|x r IH]; intros [|i]; simpl; intros H; try lia.
  specialize (IH i ltac:(lia)). lia.
Qed.

(** ** Round Robin: the loop invariant *)

Lemma findNotArrived_some (arrived : IdxSet) (ps : list Process) :
  forall k j, findNotArrived arrived k ps = Some j ->
  (k <= j < k + length ps)%nat /\ has arrived j = false.
Proof.
  induction ps as [|p r IH]; intros k j; simpl; [discriminate|].
  destruct (has arrived k) eqn:E; simpl.
  - intros H. apply IH in H. split; [lia|tauto].
  - intros [= <-]. split; [lia|assumption].
Qed.

Lemma findNotArrived_none (arrived : IdxSet) (ps : list Process) :
  forall k, findNotArrived arrived k ps = None ->
  forall j, (k <= j < k + length ps)%nat -> has arrived j = true.
Proof.
  induction ps as [|p r IH]; intros k; simpl; [intros; lia|].
  destruct (has arrived k) eqn:E; simpl; [|discriminate].
  intros H j Hj. destruct (Nat.eq_dec j k) as [->|Hne]; [assumption|].
  apply (IH (S k) H). lia.
Qed.

Lemma initQueue_newly (time : Q) (ps : list Process) :
  forall k, initQueue time k ps = newly time k ps [].
Proof.
  induction ps as [|p r IH]; intros k; simpl; [reflexivity|].
  rewrite IH. destruct (Qleb (arrival p) time); reflexivity.
Qed.

Lemma fold_add_fresh (l : list nat) :
  forall s, NoDup l -> (forall i, In i l -> ~ In i s) -> fold_left add l s = s ++ l.
Proof.
  induction l as [|x r IH]; intros s Hnd Hd; simpl.
  - rewrite app_nil_r. reflexivity.
  - inversion Hnd as [|y l' Hx Hr]; subst.
    rewrite add_fresh by (apply has_notIn, Hd; now left).
    rewrite IH; [rewrite <- app_assoc; reflexivity|assumption|].
    intros i Hi Hin. apply in_app_or in Hin. destruct Hin as [Hin|[<-|[]]].
    + apply (Hd i); [now right|assumption].
    + contradiction.
Qed.

Lemma nth_burst (ps : list Process) (i : nat) (p : Process) :
  nth_error ps i = Some p -> nth i (map burst ps) 0 = burst p.
Proof.
  revert i. induction ps as [|a r IH]; intros [|i]; simpl; try discriminate.
  - intros [= ->]. reflexivity.
  - apply IH.
Qed.

Lemma nth_const_none {A B : Type} (l : list A) (i : nat) :
  nth i (map (fun _ => @None B) l) None = None.
Proof.
  revert i. induction l as [|a r IH]; intros [|i]; simpl; auto.
Qed.

Section RoundRobinFacts.
Variable ps : list Process.
Variable q : jsnum.
Variable t0 : Q.
Hypothesis Hq : gt0 q = true.
Hypothesis Hvalid : validSet ps.
Hypothesis Hmin : mathMin (map arrival ps) = Fin t0.

Lemma rrInit_inv : RRInv ps t0 (rrInit ps t0).
Proof.
  assert (Hg : goodSet (length ps) (newly t0 0 ps []))
    by (apply (goodSet_newly t0 ps []); split; constructor).
  assert (Hset : setOf (initQueue t0 0 ps) = newly t0 0 ps []).
  { rewrite initQueue_newly. unfold setOf. rewrite fold_add_fresh; [reflexivity| |auto].
    apply Hg. }
  unfold rrInit. rewrite Hset, initQueue_newly.
  constructor; simpl.
  - reflexivity.
  - apply length_map.
  - assumption.
  - apply Hg.
  - auto.
  - intros i p Hp Ha. apply (arrived_after t0 ps [] i p Hp Ha).
  - intros i Hi. apply newly_In0 in Hi. destruct Hi as [_ [p [Hp _]]].
    rewrite (nth_burst ps i p Hp).
    pose proof (valid_bursts ps Hvalid) as Hb. rewrite Forall_forall in Hb.
    apply Hb. eapply nth_error_In; eassumption.
  - intros i p Hp _. rewrite (nth_burst ps i p Hp).
    pose proof (valid_bursts ps Hvalid) as Hb. rewrite Forall_forall in Hb.
    apply Hb. eapply nth_error_In; eassumption.
  - intros i Hi Hn. contradiction.
  - intros id _. rewrite remaining_init. lra.
  - intros i p _ H. rewrite nth_const_none in H. congruence.
  - intros i p _ Hi Hn. contradiction.
  - intros _ Hnil. destruct (mathMin_arrival ps t0 Hmin) as [[p [Hin Ha]] _].
    apply In_nth_error in Hin. destruct Hin as [j Hj].
    assert (Hjn : In j (newly t0 0 ps [])).
    { apply newly_In0. split; [reflexivity|]. exists p. split; [assumption|].
      rewrite Ha. apply Qle_refl. }
    rewrite Hnil in Hjn. contradiction.
Qed.

Lemma rr_dispatch (st : RRState) (i : nat) (queue0 : list nat) :
  RRInv ps t0 st -> rr_queue st = i :: queue0 ->
  exists p, nth_error ps i = Some p /\
    let r := nth i (rr_rem st) 0 in
    let run := minQuantum q r in
    0 < run /\ run <= r /\
    exists st', rrBody ps q st = Next st' /\
      rr_queue st' = queue0 ++ newly (rr_time st + run) 0 ps (rr_arrived st)
                       ++ (if Qltb 0 (r - run) then [i] else []) /\
      rr_time st' = rr_time st + run /\
      rr_rem st' = setNth i (r - run) (rr_rem st) /\
      RRInv ps t0 st' /\
      (rrMeasure q (length ps) st' < rrMeasure q (length ps) st)%nat.
Proof.
  intros Hinv Hqueue. destruct Hinv.
  assert (Hiq : In i (rr_queue st)) by (rewrite Hqueue; now left).
  assert (Hia : In i (rr_arrived st)) by auto.
  assert (Hlt : (i < length ps)%nat).
  { destruct rri_arrived0 as [_ Hb]. rewrite Forall_forall in Hb. auto. }
  destruct (nth_error ps i) as [p|] eqn:Hp; [|apply nth_error_None in Hp; lia].
  exists p. split; [reflexivity|]. intros r run.
  assert (Hr : 0 < r) by (apply rri_queue_pos0; assumption).
  destruct (minQuantum_bounds q r Hq Hr) as [Hrun1 Hrun2].
  change (0 < run) in Hrun1. change (run <= r) in Hrun2.
  split; [assumption|]. split; [assumption|].
  unfold rrBody. rewrite Hqueue, Hp, pushArrived_newly. cbv beta iota zeta.
  fold r. fold run.
  rewrite nth_setNth_same by lia.
  set (N := newly (rr_time st + run) 0 ps (rr_arrived st)).
  set (res1 := if match nth i (rr_firstStart st) None with
                  | Some _ => false | None => true end
               then mapSet _ _ _ else _).
  set (fs1 := if match nth i (rr_firstStart st) None with
                 | Some _ => false | None => true end
              then setNth _ _ _ else _).
  set (blk := mkBlock (pid p) (rr_time st) (rr_time st + run) (color p)).
  set (rem1 := setNth i (r - run) (rr_rem st)).
  assert (Hgood' : goodSet (length ps) (rr_arrived st ++ N))
    by (apply goodSet_newly; assumption).
  assert (HiN : ~ In i N).
  { intro H. apply newly_In0 in H. destruct H as [H _].
    apply has_notIn in H. contradiction. }
  rewrite Hqueue in rri_queue_nodup0.
  inversion rri_queue_nodup0 as [|x l Hiq0 Hq0nd]; subst x l.
  assert (Hq0arr : forall j, In j queue0 -> In j (rr_arrived st)).
  { intros j Hj. apply rri_queue_arr0. rewrite Hqueue. now right. }
  assert (HNq0 : forall j, In j queue0 -> In j N -> False).
  { intros j Hj H. apply newly_In0 in H. destruct H as [H _].
    apply has_notIn in H. auto. }
  assert (HNnd : NoDup N) by (apply increasing_NoDup, newly_increasing).
  assert (Hchain' : chain t0 (rr_blocks st ++ [blk]) (rr_time st + run)).
  { apply chain_snoc; [assumption|lra]. }
  assert (Hother : forall j, j <> i -> nth j rem1 0 = nth j (rr_rem st) 0).
  { intros j Hj. apply nth_setNth_other. congruence. }
  assert (Hsame : nth i rem1 0 = r - run) by (apply nth_setNth_same; lia).
  assert (Hbusy' : forall id, id <> IDLE ->
            busy id (rr_blocks st ++ [blk]) + remaining id ps rem1 == demand id ps).
  { intros id Hid. rewrite busy_snoc. unfold rem1.
    rewrite (remaining_setNth id ps (rr_rem st) i p (r - run) rri_rem_len0 Hp).
    unfold blk. rewrite carries_proc by assumption. cbn [b_start b_end].
    specialize (rri_busy0 id Hid). fold r.
    destruct (String.eqb (pid p) id); lra. }
  assert (Hmeas : forall queue' res' fs',
            (rrMeasure q (length ps)
               (mkRR (rr_blocks st ++ [blk]) res' rem1 fs' queue'
                  (rr_arrived st ++ N) (rr_time st + run))
             < rrMeasure q (length ps) st)%nat).
  { intros. unfold rrMeasure. cbn [rr_rem rr_arrived].
    pose proof (list_sum_setNth (dispatchesLeft q) (rr_rem st) i (r - run)
                  ltac:(lia)) as Hs.
    pose proof (dispatchesLeft_decreases q r Hq Hr) as Hd.
    fold r in Hs. fold run in Hd. fold rem1 in Hs.
    rewrite length_app. lia. }
  assert (HF1 : mapGet (pid p) res1 <> None).
  { unfold res1. destruct (nth i (rr_firstStart st) None) eqn:Hfs.
    - apply (rri_started0 i p Hp). congruence.
    - rewrite mapGet_mapSet, String.eqb_refl. discriminate. }
  assert (HF2 : forall j p', nth_error ps j = Some p' ->
            nth j fs1 None <> None -> mapGet (pid p') res1 <> None).
  { intros j p' Hj Hn. destruct (Nat.eq_dec j i) as [->|Hne].
    - assert (p' = p) by congruence. subst p'. assumption.
    - unfold res1, fs1 in *. destruct (nth i (rr_firstStart st) None) eqn:Hfs.
      + eauto.
      + rewrite nth_setNth_other in Hn by congruence.
        rewrite mapGet_mapSet. destruct (String.eqb (pid p) (pid p'));
          [discriminate|eauto]. }
  assert (Hpids : forall j p', j <> i -> nth_error ps j = Some p' ->
            String.eqb (pid p) (pid p') = false).
  { intros j p' Hne Hj. apply String.eqb_neq. intro E. apply Hne. symmetry.
    destruct Hvalid as [_ [Hnd _]]. eapply pid_injective; eassumption. }
  assert (HF3 : forall j p', j <> i -> nth_error ps j = Some p' ->
            mapGet (pid p') res1 = mapGet (pid p') (rr_res st)).
  { intros j p' Hne Hj. unfold res1.
    destruct (nth i (rr_firstStart st) None); [reflexivity|].
    rewrite mapGet_mapSet, (Hpids j p' Hne Hj). reflexivity. }
  assert (Hfinal_old : forall j p', nth_error ps j = Some p' ->
            In j (rr_arrived st ++ N) -> ~ In j (queue0 ++ N) -> j <> i ->
            exists r0, mapGet (pid p') res1 = Some r0 /\
                       finalized p' (rr_blocks st ++ [blk]) r0).
  { intros j p' Hj Ha Hnq Hne.
    assert (HjN : ~ In j N) by (intro; apply Hnq, in_or_app; now right).
    assert (Hjq0 : ~ In j queue0) by (intro; apply Hnq, in_or_app; now left).
    apply in_app_or in Ha. destruct Ha as [Ha|Ha]; [|contradiction].
    destruct (rri_final0 j p' Hj Ha) as [r0 [Hg [[b [Hb1 Hb2]] Hf]]].
    { rewrite Hqueue. intros [E|E]; [congruence|contradiction]. }
    exists r0. rewrite (HF3 j p' Hne Hj). split; [assumption|].
    split; [|assumption]. exists b. split; [|assumption].
    apply in_or_app. now left. }
  assert (Hupto' : forall j p', nth_error ps j = Some p' ->
            arrival p' <= rr_time st + run -> In j (rr_arrived st ++ N)).
  { intros j p' Hj Ha. eapply arrived_after; eassumption. }
  assert (Hpos' : forall j, In j (queue0 ++ N) -> 0 < nth j rem1 0).
  { intros j Hj. assert (Hne : j <> i).
    { intros ->. apply in_app_or in Hj. destruct Hj; contradiction. }
    rewrite (Hother j Hne). apply in_app_or in Hj. destruct Hj as [Hj|Hj].
    - apply rri_queue_pos0. rewrite Hqueue. now right.
    - apply newly_In0 in Hj. destruct Hj as [Hh [p' [Hp' _]]].
      apply (rri_unarrived0 j p' Hp'). apply has_notIn. assumption. }
  assert (Hun' : forall j p', nth_error ps j = Some p' ->
            ~ In j (rr_arrived st ++ N) -> 0 < nth j rem1 0).
  { intros j p' Hj Hn. assert (Hne : j <> i).
    { intros ->. apply Hn, in_or_app. now left. }
    rewrite (Hother j Hne). apply (rri_unarrived0 j p' Hj).
    intro. apply Hn, in_or_app. now left. }
  assert (Hfin' : forall j, In j (rr_arrived st ++ N) -> ~ In j (queue0 ++ N) ->
            j <> i -> nth j rem1 0 == 0).
  { intros j Ha Hnq Hne. rewrite (Hother j Hne).
    apply in_app_or in Ha. destruct Ha as [Ha|Ha].
    - apply rri_finished0; [assumption|]. rewrite Hqueue.
      intros [E|E]; [congruence|]. apply Hnq, in_or_app. now left.
    - exfalso. apply Hnq, in_or_app. now right. }
  assert (Hne' : rr_blocks st ++ [blk] <> []).
  { intro H. apply app_eq_nil in H. destruct H; discriminate. }
  destruct (Qltb 0 (r - run)) eqn:Hleft; qprop.
  - eexists. split; [reflexivity|]. cbn [rr_queue rr_time rr_rem].
    split; [rewrite app_assoc; reflexivity|]. split; [reflexivity|].
    split; [reflexivity|]. split; [|apply Hmeas].
    constructor; cbn [rr_blocks rr_res rr_rem rr_firstStart rr_queue rr_arrived rr_time];
      fold rem1; try assumption.
    + unfold rem1. rewrite length_setNth. assumption.
    + apply NoDup_app; [|constructor; [simpl; tauto|constructor]|].
      * apply NoDup_app; [assumption|assumption|]. intros j Hj1 Hj2. eauto.
      * intros j Hj [<-|[]]. apply in_app_or in Hj. destruct Hj; contradiction.
    + intros j Hj. apply in_or_app. apply in_app_or in Hj.
      destruct Hj as [Hj|[<-|[]]]; [|now left].
      apply in_app_or in Hj. destruct Hj; [left; auto|now right].
    + intros j Hj. apply in_app_or in Hj. destruct Hj as [Hj|[<-|[]]]; [auto|].
      rewrite Hsame. assumption.
    + intros j Ha Hnq. apply Hfin'; [assumption| |].
      * intro. apply Hnq, in_or_app. now left.
      * intros ->. apply Hnq, in_or_app. right. now left.
    + intros j p' Hj Ha Hnq. apply (Hfinal_old j p'); [assumption|assumption| |].
      * intro. apply Hnq, in_or_app. now left.
      * intros ->. apply Hnq, in_or_app. right. now left.
    + intros H. contradiction.
  - destruct (mapGet (pid p) res1) as [r0|] eqn:Hget; [|contradiction].
    eexists. split; [reflexivity|]. cbn [rr_queue rr_time rr_rem].
    split; [rewrite app_nil_r; reflexivity|]. split; [reflexivity|].
    split; [reflexivity|]. split; [|apply Hmeas].
    constructor; cbn [rr_blocks rr_res rr_rem rr_firstStart rr_queue rr_arrived rr_time];
      fold rem1; try assumption.
    + unfold rem1. rewrite length_setNth. assumption.
    + apply NoDup_app; [assumption|assumption|]. intros j Hj1 Hj2. eauto.
    + intros j Hj. apply in_or_app. apply in_app_or in Hj.
      destruct Hj; [left; auto|now right].
    + intros j Ha Hnq. destruct (Nat.eq_dec j i) as [->|Hne]; [|auto].
      rewrite Hsame. lra.
    + intros j p' Hj Hn. rewrite mapGet_mapSet.
      destruct (String.eqb (pid p) (pid p')); [discriminate|eauto].
    + intros j p' Hj Ha Hnq. destruct (Nat.eq_dec j i) as [->|Hne].
      * assert (p' = p) by congruence. subst p'.
        rewrite mapGet_mapSet, String.eqb_refl. eexists. split; [reflexivity|].
        split; [|split; reflexivity]. exists blk. split; [|split; reflexivity].
        apply in_or_app. right. now left.
      * rewrite mapGet_mapSet, (Hpids j p' Hne Hj). apply (Hfinal_old j p'); assumption.
    + intros H. contradiction.
Qed.

Lemma rr_idle (st : RRState) :
  RRInv ps t0 st -> rr_queue st = [] ->
  match rrBody ps q st with
  | Next st' => RRInv ps t0 st' /\
                (rrMeasure q (length ps) st' < rrMeasure q (length ps) st)%nat
  | Break st' => st' = st /\ rrFinal (length ps) st
  | Crash _ => False
  end.
Proof.
  intros Hinv Hqueue. unfold rrBody. rewrite Hqueue.
  destruct (findNotArrived (rr_arrived st) 0 ps) as [k|] eqn:Hfind.
  - apply findNotArrived_some in Hfind. destruct Hfind as [Hk Hnot].
    destruct (nth_error ps k) as [pn|] eqn:Hpn; [|apply nth_error_None in Hpn; lia].
    rewrite pushArrived_newly. cbv beta iota zeta. destruct Hinv.
    set (N := newly (arrival pn) 0 ps (rr_arrived st)).
    assert (Hlater : rr_time st < arrival pn).
    { apply Qnot_le_lt. intro Hle. apply has_notIn in Hnot. eauto. }
    assert (HkN : In k N) by (apply newly_In0; split; [assumption|];
                              exists pn; split; [assumption|apply Qle_refl]).
    assert (Hgood' : goodSet (length ps) (rr_arrived st ++ N))
      by (apply goodSet_newly; assumption).
    split.
    + constructor; cbn [rr_blocks rr_res rr_rem rr_firstStart rr_queue rr_arrived rr_time];
        try assumption.
      * apply chain_snoc; assumption.
      * apply increasing_NoDup, newly_increasing.
      * intros j Hj. apply in_or_app. now right.
      * intros j p' Hj Ha. eapply arrived_after; eassumption.
      * intros j Hj. apply newly_In0 in Hj. destruct Hj as [Hh [p' [Hp' _]]].
        apply (rri_unarrived0 j p' Hp'). apply has_notIn. assumption.
      * intros j p' Hj Hn. apply (rri_unarrived0 j p' Hj).
        intro. apply Hn, in_or_app. now left.
      * intros j Ha Hnq. apply in_app_or in Ha. destruct Ha as [Ha|Ha];
          [|contradiction]. apply rri_finished0; [assumption|].
        rewrite Hqueue. simpl. tauto.
      * intros id Hid. rewrite busy_snoc, carries_idle. rewrite <- (rri_busy0 id Hid).
        lra.
      * intros j p' Hj Ha Hnq. apply in_app_or in Ha. destruct Ha as [Ha|Ha];
          [|contradiction].
        destruct (rri_final0 j p' Hj Ha) as [r0 [Hg [[b [Hb1 Hb2]] Hf]]].
        { rewrite Hqueue. simpl. tauto. }
        exists r0. split; [assumption|]. split; [|assumption].
        exists b. split; [apply in_or_app; now left|assumption].
      * intros H. apply app_eq_nil in H. destruct H; discriminate.
    + unfold rrMeasure. cbn [rr_rem rr_arrived]. rewrite length_app.
      pose proof (goodSet_length _ _ Hgood') as Hlen. rewrite length_app in Hlen.
      destruct N as [|x N']; [contradiction|]. simpl length in *. lia.
  - split; [reflexivity|]. split; [assumption|]. intros i Hi.
    apply has_In. apply (findNotArrived_none _ _ _ Hfind). lia.
Qed.

Lemma rr_exit (st : RRState) :
  RRInv ps t0 st -> rrCond (length ps) st = false -> rrFinal (length ps) st.
Proof.
  intros Hinv Hc. unfold rrCond in Hc. apply orb_false_iff in Hc.
  destruct Hc as [H1 H2]. apply Nat.ltb_ge in H1, H2. split.
  - destruct (rr_queue st); [reflexivity|simpl in H1; lia].
  - apply goodSet_full; [apply Hinv|assumption].
Qed.

Lemma rr_step (st : RRState) :
  RRInv ps t0 st ->
  match rrBody ps q st with
  | Next st' => RRInv ps t0 st' /\
                (rrMeasure q (length ps) st' < rrMeasure q (length ps) st)%nat
  | Break st' => RRInv ps t0 st' /\ rrFinal (length ps) st'
  | Crash _ => False
  end.
Proof.
  intros Hinv. destruct (rr_queue st) as [|i queue0] eqn:Hqueue.
  - pose proof (rr_idle st Hinv Hqueue) as H.
    destruct (rrBody ps q st); [assumption| |assumption].
    destruct H as [-> H]. auto.
  - destruct (rr_dispatch st i queue0 Hinv Hqueue)
      as [p [_ [_ [_ [st' [-> [_ [_ [_ H]]]]]]]]]. exact H.
Qed.

(** The loop returns, within a number of passes fixed by the input, in a
    final state that satisfies the invariant. *)
Lemma rr_loop_returns :
  forall fuel, (rrMeasure q (length ps) (rrInit ps t0) < fuel)%nat ->
  exists st, while (rrCond (length ps)) (rrBody ps q) fuel (rrInit ps t0) = Returned st /\
             RRInv ps t0 st /\ rrFinal (length ps) st.
Proof.
  intros fuel Hfuel.
  destruct (while_total _ (rrCond (length ps)) (rrBody ps q) (RRInv ps t0)
              (rrMeasure q (length ps))) with (fuel := fuel) (s := rrInit ps t0)
    as [st Hst].
  - intros s Hs _. pose proof (rr_step s Hs) as H.
    destruct (rrBody ps q s); tauto.
  - apply rrInit_inv.
  - assumption.
  - exists st. split; [assumption|].
    apply (while_post _ (rrCond (length ps)) (rrBody ps q) (RRInv ps t0)
             (fun s => RRInv ps t0 s /\ rrFinal (length ps) s))
      with (fuel := fuel) (s := rrInit ps t0).
    + intros s Hs Hc. split; [assumption|apply rr_exit; assumption].
    + intros s Hs _. pose proof (rr_step s Hs) as H.
      destruct (rrBody ps q s); tauto.
    + apply rrInit_inv.
    + assumption.
Qed.

Lemma rr_final_rem (st : RRState) :
  RRInv ps t0 st -> rrFinal (length ps) st ->
  forall i, (i < length ps)%nat -> nth i (rr_rem st) 0 == 0.
Proof.
  intros Hinv [Hq0 Hall] i Hi. apply (rri_finished Hinv); [auto|].
  rewrite Hq0. simpl. tauto.
Qed.

Lemma rr_final_busy (st : RRState) :
  RRInv ps t0 st -> rrFinal (length ps) st ->
  forall id, id <> IDLE -> busy id (rr_blocks st) == demand id ps.
Proof.
  intros Hinv Hfin id Hid. rewrite <- (rri_busy Hinv Hid).
  rewrite (remaining_zero id ps (rr_rem st)); [lra|apply Hinv|].
  apply rr_final_rem; assumption.
Qed.

Lemma rr_final_blocks (st : RRState) :
  RRInv ps t0 st -> rrFinal (length ps) st -> rr_blocks st <> [].
Proof.
  intros Hinv [Hq0 _] Hnil. apply (rri_nonempty Hinv Hnil). assumption.
Qed.
End RoundRobinFacts.

(** ** SJF and Priority: the loop invariant *)

Lemma insertBy_perm {A : Type} (cmp : A -> A -> Q) (x : A) (l : list A) :
  Permutation (x :: l) (insertBy cmp x l).
Proof.
  induction l as [|y r IH]; simpl; [reflexivity|].
  destruct (Qltb 0 (cmp x y)); [|reflexivity].
  rewrite perm_swap. apply perm_skip. assumption.
Qed.

Lemma sortBy_perm {A : Type} (cmp : A -> A -> Q) (l : list A) :
  Permutation l (sortBy cmp l).
Proof.
  induction l as [|x r IH]; simpl; [reflexivity|].
  rewrite <- insertBy_perm. apply perm_skip. assumption.
Qed.

Lemma demand_app (id : string) (a b : list Process) :
  demand id (a ++ b) == demand id a + demand id b.
Proof.
  induction a as [|x r IH]; simpl; [lra|]. rewrite IH. lra.
Qed.

Lemma copies_app (id : string) (a b : list Process) :
  copies id (a ++ b) = (copies id a + copies id b)%nat.
Proof. unfold copies. rewrite filter_app, length_app. reflexivity. Qed.

Lemma demand_perm (id : string) (a b : list Process) :
  Permutation a b -> demand id a == demand id b.
Proof.
  induction 1 as [|x l l' H IH|x y l|l l' l'' H1 IH1 H2 IH2]; simpl.
  - reflexivity.
  - rewrite IH. reflexivity.
  - lra.
  - rewrite IH1. assumption.
Qed.

Lemma copies_perm (id : string) (a b : list Process) :
  Permutation a b -> copies id a = copies id b.
Proof.
  intros H. unfold copies. apply Permutation_length.
  induction H as [|x l l' H IH|x y l|l l' l'' H1 IH1 H2 IH2]; simpl.
  - reflexivity.
  - destruct (String.eqb (pid x) id); [apply perm_skip|]; assumption.
  - destruct (String.eqb (pid x) id), (String.eqb (pid y) id);
      try reflexivity. apply perm_swap.
  - etransitivity; eassumption.
Qed.

Lemma procsAt_app (ps : list Process) (a b : list nat) :
  procsAt ps (a ++ b) = procsAt ps a ++ procsAt ps b.
Proof. unfold procsAt. apply flat_map_app. Qed.

Lemma procsAt_seq (ps : list Process) :
  forall pre, procsAt (pre ++ ps) (seq (length pre) (length ps)) = ps.
Proof.
  induction ps as [|p r IH]; intros pre; simpl; [reflexivity|].
  rewrite nth_error_app2 by lia. rewrite Nat.sub_diag. simpl. f_equal.
  specialize (IH (pre ++ [p])). rewrite <- app_assoc, length_app in IH. simpl in IH.
  rewrite Nat.add_1_r in IH. exact IH.
Qed.

Lemma procsAt_all (ps : list Process) : procsAt ps (seq 0 (length ps)) = ps.
Proof. apply (procsAt_seq ps []). Qed.

Lemma procsAt_perm (ps : list Process) (a b : list nat) :
  Permutation a b -> Permutation (procsAt ps a) (procsAt ps b).
Proof. intros H. unfold procsAt. apply Permutation_flat_map. assumption. Qed.

Lemma later_mono (ps : list Process) (t t' : Q) :
  t <= t' -> (later ps t' <= later ps t)%nat.
Proof.
  intros Hle. unfold later. induction ps as [|p r IH]; simpl; [lia|].
  destruct (Qltb t' (arrival p)) eqn:E1, (Qltb t (arrival p)) eqn:E2; qprop;
    simpl; try lia. lra.
Qed.

Lemma later_decreases (ps : list Process) (t t' : Q) (p : Process) :
  t <= t' -> In p ps -> t < arrival p -> arrival p <= t' ->
  (later ps t' < later ps t)%nat.
Proof.
  intros Hle Hin H1 H2. induction ps as [|a r IH]; [contradiction|].
  pose proof (later_mono r t t' Hle) as Hm. unfold later in *. simpl.
  destruct Hin as [->|Hin].
  - assert (E1 : Qltb t' (arrival p) = false) by (apply Qltb_ge; assumption).
    assert (E2 : Qltb t (arrival p) = true) by (apply Qltb_lt; assumption).
    rewrite E1, E2. simpl. lia.
  - specialize (IH Hin).
    destruct (Qltb t' (arrival a)) eqn:E1, (Qltb t (arrival a)) eqn:E2; qprop;
      simpl; try lia. lra.
Qed.

Lemma unusedArrivals_In (used : IdxSet) (ps : list Process) (x : Q) :
  forall k, In x (unusedArrivals used k ps) <->
    exists j p, (k <= j)%nat /\ nth_error ps (j - k) = Some p /\
                has used j = false /\ arrival p = x.
Proof.
  induction ps as [|a r IH]; intros k; simpl.
  - split; [tauto|]. intros [j [p [_ [H _]]]]. destruct (j - k)%nat; discriminate.
  - assert (Hrest : In x (unusedArrivals used (S k) r) <->
              exists j p, (k < j)%nat /\ nth_error (a :: r) (j - k) = Some p /\
                          has used j = false /\ arrival p = x).
    { rewrite IH. split; intros [j [p [H1 [H2 H3]]]]; exists j, p.
      - split; [lia|]. replace (j - k)%nat with (S (j - S k)) by lia. auto.
      - split; [lia|]. replace (j - k)%nat with (S (j - S k)) in H2 by lia. auto. }
    destruct (has used k) eqn:E; simpl.
    + rewrite Hrest. split; intros [j [p [H1 H2]]]; exists j, p.
      * split; [lia|assumption].
      * split; [|assumption]. destruct (Nat.eq_dec j k) as [->|]; [|lia].
        destruct H2 as [_ [H2 _]]. congruence.
    + rewrite Hrest. split.
      * intros [<-|[j [p [H1 H2]]]].
        -- exists k, a. rewrite Nat.sub_diag. auto.
        -- exists j, p. split; [lia|assumption].
      * intros [j [p [H1 [H2 [H3 H4]]]]]. destruct (Nat.eq_dec j k) as [->|Hne].
        -- left. rewrite Nat.sub_diag in H2. simpl in H2. congruence.
        -- right. exists j, p. split; [lia|auto].
Qed.

Section NonPreemptiveFacts.
Variable key : Process -> Process -> Q.
Variable ps : list Process.
Variable t0 : Q.
Hypothesis Hbursts : Forall (fun p => 0 < burst p) ps.

Lemma npInit_inv : NPInv ps t0 (mkNP [] [] 0 t0 [] []).
Proof.
  constructor; simpl.
  - reflexivity.
  - split; constructor.
  - exists []. simpl. split; [constructor|]. split; [reflexivity|].
    intros id _. split; reflexivity.
  - reflexivity.
Qed.

Lemma np_step (st : NPState) :
  NPInv ps t0 st -> npCond (length ps) st = true ->
  match npBody key ps st with
  | Next st' => NPInv ps t0 st' /\ (npMeasure ps st' < npMeasure ps st)%nat
  | Break _ => False
  | Crash _ => False
  end.
Proof.
  intros [Hchain Hused [dispatched [Hperm [Hcount Hbusy]]] Hne] Hcond.
  unfold npCond in Hcond. apply Nat.ltb_lt in Hcond.
  unfold npBody. rewrite pushArrived_newly. cbv beta iota zeta.
  set (N := newly (np_time st) 0 ps (np_used st)).
  assert (Hgood' : goodSet (length ps) (np_used st ++ N))
    by (apply goodSet_newly; assumption).
  assert (Hperm' : Permutation (np_used st ++ N) (dispatched ++ np_ready st ++ N)).
  { rewrite app_assoc. apply Permutation_app_tail. assumption. }
  destruct (np_ready st ++ N) as [|x rest] eqn:Hready1.
  - apply app_eq_nil in Hready1. destruct Hready1 as [Hr0 HN0].
    rewrite HN0, app_nil_r in *. rewrite Hr0 in Hperm.
    assert (Hex : exists next, mathMin (unusedArrivals (np_used st) 0 ps) = Fin next).
    { apply mathMin_nonempty.
      assert (Hlen : length (np_used st) = np_completed st).
      { rewrite (Permutation_length Hperm), app_nil_r. auto. }
      destruct (goodSet_missing (length ps) (np_used st) Hused) as [j [Hj Hn]];
        [lia|].
      destruct (nth_error ps j) as [p|] eqn:Hp; [|apply nth_error_None in Hp; lia].
      assert (Hin : In (arrival p) (unusedArrivals (np_used st) 0 ps)).
      { apply unusedArrivals_In. exists j, p. rewrite Nat.sub_0_r.
        split; [lia|]. split; [assumption|]. split; [|reflexivity].
        apply has_notIn. assumption. }
      intro Hnil. rewrite Hnil in Hin. contradiction. }
    destruct Hex as [next Hm]. rewrite Hm.
    apply mathMin_fin in Hm. destruct Hm as [Hin _].
    apply unusedArrivals_In in Hin. destruct Hin as [j [p [_ [Hj [Hun Ha]]]]].
    rewrite Nat.sub_0_r in Hj.
    assert (Hlater : np_time st < next).
    { apply Qnot_le_lt. intro Hle.
      assert (HjN : In j N) by (apply newly_In0; split; [assumption|];
        exists p; split; [assumption|rewrite Ha; assumption]).
      rewrite HN0 in HjN. contradiction. }
    split.
    * constructor; cbn [np_blocks np_res np_completed np_time np_ready np_used].
      -- apply chain_snoc; assumption.
      -- assumption.
      -- exists dispatched. split; [assumption|]. split; [assumption|].
         intros id Hid. destruct (Hbusy id Hid) as [B O].
         rewrite busy_snoc, occurrences_snoc, carries_idle. split; [lra|lia].
      -- intros H. apply app_eq_nil in H. destruct H; discriminate.
    * unfold npMeasure. cbn [np_completed np_time].
      assert (later ps next < later ps (np_time st))%nat; [|lia].
      apply (later_decreases ps (np_time st) next p).
      -- lra.
      -- eapply nth_error_In; eassumption.
      -- rewrite Ha. assumption.
      -- rewrite Ha. apply Qle_refl.
  - pose proof (sortBy_perm (onIndex ps key) (x :: rest)) as Hsort.
    destruct (sortBy (onIndex ps key) (x :: rest)) as [|idx ready2] eqn:Hs.
    { apply Permutation_sym, Permutation_nil in Hsort. discriminate. }
    assert (Hidx : In idx (np_used st ++ N)).
    { apply (Permutation_in idx (Permutation_sym Hperm')). apply in_or_app. right.
      apply (Permutation_in idx (Permutation_sym Hsort)). now left. }
    assert (Hlt : (idx < length ps)%nat).
    { destruct Hgood' as [_ Hb]. rewrite Forall_forall in Hb. auto. }
    destruct (nth_error ps idx) as [p|] eqn:Hp; [|apply nth_error_None in Hp; lia].
    assert (Hpos : 0 < burst p).
    { rewrite Forall_forall in Hbursts. apply Hbursts.
      eapply nth_error_In; eassumption. }
    split.
    + constructor; cbn [np_blocks np_res np_completed np_time np_ready np_used].
      * apply chain_snoc; [assumption|lra].
      * assumption.
      * exists (dispatched ++ [idx]). split; [|split].
        -- rewrite Hperm', <- app_assoc. apply Permutation_app_head. assumption.
        -- rewrite length_app. simpl. lia.
        -- intros id Hid. destruct (Hbusy id Hid) as [B O].
           rewrite busy_snoc, occurrences_snoc, carries_proc by assumption.
           rewrite procsAt_app, demand_app, copies_app.
           unfold procsAt at 2 4. simpl. rewrite Hp. unfold copies at 2. simpl.
           destruct (String.eqb (pid p) id); simpl; split; try lra; lia.
      * intros H. apply app_eq_nil in H. destruct H; discriminate.
    + unfold npMeasure. cbn [np_completed np_time].
      pose proof (later_mono ps (np_time st) (np_time st + burst p)
                    ltac:(lra)). lia.
Qed.

Lemma np_exit (st : NPState) :
  NPInv ps t0 st -> npCond (length ps) st = false -> ps <> [] ->
  np_blocks st <> [] /\
  forall id, id <> IDLE ->
    busy id (np_blocks st) == demand id ps /\
    occurrences id (np_blocks st) = copies id ps.
Proof.
  intros [Hchain [Hnd Hb] [dispatched [Hperm [Hcount Hbusy]]] Hne] Hcond Hps.
  unfold npCond in Hcond. apply Nat.ltb_ge in Hcond. split.
  - intro H. apply Hne in H. destruct ps; [congruence|simpl in Hcond; lia].
  - assert (Hnd' : NoDup dispatched).
    { eapply NoDup_app_remove_r. eapply Permutation_NoDup; eassumption. }
    assert (Hall : Permutation dispatched (seq 0 (length ps))).
    { apply NoDup_Permutation_bis; [assumption|rewrite length_seq; lia|].
      intros j Hj. apply in_seq. rewrite Forall_forall in Hb.
      assert (In j (np_used st)).
      { apply (Permutation_in j (Permutation_sym Hperm)). apply in_or_app.
        now left. }
      specialize (Hb j H). lia. }
    intros id Hid. destruct (Hbusy id Hid) as [B O].
    pose proof (procsAt_perm ps _ _ Hall) as Hp. rewrite procsAt_all in Hp.
    rewrite B, O. split; [apply demand_perm|apply copies_perm]; assumption.
Qed.

Lemma np_loop_returns :
  ps <> [] ->
  forall fuel, (npMeasure ps (mkNP [] [] 0 t0 [] []) < fuel)%nat ->
  exists st, while (npCond (length ps)) (npBody key ps) fuel (mkNP [] [] 0 t0 [] [])
             = Returned st /\
             chain t0 (np_blocks st) (np_time st) /\ np_blocks st <> [] /\
             forall id, id <> IDLE ->
               busy id (np_blocks st) == demand id ps /\
               occurrences id (np_blocks st) = copies id ps.
Proof.
  intros Hps fuel Hfuel.
  destruct (while_total _ (npCond (length ps)) (npBody key ps) (NPInv ps t0)
              (npMeasure ps)) with (fuel := fuel) (s := mkNP [] [] 0 t0 [] [])
    as [st Hst].
  - intros s Hs Hc. pose proof (np_step s Hs Hc) as H.
    destruct (npBody key ps s); tauto.
  - apply npInit_inv.
  - assumption.
  - exists st. split; [assumption|].
    apply (while_post _ (npCond (length ps)) (npBody key ps) (NPInv ps t0)
             (fun s => chain t0 (np_blocks s) (np_time s) /\ np_blocks s <> [] /\
                forall id, id <> IDLE ->
                  busy id (np_blocks s) == demand id ps /\
                  occurrences id (np_blocks s) = copies id ps))
      with (fuel := fuel) (s := mkNP [] [] 0 t0 [] []).
    + intros s Hs Hc. split; [apply Hs|]. apply np_exit; assumption.
    + intros s Hs Hc. pose proof (np_step s Hs Hc) as H.
      destruct (npBody key ps s); tauto.
    + apply npInit_inv.
    + assumption.
Qed.
End NonPreemptiveFacts.

(** ** SRTF: the selection scan *)

Section PickFacts.
Variable localeCompare : string -> string -> Z.
Variable processes : list Process.
Variable rem : list Q.
Variable done : IdxSet.
Variable time : Q.

(** [j] is a candidate of the scan: not done, arrived, remaining > 0. *)
Let eligible (i : nat) (ps : list Process) (j : nat) : Prop :=
  (i <= j)%nat /\ has done j = false /\ 0 < nth j rem 0 /\
  exists p, nth_error ps (j - i) = Some p /\ arrival p <= time.

Lemma pick_keeps_some (ps : list Process) :
  forall i b br, exists b' br',
    pick localeCompare processes rem done time i ps (Some b) br = (Some b', br').
Proof.
  induction ps as [|p r IH]; intros i b br; simpl; [eauto|].
  destruct (has done i); [apply IH|].
  destruct (Qleb (arrival p) time && Qltb 0 (nth i rem 0)); [|apply IH].
  match goal with |- context [if ?c then _ else _] => destruct c end; apply IH.
Qed.

Lemma pick_none (ps : list Process) :
  forall i,
    fst (pick localeCompare processes rem done time i ps None PInf) = None ->
    forall j, ~ eligible i ps j.
Proof.
  induction ps as [|p r IH]; intros i; simpl.
  - intros _ j [_ [_ [_ [p [H _]]]]]. destruct (j - i)%nat; discriminate.
  - assert (Hrest : fst (pick localeCompare processes rem done time (S i) r None PInf)
                    = None ->
              forall j, (has done i = true \/
                         ~ (arrival p <= time /\ 0 < nth i rem 0)) ->
                        ~ eligible i (p :: r) j).
    { intros Hn j Hi [H1 [H2 [H3 [p' [H4 H5]]]]].
      destruct (Nat.eq_dec j i) as [->|Hne].
      - rewrite Nat.sub_diag in H4. simpl in H4. injection H4 as <-.
        destruct Hi as [Hi|Hi]; [congruence|tauto].
      - apply (IH (S i) Hn j). split; [lia|]. split; [assumption|].
        split; [assumption|]. exists p'.
        replace (j - i)%nat with (S (j - S i)) in H4 by lia. simpl in H4. auto. }
    destruct (has done i) eqn:Hd; [intros Hn j; apply Hrest; auto|].
    destruct (Qleb (arrival p) time) eqn:Ha; simpl;
      [|intros Hn j; apply Hrest; auto; right; qprop; intros [? _]; lra].
    destruct (Qltb 0 (nth i rem 0)) eqn:Hr; simpl;
      [|intros Hn j; apply Hrest; auto; right; qprop; intros [_ ?]; lra].
    intros Hn. exfalso.
    destruct (pick_keeps_some r (S i) i (Fin (nth i rem 0))) as [b' [br' E]].
    rewrite E in Hn. discriminate.
Qed.

Lemma pick_some (ps : list Process) :
  forall i best br b,
    fst (pick localeCompare processes rem done time i ps best br) = Some b ->
    best = Some b \/ eligible i ps b.
Proof.
  induction ps as [|p r IH]; intros i best br b; simpl; [auto|].
  assert (Hrest : forall best' br',
            fst (pick localeCompare processes rem done time (S i) r best' br')
            = Some b ->
            best' = Some b \/ eligible i (p :: r) b).
  { intros best' br' H. apply IH in H. destruct H as [H|[H1 [H2 [H3 [p' [H4 H5]]]]]];
      [now left|right].
    split; [lia|]. split; [assumption|]. split; [assumption|]. exists p'.
    replace (b - i)%nat with (S (b - S i)) by lia. simpl. auto. }
  destruct (has done i) eqn:Hd; [apply Hrest|].
  destruct (Qleb (arrival p) time) eqn:Ha; simpl; [|apply Hrest].
  destruct (Qltb 0 (nth i rem 0)) eqn:Hr; simpl; [|apply Hrest].
  match goal with |- context [if ?c then _ else _] => destruct c end;
    [|apply Hrest].
  intros H. apply Hrest in H. destruct H as [[= <-]|H]; [|now right].
  right. qprop. split; [lia|]. split; [assumption|]. split; [assumption|].
  exists p. rewrite Nat.sub_diag. auto.
Qed.
End PickFacts.

(** ** SRTF: the loop invariant *)

Lemma findPid_In (ps : list Process) (p : Process) :
  In p ps -> findPid ps (pid p) <> None.
Proof.
  intros Hin Hnone. unfold findPid in Hnone.
  apply (find_none _ _ Hnone) in Hin. rewrite String.eqb_refl in Hin. discriminate.
Qed.

Lemma closeBlock_some (ps : list Process) (lp : string) (s e : Q) :
  lp = IDLE \/ findPid ps lp <> None ->
  exists c, closeBlock ps lp s e = Some (mkBlock lp s e c).
Proof.
  intros H. unfold closeBlock. destruct (String.eqb_spec lp IDLE) as [E|E]; [eauto|].
  destruct H as [H|H]; [contradiction|].
  destruct (findPid ps lp); [eauto|contradiction].
Qed.

Lemma lastBlock_shape (ps : list Process) (lp : string) (s e : Q) :
  exists c, lastBlock ps lp s e = mkBlock lp s e c.
Proof.
  unfold lastBlock. destruct (String.eqb lp IDLE); [eauto|].
  destruct (findPid ps lp); eauto.
Qed.

Lemma lastArrival_ge (ps : list Process) (p : Process) :
  In p ps -> arrival p <= lastArrival ps.
Proof.
  induction ps as [|a r IH]; simpl; [tauto|]. intros [->|Hin].
  - apply Q.le_max_l.
  - eapply Qle_trans; [apply IH; assumption|apply Q.le_max_r].
Qed.

Lemma ticksLeft_mono (a b : Q) : a <= b -> (ticksLeft a <= ticksLeft b)%nat.
Proof.
  intros H. unfold ticksLeft. apply Qceiling_resp_le in H. lia.
Qed.

Lemma ticksLeft_pred (r : Q) : 0 < r -> (ticksLeft (r - 1) < ticksLeft r)%nat.
Proof.
  intros H. unfold ticksLeft. pose proof (Qceiling_pos r H).
  pose proof (Qceiling_pred r). lia.
Qed.

Lemma whole_pred (r : Q) :
  (exists k : nat, r == inject_Z (Z.of_nat k)) -> 0 < r ->
  exists k : nat, r - 1 == inject_Z (Z.of_nat k).
Proof.
  intros [k Hk] Hr. destruct k as [|k].
  - simpl in Hk. exfalso. rewrite Hk in Hr. apply (Qlt_irrefl 0). exact Hr.
  - exists k. rewrite Hk, Nat2Z.inj_succ. unfold Z.succ. rewrite inject_Z_plus.
    change (inject_Z 1) with 1. lra.
Qed.

Lemma whole_positive (r : Q) :
  (exists k : nat, r == inject_Z (Z.of_nat k)) -> ~ r == 0 -> 0 < r.
Proof.
  intros [k Hk] Hr. destruct k as [|k].
  - simpl in Hk. contradiction.
  - rewrite Hk. change 0 with (inject_Z 0). rewrite <- Zlt_Qlt. lia.
Qed.

Section SrtfFacts.
Variable localeCompare : string -> string -> Z.
Variable ps : list Process.
Variable t0 : Q.
Hypothesis Hbursts : Forall (fun p => 0 < burst p) ps.

Lemma srtfInit_inv : SrtfInv ps t0 (srtfInit ps t0).
Proof.
  unfold srtfInit. constructor; simpl.
  - reflexivity.
  - auto.
  - apply length_map.
  - split; constructor.
  - tauto.
  - intros i Hi Hz. exfalso.
    destruct (nth_error ps i) as [p|] eqn:Hp; [|apply nth_error_None in Hp; lia].
    rewrite (nth_burst ps i p Hp) in Hz. rewrite Forall_forall in Hbursts.
    pose proof (Hbursts p (nth_error_In _ _ Hp)). lra.
  - intros id _. rewrite remaining_init. lra.
  - intros i p _ H. exfalso. revert H. clear. revert i.
    induction ps as [|a r IH]; intros [|i]; simpl; try discriminate. apply IH.
  - intros Hw i Hi.
    destruct (nth_error ps i) as [p|] eqn:Hp; [|apply nth_error_None in Hp; lia].
    rewrite (nth_burst ps i p Hp). unfold wholeBursts in Hw.
    rewrite Forall_forall in Hw. apply Hw. eapply nth_error_In; eassumption.
Qed.

Lemma srtf_idle (st : SrtfState) :
  SrtfInv ps t0 st -> srtfCond (length ps) st = true ->
  fst (pick localeCompare ps (s_rem st) (s_done st) (s_time st) 0 ps None PInf)
    = None ->
  match srtfBody localeCompare ps st with
  | Next st' => SrtfInv ps t0 st' /\
                (wholeBursts ps -> (srtfMeasure ps st' < srtfMeasure ps st)%nat)
  | Break _ => False
  | Crash _ => False
  end.
Proof.
  intros Hinv Hcond Hpick. unfold srtfBody. rewrite Hpick.
  unfold srtfCond in Hcond. apply Nat.ltb_lt in Hcond.
  assert (Hmeas : forall blocks1 last1 start1,
            wholeBursts ps ->
            (srtfMeasure ps (mkSrtf blocks1 (s_res st) (s_rem st) (s_started st)
                               (s_time st + 1) last1 start1 (s_done st))
             < srtfMeasure ps st)%nat).
  { intros blocks1 last1 start1 Hw. unfold srtfMeasure. cbn [s_rem s_time].
    destruct (goodSet_missing _ _ (si_done Hinv) Hcond) as [i [Hi Hn]].
    destruct (nth_error ps i) as [p|] eqn:Hp; [|apply nth_error_None in Hp; lia].
    assert (Hpos : 0 < nth i (s_rem st) 0).
    { apply whole_positive; [apply (si_whole Hinv Hw Hi)|].
      intro Hz. apply Hn. apply (si_zero_done Hinv); assumption. }
    assert (Hlate : s_time st < arrival p).
    { apply Qnot_le_lt. intro Hle.
      apply (pick_none localeCompare ps (s_rem st) (s_done st) (s_time st) ps 0
               Hpick i).
      split; [lia|]. split; [apply has_notIn; assumption|]. split; [assumption|].
      exists p. rewrite Nat.sub_0_r. auto. }
    pose proof (lastArrival_ge ps p (nth_error_In _ _ Hp)) as Hla.
    pose proof (ticksLeft_pred (lastArrival ps - s_time st) ltac:(lra)) as Ht.
    assert (E : lastArrival ps - (s_time st + 1) == lastArrival ps - s_time st - 1)
      by lra.
    unfold ticksLeft in *. rewrite (Qceiling_comp _ _ E). lia. }
  destruct Hinv.
  destruct (s_lastPID st) as [lp|] eqn:Hlast.
  - destruct si_open0 as [Hopen Hknown].
    destruct (String.eqb_spec lp IDLE) as [->|Hidle].
    + split; [|apply Hmeas].
      constructor; cbn [s_blocks s_res s_rem s_started s_time s_lastPID
                        s_blockStart s_done]; try assumption.
      * split; [lra|auto].
      * intros id Hid. specialize (si_busy0 id Hid).
        unfold openRun in *.
        destruct (String.eqb_spec IDLE id) as [E|E]; [congruence|assumption].
    + destruct (closeBlock_some ps lp (s_blockStart st) (s_time st) Hknown)
        as [c ->].
      split; [|apply Hmeas].
      constructor; cbn [s_blocks s_res s_rem s_started s_time s_lastPID
                        s_blockStart s_done]; try assumption.
      * apply chain_snoc; assumption.
      * split; [lra|auto].
      * intros id Hid. specialize (si_busy0 id Hid).
        rewrite busy_snoc, carries_proc by assumption. cbn [b_start b_end].
        unfold openRun in *.
        destruct (String.eqb_spec IDLE id) as [E|E]; [congruence|].
        destruct (String.eqb lp id); lra.
  - destruct si_open0 as [Hb0 [Hs0 Hd0]].
    split; [|apply Hmeas].
    constructor; cbn [s_blocks s_res s_rem s_started s_time s_lastPID
                      s_blockStart s_done]; try assumption.
    + rewrite <- Hs0. assumption.
    + split; [lra|auto].
    + intros id Hid. specialize (si_busy0 id Hid). unfold openRun in *.
      destruct (String.eqb_spec IDLE id) as [E|E]; [congruence|]. lra.
Qed.

Lemma srtf_run (st : SrtfState) (best : nat) :
  SrtfInv ps t0 st ->
  fst (pick localeCompare ps (s_rem st) (s_done st) (s_time st) 0 ps None PInf)
    = Some best ->
  match srtfBody localeCompare ps st with
  | Next st' => SrtfInv ps t0 st' /\ (srtfMeasure ps st' < srtfMeasure ps st)%nat
  | Break _ => False
  | Crash _ => False
  end.
Proof.
  intros Hinv Hpick. unfold srtfBody. rewrite Hpick.
  apply pick_some in Hpick. destruct Hpick as [[=]|[_ [Hnd [Hpos [p [Hp Harr]]]]]].
  rewrite Nat.sub_0_r in Hp. rewrite Hp. cbv beta iota zeta.
  destruct Hinv.
  assert (Hlt : (best < length ps)%nat) by (eapply nth_error_lt; eassumption).
  assert (Hin : In p ps) by (eapply nth_error_In; eassumption).
  rewrite nth_setNth_same by lia.
  set (r := nth best (s_rem st) 0) in *.
  set (rem1 := setNth best (r - 1) (s_rem st)).
  set (res1 := if negb (nth best (s_started st) false) then mapSet _ _ _ else _).
  set (started1 := if negb (nth best (s_started st) false) then setNth _ _ _ else _).
  assert (Hother : forall j, j <> best -> nth j rem1 0 = nth j (s_rem st) 0).
  { intros j Hj. apply nth_setNth_other. congruence. }
  assert (Hsame : nth best rem1 0 = r - 1) by (apply nth_setNth_same; lia).
  assert (Hlen1 : length rem1 = length ps)
    by (unfold rem1; rewrite length_setNth; assumption).
  assert (Hrem1 : forall id, remaining id ps rem1 ==
            remaining id ps (s_rem st) - (if String.eqb (pid p) id then 1 else 0)).
  { intros id. unfold rem1.
    rewrite (remaining_setNth id ps (s_rem st) best p (r - 1) si_rem_len0 Hp).
    fold r. destruct (String.eqb (pid p) id); lra. }
  assert (Hwhole1 : wholeBursts ps -> forall i, (i < length ps)%nat ->
            exists k : nat, nth i rem1 0 == inject_Z (Z.of_nat k)).
  { intros Hw i Hi. destruct (Nat.eq_dec i best) as [->|Hne].
    - rewrite Hsame. apply whole_pred; [apply si_whole0; assumption|assumption].
    - rewrite (Hother i Hne). apply si_whole0; assumption. }
  assert (Hmeas : forall blocks1 res' started' last1 start1 done',
            (srtfMeasure ps (mkSrtf blocks1 res' rem1 started' (s_time st + 1)
                               last1 start1 done')
             < srtfMeasure ps st)%nat).
  { intros. unfold srtfMeasure. cbn [s_rem s_time].
    pose proof (list_sum_setNth ticksLeft (s_rem st) best (r - 1) ltac:(lia)) as Hs.
    fold r in Hs. fold rem1 in Hs. pose proof (ticksLeft_pred r Hpos) as Ht.
    pose proof (ticksLeft_mono (lastArrival ps - (s_time st + 1))
                  (lastArrival ps - s_time st) ltac:(lra)). lia. }
  assert (HF1 : mapGet (pid p) res1 <> None).
  { unfold res1. destruct (nth best (s_started st) false) eqn:Hst; simpl.
    - apply (si_started0 best p Hp Hst).
    - rewrite mapGet_mapSet, String.eqb_refl. discriminate. }
  assert (HF2 : forall j p', nth_error ps j = Some p' ->
            nth j started1 false = true -> mapGet (pid p') res1 <> None).
  { intros j p' Hj Hn. destruct (Nat.eq_dec j best) as [->|Hne].
    - assert (p' = p) by congruence. subst p'. assumption.
    - unfold res1, started1 in *.
      destruct (nth best (s_started st) false) eqn:Hst; simpl in *.
      + eauto.
      + rewrite nth_setNth_other in Hn by congruence.
        rewrite mapGet_mapSet. destruct (String.eqb (pid p) (pid p'));
          [discriminate|eauto]. }
  assert (HF2' : forall r' j p', nth_error ps j = Some p' ->
            nth j started1 false = true ->
            mapGet (pid p') (mapSet (pid p) r' res1) <> None).
  { intros r' j p' Hj Hn. rewrite mapGet_mapSet.
    destruct (String.eqb (pid p) (pid p')); [discriminate|eauto]. }
  assert (HdoneB : ~ r - 1 == 0 ->
            (forall i, In i (s_done st) -> nth i rem1 0 == 0) /\
            (forall i, (i < length ps)%nat -> nth i rem1 0 == 0 -> In i (s_done st))).
  { intros Hnz. split.
    - intros i Hi. assert (Hne : i <> best).
      { intros ->. apply has_notIn in Hnd. contradiction. }
      rewrite (Hother i Hne). auto.
    - intros i Hi Hz. destruct (Nat.eq_dec i best) as [->|Hne].
      + rewrite Hsame in Hz. contradiction.
      + rewrite (Hother i Hne) in Hz. auto. }
  assert (HdoneA : r - 1 == 0 ->
            goodSet (length ps) (add (s_done st) best) /\
            (forall i, In i (add (s_done st) best) -> nth i rem1 0 == 0) /\
            (forall i, (i < length ps)%nat -> nth i rem1 0 == 0 ->
                       In i (add (s_done st) best))).
  { intros Hz. rewrite add_fresh by assumption. split; [|split].
    - destruct si_done0 as [Hn Hb]. split.
      + apply NoDup_app; [assumption|constructor; [simpl; tauto|constructor]|].
        intros j Hj [<-|[]]. apply has_notIn in Hnd. contradiction.
      + apply Forall_app. split; [assumption|]. constructor; [assumption|constructor].
    - intros i Hi. apply in_app_or in Hi. destruct Hi as [Hi|[<-|[]]].
      + assert (Hne : i <> best).
        { intros ->. apply has_notIn in Hnd. contradiction. }
        rewrite (Hother i Hne). auto.
      + rewrite Hsame. assumption.
    - intros i Hi Hzi. apply in_or_app. destruct (Nat.eq_dec i best) as [->|Hne].
      + right. now left.
      + left. rewrite (Hother i Hne) in Hzi. auto. }
  assert (Hknown : pid p = IDLE \/ findPid ps (pid p) <> None)
    by (right; apply findPid_In; assumption).
  (* the timeline part, by what was running before *)
  assert (Htimeline : exists blocks1 last1 start1,
    (if match s_lastPID st with
        | Some lp => negb (String.eqb lp (pid p)) | None => true end
     then match s_lastPID st with
          | Some lp => match closeBlock ps lp (s_blockStart st) (s_time st) with
                       | Some b => Some (s_blocks st ++ [b])
                       | None => None
                       end
          | None => Some (s_blocks st)
          end
     else Some (s_blocks st)) = Some blocks1 /\
    (if match s_lastPID st with
        | Some lp => negb (String.eqb lp (pid p)) | None => true end
     then Some (pid p) else s_lastPID st) = Some last1 /\
    (if match s_lastPID st with
        | Some lp => negb (String.eqb lp (pid p)) | None => true end
     then s_time st else s_blockStart st) = start1 /\
    chain t0 blocks1 start1 /\ start1 < s_time st + 1 /\
    (last1 = IDLE \/ findPid ps last1 <> None) /\
    forall id, id <> IDLE ->
      busy id blocks1 + openRun id (Some last1) (s_time st + 1 - start1)
      + remaining id ps rem1 == demand id ps).
  { destruct (s_lastPID st) as [lp|] eqn:Hlast.
    - destruct si_open0 as [Hopen Hk].
      destruct (String.eqb_spec lp (pid p)) as [->|Hne]; simpl.
      + exists (s_blocks st), (pid p), (s_blockStart st).
        repeat split; try assumption; try reflexivity; [lra|].
        intros id Hid. specialize (si_busy0 id Hid). rewrite Hrem1.
        unfold openRun in *. destruct (String.eqb (pid p) id); lra.
      + destruct (closeBlock_some ps lp (s_blockStart st) (s_time st) Hk) as [c ->].
        eexists _, (pid p), (s_time st).
        repeat split; try reflexivity; try assumption.
        * apply chain_snoc; assumption.
        * lra.
        * intros id Hid. specialize (si_busy0 id Hid). rewrite Hrem1.
          rewrite busy_snoc, carries_proc by assumption. cbn [b_start b_end].
          unfold openRun in *.
          destruct (String.eqb lp id), (String.eqb (pid p) id); lra.
    - destruct si_open0 as [Hb0 [Hs0 Hd0]].
      exists (s_blocks st), (pid p), (s_time st).
      repeat split; try reflexivity; try assumption.
      + rewrite <- Hs0. assumption.
      + lra.
      + intros id Hid. specialize (si_busy0 id Hid). rewrite Hrem1.
        unfold openRun in *. destruct (String.eqb (pid p) id); lra. }
  destruct Htimeline as [blocks1 [last1 [start1 [-> [-> [-> [Hch [Hop [Hkn Hbz]]]]]]]]].
  destruct (Qeq_bool (r - 1) 0) eqn:Hzero; qprop.
  - destruct (mapGet (pid p) res1) as [r0|] eqn:Hget; [|contradiction].
    destruct (HdoneA Hzero) as [Hg [Hz1 Hz2]].
    split; [|apply Hmeas].
    constructor; cbn [s_blocks s_res s_rem s_started s_time s_lastPID
                      s_blockStart s_done]; auto.
    apply HF2'.
  - destruct (HdoneB Hzero) as [Hz1 Hz2].
    split; [|apply Hmeas].
    constructor; cbn [s_blocks s_res s_rem s_started s_time s_lastPID
                      s_blockStart s_done]; auto.
Qed.

Lemma srtf_step (st : SrtfState) :
  SrtfInv ps t0 st -> srtfCond (length ps) st = true ->
  match srtfBody localeCompare ps st with
  | Next st' => SrtfInv ps t0 st' /\
                (wholeBursts ps -> (srtfMeasure ps st' < srtfMeasure ps st)%nat)
  | Break _ => False
  | Crash _ => False
  end.
Proof.
  intros Hinv Hcond.
  destruct (fst (pick localeCompare ps (s_rem st) (s_done st) (s_time st) 0 ps
                   None PInf)) as [best|] eqn:Hpick.
  - pose proof (srtf_run st best Hinv Hpick) as H.
    destruct (srtfBody localeCompare ps st); tauto.
  - apply srtf_idle; assumption.
Qed.

Lemma srtf_exit (st : SrtfState) :
  SrtfInv ps t0 st -> srtfCond (length ps) st = false -> ps <> [] ->
  let r := srtfFinish ps st in
  covers t0 r /\
  forall id, id <> IDLE -> busy id (blocks r) == demand id ps.
Proof.
  intros Hinv Hcond Hps. destruct Hinv.
  unfold srtfCond in Hcond. apply Nat.ltb_ge in Hcond.
  assert (Hzero : forall id, remaining id ps (s_rem st) == 0).
  { intros id. apply remaining_zero; [assumption|]. intros i Hi.
    apply si_done_zero0. apply goodSet_full with (n := length ps); assumption. }
  unfold srtfFinish. destruct (s_lastPID st) as [lp|] eqn:Hlast.
  - destruct si_open0 as [Hopen _].
    destruct (lastBlock_shape ps lp (s_blockStart st) (s_time st)) as [c ->].
    assert (Hch : chain t0 (s_blocks st ++ [mkBlock lp (s_blockStart st) (s_time st) c])
                    (s_time st)) by (apply chain_snoc; assumption).
    rewrite (chain_filter _ _ _ Hch). cbv zeta. split.
    + apply chain_covers; [|assumption].
      intro H. apply app_eq_nil in H. destruct H; discriminate.
    + intros id Hid. cbn [blocks]. specialize (si_busy0 id Hid).
      rewrite busy_snoc, carries_proc by assumption. cbn [b_start b_end].
      rewrite Hzero in si_busy0. unfold openRun in si_busy0.
      destruct (String.eqb lp id); lra.
  - destruct si_open0 as [_ [_ Hd]]. rewrite Hd in Hcond. simpl in Hcond.
    destruct ps; [congruence|simpl in Hcond; lia].
Qed.

Hypothesis Hmin : mathMin (map arrival ps) = Fin t0.
Hypothesis Hne : ps <> [].

(** Whatever [srtf] returns covers the timeline and conserves bursts. *)
Lemma srtf_partial (fuel : nat) (r : SimulationResult) :
  srtf localeCompare fuel ps = Returned r ->
  covers t0 r /\ forall id, id <> IDLE -> busy id (blocks r) == demand id ps.
Proof.
  unfold srtf. rewrite Hmin.
  destruct (while (srtfCond (length ps)) (srtfBody localeCompare ps) fuel _)
    as [st| |] eqn:Hw; try discriminate.
  intros [= <-].
  apply (while_post _ (srtfCond (length ps)) (srtfBody localeCompare ps)
           (SrtfInv ps t0)
           (fun s => covers t0 (srtfFinish ps s) /\
              forall id, id <> IDLE ->
                busy id (blocks (srtfFinish ps s)) == demand id ps))
    with (fuel := fuel) (3 := srtfInit_inv) (4 := Hw).
  - intros s Hs Hc. apply srtf_exit; assumption.
  - intros s Hs Hc. pose proof (srtf_step s Hs Hc) as H.
    destruct (srtfBody localeCompare ps s); tauto.
Qed.

(** With whole-number bursts [srtf] returns. *)
Lemma srtf_total (fuel : nat) :
  wholeBursts ps ->
  (srtfMeasure ps (srtfInit ps t0) < fuel)%nat ->
  exists r, srtf localeCompare fuel ps = Returned r.
Proof.
  intros Hw Hfuel. unfold srtf. rewrite Hmin.
  destruct (while_total _ (srtfCond (length ps)) (srtfBody localeCompare ps)
              (SrtfInv ps t0) (srtfMeasure ps)) with (fuel := fuel)
    (s := srtfInit ps t0) as [st Hst].
  - intros s Hs Hc. pose proof (srtf_step s Hs Hc) as H.
    destruct (srtfBody localeCompare ps s); tauto.
  - apply srtfInit_inv.
  - assumption.
  - rewrite Hst. eauto.
Qed.
End SrtfFacts.

(** ** The five functions on valid input *)

Lemma valid_nonempty (ps : list Process) : validSet ps -> ps <> [].
Proof. intros [H _]. exact H. Qed.

Lemma nonPreemptive_returns (key : Process -> Process -> Q) (ps : list Process)
    (t0 : Q) (fuel : nat) :
  validSet ps -> mathMin (map arrival ps) = Fin t0 ->
  (2 * length ps < fuel)%nat ->
  exists r, nonPreemptive key fuel ps = Returned r /\ covers t0 r /\
    forall id, id <> IDLE ->
      busy id (blocks r) == demand id ps /\ occurrences id (blocks r) = copies id ps.
Proof.
  intros Hv Hmin Hfuel.
  destruct (np_loop_returns key ps t0 (valid_bursts ps Hv) (valid_nonempty ps Hv) fuel)
    as [st [Hst [Hch [Hne Hb]]]].
  - unfold npMeasure, later. simpl.
    pose proof (filter_length_le (fun p => Qltb t0 (arrival p)) ps). lia.
  - unfold nonPreemptive. rewrite Hmin, Hst. eexists. split; [reflexivity|].
    split; [apply chain_covers; assumption|exact Hb].
Qed.

Lemma roundRobin_returns (ps : list Process) (q : jsnum) (t0 : Q) (fuel : nat) :
  gt0 q = true -> validSet ps -> mathMin (map arrival ps) = Fin t0 ->
  (rrMeasure q (length ps) (rrInit ps t0) < fuel)%nat ->
  exists st, while (rrCond (length ps)) (rrBody ps q) fuel (rrInit ps t0) = Returned st /\
    roundRobin fuel ps q = Returned (mkSim (rr_blocks st) (rr_res st) (Fin (rr_time st))) /\
    RRInv ps t0 st /\ rrFinal (length ps) st /\
    covers t0 (mkSim (rr_blocks st) (rr_res st) (Fin (rr_time st))) /\
    forall id, id <> IDLE -> busy id (rr_blocks st) == demand id ps.
Proof.
  intros Hq Hv Hmin Hfuel.
  destruct (rr_loop_returns ps q t0 Hq Hv Hmin fuel Hfuel) as [st [Hst [Hinv Hfin]]].
  exists st. split; [assumption|]. split.
  - unfold roundRobin. rewrite Hq, Hmin, Hst. reflexivity.
  - split; [assumption|]. split; [assumption|]. split.
    + apply chain_covers; [eapply rr_final_blocks; eassumption|apply Hinv].
    + eapply rr_final_busy; eassumption.
Qed.

Lemma returnsWith_impl {A : Type} (run : nat -> Outcome A) (P Q : A -> Prop) :
  (forall r, P r -> Q r) -> returnsWith run P -> returnsWith run Q.
Proof.
  intros H [fuel0 Hf]. exists fuel0. intros fuel Hle.
  destruct (Hf fuel Hle) as [r [Hr Hp]]. eauto.
Qed.

Lemma nonPreemptive_returnsWith (key : Process -> Process -> Q) (ps : list Process)
    (t0 : Q) :
  validSet ps -> mathMin (map arrival ps) = Fin t0 ->
  returnsWith (fun fuel => nonPreemptive key fuel ps)
    (fun r => covers t0 r /\
       forall id, id <> IDLE ->
         busy id (blocks r) == demand id ps /\
         occurrences id (blocks r) = copies id ps).
Proof.
  intros Hv Hmin. exists (S (2 * length ps)). intros fuel Hle.
  apply nonPreemptive_returns; [assumption|assumption|lia].
Qed.

Lemma roundRobin_returnsWith (ps : list Process) (q : jsnum) (t0 : Q) :
  gt0 q = true -> validSet ps -> mathMin (map arrival ps) = Fin t0 ->
  returnsWith (fun fuel => roundRobin fuel ps q)
    (fun r => covers t0 r /\
       forall id, id <> IDLE -> busy id (blocks r) == demand id ps).
Proof.
  intros Hq Hv Hmin. exists (S (rrMeasure q (length ps) (rrInit ps t0))).
  intros fuel Hle.
  destruct (roundRobin_returns ps q t0 fuel Hq Hv Hmin ltac:(lia))
    as [st [_ [Hr [_ [_ [Hc Hb]]]]]].
  eexists. split; [exact Hr|]. split; assumption.
Qed.

Lemma srtf_returnsWith (localeCompare : string -> string -> Z) (ps : list Process)
    (t0 : Q) :
  validSet ps -> mathMin (map arrival ps) = Fin t0 -> wholeBursts ps ->
  returnsWith (fun fuel => srtf localeCompare fuel ps)
    (fun r => covers t0 r /\
       forall id, id <> IDLE -> busy id (blocks r) == demand id ps).
Proof.
  intros Hv Hmin Hw.
  exists (S (srtfMeasure ps (srtfInit ps t0))).
  intros fuel Hle.
  destruct (srtf_total localeCompare ps t0 (valid_bursts ps Hv) Hmin fuel Hw
              ltac:(lia)) as [r Hr].
  exists r. split; [assumption|].
  apply (srtf_partial localeCompare ps t0 (valid_bursts ps Hv) Hmin
           (valid_nonempty ps Hv) fuel r Hr).
Qed.

(* ================================================================== *)
(** * Double arithmetic *)

(** ** Rounding is exact on whole numbers up to 2^53 *)

Lemma pow2_neg (j : Z) : (0 <= j)%Z -> pow2 (- j) == / inject_Z (2 ^ j).
Proof.
  intros Hj. unfold pow2. rewrite Qpower_opp. apply Qinv_comp.
  rewrite Zpower_Qpower by assumption. reflexivity.
Qed.

Lemma Qred_inject (k : Z) : Qred (inject_Z k) = inject_Z k.
Proof.
  unfold Qred, inject_Z.
  pose proof (Z.ggcd_gcd k 1) as Hg. pose proof (Z.ggcd_correct_divisors k 1) as Hd.
  destruct (Z.ggcd k 1) as [g [a b]]. simpl in Hg. rewrite Z.gcd_1_r in Hg. subst g.
  destruct Hd as [Ha Hb]. rewrite Z.mul_1_l in Ha, Hb. subst. reflexivity.
Qed.

Lemma Qred_whole (q : Q) (k : Z) : q == inject_Z k -> Qred q = inject_Z k.
Proof. intros H. rewrite (Qred_complete _ _ H). apply Qred_inject. Qed.

Lemma roundHalfEven_whole (x : Q) (m : Z) : x == inject_Z m -> roundHalfEven x = m.
Proof.
  intros H. unfold roundHalfEven.
  assert (F : Qfloor x = m) by (rewrite H; apply Qfloor_Z).
  rewrite F.
  assert (E : (x - inject_Z m ?= 1 # 2) = Lt).
  { apply (proj1 (Qlt_alt _ _)). rewrite H. ring_simplify. reflexivity. }
  rewrite E. reflexivity.
Qed.

Lemma ilog2_whole (k : Z) : (Z.abs k < 2 ^ 53)%Z -> (ilog2 (inject_Z k) <= 52)%Z.
Proof.
  intros Hk. unfold ilog2. simpl Qnum. simpl Qden. change (Z.log2 1) with 0%Z.
  assert (Hl : (Z.log2 (Z.abs k) <= 52)%Z).
  { destruct (Z.eq_dec (Z.abs k) 0) as [E|E]; [rewrite E; simpl; lia|].
    assert (Z.log2 (Z.abs k) < 53)%Z; [|lia].
    apply Z.log2_lt_pow2; lia. }
  destruct (Qle_bool _ _); lia.
Qed.

Lemma round64_inject (k : Z) : (Z.abs k <= 2 ^ 53)%Z -> round64 (inject_Z k) = inject_Z k.
Proof.
  intros Hk. destruct (Z.eq_dec (Z.abs k) (2 ^ 53)) as [Hmax|Hlt].
  { assert (Hc : k = (2 ^ 53)%Z \/ k = (- 2 ^ 53)%Z) by lia.
    destruct Hc as [-> | ->]; vm_compute; reflexivity. }
  assert (Hk' : (Z.abs k < 2 ^ 53)%Z) by lia.
  unfold round64. rewrite Qred_inject.
  destruct (Qeq_bool (inject_Z k) 0) eqn:E.
  - apply Qeq_bool_eq in E. apply Qred_whole in E. rewrite Qred_inject in E.
    symmetry. exact E.
  - set (e := Z.max (ilog2 (inject_Z k) - 52) (-1074)).
    assert (He : (e <= 0)%Z) by (pose proof (ilog2_whole k Hk'); lia).
    assert (Hp : pow2 e == / inject_Z (2 ^ (- e))).
    { rewrite <- (pow2_neg (- e)) by lia. rewrite Z.opp_involutive. reflexivity. }
    assert (Hnz : ~ inject_Z (2 ^ (- e)) == 0).
    { intro H0. assert (H1 : (0 < 2 ^ (- e))%Z) by (apply Z.pow_pos_nonneg; lia).
      rewrite (Zlt_Qlt 0 (2 ^ (- e))) in H1. rewrite H0 in H1.
      revert H1. apply Qlt_irrefl. }
    assert (Hm : inject_Z k / pow2 e == inject_Z (k * 2 ^ (- e))).
    { rewrite Hp. rewrite inject_Z_mult. field. exact Hnz. }
    rewrite (roundHalfEven_whole _ _ Hm).
    apply Qred_whole. rewrite Hp. rewrite inject_Z_mult. field. exact Hnz.
Qed.

Lemma whole_inject (x : Q) : whole x -> x = inject_Z (Qnum x).
Proof. destruct x as [n d]. unfold whole. simpl. intros ->. reflexivity. Qed.

Lemma whole_Z (k : Z) : whole (inject_Z k).
Proof. reflexivity. Qed.

Lemma whole_plus (x y : Q) : whole x -> whole y -> whole (x + y).
Proof. unfold whole. destruct x, y. simpl. intros -> ->. reflexivity. Qed.

Lemma whole_minus (x y : Q) : whole x -> whole y -> whole (x - y).
Proof. unfold whole. destruct x, y. simpl. intros -> ->. reflexivity. Qed.

Lemma whole_min (x y : Q) : whole x -> whole y -> whole (Qmin x y).
Proof. intros Hx Hy. destruct (Qmin_cases x y) as [[-> _]|[-> _]]; assumption. Qed.

Lemma Qabs_bound (x b : Q) : - b <= x -> x <= b -> Qabs x <= b.
Proof. intros H1 H2. apply Qabs_case; intros; lra. Qed.

Lemma Qabs_range (x b : Q) : Qabs x <= b -> - b <= x /\ x <= b.
Proof.
  intros H. pose proof (Qle_Qabs x). pose proof (Qle_Qabs (- x)) as H1.
  rewrite Qabs_opp in H1. split; lra.
Qed.

(** A double holds every whole number up to [2^53]. *)
Lemma round64_exact (x : Q) : whole x -> Qabs x <= two53 -> round64 x = x.
Proof.
  intros Hw Hb. rewrite (whole_inject x Hw) in *. apply round64_inject.
  destruct (Qabs_range _ _ Hb) as [H1 H2]. unfold two53 in *.
  rewrite <- inject_Z_opp in H1. rewrite <- Zle_Qle in H1, H2. lia.
Qed.

Lemma two53_pos : 0 < two53.
Proof. reflexivity. Qed.

Lemma fadd_whole (x y : Q) :
  whole x -> whole y -> 0 <= x -> 0 <= y -> x + y <= two53 -> fadd x y = x + y.
Proof.
  intros Hx Hy H1 H2 H3. unfold fadd. apply round64_exact.
  - apply whole_plus; assumption.
  - pose proof two53_pos. apply Qabs_bound; lra.
Qed.

Lemma fsub_whole (x y : Q) : wholeTime x -> wholeTime y -> fsub x y = x - y.
Proof.
  intros [Hx [X0 X1]] [Hy [Y0 Y1]]. unfold fsub. apply round64_exact.
  - apply whole_minus; assumption.
  - apply Qabs_bound; lra.
Qed.

Lemma wholeTime_one : wholeTime 1.
Proof. split; [reflexivity|]. split; vm_compute; discriminate. Qed.

(** ** Rounding keeps the sign of a difference of doubles *)

Lemma pow2_pos (e : Z) : 0 < pow2 e.
Proof. unfold pow2. apply Qpower_0_lt. reflexivity. Qed.

Lemma pow2_plus (a b : Z) : pow2 (a + b) == pow2 a * pow2 b.
Proof. unfold pow2. apply Qpower_plus. discriminate. Qed.

Lemma pow2_le (a b : Z) : (a <= b)%Z -> pow2 a <= pow2 b.
Proof. intros H. unfold pow2. apply Qpower_le_compat_l; [assumption|]. discriminate. Qed.

Lemma pow2_nonneg_Z (j : Z) : (0 <= j)%Z -> pow2 j == inject_Z (2 ^ j).
Proof. intros H. unfold pow2. rewrite Zpower_Qpower by assumption. reflexivity. Qed.

(** [2^(ilog2 y) <= |y|] *)
Lemma ilog2_le (y : Q) : ~ y == 0 -> pow2 (ilog2 y) <= Qabs y.
Proof.
  intros Hy. unfold ilog2.
  set (n := Z.log2 (Z.abs (Qnum y))). set (d := Z.log2 (Zpos (Qden y))).
  destruct (Qle_bool (pow2 (n - d)) (Qabs y)) eqn:E.
  - apply Qle_bool_iff. assumption.
  - assert (Hn : (0 < Z.abs (Qnum y))%Z).
    { destruct y as [a b]. unfold Qeq in Hy. simpl in *. lia. }
    destruct (Z.log2_spec _ Hn) as [Hn1 _]. fold n in Hn1.
    destruct (Z.log2_spec (Zpos (Qden y)) ltac:(lia)) as [_ Hd2]. fold d in Hd2.
    assert (Hn0 : (0 <= n)%Z) by apply Z.log2_nonneg.
    assert (Hd0 : (0 <= d)%Z) by apply Z.log2_nonneg.
    replace (n - d - 1)%Z with (n + - (d + 1))%Z by lia.
    rewrite pow2_plus. unfold pow2 at 2. rewrite Qpower_opp.
    fold (pow2 (d + 1)). rewrite !pow2_nonneg_Z by lia.
    assert (Hp : (0 < 2 ^ (Z.succ d))%Z) by (apply Z.pow_pos_nonneg; lia).
    replace (d + 1)%Z with (Z.succ d) by lia.
    destruct y as [a b]. simpl in *. unfold Qabs.
    unfold Qle, Qmult, Qinv, inject_Z. simpl.
    destruct (2 ^ Z.succ d)%Z as [|pp|pp] eqn:Epp; try lia. simpl.
    nia.
Qed.

Lemma roundHalfEven_range (z : Q) :
  (Qfloor z <= roundHalfEven z <= Qfloor z + 1)%Z.
Proof.
  unfold roundHalfEven. destruct (Qcompare _ _); [destruct (Z.even _)| |]; lia.
Qed.

Lemma roundHalfEven_pos (z : Q) : 1 <= z -> (1 <= roundHalfEven z)%Z.
Proof.
  intros H. pose proof (roundHalfEven_range z) as [H1 _].
  assert (Qfloor 1 <= Qfloor z)%Z by (apply Qfloor_resp_le; assumption).
  change (Qfloor 1) with 1%Z in H0. lia.
Qed.

Lemma roundHalfEven_neg (z : Q) : z <= - (1) -> (roundHalfEven z <= -1)%Z.
Proof.
  intros H. unfold roundHalfEven.
  assert (Hf : (Qfloor z <= -1)%Z).
  { assert (Qfloor z <= Qfloor (- (1)))%Z by (apply Qfloor_resp_le; assumption).
    change (Qfloor (- (1))) with (-1)%Z in H0. lia. }
  pose proof (Qfloor_le z) as Hfl.
  destruct (Qcompare (z - inject_Z (Qfloor z)) (1 # 2)) eqn:E.
  - destruct (Z.even _); [lia|].
    apply Qeq_alt in E.
    destruct (Z.eq_dec (Qfloor z) (-1)) as [E1|E1]; [|lia].
    rewrite E1 in E. change (inject_Z (-1)) with (- (1)) in E. lra.
  - lia.
  - apply Qgt_alt in E.
    destruct (Z.eq_dec (Qfloor z) (-1)) as [E1|E1]; [|lia].
    rewrite E1 in E. change (inject_Z (-1)) with (- (1)) in E. lra.
Qed.

Lemma grid_pos (x : Q) : onGrid x -> 0 < x -> pow2 (-1074) <= x.
Proof.
  intros [m Hm] Hx. pose proof (pow2_pos (-1074)) as Hp.
  assert (Hm1 : (1 <= m)%Z).
  { destruct (Z_lt_le_dec 0 m) as [H|H]; [lia|]. exfalso.
    assert (inject_Z m <= 0) by (change 0 with (inject_Z 0); rewrite <- Zle_Qle; assumption).
    rewrite Hm in Hx. nra. }
  assert (1 <= inject_Z m) by (change 1 with (inject_Z 1); rewrite <- Zle_Qle; assumption).
  rewrite Hm. nra.
Qed.

Lemma round64_pos (x : Q) : onGrid x -> 0 < x -> 0 < round64 x.
Proof.
  intros Hg Hx. unfold round64.
  assert (Hy : Qred x == x) by apply Qred_correct.
  destruct (Qeq_bool (Qred x) 0) eqn:E.
  { apply Qeq_bool_eq in E. rewrite Hy in E. rewrite E in Hx. discriminate. }
  set (e := Z.max (ilog2 (Qred x) - 52) (-1074)).
  pose proof (pow2_pos e) as Hp.
  assert (Hle : pow2 e <= Qred x).
  { destruct (Z.max_spec (ilog2 (Qred x) - 52) (-1074)) as [[_ Hm]|[_ Hm]]; fold e in Hm;
      rewrite Hm.
    - rewrite Hy. apply grid_pos; assumption.
    - eapply Qle_trans; [apply (pow2_le _ (ilog2 (Qred x))); lia|].
      eapply Qle_trans; [apply ilog2_le|].
      + rewrite Hy. intro H0. rewrite H0 in Hx. discriminate.
      + rewrite Qabs_pos; [apply Qle_refl|]. rewrite Hy. lra. }
  assert (Hz : 1 <= Qred x / pow2 e).
  { apply Qle_shift_div_l; [assumption|]. lra. }
  apply roundHalfEven_pos in Hz. rewrite Qred_correct.
  assert (1 <= inject_Z (roundHalfEven (Qred x / pow2 e)))
    by (change 1 with (inject_Z 1); rewrite <- Zle_Qle; assumption).
  nra.
Qed.

Lemma grid_neg (x : Q) : onGrid x -> x < 0 -> x <= - pow2 (-1074).
Proof.
  intros [m Hm] Hx. pose proof (pow2_pos (-1074)) as Hp.
  assert (Hm1 : (m <= -1)%Z).
  { destruct (Z_lt_le_dec m 0) as [H|H]; [lia|]. exfalso.
    assert (0 <= inject_Z m) by (change 0 with (inject_Z 0); rewrite <- Zle_Qle; assumption).
    rewrite Hm in Hx. nra. }
  assert (inject_Z m <= - (1)) by (change (- (1)) with (inject_Z (-1)); rewrite <- Zle_Qle; assumption).
  rewrite Hm. nra.
Qed.

Lemma round64_neg (x : Q) : onGrid x -> x < 0 -> round64 x < 0.
Proof.
  intros Hg Hx. unfold round64.
  assert (Hy : Qred x == x) by apply Qred_correct.
  destruct (Qeq_bool (Qred x) 0) eqn:E.
  { apply Qeq_bool_eq in E. rewrite Hy in E. rewrite E in Hx. discriminate. }
  set (e := Z.max (ilog2 (Qred x) - 52) (-1074)).
  pose proof (pow2_pos e) as Hp.
  assert (Hle : Qred x <= - pow2 e).
  { destruct (Z.max_spec (ilog2 (Qred x) - 52) (-1074)) as [[_ Hm]|[_ Hm]]; fold e in Hm;
      rewrite Hm.
    - rewrite Hy. apply grid_neg; assumption.
    - assert (H1 : pow2 (ilog2 (Qred x) - 52) <= pow2 (ilog2 (Qred x)))
        by (apply pow2_le; lia).
      assert (H2 : pow2 (ilog2 (Qred x)) <= Qabs (Qred x)).
      { apply ilog2_le. rewrite Hy. intro H0. rewrite H0 in Hx. discriminate. }
      rewrite Qabs_neg in H2 by (rewrite Hy; lra). lra. }
  assert (Hz : Qred x / pow2 e <= - (1)).
  { apply Qle_shift_div_r; [assumption|]. lra. }
  apply roundHalfEven_neg in Hz. rewrite Qred_correct.
  assert (inject_Z (roundHalfEven (Qred x / pow2 e)) <= - (1))
    by (change (- (1)) with (inject_Z (-1)); rewrite <- Zle_Qle; assumption).
  nra.
Qed.

Lemma round64_zero (x : Q) : x == 0 -> round64 x = 0.
Proof.
  intros H. unfold round64.
  assert (E : Qeq_bool (Qred x) 0 = true).
  { apply Qeq_bool_iff. rewrite Qred_correct. assumption. }
  rewrite E. reflexivity.
Qed.

Lemma double_grid (x : Q) : isDouble x -> onGrid x.
Proof.
  unfold isDouble, round64. intros H.
  destruct (Qeq_bool (Qred x) 0) eqn:E.
  - exists 0%Z. rewrite <- H. ring.
  - set (e := Z.max (ilog2 (Qred x) - 52) (-1074)) in *.
    set (m := roundHalfEven (Qred x / pow2 e)) in *.
    exists (m * 2 ^ (e + 1074))%Z. rewrite <- H at 1. rewrite Qred_correct.
    rewrite inject_Z_mult. rewrite <- pow2_nonneg_Z by lia.
    rewrite <- Qmult_assoc. rewrite <- pow2_plus.
    replace (e + 1074 + -1074)%Z with e by lia. reflexivity.
Qed.

Lemma grid_minus (x y : Q) : onGrid x -> onGrid y -> onGrid (x - y).
Proof.
  intros [a Ha] [b Hb]. exists (a - b)%Z. rewrite Ha, Hb.
  unfold Z.sub. rewrite inject_Z_plus, inject_Z_opp. ring.
Qed.

(** The difference of two doubles rounds to a double of the same sign. *)
Lemma fsub_sign (x y : Q) :
  isDouble x -> isDouble y ->
  Qeq_bool (fsub x y) 0 = Qeq_bool (x - y) 0 /\
  Qltb 0 (fsub x y) = Qltb 0 (x - y).
Proof.
  intros Hx Hy. pose proof (grid_minus x y (double_grid x Hx) (double_grid y Hy)) as Hg.
  unfold fsub. destruct (Q_dec (x - y) 0) as [[Hlt|Hgt]|Heq].
  - pose proof (round64_neg _ Hg Hlt) as Hr. split.
    + transitivity false; [|symmetry]; apply Qeqb_neq; intro H0; rewrite H0 in *;
        [revert Hr|revert Hlt]; apply Qlt_irrefl.
    + transitivity false; [|symmetry]; apply Qltb_ge; lra.
  - pose proof (round64_pos _ Hg Hgt) as Hr. split.
    + transitivity false; [|symmetry]; apply Qeqb_neq; intro H0; rewrite H0 in *;
        [revert Hr|revert Hgt]; apply Qlt_irrefl.
    + transitivity true; [|symmetry]; apply Qltb_lt; assumption.
  - rewrite (round64_zero _ Heq). split.
    + symmetry. apply Qeqb_eq. assumption.
    + symmetry. transitivity false; [apply Qltb_ge; lra|reflexivity].
Qed.

Lemma total_app (a b : list Q) : total (a ++ b) == total a + total b.
Proof.
  unfold total. induction a as [|x r IH]; simpl; [lra|]. rewrite IH. lra.
Qed.

(** ** Sizes *)

Lemma total_nonneg (l : list Q) : Forall (fun x => 0 <= x) l -> 0 <= total l.
Proof.
  induction 1 as [|x r Hx _ IH]; simpl; [apply Qle_refl|]. lra.
Qed.

Lemma bursts_nonneg (ps : list Process) :
  Forall wholeTimes ps -> 0 <= total (map burst ps).
Proof.
  intros H. apply total_nonneg. apply Forall_map.
  eapply Forall_impl; [|exact H]. intros p [_ [_ [_ Hb]]]. lra.
Qed.

Lemma lastArrival_nonneg (ps : list Process) : 0 <= lastArrival ps.
Proof.
  induction ps as [|p r IH]; simpl; [apply Qle_refl|].
  eapply Qle_trans; [exact IH|]. apply Q.le_max_r.
Qed.

Lemma burst_le_total (ps : list Process) (p : Process) :
  Forall wholeTimes ps -> In p ps -> burst p <= total (map burst ps).
Proof.
  induction 1 as [|a r Ha Hr IH]; intros Hin; [contradiction|]. simpl.
  pose proof (bursts_nonneg r Hr). destruct Ha as [_ [_ [_ Ha]]].
  destruct Hin as [->|Hin]; [lra|]. specialize (IH Hin). lra.
Qed.

Lemma exact_wholeTimes (ps : list Process) :
  validSet ps -> exactSet ps -> Forall wholeTimes ps.
Proof.
  intros [_ [_ Hv]] [He _]. rewrite Forall_forall in *. intros p Hp.
  destruct (Hv p Hp) as [Ha Hb]. destruct (He p Hp) as [Wa [Wb _]].
  repeat split; assumption.
Qed.

(** Within the horizon: every arrival and every burst. *)
Lemma wholeTime_arrival (ps : list Process) (p : Process) :
  Forall wholeTimes ps -> horizon ps <= two53 -> In p ps -> wholeTime (arrival p).
Proof.
  intros Hw Hh Hp. pose proof (bursts_nonneg ps Hw). pose proof (lastArrival_ge ps p Hp).
  rewrite Forall_forall in Hw. destruct (Hw p Hp) as [Wa [_ [Ha _]]].
  unfold horizon in Hh. split; [assumption|]. split; [assumption|lra].
Qed.

Lemma wholeTime_burst (ps : list Process) (p : Process) :
  Forall wholeTimes ps -> horizon ps <= two53 -> In p ps -> wholeTime (burst p).
Proof.
  intros Hw Hh Hp. pose proof (burst_le_total ps p Hw Hp).
  pose proof (lastArrival_nonneg ps).
  rewrite Forall_forall in Hw. destruct (Hw p Hp) as [_ [Wb [_ Hb]]].
  unfold horizon in Hh. split; [assumption|]. split; lra.
Qed.

(** ** FCFS *)

Lemma fcfsBody_agree (st : FcfsState) (p : Process) :
  wholeTimes p -> whole (f_time st) -> 0 <= f_time st ->
  f_time st + burst p <= two53 -> arrival p + burst p <= two53 ->
  fcfsBody64 st p = fcfsBody st p.
Proof.
  intros [Wa [Wb [Ha Hb]]] Wt Ht H1 H2.
  unfold fcfsBody64, fcfsBody. cbv zeta.
  set (time1 := if Qltb (f_time st) (arrival p) then arrival p else f_time st).
  assert (W1 : whole time1) by (unfold time1; destruct (Qltb _ _); assumption).
  assert (B1 : 0 <= time1 /\ time1 + burst p <= two53).
  { unfold time1; destruct (Qltb _ _); split; assumption. }
  destruct B1 as [B0 B1].
  assert (S1 : wholeTime time1) by (split; [assumption|split; [assumption|lra]]).
  assert (Sa : wholeTime (arrival p)) by (split; [assumption|split; [assumption|lra]]).
  assert (Se : wholeTime (time1 + burst p)).
  { split; [apply whole_plus; assumption|split; lra]. }
  rewrite (fadd_whole time1 (burst p)) by (assumption || lra).
  rewrite !fsub_whole by assumption. reflexivity.
Qed.

Lemma fcfs_fold_agree (l : list Process) :
  forall st, Forall wholeTimes l -> whole (f_time st) -> 0 <= f_time st ->
    f_time st + total (map burst l) <= two53 ->
    lastArrival l + total (map burst l) <= two53 ->
    fold_left fcfsBody64 l st = fold_left fcfsBody l st.
Proof.
  induction l as [|p r IH]; intros st Hw Wt Ht H1 H2; [reflexivity|].
  inversion Hw as [|x y Hp Hr]; subst. simpl in H1, H2 |- *.
  pose proof (bursts_nonneg r Hr) as Hn. pose proof (lastArrival_nonneg r) as Hl.
  pose proof (Q.le_max_l (arrival p) (lastArrival r)) as M1.
  pose proof (Q.le_max_r (arrival p) (lastArrival r)) as M2.
  destruct Hp as [Wa [Wb [Ha Hb]]].
  rewrite fcfsBody_agree; [|repeat split; assumption|assumption|assumption|lra|lra].
  apply IH; try assumption.
  - unfold fcfsBody. cbn [f_time]. apply whole_plus; [|assumption].
    destruct (Qltb _ _); assumption.
  - unfold fcfsBody. cbn [f_time]. destruct (Qltb _ _); lra.
  - unfold fcfsBody. cbn [f_time]. destruct (Qltb _ _); lra.
  - lra.
Qed.

Lemma fcfs64_exact (ps : list Process) :
  validSet ps -> exactSet ps -> fcfs64 ps = fcfs ps.
Proof.
  intros Hv He. pose proof (exact_wholeTimes ps Hv He) as Hw.
  destruct (valid_min ps Hv) as [t0 Hmin]. unfold fcfs64, fcfs. rewrite Hmin.
  destruct (mathMin_arrival ps t0 Hmin) as [[p0 [Hin0 E0]] Hle].
  destruct He as [_ Hh]. unfold horizon in Hh.
  pose proof (lastArrival_ge ps p0 Hin0) as Hl.
  assert (Hp0 : wholeTimes p0) by (rewrite Forall_forall in Hw; auto).
  destruct Hp0 as [Wa [_ [Ha _]]].
  rewrite fcfs_fold_agree; [reflexivity|assumption| | | |assumption];
    cbn [f_time]; rewrite <- E0; [assumption|assumption|lra].
Qed.

(** ** Two loop bodies that agree on an invariant *)

Section WhileAgree.
Variable S : Type.
Variable cond : S -> bool.
Variables body body' : S -> Step S.
Variable I : S -> Prop.
Hypothesis agree : forall s, I s -> cond s = true -> body' s = body s.
Hypothesis keep : forall s s', I s -> cond s = true -> body s = Next s' -> I s'.

Lemma while_agree (fuel : nat) :
  forall s, I s -> while cond body' fuel s = while cond body fuel s.
Proof.
  induction fuel as [|k IH]; intros s Hs; simpl; [reflexivity|].
  destruct (cond s) eqn:Hc; [|reflexivity].
  rewrite (agree s Hs Hc). destruct (body s) as [s'| |] eqn:Hb; try reflexivity.
  apply IH. exact (keep s s' Hs Hc Hb).
Qed.

End WhileAgree.

(** ** Round Robin *)

Lemma total_setNth (l : list Q) : forall i v,
  (i < length l)%nat -> total (setNth i v l) == total l - nth i l 0 + v.
Proof.
  induction l as [|x r IH]; intros i v Hi; simpl in Hi; [lia|].
  destruct i as [|k]; simpl; [ring|]. rewrite IH by lia. ring.
Qed.

Lemma nth_le_total (l : list Q) : forall i,
  Forall (fun r => whole r /\ 0 <= r) l -> nth i l 0 <= total l.
Proof.
  induction l as [|x r IH]; intros i H; simpl.
  - destruct i; apply Qle_refl.
  - inversion H as [|a b [_ Hx] Hr]; subst.
    assert (0 <= total r).
    { apply total_nonneg. eapply Forall_impl; [|exact Hr]. intros a [_ Ha]. exact Ha. }
    destruct i as [|k]; [lra|]. specialize (IH k Hr). lra.
Qed.

Lemma nth_whole (l : list Q) (i : nat) :
  Forall (fun r => whole r /\ 0 <= r) l -> whole (nth i l 0) /\ 0 <= nth i l 0.
Proof.
  intros H. destruct (Nat.lt_ge_cases i (length l)) as [Hi|Hi].
  - rewrite Forall_forall in H. apply H. apply nth_In. assumption.
  - rewrite nth_overflow by assumption. split; [reflexivity|apply Qle_refl].
Qed.

Lemma Forall_setNth {A : Type} (P : A -> Prop) (l : list A) : forall i v,
  Forall P l -> P v -> Forall P (setNth i v l).
Proof.
  induction l as [|x r IH]; intros i v H Hv; simpl; [destruct i; constructor|].
  inversion H; subst. destruct i; constructor; auto.
Qed.

Lemma minQuantum_whole (q : jsnum) (r : Q) :
  gt0 q = true -> exactQuantum q -> whole r -> 0 <= r ->
  whole (minQuantum q r) /\ 0 <= minQuantum q r /\ minQuantum q r <= r.
Proof.
  intros Hq He Hw Hr. destruct q as [x| | |]; simpl in *; try discriminate.
  - apply Qltb_lt in Hq.
    destruct (Qmin_cases x r) as [[-> H]|[-> H]]; repeat split; try assumption; lra.
  - repeat split; try assumption. apply Qle_refl.
Qed.

Section RoundRobinAgree.
Variable ps : list Process.
Variable q : jsnum.
Hypothesis Hq : gt0 q = true.
Hypothesis Hquantum : exactQuantum q.
Hypothesis Hwhole : Forall wholeTimes ps.
Hypothesis Hhorizon : horizon ps <= two53.

Lemma rrInit_whole (t0 : Q) :
  mathMin (map arrival ps) = Fin t0 -> RRWhole ps (rrInit ps t0).
Proof.
  intros Hmin. destruct (mathMin_arrival ps t0 Hmin) as [[p0 [Hin0 E0]] _].
  pose proof (lastArrival_ge ps p0 Hin0) as Hl.
  assert (Hp0 : wholeTimes p0) by (rewrite Forall_forall in Hwhole; auto).
  destruct Hp0 as [Wa [_ [Ha _]]]. unfold rrInit.
  constructor; cbn [rr_time rr_rem rr_queue].
  - rewrite <- E0. split; assumption.
  - apply length_map.
  - apply Forall_map. eapply Forall_impl; [|exact Hwhole].
    intros p [_ [Wb [_ Hb]]]. split; [assumption|lra].
  - apply Qle_refl.
  - unfold horizon. rewrite <- E0. lra.
  - intros i p Hi Hp. rewrite initQueue_newly in Hi. apply newly_In0 in Hi.
    destruct Hi as [_ [p' [Hp' Hle]]]. congruence.
Qed.

Lemma rr_whole_step (st st' : RRState) :
  RRWhole ps st -> rrBody ps q st = Next st' -> RRWhole ps st'.
Proof.
  intros [[Wt Ht] Hlen Hrem Htot Hb Hqu] Hbody. unfold rrBody in Hbody.
  pose proof (bursts_nonneg ps Hwhole) as Hn.
  destruct (rr_queue st) as [|i queue0] eqn:Hqueue.
  - destruct (findNotArrived (rr_arrived st) 0 ps) as [k|] eqn:Hf; [|discriminate].
    destruct (nth_error ps k) as [pn|] eqn:Hpn; [|discriminate].
    rewrite pushArrived_newly in Hbody. injection Hbody as <-.
    assert (Hin : In pn ps) by (eapply nth_error_In; eassumption).
    assert (Hp : wholeTimes pn) by (rewrite Forall_forall in Hwhole; auto).
    destruct Hp as [Wa [_ [Ha _]]]. pose proof (lastArrival_ge ps pn Hin).
    constructor; cbn [rr_time rr_rem rr_queue]; try assumption.
    + split; assumption.
    + unfold horizon. lra.
    + intros j p Hj Hp. simpl in Hj. apply newly_In0 in Hj.
      destruct Hj as [_ [p' [Hp' Hle]]]. congruence.
  - destruct (nth_error ps i) as [p|] eqn:Hp; [|discriminate].
    cbv zeta in Hbody. rewrite pushArrived_newly in Hbody.
    set (r := nth i (rr_rem st) 0) in *.
    set (run := minQuantum q r) in *.
    destruct (nth_whole (rr_rem st) i Hrem) as [Wr Hr0]. fold r in Wr, Hr0.
    destruct (minQuantum_whole q r Hq Hquantum Wr Hr0) as [Wrun [Hrun0 Hrun]].
    fold run in Wrun, Hrun0, Hrun.
    assert (Hi : (i < length (rr_rem st))%nat).
    { rewrite Hlen. eapply nth_error_lt; eassumption. }
    assert (Hqueue' : forall j pj,
              In j ((queue0 ++ newly (rr_time st + run) 0 ps (rr_arrived st)) ++ [i]) ->
              nth_error ps j = Some pj -> arrival pj <= rr_time st + run).
    { intros j pj Hj Hpj. apply in_app_or in Hj. destruct Hj as [Hj|[<-|[]]].
      - apply in_app_or in Hj. destruct Hj as [Hj|Hj].
        + assert (arrival pj <= rr_time st) by (apply (Hqu j); [now right|assumption]).
          lra.
        + apply newly_In0 in Hj. destruct Hj as [_ [p' [Hp' Hle]]]. congruence.
      - assert (arrival pj <= rr_time st) by (apply (Hqu i); [now left|assumption]).
        lra. }
    assert (Hnew : forall blocks1 res1 first1 queue1 arrived1,
              (forall j pj, In j queue1 -> nth_error ps j = Some pj ->
                            arrival pj <= rr_time st + run) ->
              RRWhole ps (mkRR blocks1 res1 (setNth i (r - run) (rr_rem st)) first1
                            queue1 arrived1 (rr_time st + run))).
    { intros blocks1 res1 first1 queue1 arrived1 Hq1.
      constructor; cbn [rr_time rr_rem rr_queue].
      - split; [apply whole_plus; assumption|lra].
      - rewrite length_setNth. assumption.
      - apply Forall_setNth; [assumption|]. split; [apply whole_minus; assumption|lra].
      - rewrite total_setNth by assumption. fold r. lra.
      - rewrite total_setNth by assumption. fold r. lra.
      - assumption. }
    destruct (Qltb 0 _).
    + injection Hbody as <-. apply Hnew. assumption.
    + destruct (mapGet (pid p) _); [|discriminate].
      injection Hbody as <-. apply Hnew.
      intros j pj Hj. apply Hqueue'. apply in_or_app. now left.
Qed.

Lemma rrBody_agree (st : RRState) :
  RRWhole ps st -> rrBody64 ps q st = rrBody ps q st.
Proof.
  intros [[Wt Ht] Hlen Hrem Htot Hb Hqu]. unfold rrBody64, rrBody.
  pose proof (bursts_nonneg ps Hwhole) as Hn.
  pose proof (lastArrival_nonneg ps) as Hl.
  destruct (rr_queue st) as [|i queue0] eqn:Hqueue; [reflexivity|].
  destruct (nth_error ps i) as [p|] eqn:Hp; [|reflexivity].
  cbv zeta.
  set (r := nth i (rr_rem st) 0).
  set (run := minQuantum q r).
  destruct (nth_whole (rr_rem st) i Hrem) as [Wr Hr0]. fold r in Wr, Hr0.
  destruct (minQuantum_whole q r Hq Hquantum Wr Hr0) as [Wrun [Hrun0 Hrun]].
  fold run in Wrun, Hrun0, Hrun.
  pose proof (nth_le_total (rr_rem st) i Hrem) as Hrt. fold r in Hrt.
  assert (Hin : In p ps) by (eapply nth_error_In; eassumption).
  pose proof (wholeTime_arrival ps p Hwhole Hhorizon Hin) as Sa.
  pose proof (wholeTime_burst ps p Hwhole Hhorizon Hin) as Sb.
  assert (Harr : arrival p <= rr_time st) by (apply (Hqu i); [now left|assumption]).
  assert (Hlt : 0 <= total (rr_rem st)).
  { apply total_nonneg. eapply Forall_impl; [|exact Hrem]. intros a [_ Ha]. exact Ha. }
  unfold horizon in Hb, Hhorizon.
  assert (St : wholeTime (rr_time st)) by (split; [assumption|split; [assumption|lra]]).
  assert (Sr : wholeTime r) by (split; [assumption|split; [assumption|lra]]).
  assert (Srun : wholeTime run) by (split; [assumption|split; [assumption|lra]]).
  assert (Se : wholeTime (rr_time st + run)).
  { split; [apply whole_plus; assumption|split; lra]. }
  assert (Stat : wholeTime (rr_time st + run - arrival p)).
  { destruct Sa as [Wa [A0 A1]].
    split; [apply whole_minus; [apply whole_plus|]; assumption|split; lra]. }
  rewrite (fadd_whole (rr_time st) run) by (assumption || lra).
  rewrite (fsub_whole _ _ St Sa).
  rewrite (fsub_whole _ _ Sr Srun).
  rewrite (fsub_whole _ _ Se Sa).
  rewrite (fsub_whole _ _ Stat Sb).
  reflexivity.
Qed.

Lemma roundRobin64_exact (fuel : nat) :
  roundRobin64 fuel ps q = roundRobin fuel ps q.
Proof.
  unfold roundRobin64, roundRobin. destruct (negb (gt0 q)); [reflexivity|].
  destruct (mathMin (map arrival ps)) as [t0| | |] eqn:Hmin; try reflexivity.
  rewrite (while_agree _ (rrCond (length ps)) (rrBody ps q) (rrBody64 ps q)
             (RRWhole ps)); [reflexivity| | |].
  - intros s Hs _. apply rrBody_agree. assumption.
  - intros s s' Hs _ Hb. exact (rr_whole_step s s' Hs Hb).
  - apply rrInit_whole. assumption.
Qed.
End RoundRobinAgree.

(** ** SJF and Priority *)

(** The sort looks at the sign of the comparator only. *)
Lemma sortBy_sign {A : Type} (cmp cmp' : A -> A -> Q) (l : list A) :
  (forall x y, Qltb 0 (cmp x y) = Qltb 0 (cmp' x y)) -> sortBy cmp l = sortBy cmp' l.
Proof.
  intros H. induction l as [|x r IH]; simpl; [reflexivity|]. rewrite IH.
  generalize (sortBy cmp' r). intros s. induction s as [|y t IHs]; simpl; [reflexivity|].
  rewrite H, IHs. reflexivity.
Qed.

Lemma total_map_app {A : Type} (f : A -> Q) (a b : list A) :
  total (map f (a ++ b)) == total (map f a) + total (map f b).
Proof. rewrite map_app. apply total_app. Qed.

(** A sum over distinct members of [m] is at most the sum over [m]. *)
Lemma total_sub (f : nat -> Q) (l : list nat) :
  (forall i, 0 <= f i) ->
  forall m, NoDup l -> incl l m -> total (map f l) <= total (map f m).
Proof.
  intros Hf. induction l as [|a r IH]; intros m Hnd Hincl; simpl.
  - apply total_nonneg. apply Forall_map. apply Forall_forall. intros; apply Hf.
  - inversion Hnd as [|x y Ha Hr]; subst.
    destruct (in_split a m (Hincl a (or_introl eq_refl))) as [m1 [m2 ->]].
    assert (Hincl' : incl r (m1 ++ m2)).
    { intros j Hj. specialize (Hincl j (or_intror Hj)).
      apply in_app_or in Hincl. apply in_or_app.
      destruct Hincl as [H|[H|H]]; [now left|subst; contradiction|now right]. }
    specialize (IH (m1 ++ m2) Hr Hincl').
    rewrite total_map_app in IH. rewrite total_map_app. simpl. lra.
Qed.

Lemma burstAt_seq (ps : list Process) :
  total (map (burstAt ps) (seq 0 (length ps))) == total (map burst ps).
Proof.
  induction ps as [|p r IH]; simpl; [reflexivity|].
  rewrite <- seq_shift, map_map. unfold burstAt at 1. simpl.
  rewrite <- IH. reflexivity.
Qed.

Lemma burstAt_nonneg (ps : list Process) (i : nat) :
  Forall wholeTimes ps -> 0 <= burstAt ps i.
Proof.
  intros Hw. unfold burstAt. destruct (nth_error ps i) as [p|] eqn:Hp; [|apply Qle_refl].
  rewrite Forall_forall in Hw. destruct (Hw p (nth_error_In _ _ Hp)) as [_ [_ [_ H]]]. lra.
Qed.

Lemma dispatched_total (ps : list Process) (l : list nat) :
  Forall wholeTimes ps -> NoDup l -> Forall (fun i => (i < length ps)%nat) l ->
  total (map (burstAt ps) l) <= total (map burst ps).
Proof.
  intros Hw Hnd Hb. rewrite <- burstAt_seq. apply total_sub.
  - intros i. apply burstAt_nonneg. assumption.
  - assumption.
  - intros j Hj. apply in_seq. rewrite Forall_forall in Hb. specialize (Hb j Hj). lia.
Qed.

Section NonPreemptiveAgree.
Variable key key64 : Process -> Process -> Q.
Variable ps : list Process.
Hypothesis Hwhole : Forall wholeTimes ps.
Hypothesis Hhorizon : horizon ps <= two53.
Hypothesis Hkey : forall a b, In a ps -> In b ps ->
  Qltb 0 (key64 a b) = Qltb 0 (key a b).

Lemma npInit_whole (t0 : Q) :
  mathMin (map arrival ps) = Fin t0 -> NPWhole ps (mkNP [] [] 0 t0 [] []).
Proof.
  intros Hmin. destruct (mathMin_arrival ps t0 Hmin) as [[p0 [Hin0 E0]] _].
  pose proof (lastArrival_ge ps p0 Hin0) as Hl.
  assert (Hp0 : wholeTimes p0) by (rewrite Forall_forall in Hwhole; auto).
  destruct Hp0 as [Wa [_ [Ha _]]]. constructor; cbn [np_time np_used np_ready].
  - rewrite <- E0. split; assumption.
  - split; constructor.
  - exists []. split; [constructor|]. simpl. rewrite <- E0. lra.
Qed.

(** What a dispatching pass finds: the process served is new, and its burst
    still fits under the horizon. *)
Lemma np_whole_dispatch (st : NPState) (idx : nat) (ready2 : list nat) (p : Process) :
  NPWhole ps st ->
  sortBy (onIndex ps key)
    (np_ready st ++ newly (np_time st) 0 ps (np_used st)) = idx :: ready2 ->
  nth_error ps idx = Some p ->
  np_time st + burst p <= horizon ps /\
  NPWhole ps (mkNP [] [] 0 (np_time st + burst p) ready2
                (np_used st ++ newly (np_time st) 0 ps (np_used st))).
Proof.
  intros [[Wt Ht] Hused [dispatched [Hperm Hb]]] Hs Hp.
  set (N := newly (np_time st) 0 ps (np_used st)) in *.
  assert (Hgood' : goodSet (length ps) (np_used st ++ N))
    by (apply goodSet_newly; assumption).
  pose proof (sortBy_perm (onIndex ps key) (np_ready st ++ N)) as Hsort.
  rewrite Hs in Hsort.
  assert (Hperm' : Permutation (np_used st ++ N) ((dispatched ++ [idx]) ++ ready2)).
  { rewrite <- app_assoc. simpl.
    transitivity (dispatched ++ np_ready st ++ N).
    - rewrite app_assoc. apply Permutation_app_tail. assumption.
    - apply Permutation_app_head. assumption. }
  assert (Hnd : NoDup (dispatched ++ [idx])).
  { eapply NoDup_app_remove_r. eapply Permutation_NoDup; [exact Hperm'|apply Hgood']. }
  assert (Hin : Forall (fun i => (i < length ps)%nat) (dispatched ++ [idx])).
  { destruct Hgood' as [_ Hall]. rewrite Forall_forall in *. intros j Hj. apply Hall.
    apply (Permutation_in j (Permutation_sym Hperm')). apply in_or_app. now left. }
  pose proof (dispatched_total ps _ Hwhole Hnd Hin) as Htot.
  rewrite total_map_app in Htot. simpl in Htot. unfold burstAt at 2 in Htot.
  rewrite Hp in Htot.
  assert (Hpw : wholeTimes p).
  { rewrite Forall_forall in Hwhole. apply Hwhole. eapply nth_error_In; eassumption. }
  destruct Hpw as [_ [Wb [_ Hb0]]].
  split; [unfold horizon; lra|].
  constructor; cbn [np_time np_used np_ready].
  - split; [apply whole_plus; assumption|lra].
  - assumption.
  - exists (dispatched ++ [idx]). split; [assumption|].
    rewrite total_map_app. simpl. unfold burstAt at 2. rewrite Hp. lra.
Qed.

Lemma np_whole_step (st st' : NPState) :
  NPWhole ps st -> npBody key ps st = Next st' -> NPWhole ps st'.
Proof.
  intros Hinv Hbody. pose proof Hinv as [[Wt Ht] Hused [dispatched [Hperm Hb]]].
  unfold npBody in Hbody. rewrite pushArrived_newly in Hbody.
  cbv beta iota zeta in Hbody.
  set (N := newly (np_time st) 0 ps (np_used st)) in *.
  destruct (np_ready st ++ N) as [|x rest] eqn:Hready1.
  - destruct (mathMin (unusedArrivals (np_used st ++ N) 0 ps)) as [next| | |] eqn:Hm;
      try discriminate.
    injection Hbody as <-.
    apply mathMin_fin in Hm. destruct Hm as [Hin _].
    apply unusedArrivals_In in Hin. destruct Hin as [j [p [_ [Hj [_ Ha]]]]].
    rewrite Nat.sub_0_r in Hj.
    assert (Hp : In p ps) by (eapply nth_error_In; eassumption).
    assert (Hpw : wholeTimes p) by (rewrite Forall_forall in Hwhole; auto).
    destruct Hpw as [Wa [_ [Ha0 _]]]. pose proof (lastArrival_ge ps p Hp).
    constructor; cbn [np_time np_used np_ready].
    + rewrite <- Ha. split; assumption.
    + apply goodSet_newly. assumption.
    + exists dispatched. split.
      * apply app_eq_nil in Hready1. destruct Hready1 as [Hr0 HN0].
        rewrite HN0, !app_nil_r. rewrite Hr0, app_nil_r in Hperm. assumption.
      * assert (0 <= total (map (burstAt ps) dispatched)).
        { apply total_nonneg. apply Forall_map. apply Forall_forall.
          intros; apply burstAt_nonneg; assumption. }
        rewrite <- Ha. lra.
  - rewrite <- Hready1 in Hbody.
    destruct (sortBy (onIndex ps key) (np_ready st ++ N)) as [|idx ready2] eqn:Hs;
      [discriminate|].
    destruct (nth_error ps idx) as [p|] eqn:Hp; [|discriminate].
    injection Hbody as <-.
    destruct (np_whole_dispatch st idx ready2 p Hinv Hs Hp) as [_ [N1 N2 N3]].
    constructor; cbn [np_time np_used np_ready] in *; assumption.
Qed.

Lemma npBody_agree (st : NPState) :
  NPWhole ps st -> npBody64 key64 ps st = npBody key ps st.
Proof.
  intros Hinv. pose proof Hinv as [[Wt Ht] Hused [dispatched [Hperm Hb]]].
  unfold npBody64, npBody. rewrite pushArrived_newly. cbv beta iota zeta.
  set (N := newly (np_time st) 0 ps (np_used st)).
  destruct (np_ready st ++ N) as [|x rest] eqn:Hready1; [reflexivity|].
  rewrite <- Hready1.
  rewrite (sortBy_sign (onIndex ps key64) (onIndex ps key)).
  2:{ intros a b. unfold onIndex.
      destruct (nth_error ps a) as [pa|] eqn:Ha; [|reflexivity].
      destruct (nth_error ps b) as [pb|] eqn:Hb'; [|reflexivity].
      apply Hkey; eapply nth_error_In; eassumption. }
  destruct (sortBy (onIndex ps key) (np_ready st ++ N)) as [|idx ready2] eqn:Hs;
    [reflexivity|].
  destruct (nth_error ps idx) as [p|] eqn:Hp; [|reflexivity].
  destruct (np_whole_dispatch st idx ready2 p Hinv Hs Hp) as [Hfit _].
  assert (Hin : In p ps) by (eapply nth_error_In; eassumption).
  pose proof (wholeTime_arrival ps p Hwhole Hhorizon Hin) as Sa.
  assert (Hpw : wholeTimes p) by (rewrite Forall_forall in Hwhole; auto).
  destruct Hpw as [Wa [Wb [Ha0 Hb0]]].
  assert (St : wholeTime (np_time st)) by (split; [assumption|split; [assumption|lra]]).
  assert (Se : wholeTime (np_time st + burst p)).
  { split; [apply whole_plus; assumption|split; lra]. }
  rewrite (fadd_whole (np_time st) (burst p)) by (assumption || lra).
  rewrite (fsub_whole _ _ Se Sa).
  rewrite (fsub_whole _ _ St Sa).
  reflexivity.
Qed.

Lemma nonPreemptive64_exact (fuel : nat) :
  nonPreemptive64 key64 fuel ps = nonPreemptive key fuel ps.
Proof.
  unfold nonPreemptive64, nonPreemptive.
  destruct (mathMin (map arrival ps)) as [t0| | |] eqn:Hmin; try reflexivity.
  rewrite (while_agree _ (npCond (length ps)) (npBody key ps) (npBody64 key64 ps)
             (NPWhole ps)); [reflexivity| | |].
  - intros s Hs _. apply npBody_agree. assumption.
  - intros s s' Hs _ Hb. exact (np_whole_step s s' Hs Hb).
  - apply npInit_whole. assumption.
Qed.
End NonPreemptiveAgree.

Lemma numOr_sign (a a' b : Q) :
  Qeq_bool a 0 = Qeq_bool a' 0 -> Qltb 0 a = Qltb 0 a' ->
  Qeq_bool (numOr a b) 0 = Qeq_bool (numOr a' b) 0 /\
  Qltb 0 (numOr a b) = Qltb 0 (numOr a' b).
Proof.
  intros E L. unfold numOr. rewrite E.
  destruct (Qeq_bool a' 0) eqn:E'; split; try reflexivity; try assumption.
  rewrite E. symmetry. exact E'.
Qed.

Lemma byBurst64_exact (localeCompare : string -> string -> Z) (a b : Process) :
  wholeTime (burst a) -> wholeTime (burst b) ->
  wholeTime (arrival a) -> wholeTime (arrival b) ->
  byBurst64 localeCompare a b = byBurst localeCompare a b.
Proof.
  intros. unfold byBurst64, byBurst. rewrite !fsub_whole by assumption. reflexivity.
Qed.

Lemma byPriority64_sign (localeCompare : string -> string -> Z) (a b : Process) :
  isDouble (priority a) -> isDouble (priority b) ->
  wholeTime (arrival a) -> wholeTime (arrival b) ->
  Qltb 0 (byPriority64 localeCompare a b) = Qltb 0 (byPriority localeCompare a b).
Proof.
  intros Da Db Wa Wb. unfold byPriority64, byPriority.
  rewrite (fsub_whole _ _ Wa Wb).
  destruct (fsub_sign _ _ Da Db) as [E L].
  destruct (numOr_sign _ _ (arrival a - arrival b) E L) as [E1 L1].
  apply (numOr_sign _ _ _ E1 L1).
Qed.

Lemma sjf64_exact (localeCompare : string -> string -> Z) (ps : list Process)
    (fuel : nat) :
  validSet ps -> exactSet ps ->
  sjf64 localeCompare fuel ps = sjf localeCompare fuel ps.
Proof.
  intros Hv He. pose proof (exact_wholeTimes ps Hv He) as Hw. destruct He as [_ Hh].
  apply nonPreemptive64_exact; try assumption.
  intros a b Ha Hb. rewrite byBurst64_exact; [reflexivity| | | |];
    first [eapply wholeTime_burst; eassumption|eapply wholeTime_arrival; eassumption].
Qed.

Lemma prioritySchedule64_exact (localeCompare : string -> string -> Z)
    (ps : list Process) (fuel : nat) :
  validSet ps -> exactSet ps ->
  prioritySchedule64 localeCompare fuel ps = prioritySchedule localeCompare fuel ps.
Proof.
  intros Hv He. pose proof (exact_wholeTimes ps Hv He) as Hw. destruct He as [Hp Hh].
  apply nonPreemptive64_exact; try assumption.
  intros a b Ha Hb. rewrite Forall_forall in Hp.
  apply byPriority64_sign;
    first [apply (Hp a Ha)|apply (Hp b Hb)|eapply wholeTime_arrival; eassumption].
Qed.

Lemma srtfBody_data (localeCompare : string -> string -> Z) (ps : list Process)
    (st st' : SrtfState) :
  srtfBody localeCompare ps st = Next st' ->
  s_time st' = s_time st + 1 /\
  match fst (pick localeCompare ps (s_rem st) (s_done st) (s_time st) 0 ps None PInf)
  with
  | None => s_res st' = s_res st /\ s_rem st' = s_rem st /\
            s_started st' = s_started st /\ s_done st' = s_done st
  | Some best =>
      exists p, nth_error ps best = Some p /\
        has (s_done st) best = false /\ 0 < nth best (s_rem st) 0 /\
        arrival p <= s_time st /\
        s_rem st' = setNth best (nth best (s_rem st) 0 - 1) (s_rem st) /\
        s_started st' = (if negb (nth best (s_started st) false)
                         then setNth best true (s_started st) else s_started st) /\
        exists res1,
          res1 = (if negb (nth best (s_started st) false)
                  then mapSet (pid p)
                         (mkResult (s_time st) 0 0 0 (s_time st - arrival p)
                            (arrival p) (burst p) (priority p)) (s_res st)
                  else s_res st) /\
          if Qeq_bool (nth best (s_rem st') 0) 0
          then exists r, mapGet (pid p) res1 = Some r /\
                 s_res st' =
                   mapSet (pid p)
                     (mkResult (r_start r) (s_time st + 1)
                        (s_time st + 1 - arrival p)
                        (s_time st + 1 - arrival p - burst p)
                        (r_response r) (r_arrival r) (r_burst r) (r_priority r))
                     res1 /\
                 s_done st' = add (s_done st) best
          else s_res st' = res1 /\ s_done st' = s_done st
  end.
Proof.
  unfold srtfBody. intros H.
  destruct (fst (pick localeCompare ps (s_rem st) (s_done st) (s_time st) 0 ps
                   None PInf)) as [best|] eqn:Hpick.
  - apply pick_some in Hpick. destruct Hpick as [[=]|[_ [Hnd [Hpos [p [Hp Harr]]]]]].
    rewrite Nat.sub_0_r in Hp. rewrite Hp in H. cbv zeta in H.
    match type of H with
    | (match ?X with Some _ => _ | None => _ end) = _ =>
        destruct X as [blocks1|]; [|discriminate]
    end.
    destruct (Qeq_bool _ 0) eqn:Hz in H.
    + destruct (mapGet (pid p) _) as [r|] eqn:Hget in H; [|discriminate].
      injection H as <-.
      cbn [s_blocks s_res s_rem s_started s_time s_lastPID s_blockStart s_done].
      split; [reflexivity|]. exists p. repeat (split; [assumption || reflexivity|]).
      eexists. split; [reflexivity|]. rewrite Hz. exists r. auto.
    + injection H as <-.
      cbn [s_blocks s_res s_rem s_started s_time s_lastPID s_blockStart s_done].
      split; [reflexivity|]. exists p. repeat (split; [assumption || reflexivity|]).
      eexists. split; [reflexivity|]. rewrite Hz. auto.
  - destruct (s_lastPID st) as [lp|].
    + destruct (String.eqb lp IDLE).
      * injection H as <-. simpl. auto.
      * destruct (closeBlock ps lp (s_blockStart st) (s_time st)); [|discriminate].
        injection H as <-. simpl. auto.
    + injection H as <-. simpl. auto.
Qed.

(** ** SRTF *)

Lemma whole_succ (x y : Q) : whole x -> whole y -> x < y -> x + 1 <= y.
Proof.
  intros Hx Hy H. rewrite (whole_inject x Hx), (whole_inject y Hy) in *.
  change 1 with (inject_Z 1). rewrite <- inject_Z_plus.
  rewrite <- Zlt_Qlt in H. rewrite <- Zle_Qle. lia.
Qed.

Lemma arrivesBefore64_exact (ps : list Process) (p : Process) (best : option nat) :
  Forall (fun a => wholeTime (arrival a)) ps -> wholeTime (arrival p) ->
  arrivesBefore64 ps p best = arrivesBefore ps p best.
Proof.
  intros Hps Hp. unfold arrivesBefore64, arrivesBefore.
  destruct best as [b|]; [|reflexivity].
  destruct (nth_error ps b) as [pb|] eqn:Hb; [|reflexivity].
  rewrite fsub_whole; [reflexivity|assumption|].
  rewrite Forall_forall in Hps. apply Hps. eapply nth_error_In; eassumption.
Qed.

Lemma pick64_exact (localeCompare : string -> string -> Z) (ps : list Process)
    (rem : list Q) (done : IdxSet) (time : Q) :
  Forall (fun a => wholeTime (arrival a)) ps ->
  forall l, Forall (fun a => wholeTime (arrival a)) l ->
  forall i best br,
    pick64 localeCompare ps rem done time i l best br
    = pick localeCompare ps rem done time i l best br.
Proof.
  intros Hps. induction l as [|p r IH]; intros Hl i best br; simpl; [reflexivity|].
  inversion Hl as [|x y Hp Hr]; subst.
  rewrite (arrivesBefore64_exact ps p best Hps Hp). rewrite !(IH Hr). reflexivity.
Qed.

Section SrtfAgree.
Variable localeCompare : string -> string -> Z.
Variable ps : list Process.
Variable t0 : Q.
Hypothesis Hwhole : Forall wholeTimes ps.
Hypothesis Hhorizon : horizon ps <= two53.

Lemma srtfInit_whole :
  mathMin (map arrival ps) = Fin t0 -> SrtfWhole ps (srtfInit ps t0).
Proof.
  intros Hmin. destruct (mathMin_arrival ps t0 Hmin) as [[p0 [Hin0 E0]] _].
  pose proof (lastArrival_ge ps p0 Hin0) as Hl.
  assert (Hp0 : wholeTimes p0) by (rewrite Forall_forall in Hwhole; auto).
  destruct Hp0 as [Wa [_ [Ha _]]]. unfold srtfInit. constructor; cbn [s_time s_rem].
  - rewrite <- E0. split; assumption.
  - apply Forall_map. eapply Forall_impl; [|exact Hwhole].
    intros p [_ [Wb [_ Hb]]]. split; [assumption|lra].
  - apply Qle_refl.
  - unfold horizon. rewrite <- E0. lra.
Qed.

Lemma srtf_whole_step (st st' : SrtfState) :
  SrtfInv ps t0 st -> SrtfWhole ps st -> srtfCond (length ps) st = true ->
  srtfBody localeCompare ps st = Next st' -> SrtfWhole ps st'.
Proof.
  intros Hinv [[Wt Ht] Hrem Htot Hb] Hcond Hbody.
  pose proof (bursts_nonneg ps Hwhole) as Hn.
  destruct (srtfBody_data localeCompare ps st st' Hbody) as [Htime Hdata].
  destruct (fst (pick localeCompare ps (s_rem st) (s_done st) (s_time st) 0 ps
                   None PInf)) as [best|] eqn:Hpick.
  - destruct Hdata as [p [Hp [_ [Hpos [_ [Hrem' _]]]]]].
    destruct (nth_whole (s_rem st) best Hrem) as [Wr _].
    set (r := nth best (s_rem st) 0) in *.
    assert (Hone : 0 + 1 <= r) by (apply whole_succ; [reflexivity|assumption|assumption]).
    assert (Hi : (best < length (s_rem st))%nat).
    { rewrite (si_rem_len Hinv). eapply nth_error_lt; eassumption. }
    constructor; rewrite ?Htime, ?Hrem'.
    + split; [apply whole_plus; [assumption|reflexivity]|lra].
    + apply Forall_setNth; [assumption|].
      split; [apply whole_minus; [assumption|reflexivity]|lra].
    + rewrite total_setNth by assumption. fold r. lra.
    + rewrite total_setNth by assumption. fold r. lra.
  - destruct Hdata as [_ [Hrem' _]].
    unfold srtfCond in Hcond. apply Nat.ltb_lt in Hcond.
    destruct (goodSet_missing _ _ (si_done Hinv) Hcond) as [i [Hi Hnot]].
    destruct (nth_error ps i) as [p|] eqn:Hp; [|apply nth_error_None in Hp; lia].
    destruct (nth_whole (s_rem st) i Hrem) as [_ Hr0].
    assert (Hpos : 0 < nth i (s_rem st) 0).
    { destruct (Qlt_le_dec 0 (nth i (s_rem st) 0)) as [H|H]; [assumption|].
      exfalso. apply Hnot. apply (si_zero_done Hinv); [assumption|]. lra. }
    assert (Hlate : s_time st < arrival p).
    { apply Qnot_le_lt. intro Hle.
      apply (pick_none localeCompare ps (s_rem st) (s_done st) (s_time st) ps 0
               Hpick i).
      split; [lia|]. split; [apply has_notIn; assumption|]. split; [assumption|].
      exists p. rewrite Nat.sub_0_r. auto. }
    assert (Hin : In p ps) by (eapply nth_error_In; eassumption).
    assert (Hpw : wholeTimes p) by (rewrite Forall_forall in Hwhole; auto).
    destruct Hpw as [Wa _].
    pose proof (whole_succ _ _ Wt Wa Hlate) as Hnext.
    pose proof (lastArrival_ge ps p Hin) as Hla.
    constructor; rewrite ?Htime, ?Hrem'.
    + split; [apply whole_plus; [assumption|reflexivity]|lra].
    + assumption.
    + assumption.
    + unfold horizon. lra.
Qed.

Lemma srtfBody_agree (st : SrtfState) :
  SrtfInv ps t0 st -> SrtfWhole ps st -> srtfCond (length ps) st = true ->
  srtfBody64 localeCompare ps st = srtfBody localeCompare ps st.
Proof.
  intros Hinv Hw Hcond.
  assert (Hnext : s_time st + 1 <= horizon ps).
  { destruct (srtfBody localeCompare ps st) as [s'| |] eqn:Hbody.
    - destruct (srtf_whole_step st s' Hinv Hw Hcond Hbody) as [_ Hrem' _ Hb'].
      destruct (srtfBody_data localeCompare ps st s' Hbody) as [Htime _].
      rewrite Htime in Hb'.
      assert (0 <= total (s_rem s')).
      { apply total_nonneg. eapply Forall_impl; [|exact Hrem']. intros a [_ Ha]. exact Ha. }
      lra.
    - pose proof (srtf_step localeCompare ps t0 st Hinv Hcond) as H.
      rewrite Hbody in H. contradiction.
    - pose proof (srtf_step localeCompare ps t0 st Hinv Hcond) as H.
      rewrite Hbody in H. contradiction. }
  destruct Hw as [[Wt Ht] Hrem Htot Hb].
  pose proof (bursts_nonneg ps Hwhole) as Hn.
  pose proof (lastArrival_nonneg ps) as Hl.
  assert (Hsmall : Forall (fun a => wholeTime (arrival a)) ps).
  { apply Forall_forall. intros a Ha. eapply wholeTime_arrival; eassumption. }
  assert (Hlt : 0 <= total (s_rem st)).
  { apply total_nonneg. eapply Forall_impl; [|exact Hrem]. intros a [_ Ha]. exact Ha. }
  unfold horizon in Hb, Hhorizon, Hnext.
  assert (St : wholeTime (s_time st)) by (split; [assumption|split; [assumption|lra]]).
  unfold srtfBody64, srtfBody.
  rewrite (pick64_exact localeCompare ps _ _ _ Hsmall ps Hsmall).
  rewrite (fadd_whole (s_time st) 1) by (assumption || reflexivity || lra).
  destruct (fst (pick localeCompare ps (s_rem st) (s_done st) (s_time st) 0 ps
                   None PInf)) as [best|] eqn:Hpick; [|reflexivity].
  destruct (nth_error ps best) as [p|] eqn:Hp; [|reflexivity].
  apply pick_some in Hpick.
  destruct Hpick as [[=]|[_ [_ [Hpos [p' [Hp' Harr]]]]]].
  rewrite Nat.sub_0_r in Hp'. assert (p' = p) by congruence. subst p'.
  destruct (nth_whole (s_rem st) best Hrem) as [Wr _].
  pose proof (nth_le_total (s_rem st) best Hrem) as Hrt.
  set (r := nth best (s_rem st) 0) in *.
  assert (Hin : In p ps) by (eapply nth_error_In; eassumption).
  pose proof (wholeTime_arrival ps p Hwhole Hhorizon Hin) as Sa.
  pose proof (wholeTime_burst ps p Hwhole Hhorizon Hin) as Sb.
  assert (Sr : wholeTime r) by (split; [assumption|split; lra]).
  assert (Se : wholeTime (s_time st + 1)).
  { split; [apply whole_plus; [assumption|reflexivity]|split; lra]. }
  assert (Stat : wholeTime (s_time st + 1 - arrival p)).
  { destruct Sa as [Wa [A0 A1]].
    split; [apply whole_minus; [apply whole_plus; [assumption|reflexivity]|assumption]
           |split; lra]. }
  cbv zeta.
  rewrite (fsub_whole _ _ St Sa).
  rewrite (fsub_whole _ _ Sr wholeTime_one).
  rewrite (fsub_whole _ _ Se Sa).
  rewrite (fsub_whole _ _ Stat Sb).
  reflexivity.
Qed.
End SrtfAgree.

Lemma srtf64_exact (localeCompare : string -> string -> Z) (ps : list Process)
    (fuel : nat) :
  validSet ps -> exactSet ps ->
  srtf64 localeCompare fuel ps = srtf localeCompare fuel ps.
Proof.
  intros Hv He. pose proof (exact_wholeTimes ps Hv He) as Hw. destruct He as [_ Hh].
  unfold srtf64, srtf.
  destruct (mathMin (map arrival ps)) as [t0| | |] eqn:Hmin; try reflexivity.
  rewrite (while_agree _ (srtfCond (length ps)) (srtfBody localeCompare ps)
             (srtfBody64 localeCompare ps)
             (fun s => SrtfInv ps t0 s /\ SrtfWhole ps s)); [reflexivity| | |].
  - intros s [Hs Hs'] Hc. apply (srtfBody_agree localeCompare ps t0); assumption.
  - intros s s' [Hs Hs'] Hc Hb. split.
    + pose proof (srtf_step localeCompare ps t0 s Hs Hc) as H. rewrite Hb in H. apply H.
    + exact (srtf_whole_step localeCompare ps t0 Hw s s' Hs Hs' Hc Hb).
  - split; [apply srtfInit_inv; apply valid_bursts; assumption
           |apply srtfInit_whole; assumption].
Qed.

Lemma roundRobin64_exact_valid (ps : list Process) (q : jsnum) (fuel : nat) :
  validSet ps -> exactSet ps -> gt0 q = true -> exactQuantum q ->
  roundRobin64 fuel ps q = roundRobin fuel ps q.
Proof.
  intros Hv He Hq Hx. pose proof (exact_wholeTimes ps Hv He) as Hw. destruct He as [_ Hh].
  apply roundRobin64_exact; assumption.
Qed.

(* ================================================================== *)
(** * The claims *)

(** Closes the side conditions of a concrete process list. *)
Ltac concrete_valid :=
  split; [discriminate|];
  split; [repeat constructor; simpl; intuition discriminate|];
  repeat constructor; unfold Qle, Qlt; simpl; lia.

Lemma sampleSet_valid : validSet sampleSet.
Proof. concrete_valid. Qed.

Lemma returnsWith_ext {A : Type} (run run' : nat -> Outcome A) (P : A -> Prop) :
  (forall fuel, run' fuel = run fuel) -> returnsWith run P -> returnsWith run' P.
Proof.
  intros H [fuel0 Hr]. exists fuel0. intros fuel Hle. rewrite H. auto.
Qed.

Lemma exact_wholeBursts (ps : list Process) :
  validSet ps -> exactSet ps -> wholeBursts ps.
Proof.
  intros Hv He. pose proof (exact_wholeTimes ps Hv He) as Hw.
  unfold wholeBursts. eapply Forall_impl; [|exact Hw].
  intros p [_ [Wb [_ Hb]]]. exists (Z.to_nat (Qnum (burst p))).
  rewrite (whole_inject _ Wb) in Hb |- *. simpl Qnum.
  change 0 with (inject_Z 0) in Hb. rewrite <- Zlt_Qlt in Hb.
  rewrite Z2Nat.id by lia. reflexivity.
Qed.

(** ** Timeline coverage *)

(** C1, as stated, fails where double arithmetic rounds.  A process arriving
    at [2^53] with burst 1 ends, under FCFS, where it starts: [2^53 + 1]
    rounds to [2^53].  Round Robin on one process of burst [0.7] with quantum
    [0.1] leaves a remaining burst of [1.1e-16] after seven slices and runs an
    eighth slice from [0.7] to [0.7]. *)
Lemma C1_counterexample :
  validSet pastExact /\
  map span (blocks (fcfs64 pastExact)) = [("P1", two53, two53)] /\
  ~ covers two53 (fcfs64 pastExact) /\
  validSet tenths /\ gt0 (Fin (literal 1 10)) = true /\
  exists r b,
    roundRobin64 8 tenths (Fin (literal 1 10)) = Returned r /\
    length (blocks r) = 8%nat /\
    nth_error (blocks r) 7 = Some b /\ b_start b = b_end b /\
    ~ covers 0 r.
Proof.
  split; [concrete_valid|]. split; [vm_compute; reflexivity|]. split.
  { intros [tend [_ [[_ [Hpos _]] _]]].
    specialize (Hpos (mkBlock "P1" two53 two53 "c") (or_introl eq_refl)).
    vm_compute in Hpos. discriminate. }
  split; [concrete_valid|]. split; [reflexivity|].
  eexists. eexists. split; [vm_compute; reflexivity|]. split; [reflexivity|].
  split; [reflexivity|]. split; [reflexivity|].
  intros [tend [_ [[_ [Hpos _]] _]]].
  match type of Hpos with
  | forall b, In b ?l -> _ => 
      assert (Hin : exists b, nth_error l 7 = Some b /\ In b l)
        by (eexists; split; [reflexivity|]; do 7 right; now left)
  end.
  destruct Hin as [b [Hb Hin]]. specialize (Hpos b Hin).
  injection Hb as <-. vm_compute in Hpos. discriminate.
Qed.

(** C1 (amended).  For every valid process set whose arrivals and bursts are
    whole numbers with a horizon (latest arrival plus total burst) of at most
    [2^53], and a quantum > 0 that is a whole number or [Infinity], the
    blocks each of the five functions returns, computed in double
    arithmetic and in the order returned (which is increasing in [start]),
    tile [[min(arrival), endTime)]: the first block starts at
    [min(arrival)], every block has [end > start], each block ends where the
    next starts, and the last block ends at [endTime].  FCFS is a total
    function; SJF, Priority, Round Robin and SRTF return once the fuel of
    the loop model suffices. *)
Theorem C1_timeline_coverage (localeCompare : string -> string -> Z)
    (ps : list Process) (q : jsnum) :
  validSet ps -> exactSet ps -> gt0 q = true -> exactQuantum q ->
  exists t0,
    mathMin (map arrival ps) = Fin t0 /\
    (exists p, In p ps /\ arrival p = t0) /\
    Forall (fun p => t0 <= arrival p) ps /\
    covers t0 (fcfs64 ps) /\
    returnsWith (fun fuel => sjf64 localeCompare fuel ps) (covers t0) /\
    returnsWith (fun fuel => prioritySchedule64 localeCompare fuel ps) (covers t0) /\
    returnsWith (fun fuel => roundRobin64 fuel ps q) (covers t0) /\
    returnsWith (fun fuel => srtf64 localeCompare fuel ps) (covers t0).
Proof.
  intros Hv He Hq Hx. destruct (valid_min ps Hv) as [t0 Hmin]. exists t0.
  destruct (mathMin_arrival ps t0 Hmin) as [Hex Hall].
  repeat split; try assumption.
  - rewrite (fcfs64_exact ps Hv He). apply fcfs_covers; assumption.
  - apply (returnsWith_ext (fun fuel => sjf localeCompare fuel ps));
      [intros fuel; apply sjf64_exact; assumption|].
    eapply returnsWith_impl; [|apply (nonPreemptive_returnsWith _ ps t0 Hv Hmin)].
    intros r H. apply H.
  - apply (returnsWith_ext (fun fuel => prioritySchedule localeCompare fuel ps));
      [intros fuel; apply prioritySchedule64_exact; assumption|].
    eapply returnsWith_impl; [|apply (nonPreemptive_returnsWith _ ps t0 Hv Hmin)].
    intros r H. apply H.
  - apply (returnsWith_ext (fun fuel => roundRobin fuel ps q));
      [intros fuel; apply roundRobin64_exact_valid; assumption|].
    eapply returnsWith_impl; [|apply (roundRobin_returnsWith ps q t0 Hq Hv Hmin)].
    intros r H. apply H.
  - apply (returnsWith_ext (fun fuel => srtf localeCompare fuel ps));
      [intros fuel; apply srtf64_exact; assumption|].
    eapply returnsWith_impl;
      [|apply (srtf_returnsWith localeCompare ps t0 Hv Hmin
                 (exact_wholeBursts ps Hv He))].
    intros r H. apply H.
Qed.

Lemma sampleSet_exact : exactSet sampleSet.
Proof.
  split; [repeat constructor|vm_compute; discriminate].
Qed.

Lemma C1_timeline_coverage_witness :
  validSet sampleSet /\ exactSet sampleSet /\ gt0 (Fin 2) = true /\
  exactQuantum (Fin 2) /\
  exists t0,
    mathMin (map arrival sampleSet) = Fin t0 /\
    (exists p, In p sampleSet /\ arrival p = t0) /\
    Forall (fun p => t0 <= arrival p) sampleSet /\
    covers t0 (fcfs64 sampleSet) /\
    returnsWith (fun fuel => sjf64 codeUnitCompare fuel sampleSet) (covers t0) /\
    returnsWith (fun fuel => prioritySchedule64 codeUnitCompare fuel sampleSet)
      (covers t0) /\
    returnsWith (fun fuel => roundRobin64 fuel sampleSet (Fin 2)) (covers t0) /\
    returnsWith (fun fuel => srtf64 codeUnitCompare fuel sampleSet) (covers t0).
Proof.
  split; [exact sampleSet_valid|]. split; [exact sampleSet_exact|].
  split; [reflexivity|]. split; [reflexivity|].
  apply (C1_timeline_coverage codeUnitCompare sampleSet (Fin 2) sampleSet_valid
           sampleSet_exact eq_refl eq_refl).
Defined.

(** ** Conservation *)

Lemma unique_demand (ps : list Process) (p : Process) (bs : list Block) :
  validSet ps -> In p ps ->
  busy (pid p) bs == demand (pid p) ps -> busy (pid p) bs == burst p.
Proof.
  intros [_ [Hnd _]] Hin H. rewrite H. apply (demand_unique ps p Hnd Hin).
Qed.

Lemma sampleSet_named : Forall (fun p => pid p <> IDLE) sampleSet.
Proof. repeat constructor; discriminate. Qed.

(** C6, as stated, fails for a process whose pid is the idle marker.  Under
    FCFS its only block cannot be told from an idle block.  Under SRTF its
    tick 0-1 is merged with the idle gap 1-5 into one block IDLE 0-5: whether
    that block is counted for the process (5) or as idle (0), the sum is not
    its burst (1); the same in double arithmetic.  It also fails where
    double arithmetic rounds: under FCFS the block of a process arriving at
    [0.1] with burst [0.2] is longer than [0.2], and the block of a process
    arriving at [2^53] with burst 1 has length 0. *)
Lemma C6_counterexample :
  validSet idleGap /\ In idleNamed idleGap /\
  (exists r, srtf codeUnitCompare 6 idleGap = Returned r /\
             map span (blocks r) = [(IDLE, 0, 5); ("X", 5, 6)] /\
             ~ busy (pid idleNamed) (blocks r) == burst idleNamed /\
             ~ 5 - 0 == burst idleNamed) /\
  validSet [idleNamed] /\
  ~ busy (pid idleNamed) (blocks (fcfs [idleNamed])) == burst idleNamed /\
  (exists r, srtf64 codeUnitCompare 6 idleGap = Returned r /\
             ~ busy (pid idleNamed) (blocks r) == burst idleNamed) /\
  ~ busy (pid idleNamed) (blocks (fcfs64 [idleNamed])) == burst idleNamed /\
  validSet fractions /\ Forall (fun p => pid p <> IDLE) fractions /\
  ~ busy "P1" (blocks (fcfs64 fractions)) == literal 2 10 /\
  validSet pastExact /\ Forall (fun p => pid p <> IDLE) pastExact /\
  busy "P1" (blocks (fcfs64 pastExact)) == 0.
Proof.
  split; [concrete_valid|]. split; [now left|]. split; [|split; [|split]].
  - eexists. split; [vm_compute; reflexivity|]. split; [reflexivity|].
    split; intro H; vm_compute in H; discriminate.
  - concrete_valid.
  - intro H. vm_compute in H. discriminate.
  - split; [|split; [|split; [|split; [|split; [|split; [|split]]]]]].
    + eexists. split; [vm_compute; reflexivity|]. intro H; vm_compute in H; discriminate.
    + intro H. vm_compute in H. discriminate.
    + concrete_valid.
    + repeat constructor; discriminate.
    + intro H. vm_compute in H. discriminate.
    + concrete_valid.
    + repeat constructor; discriminate.
    + vm_compute. reflexivity.
Qed.

(** C6 (amended).  For every valid process set in which no pid is the idle
    marker ['IDLE'] and whose arrivals and bursts are whole numbers with a
    horizon of at most [2^53], a quantum > 0 that is a whole number or
    [Infinity], and every process [p] of the set: in the result each of the
    five functions computes in double arithmetic, the non-idle blocks
    carrying [p]'s pid add up to [p]'s burst; and for FCFS, SJF and Priority
    the pid is carried by exactly one non-idle block. *)
Theorem C6_conservation (localeCompare : string -> string -> Z)
    (ps : list Process) (q : jsnum) (p : Process) :
  validSet ps -> exactSet ps -> Forall (fun p => pid p <> IDLE) ps ->
  gt0 q = true -> exactQuantum q -> In p ps ->
  (busy (pid p) (blocks (fcfs64 ps)) == burst p /\
   occurrences (pid p) (blocks (fcfs64 ps)) = 1%nat) /\
  returnsWith (fun fuel => sjf64 localeCompare fuel ps)
    (fun r => busy (pid p) (blocks r) == burst p /\
              occurrences (pid p) (blocks r) = 1%nat) /\
  returnsWith (fun fuel => prioritySchedule64 localeCompare fuel ps)
    (fun r => busy (pid p) (blocks r) == burst p /\
              occurrences (pid p) (blocks r) = 1%nat) /\
  returnsWith (fun fuel => roundRobin64 fuel ps q)
    (fun r => busy (pid p) (blocks r) == burst p) /\
  returnsWith (fun fuel => srtf64 localeCompare fuel ps)
    (fun r => busy (pid p) (blocks r) == burst p).
Proof.
  intros Hv He Hids Hq Hx Hin. destruct (valid_min ps Hv) as [t0 Hmin].
  assert (Hid : pid p <> IDLE) by (rewrite Forall_forall in Hids; auto).
  assert (Hcopies : copies (pid p) ps = 1%nat).
  { destruct Hv as [_ [Hnd _]]. apply (demand_unique ps p Hnd Hin). }
  split; [rewrite (fcfs64_exact ps Hv He); apply fcfs_conserves; assumption|].
  split; [|split; [|split]].
  - apply (returnsWith_ext (fun fuel => sjf localeCompare fuel ps));
      [intros fuel; apply sjf64_exact; assumption|].
    eapply returnsWith_impl; [|apply (nonPreemptive_returnsWith _ ps t0 Hv Hmin)].
    intros r [_ H]. destruct (H (pid p) Hid) as [B O]. split.
    + apply (unique_demand ps p _ Hv Hin B).
    + congruence.
  - apply (returnsWith_ext (fun fuel => prioritySchedule localeCompare fuel ps));
      [intros fuel; apply prioritySchedule64_exact; assumption|].
    eapply returnsWith_impl; [|apply (nonPreemptive_returnsWith _ ps t0 Hv Hmin)].
    intros r [_ H]. destruct (H (pid p) Hid) as [B O]. split.
    + apply (unique_demand ps p _ Hv Hin B).
    + congruence.
  - apply (returnsWith_ext (fun fuel => roundRobin fuel ps q));
      [intros fuel; apply roundRobin64_exact_valid; assumption|].
    eapply returnsWith_impl; [|apply (roundRobin_returnsWith ps q t0 Hq Hv Hmin)].
    intros r [_ H]. apply (unique_demand ps p _ Hv Hin (H (pid p) Hid)).
  - apply (returnsWith_ext (fun fuel => srtf localeCompare fuel ps));
      [intros fuel; apply srtf64_exact; assumption|].
    eapply returnsWith_impl;
      [|apply (srtf_returnsWith localeCompare ps t0 Hv Hmin
                 (exact_wholeBursts ps Hv He))].
    intros r [_ H]. apply (unique_demand ps p _ Hv Hin (H (pid p) Hid)).
Qed.

Lemma C6_conservation_witness :
  validSet sampleSet /\ exactSet sampleSet /\
  Forall (fun p => pid p <> IDLE) sampleSet /\
  gt0 (Fin 2) = true /\ exactQuantum (Fin 2) /\ In (P "P2" 2 4) sampleSet /\
  (busy "P2" (blocks (fcfs64 sampleSet)) == 4 /\
   occurrences "P2" (blocks (fcfs64 sampleSet)) = 1%nat) /\
  returnsWith (fun fuel => sjf64 codeUnitCompare fuel sampleSet)
    (fun r => busy "P2" (blocks r) == 4 /\ occurrences "P2" (blocks r) = 1%nat) /\
  returnsWith (fun fuel => prioritySchedule64 codeUnitCompare fuel sampleSet)
    (fun r => busy "P2" (blocks r) == 4 /\ occurrences "P2" (blocks r) = 1%nat) /\
  returnsWith (fun fuel => roundRobin64 fuel sampleSet (Fin 2))
    (fun r => busy "P2" (blocks r) == 4) /\
  returnsWith (fun fuel => srtf64 codeUnitCompare fuel sampleSet)
    (fun r => busy "P2" (blocks r) == 4).
Proof.
  split; [exact sampleSet_valid|]. split; [exact sampleSet_exact|].
  split; [exact sampleSet_named|].
  split; [reflexivity|]. split; [reflexivity|]. split; [right; now left|].
  apply (C6_conservation codeUnitCompare sampleSet (Fin 2) (P "P2" 2 4)
           sampleSet_valid sampleSet_exact sampleSet_named eq_refl eq_refl
           (or_intror (or_introl eq_refl))).
Defined.


(** ** Round Robin: termination and the queue discipline *)

Lemma rr_reaches_inv (ps : list Process) (q : jsnum) (t0 : Q) (st : RRState) :
  gt0 q = true -> validSet ps -> mathMin (map arrival ps) = Fin t0 ->
  reaches (rrCond (length ps)) (rrBody ps q) (rrInit ps t0) st -> RRInv ps t0 st.
Proof.
  intros Hq Hv Hmin. apply reaches_inv.
  - apply rrInit_inv; assumption.
  - intros s Hs _. pose proof (rr_step ps q t0 Hq Hv s Hs) as H.
    destruct (rrBody ps q s); tauto.
Qed.


(** ** Round Robin in double arithmetic *)










(** ** The Round Robin scenario *)

Lemma roundRobin_more_fuel (fuel fuel' : nat) (ps : list Process) (q : jsnum)
    (r : SimulationResult) :
  roundRobin fuel ps q = Returned r -> (fuel <= fuel')%nat ->
  roundRobin fuel' ps q = Returned r.
Proof.
  unfold roundRobin. destruct (negb (gt0 q)); [discriminate|].
  destruct (mathMin (map arrival ps)); try (intros H _; exact H).
  destruct (while _ _ fuel _) as [st| |] eqn:Hw; try discriminate.
  intros H Hle. rewrite (while_more_fuel _ _ _ fuel fuel' _ st Hw Hle). exact H.
Qed.

(** C5, as stated, fails: the four blocks listed give P1 only 4 of its 5
    units; the run has a fifth block and P1 completes at 8, not 6. *)
Lemma C5_counterexample :
  exists r, roundRobin 5 (rrScenario 0 0 "" "") (Fin 2) = Returned r /\
    map (fun b => (b_pid b, b_start b, b_end b)) (blocks r)
      <> [("P1", 0, 2); ("P2", 2, 4); ("P1", 4, 6); ("P2", 6, 7)] /\
    option_map r_completion (mapGet "P1" (results r)) = Some 8 /\
    ~ 8 == 6.
Proof.
  eexists. split; [vm_compute; reflexivity|].
  split; [vm_compute; discriminate|]. split; [reflexivity|].
  intro H. vm_compute in H. discriminate.
Qed.

(** C5 (amended).  For P1(arrival 0, burst 5), P2(arrival 1, burst 3) and
    quantum 2, Round Robin produces exactly the blocks
    [P1 0-2, P2 2-4, P1 4-6, P2 6-7, P1 7-8]; P1 completes at 8 and P2 at 7. *)
Theorem C5_round_robin_scenario (pr1 pr2 : Q) (c1 c2 : string) (k : nat) :
  roundRobin (5 + k) (rrScenario pr1 pr2 c1 c2) (Fin 2) =
  Returned (mkSim
    [mkBlock "P1" 0 2 c1; mkBlock "P2" 2 4 c2; mkBlock "P1" 4 6 c1;
     mkBlock "P2" 6 7 c2; mkBlock "P1" 7 8 c1]
    [("P1", mkResult 0 8 8 3 0 0 5 pr1); ("P2", mkResult 2 7 6 3 1 1 3 pr2)]
    (Fin 8)).
Proof.
  apply (roundRobin_more_fuel 5); [|lia]. vm_compute. reflexivity.
Qed.

(** ** The quantum guard *)

(** C8, as stated, fails at [Infinity]: the guard [!(q>0)] lets it through
    and every process then runs to completion in one slice. *)
Lemma C8_counterexample :
  validSet [P "P1" 0 1] /\
  exists r, roundRobin 1 [P "P1" 0 1] PInf = Returned r.
Proof.
  split; [concrete_valid|]. eexists. vm_compute. reflexivity.
Qed.

(** ** The guard of Round Robin *)

Lemma while_no_throw {S : Type} (cond : S -> bool) (body : S -> Step S)
    (I : S -> Prop) :
  (forall s, I s -> cond s = true ->
             (exists s', body s = Next s' /\ I s') \/ (exists s', body s = Break s')) ->
  forall fuel s msg, I s -> while cond body fuel s <> Thrown msg.
Proof.
  intros Hstep. induction fuel as [|k IH]; intros s msg Hs; simpl;
    destruct (cond s) eqn:Hc; try discriminate.
  destruct (Hstep s Hs Hc) as [[s' [Hb Hs']]|[s' Hb]]; rewrite Hb.
  - apply IH. assumption.
  - discriminate.
Qed.

Lemma mapGet_kept (k k' : string) (v : ProcResult) (m : ResMap) :
  mapGet k m <> None -> mapGet k (mapSet k' v m) <> None.
Proof.
  intros H. rewrite mapGet_mapSet. destruct (String.eqb k' k); [discriminate|assumption].
Qed.

Lemma rrInit_safe (ps : list Process) (t0 : Q) : RRSafe ps (rrInit ps t0).
Proof.
  unfold rrInit. constructor; cbn [rr_queue rr_firstStart rr_res].
  - rewrite initQueue_newly. apply Forall_forall. intros j Hj. apply newly_In0 in Hj.
    destruct Hj as [_ [p [Hp _]]]. eapply nth_error_lt; eassumption.
  - intros i p _ H. exfalso. apply H. apply nth_const_none.
Qed.

Lemma rr_safe_step (ps : list Process) (q : jsnum) (st : RRState) :
  RRSafe ps st ->
  (exists st', rrBody64 ps q st = Next st' /\ RRSafe ps st') \/
  (exists st', rrBody64 ps q st = Break st').
Proof.
  intros [Hqu Hst]. unfold rrBody64.
  assert (Hnew : forall t arrived, Forall (fun i => (i < length ps)%nat)
                                     (newly t 0 ps arrived)).
  { intros t arrived. apply Forall_forall. intros j Hj. apply newly_In0 in Hj.
    destruct Hj as [_ [p [Hp _]]]. eapply nth_error_lt; eassumption. }
  destruct (rr_queue st) as [|i queue0] eqn:Hqueue.
  - destruct (findNotArrived (rr_arrived st) 0 ps) as [k|] eqn:Hf; [|right; eauto].
    destruct (findNotArrived_some _ _ _ _ Hf) as [Hk _].
    destruct (nth_error ps k) as [pn|] eqn:Hpn; [|apply nth_error_None in Hpn; lia].
    rewrite pushArrived_newly. left. eexists. split; [reflexivity|].
    constructor; cbn [rr_queue rr_firstStart rr_res]; [|assumption].
    simpl. apply Hnew.
  - inversion Hqu as [|a b Hi Hrest]; subst.
    destruct (nth_error ps i) as [p|] eqn:Hp; [|apply nth_error_None in Hp; lia].
    cbv zeta. rewrite pushArrived_newly. left.
    set (first := match nth i (rr_firstStart st) None with
                  | None => true | Some _ => false end).
    set (firstStart1 := if first then setNth i (Some (rr_time st)) (rr_firstStart st)
                        else rr_firstStart st).
    set (res1 := if first then mapSet (pid p) _ (rr_res st) else rr_res st).
    assert (Hp1 : mapGet (pid p) res1 <> None).
    { unfold res1, first. destruct (nth i (rr_firstStart st) None) eqn:Hn.
      - apply (Hst i p Hp). rewrite Hn. discriminate.
      - rewrite mapGet_mapSet, String.eqb_refl. discriminate. }
    assert (Hst1 : forall j pj, nth_error ps j = Some pj ->
              nth j firstStart1 None <> None -> mapGet (pid pj) res1 <> None).
    { intros j pj Hpj Hj. destruct (Nat.eq_dec j i) as [->|Hne].
      - assert (pj = p) by congruence. subst. assumption.
      - assert (Hj' : nth j (rr_firstStart st) None <> None).
        { unfold firstStart1 in Hj. destruct first; [|assumption].
          rewrite nth_setNth_other in Hj by auto. assumption. }
        specialize (Hst j pj Hpj Hj'). unfold res1. destruct first; [|assumption].
        apply mapGet_kept. assumption. }
    destruct (Qltb 0 _).
    + eexists. split; [reflexivity|].
      constructor; cbn [rr_queue rr_firstStart rr_res]; [|assumption].
      apply Forall_app. split; [apply Forall_app; split; [assumption|apply Hnew]|].
      constructor; [assumption|constructor].
    + destruct (mapGet (pid p) res1) as [r|] eqn:Hg; [|contradiction].
      eexists. split; [reflexivity|].
      constructor; cbn [rr_queue rr_firstStart rr_res].
      * apply Forall_app; split; [assumption|apply Hnew].
      * intros j pj Hpj Hj. apply mapGet_kept. apply (Hst1 j pj); assumption.
Qed.

Lemma roundRobin64_no_throw (ps : list Process) (q : jsnum) (fuel : nat) (msg : string) :
  gt0 q = true -> roundRobin64 fuel ps q <> Thrown msg.
Proof.
  intros Hq. unfold roundRobin64. rewrite Hq. cbn [negb].
  destruct (mathMin (map arrival ps)) as [t0| | |]; try discriminate.
  pose proof (while_no_throw (rrCond (length ps)) (rrBody64 ps q) (RRSafe ps)
                (fun s Hs _ => rr_safe_step ps q s Hs) fuel (rrInit ps t0) msg
                (rrInit_safe ps t0)) as H.
  destruct (while _ _ _ _); try discriminate. congruence.
Qed.

(** C8 (amended).  Round Robin throws its quantum error, before any output,
    exactly when [q > 0] is false: for a quantum <= 0, for [NaN] (what a
    non-numeric field converts to) and for [-Infinity].  For every quantum
    with [q > 0], finite or [+Infinity], it throws nothing, whatever the
    process list; and it returns a result when the process set is valid
    with whole-number arrivals and bursts (horizon at most [2^53]) and the
    quantum is a whole number or [Infinity]. *)
Theorem C8_quantum_guard (ps : list Process) (q : jsnum) :
  (gt0 q = false <-> (q = NaN \/ q = NInf \/ exists x, q = Fin x /\ x <= 0)) /\
  (gt0 q = false ->
   forall fuel, roundRobin fuel ps q = Thrown quantumError /\
                roundRobin64 fuel ps q = Thrown quantumError) /\
  (gt0 q = true -> forall fuel msg, roundRobin64 fuel ps q <> Thrown msg) /\
  (gt0 q = true -> validSet ps -> exactSet ps -> exactQuantum q ->
   returnsWith (fun fuel => roundRobin64 fuel ps q) (fun _ => True)).
Proof.
  split; [|split; [|split]].
  - destruct q as [x| | |]; simpl; split; intros H; auto; try discriminate.
    + right. right. exists x. split; [reflexivity|]. qprop. assumption.
    + destruct H as [H|[H|[y [[= <-] H]]]]; try discriminate.
      apply Qltb_ge. assumption.
    + destruct H as [H|[H|[y [H _]]]]; discriminate.
  - intros H fuel. unfold roundRobin, roundRobin64. rewrite H. split; reflexivity.
  - intros Hq fuel msg. apply roundRobin64_no_throw. assumption.
  - intros Hq Hv He Hx. destruct (valid_min ps Hv) as [t0 Hmin].
    apply (returnsWith_ext (fun fuel => roundRobin fuel ps q));
      [intros fuel; apply roundRobin64_exact_valid; assumption|].
    eapply returnsWith_impl; [|apply (roundRobin_returnsWith ps q t0 Hq Hv Hmin)].
    auto.
Qed.

Lemma C8_quantum_guard_witness :
  (gt0 (Fin 0) = false /\
   forall fuel, roundRobin fuel sampleSet (Fin 0) = Thrown quantumError /\
                roundRobin64 fuel sampleSet (Fin 0) = Thrown quantumError) /\
  (gt0 tinyQuantum = true /\
   forall fuel msg, roundRobin64 fuel unitBurst tinyQuantum <> Thrown msg) /\
  (gt0 PInf = true /\ validSet sampleSet /\ exactSet sampleSet /\ exactQuantum PInf /\
   returnsWith (fun fuel => roundRobin64 fuel sampleSet PInf) (fun _ => True)).
Proof.
  split; [|split].
  - split; [reflexivity|].
    apply (proj1 (proj2 (C8_quantum_guard sampleSet (Fin 0))) eq_refl).
  - split; [reflexivity|].
    apply (proj1 (proj2 (proj2 (C8_quantum_guard unitBurst tinyQuantum))) eq_refl).
  - split; [reflexivity|]. split; [exact sampleSet_valid|].
    split; [exact sampleSet_exact|]. split; [exact I|].
    apply (proj2 (proj2 (proj2 (C8_quantum_guard sampleSet PInf))) eq_refl
             sampleSet_valid sampleSet_exact I).
Defined.

(** ** SRTF on a fractional burst *)

Lemma srtf_more_fuel (localeCompare : string -> string -> Z) (fuel fuel' : nat)
    (ps : list Process) (r : SimulationResult) :
  srtf localeCompare fuel ps = Returned r -> (fuel <= fuel')%nat ->
  srtf localeCompare fuel' ps = Returned r.
Proof.
  unfold srtf. destruct (mathMin (map arrival ps)); try (intros H _; exact H).
  destruct (while _ _ fuel _) as [st| |] eqn:Hw; try discriminate.
  intros H Hle. rewrite (while_more_fuel _ _ _ fuel fuel' _ st Hw Hle). exact H.
Qed.

Lemma overshot_step (localeCompare : string -> string -> Z) (st : SrtfState) :
  overshot st ->
  srtfCond (length halfBurst) st = true /\
  exists st', srtfBody localeCompare halfBurst st = Next st' /\ overshot st'.
Proof.
  intros [Hd [[x [Hr Hx]] Hl]]. split.
  - unfold srtfCond. rewrite Hd. reflexivity.
  - assert (Hpick : fst (pick localeCompare halfBurst (s_rem st) (s_done st)
                           (s_time st) 0 halfBurst None PInf) = None).
    { rewrite Hr, Hd. unfold halfBurst. simpl.
      assert (E : Qltb 0 x = false) by (apply Qltb_ge; lra).
      rewrite E, andb_false_r. reflexivity. }
    unfold srtfBody. rewrite Hpick. destruct Hl as [Hl|Hl]; rewrite Hl.
    + rewrite String.eqb_refl. eexists. split; [reflexivity|].
      unfold overshot. cbn [s_done s_rem s_lastPID].
      split; [assumption|]. split; [eauto|]. left. reflexivity.
    + change (String.eqb "P1" IDLE) with false. cbv iota.
      change (closeBlock halfBurst "P1" (s_blockStart st) (s_time st))
        with (Some (mkBlock "P1" (s_blockStart st) (s_time st) "")).
      eexists. split; [reflexivity|].
      unfold overshot. cbn [s_done s_rem s_lastPID].
      split; [assumption|]. split; [eauto|]. left. reflexivity.
Qed.

(** C3 (the code's defect).  On the single process P1(arrival 0, burst 1/2),
    a valid input, the SRTF loop never ends: after the first tick the
    remaining burst is -1/2, the test [rem[best] === 0] never holds, the
    process is never added to [done], and every later tick is idle. *)
Theorem C3_srtf_fractional_burst_never_returns
    (localeCompare : string -> string -> Z) (fuel : nat) :
  validSet halfBurst /\ srtf localeCompare fuel halfBurst = OutOfFuel.
Proof.
  split; [concrete_valid|].
  unfold srtf. change (mathMin (map arrival halfBurst)) with (Fin 0).
  destruct fuel as [|k]; [reflexivity|].
  assert (Hw : while (srtfCond (length halfBurst)) (srtfBody localeCompare halfBurst)
                 (S k) (srtfInit halfBurst 0) = OutOfFuel); [|rewrite Hw; reflexivity].
  change (while (srtfCond (length halfBurst)) (srtfBody localeCompare halfBurst) k
            (mkSrtf [] [("P1", mkResult 0 0 0 0 (0 - 0) 0 (1 # 2) 0)]
               [(1 # 2) - 1] [true] (0 + 1) (Some "P1") 0 [])
          = OutOfFuel).
  apply (while_never _ _ _ overshot); [apply overshot_step|].
  split; [reflexivity|]. split; [|right; reflexivity].
  eexists. split; [reflexivity|]. reflexivity.
Qed.

(** ** SRTF tie-break *)

(** C2 (the code's defect).  On B(arrival 0, burst 3), A(arrival 1, burst 2),
    in any collation that puts "A" before "B": at time 1 both have arrived,
    neither is done and both have remaining burst 2; the scan selects A
    (index 1), the later arrival, because the pid test of the tie-break does
    not require equal arrivals; the timeline is [B 0-1, A 1-3, B 3-5]. *)
Theorem C2_srtf_tie_break (localeCompare : string -> string -> Z) :
  (localeCompare "A" "B" < 0)%Z ->
  (exists st,
     reaches (srtfCond (length srtfTie)) (srtfBody localeCompare srtfTie)
       (srtfInit srtfTie 0) st /\
     s_time st == 1 /\ s_done st = [] /\
     nth 0 (s_rem st) 0 == 2 /\ nth 1 (s_rem st) 0 == 2 /\
     arrivalAt srtfTie 0 < arrivalAt srtfTie 1 /\ arrivalAt srtfTie 1 <= s_time st /\
     fst (pick localeCompare srtfTie (s_rem st) (s_done st) (s_time st) 0 srtfTie
            None PInf) = Some 1%nat) /\
  forall k, exists r,
    srtf localeCompare (5 + k) srtfTie = Returned r /\
    map span (blocks r) = [("B", 0, 1); ("A", 1, 3); ("B", 3, 5)].
Proof.
  intros Hlt. split.
  - eexists. split.
    + eapply reaches_next; [apply reaches_start|reflexivity|].
      vm_compute. reflexivity.
    + cbn [s_time s_done s_rem]. repeat split; try (vm_compute; congruence).
      vm_compute. destruct (localeCompare "A" "B"); try lia. reflexivity.
  - intros k.
    assert (H5 : exists r, srtf localeCompare 5 srtfTie = Returned r /\
               map span (blocks r) = [("B", 0, 1); ("A", 1, 3); ("B", 3, 5)]).
    { vm_compute. destruct (localeCompare "A" "B"); try lia.
      eexists. split; reflexivity. }
    destruct H5 as [r [Hr Hb]]. exists r. split; [|assumption].
    apply (srtf_more_fuel localeCompare 5); [assumption|lia].
Qed.

Lemma C2_srtf_tie_break_witness :
  (codeUnitCompare "A" "B" < 0)%Z /\
  forall k, exists r,
    srtf codeUnitCompare (5 + k) srtfTie = Returned r /\
    map span (blocks r) = [("B", 0, 1); ("A", 1, 3); ("B", 3, 5)].
Proof.
  split; [reflexivity|].
  apply (proj2 (C2_srtf_tie_break codeUnitCompare eq_refl)).
Defined.

(** ** Sorting *)

Section SortFacts.
Variable A : Type.
Variable cmp : A -> A -> Q.
Variable R : A -> A -> Prop.
Hypothesis R_trans : forall a b c, R a b -> R b c -> R a c.
Hypothesis R_after : forall x y, 0 < cmp x y -> R y x.
Hypothesis R_before : forall x y, cmp x y <= 0 -> R x y.

Lemma insertBy_sorted (x : A) (l : list A) :
  StronglySorted R l -> StronglySorted R (insertBy cmp x l).
Proof.
  induction 1 as [|y r Hr IH Hy]; simpl.
  - constructor; constructor.
  - destruct (Qltb 0 (cmp x y)) eqn:E; qprop.
    + constructor; [assumption|].
      apply (Permutation_Forall (insertBy_perm cmp x r)).
      constructor; [apply R_after; assumption|assumption].
    + constructor; [constructor; assumption|].
      constructor; [apply R_before; assumption|].
      eapply Forall_impl; [|exact Hy]. intros z Hz.
      eapply R_trans; [apply R_before; eassumption|assumption].
Qed.

Lemma sortBy_sorted (l : list A) : StronglySorted R (sortBy cmp l).
Proof.
  induction l as [|x r IH]; simpl; [constructor|].
  apply insertBy_sorted. assumption.
Qed.
End SortFacts.

(** The same for a comparator that orders the members of a domain [D]. *)
Section SortOn.
Variable A : Type.
Variable cmp : A -> A -> Q.
Variable R : A -> A -> Prop.
Variable D : A -> Prop.
Hypothesis R_trans : forall a b c, D b -> R a b -> R b c -> R a c.
Hypothesis R_after : forall x y, D x -> D y -> 0 < cmp x y -> R y x.
Hypothesis R_before : forall x y, D x -> D y -> cmp x y <= 0 -> R x y.



End SortOn.


Lemma numOr_cases (a b : Q) : (a == 0 /\ numOr a b = b) \/ (~ a == 0 /\ numOr a b = a).
Proof.
  unfold numOr. destruct (Qeq_bool a 0) eqn:E; qprop; [left|right]; auto.
Qed.

Lemma byArrival_after (localeCompare : string -> string -> Z) (x y : Process) :
  0 < byArrival localeCompare x y -> arrival y <= arrival x.
Proof.
  unfold byArrival.
  destruct (numOr_cases (arrival x - arrival y)
              (inject_Z (localeCompare (pid x) (pid y)))) as [[E ->]|[E ->]]; lra.
Qed.

Lemma byArrival_before (localeCompare : string -> string -> Z) (x y : Process) :
  byArrival localeCompare x y <= 0 -> arrival x <= arrival y.
Proof.
  unfold byArrival.
  destruct (numOr_cases (arrival x - arrival y)
              (inject_Z (localeCompare (pid x) (pid y)))) as [[E ->]|[E ->]]; lra.
Qed.

Lemma sorted_by_index (ps : list Process) :
  StronglySorted (fun a b => arrival a <= arrival b) ps -> arrivalSorted ps.
Proof.
  induction 1 as [|a r Hr IH Ha]; intros i j pi pj Hij Hi Hj.
  - destruct i; discriminate.
  - destruct j as [|j]; [lia|]. simpl in Hj. destruct i as [|i]; simpl in Hi.
    + injection Hi as <-. rewrite Forall_forall in Ha. apply Ha.
      eapply nth_error_In; eassumption.
    + apply (IH i j); [lia|assumption|assumption].
Qed.

(** Whatever the collation, [readProcesses] returns its list in arrival
    order. *)
Lemma readProcesses_arrivalSorted (localeCompare : string -> string -> Z)
    (rows : list Row) (procs : list Process) :
  readProcesses localeCompare rows = Returned procs -> arrivalSorted procs.
Proof.
  unfold readProcesses. destruct (readRows rows [] []) as [l| |]; try discriminate.
  intros [= <-]. apply sorted_by_index.
  apply (sortBy_sorted _ (byArrival localeCompare)
           (fun a b => arrival a <= arrival b)).
  - intros a b c. apply Qle_trans.
  - apply byArrival_after.
  - apply byArrival_before.
Qed.

Section CollationFacts.
Variable localeCompare : string -> string -> Z.
Hypothesis Hlc : ConsistentCollation localeCompare.






End CollationFacts.



(** ** Reading the process table *)

Lemma hasPid_snoc (seen : list string) (id x : string) :
  hasPid (seen ++ [id]) x = hasPid seen x || String.eqb x id.
Proof.
  unfold hasPid. rewrite existsb_app. simpl. rewrite orb_false_r. reflexivity.
Qed.

Lemma rowProcess_pid (tr : Row) (p : Process) :
  rowProcess tr = Some p -> pid p = row_pid tr.
Proof.
  unfold rowProcess. destruct (String.eqb (row_pid tr) ""); [discriminate|].
  destruct (finiteNonNeg (row_at tr)); [|discriminate].
  destruct (finitePos (row_bt tr)); [|discriminate].
  destruct (finite (row_pr tr)); [|discriminate].
  intros [= <-]. reflexivity.
Qed.

Lemma rows_pids (rows : list Row) (l : list Process) :
  Forall2 (fun tr p => rowProcess tr = Some p) rows l -> map pid l = map row_pid rows.
Proof.
  induction 1 as [|tr p rows l H _ IH]; simpl; [reflexivity|].
  rewrite IH, (rowProcess_pid tr p H). reflexivity.
Qed.

Lemma readRows_fuel (rows : list Row) :
  forall seen acc, readRows rows seen acc <> OutOfFuel.
Proof.
  induction rows as [|tr rest IH]; intros seen acc; simpl; [discriminate|].
  destruct (String.eqb (row_pid tr) ""); [discriminate|].
  destruct (hasPid seen (row_pid tr)); [discriminate|].
  destruct (finiteNonNeg (row_at tr)); [|discriminate].
  destruct (finitePos (row_bt tr)); [|discriminate].
  destruct (finite (row_pr tr)); [|discriminate].
  apply IH.
Qed.

Lemma readRows_returned (rows : list Row) :
  forall seen acc procs,
  readRows rows seen acc = Returned procs ->
  exists l, Forall2 (fun tr p => rowProcess tr = Some p) rows l /\
            procs = acc ++ l /\
            NoDup (map row_pid rows) /\
            forall tr, In tr rows -> hasPid seen (row_pid tr) = false.
Proof.
  induction rows as [|tr rest IH]; intros seen acc procs; simpl.
  - intros [= <-]. exists []. rewrite app_nil_r.
    repeat split; [constructor|constructor|tauto].
  - destruct (String.eqb (row_pid tr) "") eqn:E0; [discriminate|].
    destruct (hasPid seen (row_pid tr)) eqn:Eseen; [discriminate|].
    destruct (finiteNonNeg (row_at tr)) as [at_|] eqn:Ea; [|discriminate].
    destruct (finitePos (row_bt tr)) as [bt|] eqn:Eb; [|discriminate].
    destruct (finite (row_pr tr)) as [pr|] eqn:Ep; [|discriminate].
    intros H. apply IH in H. destruct H as [l [HF [-> [Hnd Hseen]]]].
    exists (mkProcess (row_pid tr) at_ bt pr (row_color tr) :: l).
    split; [|split; [|split]].
    + constructor; [|assumption]. unfold rowProcess. rewrite E0, Ea, Eb, Ep.
      reflexivity.
    + rewrite <- app_assoc. reflexivity.
    + constructor; [|assumption]. intro Hin. apply in_map_iff in Hin.
      destruct Hin as [tr' [Hpid Hin]]. specialize (Hseen tr' Hin).
      rewrite hasPid_snoc, Hpid, String.eqb_refl, orb_true_r in Hseen.
      discriminate.
    + intros tr' [<-|Hin]; [assumption|]. specialize (Hseen tr' Hin).
      rewrite hasPid_snoc in Hseen. apply orb_false_iff in Hseen. apply Hseen.
Qed.

Lemma readRows_complete (rows : list Row) :
  forall seen acc l,
  Forall2 (fun tr p => rowProcess tr = Some p) rows l ->
  NoDup (map row_pid rows) ->
  (forall tr, In tr rows -> hasPid seen (row_pid tr) = false) ->
  readRows rows seen acc = Returned (acc ++ l).
Proof.
  induction rows as [|tr rest IH]; intros seen acc l HF Hnd Hseen.
  - inversion HF; subst. rewrite app_nil_r. reflexivity.
  - inversion HF as [|tr0 p rows0 l0 Hp HF']; subst. simpl.
    inversion Hnd as [|x xs Hx Hnd']; subst.
    rewrite (Hseen tr (or_introl eq_refl)).
    unfold rowProcess in Hp.
    destruct (String.eqb (row_pid tr) ""); [discriminate|].
    destruct (finiteNonNeg (row_at tr)) as [at_|]; [|discriminate].
    destruct (finitePos (row_bt tr)) as [bt|]; [|discriminate].
    destruct (finite (row_pr tr)) as [pr|]; [|discriminate].
    injection Hp as <-. rewrite (IH _ _ l0 HF' Hnd').
    + rewrite <- app_assoc. reflexivity.
    + intros tr' Hin. rewrite hasPid_snoc, (Hseen tr' (or_intror Hin)). simpl.
      apply String.eqb_neq. intro E. apply Hx. rewrite <- E. apply in_map.
      assumption.
Qed.

(** ** Validation *)

(** C9, as stated, fails: the functions perform no validation.  FCFS on two
    processes named A returns a result whose map has a single entry, and on
    the empty list it returns an empty result with [endTime = Infinity]. *)
Lemma C9_counterexample :
  ~ NoDup (map pid duplicatePids) /\ length duplicatePids = 2%nat /\
  length (results (fcfs duplicatePids)) = 1%nat /\
  fcfs [] = mkSim [] [] PInf.
Proof.
  split; [|split; [reflexivity|split; reflexivity]].
  intro H. inversion H as [|x l Hx _]. apply Hx. now left.
Qed.

(** C9 (amended).  Empty input and equal pids are rejected on the caller's
    side, before any scheduling function runs: for rows that are empty or
    hold two equal pids, [compute] ends with an error message on the page
    ([readProcesses] throws, or [compute] asks for at least one process).
    The five functions themselves check nothing; on the empty list each
    returns the empty result. *)
Theorem C9_validation_by_caller (localeCompare : string -> string -> Z)
    (genColor : nat -> nat -> string) (rows : list Row) (fuel : nat)
    (algo : string) (q : jsnum) :
  (rows = [] \/ ~ NoDup (map row_pid rows) ->
   exists msg, compute localeCompare genColor fuel rows algo q = ErrorShown msg) /\
  fcfs [] = mkSim [] [] PInf /\
  sjf localeCompare fuel [] = Returned (mkSim [] [] PInf) /\
  srtf localeCompare fuel [] = Returned (mkSim [] [] PInf) /\
  prioritySchedule localeCompare fuel [] = Returned (mkSim [] [] PInf) /\
  (gt0 q = true -> roundRobin fuel [] q = Returned (mkSim [] [] PInf)).
Proof.
  split; [|repeat split; try reflexivity].
  - intros [->|Hdup].
    + eexists. reflexivity.
    + unfold compute, readProcesses.
      destruct (readRows rows [] []) as [procs|m|] eqn:E.
      * apply readRows_returned in E. destruct E as [_ [_ [_ [Hnd _]]]].
        contradiction.
      * eauto.
      * exfalso. exact (readRows_fuel rows [] [] E).
  - intros Hq. unfold roundRobin. rewrite Hq. reflexivity.
Qed.

Lemma C9_validation_by_caller_witness :
  (duplicateRows = [] \/ ~ NoDup (map row_pid duplicateRows)) /\
  exists msg,
    compute codeUnitCompare (fun _ _ => "") 10 duplicateRows "FCFS" (Fin 1)
    = ErrorShown msg.
Proof.
  assert (H : duplicateRows = [] \/ ~ NoDup (map row_pid duplicateRows)).
  { right. intro H. inversion H as [|x l Hx _]. apply Hx. now left. }
  split; [exact H|].
  apply (proj1 (C9_validation_by_caller codeUnitCompare (fun _ _ => "") duplicateRows
                  10 "FCFS" (Fin 1)) H).
Defined.

(** ** Order of the input *)

(** ** SJF and Priority do not depend on the order of the list *)





Section OrderFacts.
Variable localeCompare : string -> string -> Z.
Hypothesis Hlc : ConsistentCollation localeCompare.
Variable f : Process -> Q.




End OrderFacts.






Lemma mathMin_nil (xs : list Q) : mathMin xs = PInf -> xs = [].
Proof.
  destruct xs as [|x r]; [reflexivity|]. simpl.
  destruct (mathMin r); discriminate.
Qed.



Section NonPreemptiveOrder.
Variable key : Process -> Process -> Q.
Variable ps ps' : list Process.
Variable R : Process -> Process -> Prop.
Hypothesis Hperm : Permutation ps ps'.
Hypothesis Hnd : NoDup (map pid ps).
Hypothesis Hrep : forall a b, In a ps -> In b ps ->
  arrival a == arrival b -> arrival a = arrival b.
Hypothesis R_trans : forall a b c, In b ps -> R a b -> R b c -> R a c.
Hypothesis R_after : forall x y, In x ps -> In y ps -> 0 < key x y -> R y x.
Hypothesis R_before : forall x y, In x ps -> In y ps -> key x y <= 0 -> R x y.
Hypothesis R_antisym : forall a b, In a ps -> In b ps -> R a b -> R b a -> a = b.













End NonPreemptiveOrder.




(** A collation may hold two pids for equivalent; rows with such pids and
    the same arrival keep the order they were entered in. *)
Lemma equivalent_pids_keep_row_order :
  ConsistentCollation allEquivalent /\
  Permutation tiedRows tiedRowsSwapped /\
  readProcesses allEquivalent tiedRows = Returned tieFirst /\
  readProcesses allEquivalent tiedRowsSwapped = Returned tieSecond.
Proof.
  split; [constructor; intros; unfold allEquivalent; lia|].
  split; [apply perm_swap|]. split; vm_compute; reflexivity.
Qed.




(* ================================================================== *)
(** * Further properties of the code *)

(** ** Runs and the states they pass through *)

Lemma reaches_front {S : Type} (cond : S -> bool) (body : S -> Step S) (s0 s1 s : S) :
  cond s0 = true -> body s0 = Next s1 -> reaches cond body s1 s ->
  reaches cond body s0 s.
Proof.
  intros Hc Hb Hr. induction Hr as [|s s' Hr IH Hc' Hb'].
  - eapply reaches_next; [apply reaches_start|assumption|assumption].
  - eapply reaches_next; eassumption.
Qed.

(** A run that returns ends in a state it reached: either the loop test
    failed there or the body left by [break]. *)
Lemma while_returned_reaches {S : Type} (cond : S -> bool) (body : S -> Step S) :
  forall fuel s0 r, while cond body fuel s0 = Returned r ->
  exists s, reaches cond body s0 s /\
            ((cond s = false /\ r = s) \/ (cond s = true /\ body s = Break r)).
Proof.
  induction fuel as [|k IH]; intros s0 r; simpl.
  - destruct (cond s0) eqn:Hc; [discriminate|]. intros [= <-].
    exists s0. split; [apply reaches_start|auto].
  - destruct (cond s0) eqn:Hc.
    + destruct (body s0) as [s1|s1|m] eqn:Hb; try discriminate.
      * intros H. destruct (IH s1 r H) as [s [Hr Hs]]. exists s.
        split; [eapply reaches_front; eassumption|assumption].
      * intros [= <-]. exists s0. split; [apply reaches_start|auto].
    + intros [= <-]. exists s0. split; [apply reaches_start|auto].
Qed.

(** ** SRTF: the scan finds a smallest remaining burst *)

Section PickLeast.
Variable localeCompare : string -> string -> Z.
Variable processes : list Process.
Variable rem : list Q.
Variable done : IdxSet.
Variable time : Q.

Lemma pick_least (ps : list Process) :
  forall i best br best' br',
  pick localeCompare processes rem done time i ps best br = (best', br') ->
  (br = PInf \/ exists z, br = Fin z) ->
  match best with None => br = PInf | Some b => br = Fin (nth b rem 0) end ->
  (br' = PInf \/ exists z, br' = Fin z) /\
  match best' with None => br' = PInf | Some b => br' = Fin (nth b rem 0) end /\
  forall y, br' = Fin y ->
    (forall z, br = Fin z -> y <= z) /\
    (forall j p, (i <= j)%nat -> nth_error ps (j - i) = Some p ->
                 has done j = false -> arrival p <= time -> 0 < nth j rem 0 ->
                 y <= nth j rem 0).
Proof.
  induction ps as [|p r IH]; intros i best br best' br'; simpl.
  - intros [= <- <-] Hok Hcoh. split; [assumption|]. split; [assumption|].
    intros y Hy. split.
    + intros z Hz. rewrite Hy in Hz. injection Hz as <-. apply Qle_refl.
    + intros j p _ Hj. destruct (j - i)%nat; discriminate.
  - assert (Hskip : forall b0 br0,
              pick localeCompare processes rem done time (S i) r b0 br0 = (best', br') ->
              (br0 = PInf \/ exists z, br0 = Fin z) ->
              match b0 with None => br0 = PInf | Some b => br0 = Fin (nth b rem 0) end ->
              (forall y, (forall z, br0 = Fin z -> y <= z) ->
                 (forall z, br = Fin z -> y <= z) /\
                 (has done i = false -> arrival p <= time -> 0 < nth i rem 0 ->
                  y <= nth i rem 0)) ->
              (br' = PInf \/ exists z, br' = Fin z) /\
              match best' with None => br' = PInf | Some b => br' = Fin (nth b rem 0) end /\
              forall y, br' = Fin y ->
                (forall z, br = Fin z -> y <= z) /\
                (forall j p0, (i <= j)%nat -> nth_error (p :: r) (j - i) = Some p0 ->
                   has done j = false -> arrival p0 <= time -> 0 < nth j rem 0 ->
                   y <= nth j rem 0)).
    { intros b0 br0 Hp Hok0 Hcoh0 Hhere.
      destruct (IH (S i) b0 br0 best' br' Hp Hok0 Hcoh0) as [Hok' [Hcoh' Hmin]].
      split; [assumption|]. split; [assumption|]. intros y Hy.
      destruct (Hmin y Hy) as [Hz Hj]. destruct (Hhere y Hz) as [Hz0 Hi].
      split; [assumption|]. intros j p0 Hle Hnth Hd Ha Hr.
      destruct (Nat.eq_dec j i) as [->|Hne].
      - rewrite Nat.sub_diag in Hnth. simpl in Hnth. injection Hnth as <-. auto.
      - apply (Hj j p0); try assumption; [lia|].
        replace (j - i)%nat with (S (j - S i)) in Hnth by lia. exact Hnth. }
    destruct (has done i) eqn:Hd.
    { intros Hp Hok Hcoh. apply (Hskip best br Hp Hok Hcoh).
      intros y Hy. split; [assumption|discriminate]. }
    destruct (Qleb (arrival p) time) eqn:Ha; simpl.
    2:{ intros Hp Hok Hcoh. apply (Hskip best br Hp Hok Hcoh).
        intros y Hy. split; [assumption|]. qprop. intros _ H. lra. }
    destruct (Qltb 0 (nth i rem 0)) eqn:Hr; simpl.
    2:{ intros Hp Hok Hcoh. apply (Hskip best br Hp Hok Hcoh).
        intros y Hy. split; [assumption|]. qprop. intros _ _ H. lra. }
    destruct (ltNum (nth i rem 0) br
              || eqNum (nth i rem 0) br && arrivesBefore processes p best
              || eqNum (nth i rem 0) br && pidBefore localeCompare processes p best)
      eqn:Hupd.
    + intros Hp Hok Hcoh.
      apply (Hskip (Some i) (Fin (nth i rem 0)) Hp); [right; eauto|reflexivity|].
      intros y Hy. specialize (Hy _ eq_refl). split; [|intros; assumption].
      intros z Hz. subst br. simpl in Hupd.
      destruct (Qltb (nth i rem 0) z) eqn:E1; qprop; [lra|].
      destruct (Qeq_bool (nth i rem 0) z) eqn:E2; qprop; [lra|].
      simpl in Hupd. discriminate.
    + intros Hp Hok Hcoh. apply (Hskip best br Hp Hok Hcoh).
      intros y Hy. split; [assumption|]. intros _ _ _.
      apply orb_false_iff in Hupd. destruct Hupd as [Hupd _].
      apply orb_false_iff in Hupd. destruct Hupd as [Hlt _].
      destruct Hok as [->|[z ->]]; [discriminate|].
      simpl in Hlt. qprop. specialize (Hy z eq_refl). lra.
Qed.
End PickLeast.

(** X1.  The selection scan of SRTF: when it selects index [b], that process
    has arrived, is not done, has remaining burst > 0, and no other such
    process has a smaller remaining burst; when it selects nothing, no
    process is arrived, not done and with remaining burst > 0. *)
Theorem X1_srtf_scan_least_remaining (localeCompare : string -> string -> Z)
    (ps : list Process) (rem : list Q) (done : IdxSet) (time : Q) :
  match fst (pick localeCompare ps rem done time 0 ps None PInf) with
  | Some b =>
      (exists p, nth_error ps b = Some p /\ has done b = false /\
                 arrival p <= time /\ 0 < nth b rem 0) /\
      forall j p, nth_error ps j = Some p -> has done j = false ->
                  arrival p <= time -> 0 < nth j rem 0 ->
                  nth b rem 0 <= nth j rem 0
  | None =>
      forall j p, nth_error ps j = Some p -> has done j = false ->
                  arrival p <= time -> ~ 0 < nth j rem 0
  end.
Proof.
  destruct (pick localeCompare ps rem done time 0 ps None PInf) as [best br] eqn:Hp.
  simpl. destruct best as [b|].
  - split.
    + assert (H : fst (pick localeCompare ps rem done time 0 ps None PInf) = Some b)
        by (rewrite Hp; reflexivity).
      apply pick_some in H. destruct H as [[=]|[_ [Hd [Hr [p [Hn Ha]]]]]].
      rewrite Nat.sub_0_r in Hn. eauto.
    + destruct (pick_least localeCompare ps rem done time ps 0 None PInf (Some b) br Hp
                  (or_introl eq_refl) eq_refl) as [_ [Hcoh Hmin]].
      intros j p Hj Hd Ha Hr. destruct (Hmin _ Hcoh) as [_ H].
      apply (H j p); try assumption; [lia|]. rewrite Nat.sub_0_r. assumption.
  - intros j p Hj Hd Ha Hr.
    assert (H : fst (pick localeCompare ps rem done time 0 ps None PInf) = None)
      by (rewrite Hp; reflexivity).
    apply (pick_none localeCompare ps rem done time ps 0 H j).
    split; [lia|]. split; [assumption|]. split; [assumption|].
    exists p. rewrite Nat.sub_0_r. auto.
Qed.

(** ** Round Robin: no slice is longer than the quantum *)

Lemma rrBody_slices (ps : list Process) (x : Q) (st st' : RRState) :
  rrBody ps (Fin x) st = Next st' ->
  (forall b, In b (rr_blocks st) -> b_pid b <> IDLE -> b_end b - b_start b <= x) ->
  forall b, In b (rr_blocks st') -> b_pid b <> IDLE -> b_end b - b_start b <= x.
Proof.
  unfold rrBody. intros Hb Hold.
  destruct (rr_queue st) as [|i queue0].
  - destruct (findNotArrived (rr_arrived st) 0 ps) as [k|]; [|discriminate].
    destruct (nth_error ps k) as [pn|]; [|discriminate].
    destruct (pushArrived (arrival pn) 0 ps [] (rr_arrived st)) as [q1 a1].
    injection Hb as <-. cbn [rr_blocks]. intros b Hin Hid.
    apply in_app_or in Hin. destruct Hin as [Hin|[<-|[]]]; [auto|].
    exfalso. apply Hid. reflexivity.
  - destruct (nth_error ps i) as [p|]; [|discriminate].
    destruct (pushArrived _ 0 ps queue0 (rr_arrived st)) as [q1 a1].
    assert (Hnew : forall b,
              In b (rr_blocks st ++
                    [mkBlock (pid p) (rr_time st)
                       (rr_time st + minQuantum (Fin x) (nth i (rr_rem st) 0)) (color p)]) ->
              b_pid b <> IDLE -> b_end b - b_start b <= x).
    { intros b Hin Hid. apply in_app_or in Hin. destruct Hin as [Hin|[<-|[]]]; [auto|].
      cbn [b_end b_start minQuantum].
      destruct (Qmin_cases x (nth i (rr_rem st) 0)) as [[-> H]|[-> H]]; lra. }
    destruct (Qltb 0 _).
    + injection Hb as <-. exact Hnew.
    + destruct (mapGet (pid p) _); [|discriminate]. injection Hb as <-. exact Hnew.
Qed.

(** Over exact arithmetic.
    Round Robin with a finite quantum [x]: in every result it returns,
    each block that is not an idle block is at most [x] long. *)
Lemma rr_slice_within_quantum (fuel : nat) (ps : list Process) (x : Q)
    (r : SimulationResult) :
  roundRobin fuel ps (Fin x) = Returned r ->
  forall b, In b (blocks r) -> b_pid b <> IDLE -> b_end b - b_start b <= x.
Proof.
  unfold roundRobin. destruct (negb (gt0 (Fin x))); [discriminate|].
  destruct (mathMin (map arrival ps)) as [t0| | |];
    try (intros [= <-]; intros b []).
  destruct (while _ _ fuel _) as [st| |] eqn:Hw; try discriminate.
  intros [= <-]. cbn [blocks].
  destruct (while_returned_reaches _ _ _ _ _ Hw) as [s [Hreach Hs]].
  assert (Hinv : forall b, In b (rr_blocks s) -> b_pid b <> IDLE ->
                           b_end b - b_start b <= x).
  { refine (reaches_inv _ _ _
              (fun s => forall b, In b (rr_blocks s) -> b_pid b <> IDLE ->
                                  b_end b - b_start b <= x) _ _ _ s Hreach).
    - intros b [].
    - intros s1 H1 _. destruct (rrBody ps (Fin x) s1) eqn:Hb; [|exact I|exact I].
      exact (rrBody_slices ps x s1 _ Hb H1). }
  destruct Hs as [[_ ->]|[_ Hbreak]]; [exact Hinv|].
  unfold rrBody in Hbreak.
  destruct (rr_queue s) as [|i queue0].
  - destruct (findNotArrived (rr_arrived s) 0 ps) as [k|].
    + destruct (nth_error ps k); [|discriminate].
      destruct (pushArrived _ 0 ps [] (rr_arrived s)); discriminate.
    + injection Hbreak as <-. exact Hinv.
  - destruct (nth_error ps i) as [p|]; [|discriminate].
    destruct (pushArrived _ 0 ps queue0 (rr_arrived s)).
    destruct (Qltb 0 _); [discriminate|].
    destruct (mapGet (pid p) _); discriminate.
Qed.

(** X2.  Round Robin with a whole-number quantum [x] on a valid list of
    whole-number arrivals and bursts (horizon at most [2^53]): in every
    result it returns in double arithmetic, each block that is not an idle
    block is at most [x] long. *)
Theorem X2_round_robin_slice_within_quantum (fuel : nat) (ps : list Process) (x : Q)
    (r : SimulationResult) :
  validSet ps -> exactSet ps -> whole x ->
  roundRobin64 fuel ps (Fin x) = Returned r ->
  forall b, In b (blocks r) -> b_pid b <> IDLE -> b_end b - b_start b <= x.
Proof.
  intros Hv He Hw Hr.
  assert (Hq : gt0 (Fin x) = true).
  { unfold roundRobin64 in Hr. destruct (gt0 (Fin x)); [reflexivity|discriminate]. }
  rewrite (roundRobin64_exact_valid ps (Fin x) fuel Hv He Hq Hw) in Hr.
  exact (rr_slice_within_quantum fuel ps x r Hr).
Qed.

Lemma rrScenario_valid : validSet (rrScenario 0 0 "a" "b").
Proof. concrete_valid. Qed.

Lemma rrScenario_exact : exactSet (rrScenario 0 0 "a" "b").
Proof. split; [repeat constructor|vm_compute; discriminate]. Qed.

Lemma X2_round_robin_slice_within_quantum_witness :
  validSet (rrScenario 0 0 "a" "b") /\ exactSet (rrScenario 0 0 "a" "b") /\ whole 2 /\
  exists r, roundRobin64 10 (rrScenario 0 0 "a" "b") (Fin 2) = Returned r /\
            forall b, In b (blocks r) -> b_pid b <> IDLE -> b_end b - b_start b <= 2.
Proof.
  split; [exact rrScenario_valid|]. split; [exact rrScenario_exact|].
  split; [reflexivity|]. eexists. split; [vm_compute; reflexivity|].
  apply (X2_round_robin_slice_within_quantum 10 (rrScenario 0 0 "a" "b") 2 _
           rrScenario_valid rrScenario_exact eq_refl).
  vm_compute. reflexivity.
Defined.

(** ** The key of SJF and Priority *)







(** ** SJF and Priority: what one pass of the loop does *)

Lemma npBody_shape (key : Process -> Process -> Q) (ps : list Process) (t0 : Q)
    (st : NPState) :
  NPInv ps t0 st -> npCond (length ps) st = true ->
  let N := newly (np_time st) 0 ps (np_used st) in
  (np_ready st ++ N = [] /\
   exists next,
     mathMin (unusedArrivals (np_used st ++ N) 0 ps) = Fin next /\
     np_time st < next /\
     npBody key ps st =
       Next (mkNP (np_blocks st ++ [idleBlock (np_time st) next]) (np_res st)
               (np_completed st) next [] (np_used st ++ N)))
  \/
  (exists idx ready2 p,
     sortBy (onIndex ps key) (np_ready st ++ N) = idx :: ready2 /\
     nth_error ps idx = Some p /\
     npBody key ps st =
       Next (mkNP (np_blocks st ++
                     [mkBlock (pid p) (np_time st) (np_time st + burst p) (color p)])
               (mapSet (pid p)
                  (mkResult (np_time st) (np_time st + burst p)
                     (np_time st + burst p - arrival p) (np_time st - arrival p)
                     (np_time st - arrival p) (arrival p) (burst p) (priority p))
                  (np_res st))
               (S (np_completed st)) (np_time st + burst p) ready2
               (np_used st ++ N))).
Proof.
  intros [Hchain Hused [dispatched [Hperm [Hcount Hbusy]]] Hne] Hcond. cbv zeta.
  unfold npCond in Hcond. apply Nat.ltb_lt in Hcond.
  unfold npBody. rewrite pushArrived_newly. cbv beta iota zeta.
  set (N := newly (np_time st) 0 ps (np_used st)).
  assert (Hgood' : goodSet (length ps) (np_used st ++ N))
    by (apply goodSet_newly; assumption).
  assert (Hperm' : Permutation (np_used st ++ N) (dispatched ++ np_ready st ++ N)).
  { rewrite app_assoc. apply Permutation_app_tail. assumption. }
  destruct (np_ready st ++ N) as [|x rest] eqn:Hready1.
  - left. split; [reflexivity|].
    assert (Hex : exists next,
               mathMin (unusedArrivals (np_used st ++ N) 0 ps) = Fin next).
    { apply mathMin_nonempty.
      assert (Hlen : length (np_used st ++ N) = np_completed st).
      { rewrite (Permutation_length Hperm'), app_nil_r. auto. }
      destruct (goodSet_missing (length ps) _ Hgood') as [j [Hj Hn]]; [lia|].
      destruct (nth_error ps j) as [p|] eqn:Hp; [|apply nth_error_None in Hp; lia].
      assert (Hin : In (arrival p) (unusedArrivals (np_used st ++ N) 0 ps)).
      { apply unusedArrivals_In. exists j, p. rewrite Nat.sub_0_r.
        split; [lia|]. split; [assumption|]. split; [|reflexivity].
        apply has_notIn. assumption. }
      intro Hnil. rewrite Hnil in Hin. contradiction. }
    destruct Hex as [next Hm]. exists next. rewrite Hm.
    split; [reflexivity|]. split; [|reflexivity].
    apply mathMin_fin in Hm. destruct Hm as [Hin _].
    apply unusedArrivals_In in Hin. destruct Hin as [j [p [_ [Hj [Hun Ha]]]]].
    rewrite Nat.sub_0_r in Hj. apply Qnot_le_lt. intro Hle.
    apply has_notIn in Hun. apply Hun. apply in_or_app. right.
    apply newly_In0. split.
    + apply has_notIn. intro H. apply Hun. apply in_or_app. now left.
    + exists p. split; [assumption|]. rewrite Ha. assumption.
  - right. pose proof (sortBy_perm (onIndex ps key) (x :: rest)) as Hsort.
    destruct (sortBy (onIndex ps key) (x :: rest)) as [|idx ready2] eqn:Hs.
    { apply Permutation_sym, Permutation_nil in Hsort. discriminate. }
    assert (Hidx : In idx (np_used st ++ N)).
    { apply (Permutation_in idx (Permutation_sym Hperm')). apply in_or_app. right.
      apply (Permutation_in idx (Permutation_sym Hsort)). now left. }
    assert (Hlt : (idx < length ps)%nat).
    { destruct Hgood' as [_ Hb]. rewrite Forall_forall in Hb. auto. }
    destruct (nth_error ps idx) as [p|] eqn:Hp; [|apply nth_error_None in Hp; lia].
    exists idx, ready2, p. split; [reflexivity|]. split; [assumption|reflexivity].
Qed.

Lemma mapSet_keys (k : string) (v : ProcResult) (m : ResMap) :
  map fst (mapSet k v m) =
  if existsb (String.eqb k) (map fst m) then map fst m else map fst m ++ [k].
Proof.
  induction m as [|[k' v'] r IH]; simpl; [reflexivity|].
  rewrite (String.eqb_sym k k').
  destruct (String.eqb k' k); simpl; [reflexivity|].
  rewrite IH. destruct (existsb (String.eqb k) (map fst r)); reflexivity.
Qed.

Lemma keysOk_set (ps : list Process) (m : ResMap) (p : Process) (v : ProcResult) :
  keysOk ps m -> In p ps -> keysOk ps (mapSet (pid p) v m).
Proof.
  intros [Hnd Hin] Hp. unfold keysOk. rewrite mapSet_keys.
  destruct (existsb (String.eqb (pid p)) (map fst m)) eqn:E; [split; assumption|].
  split.
  - apply NoDup_app; [assumption|constructor; [simpl; tauto|constructor]|].
    intros k Hk [<-|[]].
    assert (H : existsb (String.eqb (pid p)) (map fst m) = true); [|congruence].
    apply existsb_exists. exists (pid p). split; [assumption|apply String.eqb_refl].
  - intros k Hk. apply in_app_or in Hk. destruct Hk as [Hk|[<-|[]]]; [auto|].
    apply in_map. assumption.
Qed.

Lemma mapGet_key (k : string) (m : ResMap) (r : ProcResult) :
  mapGet k m = Some r -> In k (map fst m).
Proof.
  induction m as [|[k' v] l IH]; simpl; [discriminate|].
  destruct (String.eqb_spec k' k) as [E|E]; [now left|]. intros H. right. auto.
Qed.

Lemma keys_perm (ps : list Process) (m : ResMap) :
  keysOk ps m -> NoDup (map pid ps) ->
  (forall p, In p ps -> exists r, mapGet (pid p) m = Some r) ->
  Permutation (map fst m) (map pid ps).
Proof.
  intros [Hnd Hin] Hps Hall. apply NoDup_Permutation; [assumption|assumption|].
  intros k. split; [apply Hin|]. intros Hk. apply in_map_iff in Hk.
  destruct Hk as [p [<- Hp]]. destruct (Hall p Hp) as [r Hr].
  eapply mapGet_key. eassumption.
Qed.

Lemma keysOk_empty (ps : list Process) : keysOk ps [].
Proof. split; [constructor|intros k []]. Qed.

Section NonPreemptiveService.
Variable key : Process -> Process -> Q.
Variable ps : list Process.
Variable t0 : Q.
Hypothesis Hbursts : Forall (fun p => 0 < burst p) ps.
Hypothesis Hnd : NoDup (map pid ps).

Lemma npInit_served : NPServed ps (mkNP [] [] 0 t0 [] []).
Proof.
  constructor; simpl; try (intros; contradiction). apply keysOk_empty.
Qed.

Lemma np_served_step (st st' : NPState) :
  NPInv ps t0 st -> NPServed ps st -> npCond (length ps) st = true ->
  npBody key ps st = Next st' -> NPServed ps st'.
Proof.
  intros Hinv [Harr Hres Hkeys] Hcond Hbody.
  pose proof (npBody_shape key ps t0 st Hinv Hcond) as Hshape. cbv zeta in Hshape.
  destruct Hinv as [Hchain Hused [dispatched [Hperm [Hcount Hbusy]]] Hne].
  set (N := newly (np_time st) 0 ps (np_used st)) in *.
  assert (HinN : forall i p, In i (np_used st ++ N) -> nth_error ps i = Some p ->
                             arrival p <= np_time st).
  { intros i p Hi Hp. apply in_app_or in Hi. destruct Hi as [Hi|Hi]; [eauto|].
    apply newly_In0 in Hi. destruct Hi as [_ [p' [Hp' Ha]]]. congruence. }
  destruct Hshape as [[Hnil [next [Hm [Hlt Hb]]]]|[idx [ready2 [p [Hs [Hp Hb]]]]]];
    rewrite Hb in Hbody; injection Hbody as <-;
    constructor; cbn [np_blocks np_res np_completed np_time np_ready np_used].
  - intros i p Hi Hp. specialize (HinN i p Hi Hp). lra.
  - apply app_eq_nil in Hnil. destruct Hnil as [Hr0 HN0]. rewrite HN0, app_nil_r.
    intros i p Hp Hi _.
    destruct (Hres i p Hp Hi) as [r [Hr [[Hsv [Hc [Hw Hin]]] Hle]]].
    { rewrite Hr0. intros []. }
    exists r. split; [assumption|]. split; [|lra].
    split; [assumption|]. split; [assumption|]. split; [assumption|].
    apply in_or_app. now left.
  - assumption.
  - assert (Hpos : 0 < burst p).
    { rewrite Forall_forall in Hbursts. apply Hbursts.
      eapply nth_error_In; eassumption. }
    intros i pi Hi Hpi. specialize (HinN i pi Hi Hpi). lra.
  - assert (Hpos : 0 < burst p).
    { rewrite Forall_forall in Hbursts. apply Hbursts.
      eapply nth_error_In; eassumption. }
    pose proof (sortBy_perm (onIndex ps key) (np_ready st ++ N)) as Hsort.
    rewrite Hs in Hsort.
    assert (Hidx : In idx (np_ready st ++ N)).
    { apply (Permutation_in idx (Permutation_sym Hsort)). now left. }
    intros i pi Hpi Hi Hnot. rewrite mapGet_mapSet.
    destruct (Nat.eq_dec i idx) as [->|Hne'].
    + assert (pi = p) by congruence. subst pi. rewrite String.eqb_refl.
      eexists. split; [reflexivity|]. cbn [r_completion].
      split; [|apply Qle_refl].
      assert (Ha : arrival p <= np_time st).
      { apply (HinN idx p); [|assumption]. apply in_app_or in Hidx.
        destruct Hidx as [Hr|Hn]; apply in_or_app; [left|right; assumption].
        apply (Permutation_in idx (Permutation_sym Hperm)). apply in_or_app.
        now right. }
      unfold servedAtOnce, served.
      cbn [r_start r_completion r_tat r_wt r_response r_arrival r_burst r_priority].
      repeat split; try reflexivity; try lra.
      apply in_or_app. right. now left.
    + assert (Hnr : ~ In i (np_ready st ++ N)).
      { intro H. apply (Permutation_in i Hsort) in H. destruct H as [E|H]; auto. }
      assert (Hiu : In i (np_used st)).
      { apply in_app_or in Hi. destruct Hi as [Hi|Hi]; [assumption|].
        exfalso. apply Hnr. apply in_or_app. now right. }
      assert (Hir : ~ In i (np_ready st)).
      { intro H. apply Hnr. apply in_or_app. now left. }
      destruct (Hres i pi Hpi Hiu Hir) as [r [Hr [[Hsv [Hc [Hw Hin]]] Hle]]].
      destruct (String.eqb_spec (pid p) (pid pi)) as [E|E].
      { exfalso. apply Hne'. symmetry in E.
        exact (pid_injective ps i idx pi p Hnd Hpi Hp E). }
      exists r. split; [assumption|]. split; [|lra].
      split; [assumption|]. split; [assumption|]. split; [assumption|].
      apply in_or_app. now left.
  - apply keysOk_set; [assumption|]. eapply nth_error_In; eassumption.
Qed.

Lemma np_reaches_served (st : NPState) :
  reaches (npCond (length ps)) (npBody key ps) (mkNP [] [] 0 t0 [] []) st ->
  NPInv ps t0 st /\ NPServed ps st.
Proof.
  refine (reaches_inv _ _ _ (fun s => NPInv ps t0 s /\ NPServed ps s) _ _ _ st).
  - split; [apply npInit_inv|apply npInit_served].
  - intros s [Hi Hs] Hc. pose proof (np_step key ps t0 Hbursts s Hi Hc) as Hstep.
    destruct (npBody key ps s) as [s'| |] eqn:Hb; try exact I.
    split; [tauto|]. exact (np_served_step s s' Hi Hs Hc Hb).
Qed.
End NonPreemptiveService.






(** ** SJF and Priority: the result map *)

Lemma np_final_served (key : Process -> Process -> Q) (ps : list Process) (t0 : Q) :
  validSet ps -> mathMin (map arrival ps) = Fin t0 ->
  returnsWith (fun fuel => nonPreemptive key fuel ps) (allServedAtOnce ps).
Proof.
  intros Hv Hmin. pose proof (valid_bursts ps Hv) as Hbursts.
  assert (Hnd : NoDup (map pid ps)) by apply Hv.
  exists (S (2 * length ps)). intros fuel Hle.
  destruct (np_loop_returns key ps t0 Hbursts (valid_nonempty ps Hv) fuel)
    as [st [Hst _]].
  { unfold npMeasure, later. simpl.
    pose proof (filter_length_le (fun p => Qltb t0 (arrival p)) ps). lia. }
  unfold nonPreemptive. rewrite Hmin, Hst. eexists. split; [reflexivity|].
  destruct (while_returned_reaches _ _ _ _ _ Hst) as [s [Hreach Hs]].
  destruct (np_reaches_served key ps t0 Hbursts Hnd s Hreach) as [Hinv Hserved].
  destruct Hs as [[Hcond ->]|[Hcond Hbreak]].
  2:{ pose proof (np_step key ps t0 Hbursts s Hinv Hcond) as Hstep.
      rewrite Hbreak in Hstep. contradiction. }
  destruct Hinv as [Hchain Hused [dispatched [Hperm [Hcount Hbusy]]] Hne].
  destruct Hserved as [Harr Hres Hkeys].
  unfold npCond in Hcond. apply Nat.ltb_ge in Hcond.
  pose proof (goodSet_length _ _ Hused) as Hlen.
  pose proof (Permutation_length Hperm) as Hpl. rewrite length_app in Hpl.
  assert (Hready : np_ready s = []) by (apply length_zero_iff_nil; lia).
  assert (Hall : forall p, In p ps ->
            exists r, mapGet (pid p) (np_res s) = Some r /\
                      servedAtOnce p (np_blocks s) r /\ r_completion r <= np_time s).
  { intros p Hp. apply In_nth_error in Hp. destruct Hp as [i Hi].
    assert (Hlt : (i < length ps)%nat) by (apply nth_error_Some; congruence).
    assert (Hiu : In i (np_used s))
      by (apply (goodSet_full _ _ Hused); [lia|assumption]).
    apply (Hres i p Hi Hiu). rewrite Hready. intros []. }
  split; cbn [results blocks endTime].
  - apply keys_perm; [assumption|assumption|].
    intros p Hp. destruct (Hall p Hp) as [r [Hr _]]. eauto.
  - intros p Hp. destruct (Hall p Hp) as [r [Hr [Hsv Hc]]].
    exists r. split; [assumption|]. split; [assumption|].
    exists (np_time s). split; [reflexivity|assumption].
Qed.

(** Over exact arithmetic.
    SJF and Priority scheduling on a valid list return a result whose
    map has exactly the pids of the list as keys; every process starts at or
    after its arrival, runs in one block from start to
    completion = start + burst, completes by [endTime], and
    turnaround = completion - arrival,
    waiting = turnaround - burst = response = start - arrival. *)
Lemma non_preemptive_results (localeCompare : string -> string -> Z)
    (ps : list Process) :
  validSet ps ->
  returnsWith (fun fuel => sjf localeCompare fuel ps) (allServedAtOnce ps) /\
  returnsWith (fun fuel => prioritySchedule localeCompare fuel ps) (allServedAtOnce ps).
Proof.
  intros Hv. destruct (valid_min ps Hv) as [t0 Hmin].
  split; apply (np_final_served _ ps t0 Hv Hmin).
Qed.

(** X5.  SJF and Priority scheduling in double arithmetic, on a valid list
    of whole-number arrivals and bursts (horizon at most [2^53]), return a
    result whose map has exactly the pids of the list as keys; every process
    starts at or after its arrival, runs in one block from start to
    completion = start + burst, completes by [endTime], and
    turnaround = completion - arrival,
    waiting = turnaround - burst = response = start - arrival. *)
Theorem X5_non_preemptive_results (localeCompare : string -> string -> Z)
    (ps : list Process) :
  validSet ps -> exactSet ps ->
  returnsWith (fun fuel => sjf64 localeCompare fuel ps) (allServedAtOnce ps) /\
  returnsWith (fun fuel => prioritySchedule64 localeCompare fuel ps)
    (allServedAtOnce ps).
Proof.
  intros Hv He. destruct (non_preemptive_results localeCompare ps Hv) as [H1 H2]. split.
  - apply (returnsWith_ext (fun fuel => sjf localeCompare fuel ps));
      [intros fuel; apply sjf64_exact; assumption|assumption].
  - apply (returnsWith_ext (fun fuel => prioritySchedule localeCompare fuel ps));
      [intros fuel; apply prioritySchedule64_exact; assumption|assumption].
Qed.

Lemma X5_non_preemptive_results_witness :
  validSet sampleSet /\ exactSet sampleSet /\
  returnsWith (fun fuel => sjf64 codeUnitCompare fuel sampleSet)
    (allServedAtOnce sampleSet) /\
  returnsWith (fun fuel => prioritySchedule64 codeUnitCompare fuel sampleSet)
    (allServedAtOnce sampleSet).
Proof.
  split; [exact sampleSet_valid|]. split; [exact sampleSet_exact|].
  exact (X5_non_preemptive_results codeUnitCompare sampleSet sampleSet_valid
           sampleSet_exact).
Defined.

(** ** FCFS: the result map and the order of service *)

Lemma mapSet_fresh (k : string) (v : ProcResult) (m : ResMap) :
  ~ In k (map fst m) -> mapSet k v m = m ++ [(k, v)].
Proof.
  induction m as [|[k' v'] r IH]; simpl; [reflexivity|]. intros Hn.
  destruct (String.eqb_spec k' k) as [E|E]; [exfalso; auto|].
  rewrite IH; [reflexivity|]. intro H. apply Hn. now right.
Qed.

Lemma fcfs_fold_results (ps : list Process) :
  Forall (fun p => 0 < burst p) ps -> NoDup (map pid ps) ->
  forall st, (forall p, In p ps -> ~ In (pid p) (map fst (f_res st))) ->
  let st' := fold_left fcfsBody ps st in
  f_time st <= f_time st' /\
  (forall b, In b (f_blocks st) -> In b (f_blocks st')) /\
  (forall id, ~ In id (map pid ps) -> mapGet id (f_res st') = mapGet id (f_res st)) /\
  map fst (f_res st') = map fst (f_res st) ++ map pid ps /\
  (forall i p, nth_error ps i = Some p ->
     exists r, mapGet (pid p) (f_res st') = Some r /\
               servedAtOnce p (f_blocks st') r /\
               f_time st <= r_start r /\ r_completion r <= f_time st' /\
               forall j pj rj, (i < j)%nat -> nth_error ps j = Some pj ->
                 mapGet (pid pj) (f_res st') = Some rj ->
                 r_completion r <= r_start rj).
Proof.
  induction ps as [|p rest IH]; intros Hall Hnd st Hfresh; simpl.
  - split; [apply Qle_refl|]. split; [auto|]. split; [auto|].
    split; [rewrite app_nil_r; reflexivity|]. intros i p Hi. destruct i; discriminate.
  - inversion Hall as [|x l Hp Hr]; subst. inversion Hnd as [|x l Hnot Hnd']; subst.
    set (st1 := fcfsBody st p).
    assert (Hres1 : exists v, f_res st1 = f_res st ++ [(pid p, v)] /\
              f_time st1 == r_completion v /\
              f_time st <= r_start v /\
              r_completion v == r_start v + burst p /\
              servedAtOnce p (f_blocks st1) v /\
              forall b, In b (f_blocks st) -> In b (f_blocks st1)).
    { unfold st1, fcfsBody. cbv zeta. cbn [f_res f_time f_blocks].
      rewrite mapSet_fresh by (apply Hfresh; now left).
      eexists. split; [reflexivity|].
      cbn [r_start r_completion].
      destruct (Qltb (f_time st) (arrival p)) eqn:E; qprop.
      - split; [reflexivity|]. split; [lra|]. split; [reflexivity|]. split.
        + unfold servedAtOnce, served.
          cbn [r_start r_completion r_tat r_wt r_response r_arrival r_burst r_priority].
          repeat split; try reflexivity; try lra.
          apply in_or_app. right. now left.
        + intros b Hb. apply in_or_app. left. apply in_or_app. now left.
      - split; [reflexivity|]. split; [lra|]. split; [reflexivity|]. split.
        + unfold servedAtOnce, served.
          cbn [r_start r_completion r_tat r_wt r_response r_arrival r_burst r_priority].
          repeat split; try reflexivity; try lra.
          apply in_or_app. right. now left.
        + intros b Hb. apply in_or_app. now left. }
    destruct Hres1 as [v [Hres1 [Htime1 [Hstart1 [Hcomp1 [Hserved1 Hblocks1]]]]]].
    assert (Hfresh1 : forall q, In q rest -> ~ In (pid q) (map fst (f_res st1))).
    { intros q Hq. rewrite Hres1, map_app. simpl. intro H. apply in_app_or in H.
      destruct H as [H|[H|[]]].
      - revert H. apply Hfresh. now right.
      - apply Hnot. rewrite H. apply in_map. assumption. }
    destruct (IH Hr Hnd' st1 Hfresh1) as [Ht [Hb [Hkeep [Hkeys Hrest]]]].
    assert (Hmine : mapGet (pid p) (f_res (fold_left fcfsBody rest st1)) = Some v).
    { rewrite (Hkeep (pid p) Hnot), Hres1.
      assert (Hn : ~ In (pid p) (map fst (f_res st))) by (apply Hfresh; now left).
      clear - Hn. induction (f_res st) as [|[k w] m IHm]; simpl.
      - rewrite String.eqb_refl. reflexivity.
      - destruct (String.eqb_spec k (pid p)) as [E|E].
        + exfalso. apply Hn. now left.
        + apply IHm. intro H. apply Hn. now right. }
    assert (Hpos : r_start v <= r_completion v) by lra.
    split; [lra|]. split; [auto|]. split.
    { intros id Hid. rewrite Hkeep by (intro H; apply Hid; now right).
      rewrite Hres1.
      assert (Hne : pid p <> id) by (intro H; apply Hid; now left).
      clear - Hne. induction (f_res st) as [|[k w] m IHm]; simpl.
      - destruct (String.eqb_spec (pid p) id); [contradiction|reflexivity].
      - destruct (String.eqb k id); [reflexivity|assumption]. }
    split.
    { rewrite Hkeys, Hres1, map_app, <- app_assoc. reflexivity. }
    intros i q Hi. destruct i as [|i]; simpl in Hi.
    + injection Hi as <-. exists v. split; [assumption|]. split.
      { destruct Hserved1 as [H1 [H2 [H3 H4]]].
        split; [exact H1|]. split; [exact H2|]. split; [exact H3|].
        apply Hb. exact H4. }
      split; [assumption|]. split; [lra|].
      intros j pj rj Hij Hj Hrj. destruct j as [|j]; [lia|]. simpl in Hj.
      destruct (Hrest j pj Hj) as [r' [Hr' [_ [Hs' _]]]].
      assert (rj = r') by congruence. subst. lra.
    + destruct (Hrest i q Hi) as [r' [Hr' [Hsv' [Hs' [Hc' Hord]]]]].
      exists r'. split; [assumption|]. split; [assumption|]. split; [lra|].
      split; [assumption|]. intros j pj rj Hij Hj Hrj.
      destruct j as [|j]; [lia|]. simpl in Hj. apply (Hord j pj rj); [lia|assumption..].
Qed.

(** Over exact arithmetic.
    FCFS on a valid list: the keys of the result map are the pids in
    the order of the list; every process is served in one block from start to
    completion = start + burst at or after its arrival and by [endTime], with
    turnaround = completion - arrival and
    waiting = turnaround - burst = response = start - arrival. *)
Lemma fcfs_results (ps : list Process) :
  validSet ps ->
  allServedAtOnce ps (fcfs ps) /\ map fst (results (fcfs ps)) = map pid ps.
Proof.
  intros Hv. destruct (valid_min ps Hv) as [t0 Hmin].
  destruct (fcfs_fold_results ps (valid_bursts ps Hv) (proj1 (proj2 Hv))
              (mkFcfs [] [] t0)) as [_ [_ [_ [Hkeys Hres]]]]; [intros p _ []|].
  unfold fcfs. rewrite Hmin. cbv zeta. cbn [results]. simpl in Hkeys.
  split; [|assumption]. split; cbn [results blocks endTime].
  - rewrite Hkeys. reflexivity.
  - intros p Hp. apply In_nth_error in Hp. destruct Hp as [i Hi].
    destruct (Hres i p Hi) as [r [Hr [Hsv [_ [Hc _]]]]].
    exists r. split; [assumption|].
    split; [assumption|]. eexists. split; [reflexivity|assumption].
Qed.

(** X6.  FCFS in double arithmetic on a valid list of whole-number
    arrivals and bursts (horizon at most [2^53]): the keys of the result map
    are the pids in the order of the list; every process is served in one
    block from start to completion = start + burst at or after its arrival
    and by [endTime], with turnaround = completion - arrival and
    waiting = turnaround - burst = response = start - arrival. *)
Theorem X6_fcfs_results (ps : list Process) :
  validSet ps -> exactSet ps ->
  allServedAtOnce ps (fcfs64 ps) /\ map fst (results (fcfs64 ps)) = map pid ps.
Proof.
  intros Hv He. rewrite (fcfs64_exact ps Hv He). apply fcfs_results. assumption.
Qed.

Lemma X6_fcfs_results_witness :
  validSet sampleSet /\ exactSet sampleSet /\
  allServedAtOnce sampleSet (fcfs64 sampleSet) /\
  map fst (results (fcfs64 sampleSet)) = map pid sampleSet.
Proof.
  split; [exact sampleSet_valid|]. split; [exact sampleSet_exact|].
  exact (X6_fcfs_results sampleSet sampleSet_valid sampleSet_exact).
Defined.

(** X7.  FCFS serves in the order of the list it is given: of two
    processes of a valid list, the one later in the list starts no earlier
    than the other completes. *)
Theorem X7_fcfs_list_order (ps : list Process) (i j : nat) (pi pj : Process)
    (ri rj : ProcResult) :
  validSet ps -> (i < j)%nat ->
  nth_error ps i = Some pi -> nth_error ps j = Some pj ->
  mapGet (pid pi) (results (fcfs ps)) = Some ri ->
  mapGet (pid pj) (results (fcfs ps)) = Some rj ->
  r_completion ri <= r_start rj.
Proof.
  intros Hv Hij Hi Hj. destruct (valid_min ps Hv) as [t0 Hmin].
  destruct (fcfs_fold_results ps (valid_bursts ps Hv) (proj1 (proj2 Hv))
              (mkFcfs [] [] t0)) as [_ [_ [_ [_ Hres]]]]; [intros p _ []|].
  unfold fcfs. rewrite Hmin. cbv zeta. cbn [results]. intros Hri Hrj.
  destruct (Hres i pi Hi) as [r [Hr [_ [_ [_ Hord]]]]].
  assert (ri = r) by congruence. subst r. apply (Hord j pj rj); assumption.
Qed.

Lemma X7_fcfs_list_order_witness :
  validSet lateFirst /\
  r_completion (mkResult 5 6 1 0 0 5 1 0) <= r_start (mkResult 6 7 7 6 6 0 1 0).
Proof.
  split; [concrete_valid|].
  apply (X7_fcfs_list_order lateFirst 0 1 (P "P1" 5 1) (P "P2" 0 1)
           (mkResult 5 6 1 0 0 5 1 0) (mkResult 6 7 7 6 6 0 1 0)).
  - concrete_valid.
  - lia.
  - reflexivity.
  - reflexivity.
  - vm_compute. reflexivity.
  - vm_compute. reflexivity.
Defined.

(** ** What [readProcesses] accepts and what it returns *)

Lemma rowProcess_bounds (tr : Row) (p : Process) :
  rowProcess tr = Some p ->
  pid p <> "" /\ 0 <= arrival p /\ 0 < burst p /\ color p = row_color tr.
Proof.
  unfold rowProcess. destruct (String.eqb_spec (row_pid tr) "") as [|Hne]; [discriminate|].
  unfold finiteNonNeg, finitePos, finite.
  destruct (row_at tr) as [a| | |]; try discriminate.
  destruct (Qleb 0 a) eqn:Ea; [|discriminate].
  destruct (row_bt tr) as [b| | |]; try discriminate.
  destruct (Qltb 0 b) eqn:Eb; [|discriminate].
  destruct (row_pr tr) as [c| | |]; try discriminate.
  intros [= <-]. simpl. qprop. auto.
Qed.

(** X8.  [readProcesses] returns a list exactly when every row passes the
    row checks (pid not empty; arrival finite and >= 0; burst finite and > 0;
    priority finite) and no pid occurs twice; otherwise it throws. *)
Theorem X8_readProcesses_accepts (localeCompare : string -> string -> Z)
    (rows : list Row) :
  ((exists procs, readProcesses localeCompare rows = Returned procs) <->
   (Forall (fun tr => rowProcess tr <> None) rows /\ NoDup (map row_pid rows))) /\
  ((exists msg, readProcesses localeCompare rows = Thrown msg) <->
   ~ (Forall (fun tr => rowProcess tr <> None) rows /\ NoDup (map row_pid rows))).
Proof.
  assert (Hiff : (exists procs, readProcesses localeCompare rows = Returned procs) <->
            (Forall (fun tr => rowProcess tr <> None) rows /\
             NoDup (map row_pid rows))).
  { unfold readProcesses. split.
    - intros [procs H]. destruct (readRows rows [] []) as [l| |] eqn:E; try discriminate.
      apply readRows_returned in E. destruct E as [l' [HF [_ [Hnd _]]]].
      split; [|assumption]. clear - HF.
      induction HF as [|tr p rows l H _ IH]; constructor; [congruence|assumption].
    - intros [Hall Hnd].
      assert (HF : exists l, Forall2 (fun tr p => rowProcess tr = Some p) rows l).
      { clear - Hall. induction Hall as [|tr rows H _ [l IH]].
        - exists []. constructor.
        - destruct (rowProcess tr) as [p|] eqn:E; [|congruence].
          exists (p :: l). constructor; assumption. }
      destruct HF as [l HF].
      rewrite (readRows_complete rows [] [] l HF Hnd) by reflexivity. eauto. }
  split; [exact Hiff|]. rewrite <- Hiff. unfold readProcesses.
  pose proof (readRows_fuel rows [] []) as Hfuel.
  destruct (readRows rows [] []) as [l|m|]; [| |congruence].
  - split; [intros [msg H]; discriminate|]. intros H. exfalso. apply H. eauto.
  - split; [|eauto]. intros _ [procs H]. discriminate.
Qed.

Lemma readProcesses_returned (localeCompare : string -> string -> Z)
    (rows : list Row) (procs : list Process) :
  readProcesses localeCompare rows = Returned procs ->
  exists l, Forall2 (fun tr p => rowProcess tr = Some p) rows l /\
            Permutation l procs /\ NoDup (map pid procs) /\
            Forall (fun p => pid p <> "" /\ 0 <= arrival p /\ 0 < burst p) procs.
Proof.
  unfold readProcesses.
  destruct (readRows rows [] []) as [l0| |] eqn:E; try discriminate.
  intros [= <-]. apply readRows_returned in E.
  destruct E as [l [HF [-> [Hnd _]]]]. simpl in *.
  pose proof (sortBy_perm (byArrival localeCompare) l) as Hperm.
  exists l. split; [assumption|]. split; [assumption|]. split.
  - apply (Permutation_NoDup (Permutation_map pid Hperm)).
    rewrite (rows_pids rows l HF). assumption.
  - apply (Permutation_Forall Hperm).
    clear - HF. induction HF as [|tr p rows l H _ IH]; constructor; [|assumption].
    apply rowProcess_bounds in H. tauto.
Qed.

(** X9.  Whatever [readProcesses] returns is a rearrangement of the rows'
    processes, in non-decreasing order of arrival, with pairwise different,
    non-empty pids, arrivals >= 0 and bursts > 0: when not empty it is a valid
    process set for the scheduling functions. *)
Theorem X9_readProcesses_returns_valid (localeCompare : string -> string -> Z)
    (rows : list Row) (procs : list Process) :
  readProcesses localeCompare rows = Returned procs ->
  (exists l, Forall2 (fun tr p => rowProcess tr = Some p) rows l /\
             Permutation l procs) /\
  length procs = length rows /\
  arrivalSorted procs /\
  Forall (fun p => pid p <> "") procs /\
  (procs <> [] -> validSet procs).
Proof.
  intros Hread. pose proof (readProcesses_arrivalSorted _ _ _ Hread) as Hsorted.
  destruct (readProcesses_returned _ _ _ Hread) as [l [HF [Hperm [Hnd Hall]]]].
  split; [eauto|]. split.
  { rewrite <- (Permutation_length Hperm). symmetry. eapply Forall2_length. eassumption. }
  split; [assumption|]. split.
  { eapply Forall_impl; [|exact Hall]. simpl. tauto. }
  intros Hne. split; [assumption|]. split; [assumption|].
  eapply Forall_impl; [|exact Hall]. simpl. tauto.
Qed.

Lemma X9_readProcesses_returns_valid_witness :
  readProcesses codeUnitCompare sampleRows = Returned earlyFirst /\
  (exists l, Forall2 (fun tr p => rowProcess tr = Some p) sampleRows l /\
             Permutation l earlyFirst) /\
  length earlyFirst = length sampleRows /\
  arrivalSorted earlyFirst /\
  Forall (fun p => pid p <> "") earlyFirst /\
  (earlyFirst <> [] -> validSet earlyFirst).
Proof.
  assert (H : readProcesses codeUnitCompare sampleRows = Returned earlyFirst)
    by (vm_compute; reflexivity).
  split; [exact H|].
  exact (X9_readProcesses_returns_valid codeUnitCompare sampleRows earlyFirst H).
Defined.

(** ** [compute] on accepted rows *)

Lemma fillColors_same (genColor : nat -> nat -> string) (total : nat)
    (procs : list Process) :
  forall idx, Forall2 sameButColor procs (fillColors genColor total idx procs).
Proof.
  induction procs as [|p r IH]; intros idx; simpl; constructor; [|apply IH].
  unfold sameButColor. destruct (String.eqb_spec (color p) "") as [E|E]; simpl.
  - repeat split; try reflexivity. intros H. contradiction.
  - repeat split; reflexivity.
Qed.

Lemma sameButColor_fields (l l' : list Process) :
  Forall2 sameButColor l l' ->
  map pid l' = map pid l /\ map arrival l' = map arrival l /\ map burst l' = map burst l.
Proof.
  induction 1 as [|p p' l l' [H1 [H2 [H3 _]]] _ [IH1 [IH2 IH3]]]; simpl; [auto|].
  rewrite H1, H2, H3, IH1, IH2, IH3. auto.
Qed.

Lemma sameButColor_valid (l l' : list Process) :
  Forall2 sameButColor l l' -> validSet l -> validSet l'.
Proof.
  intros HF [Hne [Hnd Hall]]. destruct (sameButColor_fields l l' HF) as [Hp _].
  split; [|split].
  - intros ->. inversion HF; subst. congruence.
  - rewrite Hp. assumption.
  - clear - HF Hall. induction HF as [|p p' l l' [_ [H2 [H3 _]]] _ IH]; [constructor|].
    inversion Hall as [|x y Hx Hy]; subst. constructor; [|auto].
    rewrite H2, H3. assumption.
Qed.

Lemma sameButColor_whole (l l' : list Process) :
  Forall2 sameButColor l l' -> wholeBursts l -> wholeBursts l'.
Proof.
  unfold wholeBursts. induction 1 as [|p p' l l' [_ [_ [H3 _]]] _ IH]; intros Hall;
    [constructor|].
  inversion Hall as [|x y Hx Hy]; subst. constructor; [|auto]. rewrite H3. assumption.
Qed.

Lemma compute_accepted (localeCompare : string -> string -> Z)
    (genColor : nat -> nat -> string) (fuel : nat) (rows : list Row)
    (procs0 : list Process) (algo : string) (q : jsnum) :
  readProcesses localeCompare rows = Returned procs0 -> procs0 <> [] ->
  compute localeCompare genColor fuel rows algo q =
  let procs := fillColors genColor (length procs0) 0 procs0 in
  if String.eqb algo "FCFS" then rendered procs (Returned (fcfs procs))
  else if String.eqb algo "SJF" then rendered procs (sjf localeCompare fuel procs)
  else if String.eqb algo "SRTF" then rendered procs (srtf localeCompare fuel procs)
  else if String.eqb algo "PR"
       then rendered procs (prioritySchedule localeCompare fuel procs)
  else if String.eqb algo "RR" then rendered procs (roundRobin fuel procs q)
  else Uncaught typeError.
Proof.
  intros Hread Hne. unfold compute. rewrite Hread.
  destruct procs0 as [|p r]; [congruence|]. reflexivity.
Qed.

Lemma rendered_returnsWith (procs : list Process)
    (run : nat -> Outcome SimulationResult) (P : SimulationResult -> Prop) :
  returnsWith run P -> rendersWith (fun fuel => rendered procs (run fuel)) procs P.
Proof.
  intros [fuel0 H]. exists fuel0. intros fuel Hle.
  destruct (H fuel Hle) as [out [Hr Hp]]. exists out. rewrite Hr. auto.
Qed.

Lemma rendersWith_ext (run run' : nat -> Computed) (procs : list Process)
    (P : SimulationResult -> Prop) :
  (forall fuel, run' fuel = run fuel) -> rendersWith run procs P ->
  rendersWith run' procs P.
Proof.
  intros Hext [fuel0 H]. exists fuel0. intros fuel Hle. rewrite Hext. auto.
Qed.

(** Over exact arithmetic.
    When [readProcesses] accepts the rows and there is at least one,
    [compute] shows no error and throws nothing: it hands to the renderers the
    sorted list, changed only in that empty colours are filled in, together
    with the result of the selected function on that list, a timeline tiling
    [[min(arrival), endTime)] - for FCFS, SJF and Priority always, for Round
    Robin when the quantum is > 0, for SRTF when the bursts are whole
    numbers. *)
Lemma compute_renders (localeCompare : string -> string -> Z)
    (genColor : nat -> nat -> string) (rows : list Row) (procs0 : list Process)
    (q : jsnum) :
  readProcesses localeCompare rows = Returned procs0 -> procs0 <> [] ->
  let procs := fillColors genColor (length procs0) 0 procs0 in
  Forall2 sameButColor procs0 procs /\
  exists t0,
    mathMin (map arrival procs0) = Fin t0 /\
    rendersWith (fun fuel => compute localeCompare genColor fuel rows "FCFS" q)
      procs (covers t0) /\
    rendersWith (fun fuel => compute localeCompare genColor fuel rows "SJF" q)
      procs (covers t0) /\
    rendersWith (fun fuel => compute localeCompare genColor fuel rows "PR" q)
      procs (covers t0) /\
    (gt0 q = true ->
     rendersWith (fun fuel => compute localeCompare genColor fuel rows "RR" q)
       procs (covers t0)) /\
    (wholeBursts procs0 ->
     rendersWith (fun fuel => compute localeCompare genColor fuel rows "SRTF" q)
       procs (covers t0)).
Proof.
  intros Hread Hne procs.
  pose proof (fillColors_same genColor (length procs0) procs0 0) as Hsame.
  fold procs in Hsame. split; [assumption|].
  assert (Hv0 : validSet procs0).
  { destruct (readProcesses_returned localeCompare rows procs0 Hread)
      as [l [_ [_ [Hnd Hall]]]].
    split; [assumption|]. split; [assumption|].
    eapply Forall_impl; [|exact Hall]. simpl. tauto. }
  pose proof (sameButColor_valid _ _ Hsame Hv0) as Hv.
  destruct (valid_min procs Hv) as [t0 Hmin]. exists t0.
  destruct (sameButColor_fields _ _ Hsame) as [_ [Harr _]].
  split; [rewrite <- Harr; assumption|].
  split; [|split; [|split; [|split]]].
  - exists 0%nat. intros fuel _. rewrite (compute_accepted _ _ _ _ _ _ _ Hread Hne).
    eexists. split; [reflexivity|]. apply fcfs_covers; assumption.
  - eapply rendersWith_ext.
    + intros fuel. rewrite (compute_accepted _ _ _ _ _ _ _ Hread Hne). reflexivity.
    + apply rendered_returnsWith.
      eapply returnsWith_impl;
        [|apply (nonPreemptive_returnsWith (byBurst localeCompare) procs t0 Hv Hmin)].
      intros r H. apply H.
  - eapply rendersWith_ext.
    + intros fuel. rewrite (compute_accepted _ _ _ _ _ _ _ Hread Hne). reflexivity.
    + apply rendered_returnsWith.
      eapply returnsWith_impl;
        [|apply (nonPreemptive_returnsWith (byPriority localeCompare) procs t0 Hv Hmin)].
      intros r H. apply H.
  - intros Hq. eapply rendersWith_ext.
    + intros fuel. rewrite (compute_accepted _ _ _ _ _ _ _ Hread Hne). reflexivity.
    + apply rendered_returnsWith.
      eapply returnsWith_impl; [|apply (roundRobin_returnsWith procs q t0 Hq Hv Hmin)].
      intros r H. apply H.
  - intros Hw. eapply rendersWith_ext.
    + intros fuel. rewrite (compute_accepted _ _ _ _ _ _ _ Hread Hne). reflexivity.
    + apply rendered_returnsWith.
      eapply returnsWith_impl;
        [|apply (srtf_returnsWith localeCompare procs t0 Hv Hmin
                   (sameButColor_whole _ _ Hsame Hw))].
      intros r H. apply H.
Qed.

(** ** [compute] in double arithmetic *)

Lemma sameButColor_exact (l l' : list Process) :
  Forall2 sameButColor l l' -> exactSet l -> exactSet l'.
Proof.
  intros Hsame [Hall Hh]. split.
  - clear Hh. induction Hsame as [|p p' l l' [_ [Ha [Hb [Hp _]]]] Hsame IH];
      [constructor|].
    inversion Hall as [|x y Hx Hy]; subst. constructor; [|apply IH; assumption].
    rewrite Ha, Hb, Hp. assumption.
  - assert (E : horizon l' = horizon l); [|rewrite E; assumption].
    clear Hall Hh. unfold horizon.
    induction Hsame as [|p p' l l' [_ [Ha [Hb _]]] Hsame IH]; [reflexivity|].
    injection IH as IH1 IH2. simpl. rewrite Ha, Hb.
    assert (E1 : lastArrival l' = lastArrival l).
    { clear IH1 IH2. induction Hsame as [|x x' m m' [_ [Hx _]] _ IHm]; [reflexivity|].
      simpl. rewrite Hx, IHm. reflexivity. }
    assert (E2 : map burst l' = map burst l).
    { clear IH1 IH2 E1. induction Hsame as [|x x' m m' [_ [_ [Hx _]]] _ IHm];
        [reflexivity|]. simpl. rewrite Hx, IHm. reflexivity. }
    rewrite E1, E2. reflexivity.
Qed.

Lemma compute64_exact (localeCompare : string -> string -> Z)
    (genColor : nat -> nat -> string) (fuel : nat) (rows : list Row)
    (procs0 : list Process) (algo : string) (q : jsnum) :
  readProcesses localeCompare rows = Returned procs0 ->
  exactSet procs0 -> exactQuantum q ->
  compute64 localeCompare genColor fuel rows algo q =
  compute localeCompare genColor fuel rows algo q.
Proof.
  intros Hread He Hq. unfold compute64, compute. rewrite Hread.
  destruct procs0 as [|p0 r0] eqn:E0; [reflexivity|]. rewrite <- E0 in *.
  assert (Hne : procs0 <> []) by (rewrite E0; discriminate).
  replace (length procs0 =? 0)%nat with false
    by (rewrite E0; reflexivity).
  pose proof (fillColors_same genColor (length procs0) procs0 0) as Hsame.
  assert (Hv0 : validSet procs0).
  { destruct (readProcesses_returned localeCompare rows procs0 Hread)
      as [l [_ [_ [Hnd Hall]]]].
    split; [assumption|]. split; [assumption|].
    eapply Forall_impl; [|exact Hall]. simpl. tauto. }
  pose proof (sameButColor_valid _ _ Hsame Hv0) as Hv.
  pose proof (sameButColor_exact _ _ Hsame He) as Hx.
  cbv zeta.
  rewrite (fcfs64_exact _ Hv Hx).
  rewrite (sjf64_exact localeCompare _ fuel Hv Hx).
  rewrite (srtf64_exact localeCompare _ fuel Hv Hx).
  rewrite (prioritySchedule64_exact localeCompare _ fuel Hv Hx).
  destruct (gt0 q) eqn:Hg.
  - rewrite (roundRobin64_exact_valid _ q fuel Hv Hx Hg Hq). reflexivity.
  - unfold roundRobin64, roundRobin. rewrite Hg. reflexivity.
Qed.

(** X10.  When [readProcesses] accepts the rows, there is at least one, and
    the arrivals and bursts read are whole numbers with a horizon of at most
    [2^53], [compute] shows no error and throws nothing: it hands to the
    renderers the sorted list, changed only in that empty colours are filled
    in, together with the result of the selected function on that list in
    double arithmetic, a timeline tiling [[min(arrival), endTime)] - for
    FCFS, SJF, Priority and SRTF always, for Round Robin when the quantum is
    > 0 and a whole number or [Infinity]. *)
Theorem X10_compute_renders (localeCompare : string -> string -> Z)
    (genColor : nat -> nat -> string) (rows : list Row) (procs0 : list Process)
    (q : jsnum) :
  readProcesses localeCompare rows = Returned procs0 -> procs0 <> [] ->
  exactSet procs0 -> exactQuantum q ->
  let procs := fillColors genColor (length procs0) 0 procs0 in
  Forall2 sameButColor procs0 procs /\
  exists t0,
    mathMin (map arrival procs0) = Fin t0 /\
    rendersWith (fun fuel => compute64 localeCompare genColor fuel rows "FCFS" q)
      procs (covers t0) /\
    rendersWith (fun fuel => compute64 localeCompare genColor fuel rows "SJF" q)
      procs (covers t0) /\
    rendersWith (fun fuel => compute64 localeCompare genColor fuel rows "PR" q)
      procs (covers t0) /\
    rendersWith (fun fuel => compute64 localeCompare genColor fuel rows "SRTF" q)
      procs (covers t0) /\
    (gt0 q = true ->
     rendersWith (fun fuel => compute64 localeCompare genColor fuel rows "RR" q)
       procs (covers t0)).
Proof.
  intros Hread Hne He Hq procs.
  destruct (compute_renders localeCompare genColor rows procs0 q Hread Hne)
    as [Hsame [t0 [Hmin [H1 [H2 [H3 [H4 H5]]]]]]].
  fold procs in Hsame, H1, H2, H3, H4, H5.
  assert (Hv0 : validSet procs0).
  { destruct (readProcesses_returned localeCompare rows procs0 Hread)
      as [l [_ [_ [Hnd Hall]]]].
    split; [assumption|]. split; [assumption|].
    eapply Forall_impl; [|exact Hall]. simpl. tauto. }
  assert (Hext : forall algo fuel,
            compute64 localeCompare genColor fuel rows algo q =
            compute localeCompare genColor fuel rows algo q)
    by (intros; apply (compute64_exact _ _ _ _ procs0); assumption).
  split; [assumption|]. exists t0. split; [assumption|].
  split; [|split; [|split; [|split]]].
  - eapply rendersWith_ext; [apply Hext|assumption].
  - eapply rendersWith_ext; [apply Hext|assumption].
  - eapply rendersWith_ext; [apply Hext|assumption].
  - eapply rendersWith_ext; [apply Hext|].
    apply H5. apply exact_wholeBursts; assumption.
  - intros Hg. eapply rendersWith_ext; [apply Hext|]. apply H4. assumption.
Qed.

Lemma earlyFirst_exact : exactSet earlyFirst.
Proof. split; [repeat constructor|vm_compute; discriminate]. Qed.

Lemma X10_compute_renders_witness :
  readProcesses codeUnitCompare sampleRows = Returned earlyFirst /\
  earlyFirst <> [] /\ exactSet earlyFirst /\ exactQuantum (Fin 2) /\
  let procs := fillColors (fun _ _ => "hsl") (length earlyFirst) 0 earlyFirst in
  Forall2 sameButColor earlyFirst procs /\
  exists t0,
    mathMin (map arrival earlyFirst) = Fin t0 /\
    rendersWith
      (fun fuel => compute64 codeUnitCompare (fun _ _ => "hsl") fuel sampleRows "FCFS" (Fin 2))
      procs (covers t0) /\
    rendersWith
      (fun fuel => compute64 codeUnitCompare (fun _ _ => "hsl") fuel sampleRows "SJF" (Fin 2))
      procs (covers t0) /\
    rendersWith
      (fun fuel => compute64 codeUnitCompare (fun _ _ => "hsl") fuel sampleRows "PR" (Fin 2))
      procs (covers t0) /\
    rendersWith
      (fun fuel => compute64 codeUnitCompare (fun _ _ => "hsl") fuel sampleRows "SRTF" (Fin 2))
      procs (covers t0) /\
    (gt0 (Fin 2) = true ->
     rendersWith
       (fun fuel => compute64 codeUnitCompare (fun _ _ => "hsl") fuel sampleRows "RR" (Fin 2))
       procs (covers t0)).
Proof.
  assert (H : readProcesses codeUnitCompare sampleRows = Returned earlyFirst)
    by (vm_compute; reflexivity).
  assert (Hne : earlyFirst <> []) by discriminate.
  split; [exact H|]. split; [exact Hne|]. split; [exact earlyFirst_exact|].
  split; [reflexivity|].
  exact (X10_compute_renders codeUnitCompare (fun _ _ => "hsl") sampleRows earlyFirst
           (Fin 2) H Hne earlyFirst_exact eq_refl).
Defined.

(** X11.  The quantum error of Round Robin is not caught by [compute]: on
    accepted rows, at least one, with algorithm "RR" and a quantum field that
    is not a number > 0, [compute] ends in the uncaught exception; no error
    message is shown and nothing is rendered. *)
Theorem X11_compute_quantum_error_uncaught (localeCompare : string -> string -> Z)
    (genColor : nat -> nat -> string) (fuel : nat) (rows : list Row)
    (procs0 : list Process) (q : jsnum) :
  readProcesses localeCompare rows = Returned procs0 -> procs0 <> [] ->
  gt0 q = false ->
  compute localeCompare genColor fuel rows "RR" q = Uncaught quantumError.
Proof.
  intros Hread Hne Hq. rewrite (compute_accepted _ _ _ _ _ _ _ Hread Hne).
  cbv zeta. unfold roundRobin. rewrite Hq. reflexivity.
Qed.

Lemma X11_compute_quantum_error_uncaught_witness :
  readProcesses codeUnitCompare sampleRows = Returned earlyFirst /\
  earlyFirst <> [] /\ gt0 NaN = false /\
  compute codeUnitCompare (fun _ _ => "hsl") 10 sampleRows "RR" NaN
  = Uncaught quantumError.
Proof.
  assert (H : readProcesses codeUnitCompare sampleRows = Returned earlyFirst)
    by (vm_compute; reflexivity).
  assert (Hne : earlyFirst <> []) by discriminate.
  split; [exact H|]. split; [exact Hne|]. split; [reflexivity|].
  exact (X11_compute_quantum_error_uncaught codeUnitCompare (fun _ _ => "hsl") 10
           sampleRows earlyFirst NaN H Hne eq_refl).
Defined.

(** ** Round Robin: the result map *)

Section RoundRobinService.
Variable ps : list Process.
Variable q : jsnum.
Variable t0 : Q.
Hypothesis Hq : gt0 q = true.
Hypothesis Hvalid : validSet ps.

Lemma rrInit_served : RRServed ps (rrInit ps t0).
Proof.
  unfold rrInit. constructor; cbn [rr_firstStart rr_arrived rr_time rr_rem rr_res rr_queue].
  - apply length_map.
  - intros i p Hi Hp. rewrite initQueue_newly in Hi. unfold setOf in Hi.
    rewrite fold_add_fresh in Hi.
    + simpl in Hi. apply newly_In0 in Hi. destruct Hi as [_ [p' [Hp' Ha]]]. congruence.
    + apply increasing_NoDup, newly_increasing.
    + intros j _ [].
  - intros i p Hp _. rewrite (nth_burst ps i p Hp). reflexivity.
  - intros i p s _ H. rewrite nth_const_none in H. discriminate.
  - intros i p _ Hi Hn. exfalso. apply Hn. rewrite initQueue_newly in *.
    unfold setOf in Hi. rewrite fold_add_fresh in Hi; [exact Hi| |intros j _ []].
    apply increasing_NoDup, newly_increasing.
  - apply keysOk_empty.
Qed.

Lemma rr_served_step (st st' : RRState) :
  RRInv ps t0 st -> RRServed ps st -> rrBody ps q st = Next st' -> RRServed ps st'.
Proof.
  intros Hinv [Hlen Harr Hfresh Hstarted Hdone Hkeys] Hbody.
  assert (Hnd : NoDup (map pid ps)) by apply Hvalid.
  destruct (rr_queue st) as [|i queue0] eqn:Hqueue.
  - unfold rrBody in Hbody. rewrite Hqueue in Hbody.
    destruct (findNotArrived (rr_arrived st) 0 ps) as [k|] eqn:Hf; [|discriminate].
    destruct (nth_error ps k) as [pn|] eqn:Hpn; [|discriminate].
    rewrite pushArrived_newly in Hbody. injection Hbody as <-.
    assert (Hlater : rr_time st < arrival pn).
    { apply Qnot_le_lt. intro Hle. apply findNotArrived_some in Hf.
      destruct Hf as [_ Hf]. apply has_notIn in Hf. apply Hf.
      exact (rri_upto Hinv k Hpn Hle). }
    constructor; cbn [rr_firstStart rr_arrived rr_time rr_rem rr_res rr_queue].
    + assumption.
    + intros j p Hj Hp. apply in_app_or in Hj. destruct Hj as [Hj|Hj].
      * specialize (Harr j p Hj Hp). lra.
      * apply newly_In0 in Hj. destruct Hj as [_ [p' [Hp' Ha]]]. congruence.
    + assumption.
    + intros j p s Hp Hs. destruct (Hstarted j p s Hp Hs) as [r [Hr [Hb Ht]]].
      exists r. split; [assumption|]. split; [assumption|]. lra.
    + intros j p Hp Hj Hn. simpl in Hn.
      apply in_app_or in Hj. destruct Hj as [Hj|Hj]; [|contradiction].
      destruct (Hdone j p Hp Hj) as [r [Hr [Hsv Hc]]]; [intros []|].
      exists r. split; [assumption|]. split; [assumption|]. lra.
    + assumption.
  - destruct (rr_dispatch ps q t0 Hq Hvalid st i queue0 Hinv Hqueue)
      as [p [Hp [Hrun1 [Hrun2 _]]]]. cbv zeta in Hrun1, Hrun2.
    unfold rrBody in Hbody. rewrite Hqueue, Hp in Hbody.
    rewrite pushArrived_newly in Hbody. cbv zeta in Hbody.
    assert (Hi : (i < length ps)%nat) by (eapply nth_error_lt; eassumption).
    assert (Hiq : In i (rr_queue st)) by (rewrite Hqueue; now left).
    assert (Hia : arrival p <= rr_time st).
    { apply (Harr i p); [|assumption]. apply (rri_queue_arr Hinv). assumption. }
    set (run := minQuantum q (nth i (rr_rem st) 0)) in *.
    set (N := newly (rr_time st + run) 0 ps (rr_arrived st)) in *.
    set (fs1 := if match nth i (rr_firstStart st) None with
                   | None => true | Some _ => false end
                then setNth i (Some (rr_time st)) (rr_firstStart st)
                else rr_firstStart st) in *.
    set (res1 := if match nth i (rr_firstStart st) None with
                    | None => true | Some _ => false end
                 then mapSet (pid p)
                        (mkResult (rr_time st) 0 0 0 (rr_time st - arrival p)
                           (arrival p) (burst p) (priority p)) (rr_res st)
                 else rr_res st) in *.
    set (rem1 := setNth i (nth i (rr_rem st) 0 - run) (rr_rem st)) in *.
    assert (Hrem1 : nth i rem1 0 = nth i (rr_rem st) 0 - run).
    { unfold rem1. apply nth_setNth_same. rewrite (rri_rem_len Hinv). assumption. }
    assert (Hother : forall j pj, nth_error ps j = Some pj -> j <> i ->
              nth j fs1 None = nth j (rr_firstStart st) None /\
              nth j rem1 0 = nth j (rr_rem st) 0 /\
              mapGet (pid pj) res1 = mapGet (pid pj) (rr_res st) /\
              pid p <> pid pj).
    { intros j pj Hpj Hne.
      assert (Hpid : pid p <> pid pj).
      { intro E. apply Hne. symmetry. exact (pid_injective ps i j p pj Hnd Hp Hpj E). }
      split; [|split; [|split; [|assumption]]].
      - unfold fs1. destruct (nth i (rr_firstStart st) None); [reflexivity|].
        apply nth_setNth_other. auto.
      - unfold rem1. apply nth_setNth_other. auto.
      - unfold res1. destruct (nth i (rr_firstStart st) None); [reflexivity|].
        rewrite mapGet_mapSet. destruct (String.eqb_spec (pid p) (pid pj)); [contradiction|].
        reflexivity. }
    assert (Hmine : exists s r, nth i fs1 None = Some s /\ mapGet (pid p) res1 = Some r /\
              begun p s r /\ s + (burst p - nth i rem1 0) <= rr_time st + run).
    { rewrite Hrem1. unfold fs1, res1.
      destruct (nth i (rr_firstStart st) None) as [s|] eqn:E.
      - destruct (Hstarted i p s Hp E) as [r [Hr [Hb Ht]]].
        exists s, r. split; [assumption|]. split; [assumption|]. split; [assumption|]. lra.
      - pose proof (Hfresh i p Hp E) as Hb.
        eexists. eexists. split; [apply nth_setNth_same; rewrite Hlen; assumption|].
        split; [rewrite mapGet_mapSet, String.eqb_refl; reflexivity|].
        split; [|lra]. unfold begun.
        cbn [r_start r_arrival r_burst r_priority r_response].
        repeat split; try reflexivity. assumption. }
    destruct Hmine as [s [r [Hfs [Hr [Hbegun Ht]]]]].
    assert (Harr' : forall j pj, In j (rr_arrived st ++ N) -> nth_error ps j = Some pj ->
                                 arrival pj <= rr_time st + run).
    { intros j pj Hj Hpj. apply in_app_or in Hj. destruct Hj as [Hj|Hj].
      - specialize (Harr j pj Hj Hpj). lra.
      - apply newly_In0 in Hj. destruct Hj as [_ [p' [Hp' Ha]]]. congruence. }
    assert (Hlen' : length fs1 = length ps).
    { unfold fs1. destruct (nth i (rr_firstStart st) None); [assumption|].
      rewrite length_setNth. assumption. }
    assert (Hfresh' : forall j pj, nth_error ps j = Some pj -> nth j fs1 None = None ->
                                   nth j rem1 0 == burst pj).
    { intros j pj Hpj Hn. destruct (Nat.eq_dec j i) as [->|Hne]; [congruence|].
      destruct (Hother j pj Hpj Hne) as [E1 [E2 _]]. rewrite E2. apply (Hfresh j pj Hpj).
      congruence. }
    assert (Hkeys1 : keysOk ps res1).
    { unfold res1. destruct (nth i (rr_firstStart st) None); [assumption|].
      apply keysOk_set; [assumption|]. eapply nth_error_In; eassumption. }
    destruct (Qltb 0 (nth i rem1 0)) eqn:Hpos.
    + injection Hbody as <-.
      constructor; cbn [rr_firstStart rr_arrived rr_time rr_rem rr_res rr_queue];
        try assumption.
      * intros j pj s' Hpj Hs'. destruct (Nat.eq_dec j i) as [->|Hne].
        -- assert (pj = p) by congruence. subst pj. assert (s' = s) by congruence.
           subst s'. eauto.
        -- destruct (Hother j pj Hpj Hne) as [E1 [E2 [E3 _]]]. rewrite E1 in Hs'.
           destruct (Hstarted j pj s' Hpj Hs') as [r' [Hr' [Hb' Ht']]].
           exists r'. rewrite E2, E3. split; [assumption|]. split; [assumption|]. lra.
      * intros j pj Hpj Hj Hn.
        assert (Hne : j <> i).
        { intros ->. apply Hn. apply in_or_app. right. now left. }
        assert (HjN : ~ In j N).
        { intro H. apply Hn. apply in_or_app. left. apply in_or_app. now right. }
        apply in_app_or in Hj. destruct Hj as [Hj|Hj]; [|contradiction].
        destruct (Hdone j pj Hpj Hj) as [r' [Hr' [Hsv Hc]]].
        { intros [E|H]; [congruence|]. apply Hn.
          apply in_or_app. left. apply in_or_app. now left. }
        destruct (Hother j pj Hpj Hne) as [_ [_ [E3 _]]].
        exists r'. rewrite E3. split; [assumption|]. split; [assumption|]. lra.
    + rewrite Hr in Hbody. injection Hbody as <-. qprop.
      constructor; cbn [rr_firstStart rr_arrived rr_time rr_rem rr_res rr_queue];
        try assumption.
      * intros j pj s' Hpj Hs'. destruct (Nat.eq_dec j i) as [->|Hne].
        -- assert (pj = p) by congruence. subst pj. assert (s' = s) by congruence.
           subst s'. rewrite mapGet_mapSet, String.eqb_refl.
           eexists. split; [reflexivity|]. split; [|assumption].
           destruct Hbegun as [B1 [B2 [B3 [B4 [B5 B6]]]]]. unfold begun.
           cbn [r_start r_arrival r_burst r_priority r_response]. auto 10.
        -- destruct (Hother j pj Hpj Hne) as [E1 [E2 [E3 Hpid]]]. rewrite E1 in Hs'.
           destruct (Hstarted j pj s' Hpj Hs') as [r' [Hr' [Hb' Ht']]].
           exists r'. rewrite E2, mapGet_mapSet.
           destruct (String.eqb_spec (pid p) (pid pj)); [contradiction|].
           rewrite E3. split; [assumption|]. split; [assumption|]. lra.
      * intros j pj Hpj Hj Hn. destruct (Nat.eq_dec j i) as [->|Hne].
        -- assert (pj = p) by congruence. subst pj.
           rewrite mapGet_mapSet, String.eqb_refl.
           eexists. split; [reflexivity|]. cbn [r_completion].
           split; [|apply Qle_refl].
           destruct Hbegun as [B1 [B2 [B3 [B4 [B5 B6]]]]]. unfold served.
           cbn [r_start r_completion r_tat r_wt r_response r_arrival r_burst r_priority].
           rewrite B1. repeat split; try assumption; try reflexivity. lra.
        -- assert (HjN : ~ In j N).
           { intro H. apply Hn. apply in_or_app. now right. }
           apply in_app_or in Hj. destruct Hj as [Hj|Hj]; [|contradiction].
           destruct (Hdone j pj Hpj Hj) as [r' [Hr' [Hsv Hc]]].
           { intros [E|H]; [congruence|]. apply Hn.
             apply in_or_app. now left. }
           destruct (Hother j pj Hpj Hne) as [_ [_ [E3 Hpid]]].
           exists r'. rewrite mapGet_mapSet.
           destruct (String.eqb_spec (pid p) (pid pj)); [contradiction|].
           rewrite E3. split; [assumption|]. split; [assumption|]. lra.
      * apply keysOk_set; [assumption|]. eapply nth_error_In; eassumption.
Qed.
End RoundRobinService.

(** Over exact arithmetic.
    Round Robin with a quantum > 0 on a valid list returns a result
    whose map has exactly the pids of the list as keys; every entry has
    arrival, burst and priority copied from the input, start >= arrival,
    start + burst <= completion <= endTime, response = start - arrival,
    turnaround = completion - arrival and waiting = turnaround - burst
    (hence >= 0). *)
Lemma round_robin_results (ps : list Process) (q : jsnum) :
  gt0 q = true -> validSet ps ->
  returnsWith (fun fuel => roundRobin fuel ps q) (allServed ps).
Proof.
  intros Hq Hv. destruct (valid_min ps Hv) as [t0 Hmin].
  exists (S (rrMeasure q (length ps) (rrInit ps t0))). intros fuel Hle.
  destruct (roundRobin_returns ps q t0 fuel Hq Hv Hmin) as [st [Hst [Hrr [_ [Hfin _]]]]];
    [lia|].
  exists (mkSim (rr_blocks st) (rr_res st) (Fin (rr_time st))). split; [assumption|].
  destruct (while_returned_reaches _ _ _ _ _ Hst) as [s [Hreach Hs]].
  assert (Hboth : RRInv ps t0 s /\ RRServed ps s).
  { refine (reaches_inv _ _ _ (fun s => RRInv ps t0 s /\ RRServed ps s) _ _ _ s Hreach).
    - split; [apply rrInit_inv; assumption|apply rrInit_served].
    - intros s1 [Hi1 Hs1] _. pose proof (rr_step ps q t0 Hq Hv s1 Hi1) as Hstep.
      destruct (rrBody ps q s1) as [s2| |] eqn:Hb; try exact I.
      split; [tauto|]. exact (rr_served_step ps q t0 Hq Hv s1 s2 Hi1 Hs1 Hb). }
  assert (Hsame : st = s).
  { destruct Hs as [[_ E]|[_ Hbreak]]; [assumption|].
    destruct Hboth as [Hi1 _]. unfold rrBody in Hbreak.
    destruct (rr_queue s) as [|i queue0] eqn:Hqueue.
    - destruct (findNotArrived (rr_arrived s) 0 ps) as [k|].
      + destruct (nth_error ps k); [|discriminate].
        destruct (pushArrived _ 0 ps [] (rr_arrived s)); discriminate.
      + congruence.
    - destruct (nth_error ps i) as [p|]; [|discriminate].
      destruct (pushArrived _ 0 ps queue0 (rr_arrived s)).
      destruct (Qltb 0 _); [discriminate|].
      destruct (mapGet (pid p) _); discriminate. }
  subst s. destruct Hboth as [_ Hserved]. destruct Hfin as [Hempty Hall].
  assert (Hevery : forall p, In p ps ->
            exists r, mapGet (pid p) (rr_res st) = Some r /\ served p r /\
                      r_completion r <= rr_time st).
  { intros p Hp. apply In_nth_error in Hp. destruct Hp as [i Hi].
    apply (rrs_done Hserved i Hi).
    - apply Hall. eapply nth_error_lt. eassumption.
    - rewrite Hempty. intros []. }
  split; cbn [results endTime].
  - apply keys_perm; [apply (rrs_keys Hserved)|apply Hv|].
    intros p Hp. destruct (Hevery p Hp) as [r [Hr _]]. eauto.
  - intros p Hp. destruct (Hevery p Hp) as [r [Hr [Hsv Hc]]].
    exists r. split; [assumption|]. split; [assumption|].
    eexists. split; [reflexivity|assumption].
Qed.

(** X12.  Round Robin in double arithmetic, with a quantum > 0 that is a
    whole number or [Infinity], on a valid list of whole-number arrivals and
    bursts (horizon at most [2^53]), returns a result whose map has exactly
    the pids of the list as keys; every entry has arrival, burst and priority
    copied from the input, start >= arrival,
    start + burst <= completion <= endTime, response = start - arrival,
    turnaround = completion - arrival and waiting = turnaround - burst
    (hence >= 0). *)
Theorem X12_round_robin_results (ps : list Process) (q : jsnum) :
  gt0 q = true -> exactQuantum q -> validSet ps -> exactSet ps ->
  returnsWith (fun fuel => roundRobin64 fuel ps q) (allServed ps).
Proof.
  intros Hq Hx Hv He.
  apply (returnsWith_ext (fun fuel => roundRobin fuel ps q));
    [intros fuel; apply roundRobin64_exact_valid; assumption|].
  apply round_robin_results; assumption.
Qed.

Lemma X12_round_robin_results_witness :
  gt0 (Fin 2) = true /\ exactQuantum (Fin 2) /\ validSet sampleSet /\
  exactSet sampleSet /\
  returnsWith (fun fuel => roundRobin64 fuel sampleSet (Fin 2)) (allServed sampleSet).
Proof.
  split; [reflexivity|]. split; [reflexivity|]. split; [exact sampleSet_valid|].
  split; [exact sampleSet_exact|].
  exact (X12_round_robin_results sampleSet (Fin 2) eq_refl eq_refl sampleSet_valid
           sampleSet_exact).
Defined.

(** ** SRTF: what one tick does to the bookkeeping *)


Section SrtfService.
Variable localeCompare : string -> string -> Z.
Variable ps : list Process.
Variable t0 : Q.
Hypothesis Hnd : NoDup (map pid ps).

Lemma srtfInit_served : SrtfServed ps (srtfInit ps t0).
Proof.
  unfold srtfInit. constructor; cbn [s_started s_rem s_res s_done s_time].
  - apply length_map.
  - intros i p Hp _. rewrite (nth_burst ps i p Hp). reflexivity.
  - intros i p _ H. exfalso. revert H. clear. revert i.
    induction ps as [|a l IH]; intros [|i]; simpl; try discriminate. apply IH.
  - intros i p _ [].
  - apply keysOk_empty.
Qed.

Lemma srtf_served_step (st st' : SrtfState) :
  SrtfInv ps t0 st -> SrtfServed ps st ->
  srtfBody localeCompare ps st = Next st' -> SrtfServed ps st'.
Proof.
  intros Hinv [Hlen Hfresh Hstarted Hdone Hkeys] Hbody.
  destruct (srtfBody_data localeCompare ps st st' Hbody) as [Ht Hdata].
  destruct (fst (pick localeCompare ps (s_rem st) (s_done st) (s_time st) 0 ps
                   None PInf)) as [best|].
  - destruct Hdata as [p [Hp [Hnotdone [Hpos [Harr [Hrem [Hst [res1 [Hres1 Hfin]]]]]]]]].
    assert (Hlt : (best < length ps)%nat) by (eapply nth_error_lt; eassumption).
    assert (Hsame : nth best (s_rem st') 0 = nth best (s_rem st) 0 - 1).
    { rewrite Hrem. apply nth_setNth_same. rewrite (si_rem_len Hinv). assumption. }
    assert (Hother : forall j pj, nth_error ps j = Some pj -> j <> best ->
              nth j (s_started st') false = nth j (s_started st) false /\
              nth j (s_rem st') 0 = nth j (s_rem st) 0 /\
              mapGet (pid pj) res1 = mapGet (pid pj) (s_res st) /\
              pid p <> pid pj).
    { intros j pj Hpj Hne.
      assert (Hpid : pid p <> pid pj).
      { intro E. apply Hne. symmetry. exact (pid_injective ps best j p pj Hnd Hp Hpj E). }
      split; [|split; [|split; [|assumption]]].
      - rewrite Hst. destruct (negb (nth best (s_started st) false)); [|reflexivity].
        apply nth_setNth_other. auto.
      - rewrite Hrem. apply nth_setNth_other. auto.
      - rewrite Hres1. destruct (negb (nth best (s_started st) false)); [|reflexivity].
        rewrite mapGet_mapSet. destruct (String.eqb_spec (pid p) (pid pj)); [contradiction|].
        reflexivity. }
    assert (Hmine : nth best (s_started st') false = true /\
              exists r, mapGet (pid p) res1 = Some r /\ begun p (r_start r) r /\
                        r_start r + (burst p - nth best (s_rem st') 0) <= s_time st + 1).
    { rewrite Hsame, Hst, Hres1.
      destruct (nth best (s_started st) false) eqn:E; simpl.
      - split; [assumption|]. destruct (Hstarted best p Hp E) as [r [Hr [Hb Hle]]].
        exists r. split; [assumption|]. split; [assumption|]. lra.
      - split; [apply nth_setNth_same; rewrite Hlen; assumption|].
        pose proof (Hfresh best p Hp E) as Hb.
        eexists. split; [rewrite mapGet_mapSet, String.eqb_refl; reflexivity|].
        unfold begun. cbn [r_start r_arrival r_burst r_priority r_response].
        split; [|lra]. repeat split; try reflexivity. assumption. }
    destruct Hmine as [Hst1 [r [Hr [Hbegun Hle]]]].
    assert (Hlen' : length (s_started st') = length ps).
    { rewrite Hst. destruct (negb (nth best (s_started st) false)); [|assumption].
      rewrite length_setNth. assumption. }
    assert (Hfresh' : forall j pj, nth_error ps j = Some pj ->
              nth j (s_started st') false = false -> nth j (s_rem st') 0 == burst pj).
    { intros j pj Hpj Hn. destruct (Nat.eq_dec j best) as [->|Hne]; [congruence|].
      destruct (Hother j pj Hpj Hne) as [E1 [E2 _]]. rewrite E2.
      apply (Hfresh j pj Hpj). congruence. }
    assert (Hkeys1 : keysOk ps res1).
    { rewrite Hres1. destruct (negb (nth best (s_started st) false)); [|assumption].
      apply keysOk_set; [assumption|]. eapply nth_error_In; eassumption. }
    destruct (Qeq_bool (nth best (s_rem st') 0) 0) eqn:Hz; qprop.
    + destruct Hfin as [r0 [Hr0 [Hres' Hdone']]].
      assert (r0 = r) by congruence. subst r0.
      rewrite add_fresh in Hdone' by assumption.
      constructor; try assumption.
      * intros j pj Hpj Hs. rewrite Ht, Hres', mapGet_mapSet.
        destruct (Nat.eq_dec j best) as [->|Hne].
        -- assert (pj = p) by congruence. subst pj. rewrite String.eqb_refl.
           eexists. split; [reflexivity|].
           destruct Hbegun as [B1 [B2 [B3 [B4 [B5 B6]]]]]. unfold begun.
           cbn [r_start r_arrival r_burst r_priority r_response]. auto 10.
        -- destruct (Hother j pj Hpj Hne) as [E1 [E2 [E3 Hpid]]].
           destruct (String.eqb_spec (pid p) (pid pj)); [contradiction|].
           rewrite E1 in Hs. destruct (Hstarted j pj Hpj Hs) as [r' [Hr' [Hb' Hle']]].
           exists r'. rewrite E2, E3. split; [assumption|]. split; [assumption|]. lra.
      * intros j pj Hpj Hj. rewrite Ht, Hres', mapGet_mapSet. rewrite Hdone' in Hj.
        destruct (Nat.eq_dec j best) as [->|Hne].
        -- assert (pj = p) by congruence. subst pj. rewrite String.eqb_refl.
           eexists. split; [reflexivity|]. cbn [r_completion].
           split; [|apply Qle_refl].
           destruct Hbegun as [B1 [B2 [B3 [B4 [B5 B6]]]]]. unfold served.
           cbn [r_start r_completion r_tat r_wt r_response r_arrival r_burst r_priority].
           repeat split; try assumption; try reflexivity. lra.
        -- apply in_app_or in Hj. destruct Hj as [Hj|[E|[]]]; [|congruence].
           destruct (Hother j pj Hpj Hne) as [_ [_ [E3 Hpid]]].
           destruct (String.eqb_spec (pid p) (pid pj)); [contradiction|].
           destruct (Hdone j pj Hpj Hj) as [r' [Hr' [Hsv Hc]]].
           exists r'. rewrite E3. split; [assumption|]. split; [assumption|]. lra.
      * rewrite Hres'. apply keysOk_set; [assumption|]. eapply nth_error_In; eassumption.
    + destruct Hfin as [Hres' Hdone'].
      constructor; try assumption.
      * intros j pj Hpj Hs. rewrite Ht, Hres'.
        destruct (Nat.eq_dec j best) as [->|Hne].
        -- assert (pj = p) by congruence. subst pj. eauto.
        -- destruct (Hother j pj Hpj Hne) as [E1 [E2 [E3 Hpid]]].
           rewrite E1 in Hs. destruct (Hstarted j pj Hpj Hs) as [r' [Hr' [Hb' Hle']]].
           exists r'. rewrite E2, E3. split; [assumption|]. split; [assumption|]. lra.
      * intros j pj Hpj Hj. rewrite Ht, Hres'. rewrite Hdone' in Hj.
        assert (Hne : j <> best).
        { intros ->. apply has_notIn in Hnotdone. contradiction. }
        destruct (Hother j pj Hpj Hne) as [_ [_ [E3 _]]].
        destruct (Hdone j pj Hpj Hj) as [r' [Hr' [Hsv Hc]]].
        exists r'. rewrite E3. split; [assumption|]. split; [assumption|]. lra.
      * rewrite Hres'. assumption.
  - destruct Hdata as [Hres [Hrem [Hst Hdone']]].
    constructor; rewrite ?Hres, ?Hrem, ?Hst, ?Hdone', ?Ht; try assumption.
    + intros j pj Hpj Hs. destruct (Hstarted j pj Hpj Hs) as [r' [Hr' [Hb' Hle']]].
      exists r'. split; [assumption|]. split; [assumption|]. lra.
    + intros j pj Hpj Hj. destruct (Hdone j pj Hpj Hj) as [r' [Hr' [Hsv Hc]]].
      exists r'. split; [assumption|]. split; [assumption|]. lra.
Qed.
End SrtfService.

(** Over exact arithmetic.
    SRTF on a valid list: in every result it returns (and it returns
    whenever the bursts are whole numbers) the map has exactly the pids of the
    list as keys; every entry has arrival, burst and priority copied from the
    input, start >= arrival, start + burst <= completion <= endTime,
    response = start - arrival, turnaround = completion - arrival and
    waiting = turnaround - burst (hence >= 0). *)
Lemma srtf_results (localeCompare : string -> string -> Z) (ps : list Process) :
  validSet ps ->
  (forall fuel out, srtf localeCompare fuel ps = Returned out -> allServed ps out) /\
  (wholeBursts ps ->
   returnsWith (fun fuel => srtf localeCompare fuel ps) (allServed ps)).
Proof.
  intros Hv. destruct (valid_min ps Hv) as [t0 Hmin].
  pose proof (valid_bursts ps Hv) as Hbursts.
  assert (Hnd : NoDup (map pid ps)) by apply Hv.
  assert (Hpartial : forall fuel out,
            srtf localeCompare fuel ps = Returned out -> allServed ps out).
  { intros fuel out. unfold srtf. rewrite Hmin.
    destruct (while _ _ fuel _) as [st| |] eqn:Hw; try discriminate.
    intros [= <-].
    destruct (while_returned_reaches _ _ _ _ _ Hw) as [s [Hreach Hs]].
    assert (Hboth : SrtfInv ps t0 s /\ SrtfServed ps s).
    { refine (reaches_inv _ _ _ (fun s => SrtfInv ps t0 s /\ SrtfServed ps s)
                _ _ _ s Hreach).
      - split; [apply srtfInit_inv; assumption|apply srtfInit_served].
      - intros s1 [Hi1 Hs1] Hc.
        pose proof (srtf_step localeCompare ps t0 s1 Hi1 Hc) as Hstep.
        destruct (srtfBody localeCompare ps s1) as [s2| |] eqn:Hb; try exact I.
        split; [tauto|].
        exact (srtf_served_step localeCompare ps t0 Hnd s1 s2 Hi1 Hs1 Hb). }
    destruct Hboth as [Hinv Hserved].
    destruct Hs as [[Hcond ->]|[Hcond Hbreak]].
    2:{ pose proof (srtf_step localeCompare ps t0 s Hinv Hcond) as Hstep.
        rewrite Hbreak in Hstep. contradiction. }
    unfold srtfCond in Hcond. apply Nat.ltb_ge in Hcond.
    assert (Hevery : forall p, In p ps ->
              exists r, mapGet (pid p) (s_res s) = Some r /\ served p r /\
                        r_completion r <= s_time s).
    { intros p Hp. apply In_nth_error in Hp. destruct Hp as [i Hi].
      apply (ss_done Hserved i Hi).
      apply (goodSet_full _ _ (si_done Hinv) Hcond). eapply nth_error_lt. eassumption. }
    unfold srtfFinish. split; cbn [results endTime].
    - apply keys_perm; [apply (ss_keys Hserved)|assumption|].
      intros p Hp. destruct (Hevery p Hp) as [r [Hr _]]. eauto.
    - intros p Hp. destruct (Hevery p Hp) as [r [Hr [Hsv Hc]]].
      exists r. split; [assumption|]. split; [assumption|].
      eexists. split; [reflexivity|assumption]. }
  split; [exact Hpartial|]. intros Hw.
  destruct (srtf_returnsWith localeCompare ps t0 Hv Hmin Hw) as [fuel0 Hret].
  exists fuel0. intros fuel Hle. destruct (Hret fuel Hle) as [out [Hout _]].
  exists out. split; [assumption|]. exact (Hpartial fuel out Hout).
Qed.

(** X13.  SRTF in double arithmetic on a valid list of whole-number
    arrivals and bursts (horizon at most [2^53]) returns a result whose map
    has exactly the pids of the list as keys; every entry has arrival, burst
    and priority copied from the input, start >= arrival,
    start + burst <= completion <= endTime, response = start - arrival,
    turnaround = completion - arrival and waiting = turnaround - burst
    (hence >= 0). *)
Theorem X13_srtf_results (localeCompare : string -> string -> Z) (ps : list Process) :
  validSet ps -> exactSet ps ->
  returnsWith (fun fuel => srtf64 localeCompare fuel ps) (allServed ps).
Proof.
  intros Hv He.
  apply (returnsWith_ext (fun fuel => srtf localeCompare fuel ps));
    [intros fuel; apply srtf64_exact; assumption|].
  apply (proj2 (srtf_results localeCompare ps Hv)).
  apply exact_wholeBursts; assumption.
Qed.

Lemma X13_srtf_results_witness :
  validSet sampleSet /\ exactSet sampleSet /\
  returnsWith (fun fuel => srtf64 codeUnitCompare fuel sampleSet) (allServed sampleSet).
Proof.
  split; [exact sampleSet_valid|]. split; [exact sampleSet_exact|].
  exact (X13_srtf_results codeUnitCompare sampleSet sampleSet_valid sampleSet_exact).
Defined.

(** ** SRTF: what one tick does to the timeline *)

Lemma closeBlock_shape (ps : list Process) (lp : string) (s e : Q) (b : Block) :
  closeBlock ps lp s e = Some b -> exists c, b = mkBlock lp s e c.
Proof.
  unfold closeBlock. destruct (String.eqb lp IDLE).
  - intros [= <-]. eauto.
  - destruct (findPid ps lp); [|discriminate]. intros [= <-]. eauto.
Qed.

Lemma srtfBody_blocks (localeCompare : string -> string -> Z) (ps : list Process)
    (st st' : SrtfState) :
  srtfBody localeCompare ps st = Next st' ->
  (s_blocks st' = s_blocks st /\ s_lastPID st' = s_lastPID st /\
   s_blockStart st' = s_blockStart st /\ s_lastPID st <> None) \/
  (s_blocks st' = s_blocks st /\ s_lastPID st = None /\ s_lastPID st' <> None /\
   s_blockStart st' = s_time st) \/
  (exists lp lp' c,
     s_lastPID st = Some lp /\
     s_blocks st' = s_blocks st ++ [mkBlock lp (s_blockStart st) (s_time st) c] /\
     s_lastPID st' = Some lp' /\ lp' <> lp /\ s_blockStart st' = s_time st).
Proof.
  unfold srtfBody.
  destruct (fst (pick localeCompare ps (s_rem st) (s_done st) (s_time st) 0 ps
                   None PInf)) as [best|].
  - destruct (nth_error ps best) as [p|]; [|discriminate]. cbv zeta.
    destruct (s_lastPID st) as [lp|] eqn:Hlast.
    + destruct (String.eqb_spec lp (pid p)) as [E|E]; cbn [negb].
      * intros H. left.
        destruct (Qeq_bool _ 0) in H;
          [destruct (mapGet (pid p) _) in H; [|discriminate]|];
          injection H as <-; cbn [s_blocks s_lastPID s_blockStart];
          repeat split; congruence.
      * destruct (closeBlock ps lp (s_blockStart st) (s_time st)) as [b|] eqn:Hc;
          [|discriminate].
        apply closeBlock_shape in Hc. destruct Hc as [c ->].
        intros H. right. right. exists lp, (pid p), c.
        destruct (Qeq_bool _ 0) in H;
          [destruct (mapGet (pid p) _) in H; [|discriminate]|];
          injection H as <-; cbn [s_blocks s_lastPID s_blockStart];
          repeat split; congruence.
    + intros H. right. left.
      destruct (Qeq_bool _ 0) in H;
        [destruct (mapGet (pid p) _) in H; [|discriminate]|];
        injection H as <-; cbn [s_blocks s_lastPID s_blockStart];
        repeat split; congruence.
  - destruct (s_lastPID st) as [lp|] eqn:Hlast.
    + destruct (String.eqb_spec lp IDLE) as [E|E].
      * intros [= <-]. left. cbn [s_blocks s_lastPID s_blockStart].
        repeat split; congruence.
      * destruct (closeBlock ps lp (s_blockStart st) (s_time st)) as [b|] eqn:Hc;
          [|discriminate].
        apply closeBlock_shape in Hc. destruct Hc as [c ->].
        intros [= <-]. right. right. exists lp, IDLE, c.
        cbn [s_blocks s_lastPID s_blockStart]. repeat split; congruence.
    + intros [= <-]. right. left. cbn [s_blocks s_lastPID s_blockStart].
      repeat split; congruence.
Qed.

Lemma adjacent_snoc (bs : list Block) (b : Block) :
  adjacentDiffer bs ->
  (forall c, nth_error bs (length bs - 1) = Some c -> b_pid c <> b_pid b) ->
  adjacentDiffer (bs ++ [b]).
Proof.
  intros Hadj Hlast i x y Hx Hy.
  destruct (Nat.lt_ge_cases (S i) (length bs)) as [Hlt|Hge].
  - rewrite nth_error_app1 in Hx, Hy by lia. eapply Hadj; eassumption.
  - assert (Hi : (i < length bs)%nat).
    { apply nth_error_lt in Hy. rewrite length_app in Hy. simpl in Hy. lia. }
    rewrite nth_error_app1 in Hx by lia. rewrite nth_error_app2 in Hy by lia.
    replace (S i - length bs)%nat with 0%nat in Hy by lia. simpl in Hy.
    injection Hy as <-. apply Hlast. replace (length bs - 1)%nat with i by lia.
    assumption.
Qed.

Lemma last_snoc (bs : list Block) (b : Block) :
  nth_error (bs ++ [b]) (length (bs ++ [b]) - 1) = Some b.
Proof.
  rewrite length_app. simpl. rewrite nth_error_app2 by lia.
  replace (length bs + 1 - 1 - length bs)%nat with 0%nat by lia. reflexivity.
Qed.

(** X14.  SRTF merges consecutive ticks of the same pid into one block: in
    every result it returns on a valid list, neighbouring blocks carry
    different pids. *)
Theorem X14_srtf_blocks_are_maximal_runs (localeCompare : string -> string -> Z)
    (ps : list Process) (fuel : nat) (out : SimulationResult) :
  validSet ps -> srtf localeCompare fuel ps = Returned out ->
  adjacentDiffer (blocks out).
Proof.
  intros Hv. destruct (valid_min ps Hv) as [t0 Hmin].
  pose proof (valid_bursts ps Hv) as Hbursts.
  unfold srtf. rewrite Hmin.
  destruct (while _ _ fuel _) as [st| |] eqn:Hw; try discriminate.
  intros [= <-].
  destruct (while_returned_reaches _ _ _ _ _ Hw) as [s [Hreach Hs]].
  assert (Hboth : SrtfInv ps t0 s /\ adjacentDiffer (s_blocks s) /\
            forall lp c, s_lastPID s = Some lp ->
              nth_error (s_blocks s) (length (s_blocks s) - 1) = Some c ->
              b_pid c <> lp).
  { refine (reaches_inv _ _ _
              (fun s => SrtfInv ps t0 s /\ adjacentDiffer (s_blocks s) /\
                 forall lp c, s_lastPID s = Some lp ->
                   nth_error (s_blocks s) (length (s_blocks s) - 1) = Some c ->
                   b_pid c <> lp) _ _ _ s Hreach).
    - split; [apply srtfInit_inv; assumption|]. simpl. split.
      + intros i b c Hb. destruct i; discriminate.
      + intros lp c H. discriminate.
    - intros s1 [Hi1 [Hadj Hlast]] Hc.
      pose proof (srtf_step localeCompare ps t0 s1 Hi1 Hc) as Hstep.
      destruct (srtfBody localeCompare ps s1) as [s2| |] eqn:Hb; try exact I.
      split; [tauto|].
      destruct (srtfBody_blocks _ _ _ _ Hb)
        as [[E1 [E2 _]]|[[E1 [E2 _]]|[lp [lp' [c [E1 [E2 [E3 [Hne _]]]]]]]]].
      + rewrite E1, E2. auto.
      + rewrite E1. split; [assumption|]. intros lp c _ Hc'.
        pose proof (si_open Hi1) as Hopen. rewrite E2 in Hopen.
        destruct Hopen as [Hnil _]. rewrite Hnil in Hc'. discriminate.
      + rewrite E2, E3. split.
        * apply adjacent_snoc; [assumption|]. intros c0 Hc0. cbn [b_pid]. eauto.
        * intros lp0 c0 [= <-]. rewrite last_snoc. intros [= <-]. cbn [b_pid]. auto. }
  destruct Hboth as [Hinv [Hadj Hlast]].
  assert (Hst : st = s).
  { destruct Hs as [[_ E]|[Hcond Hbreak]]; [assumption|].
    pose proof (srtf_step localeCompare ps t0 s Hinv Hcond) as Hstep.
    rewrite Hbreak in Hstep. contradiction. }
  subst s. unfold srtfFinish. cbn [blocks].
  destruct (s_lastPID st) as [lp|] eqn:Hlp.
  - pose proof (si_open Hinv) as Hopen. rewrite Hlp in Hopen. destruct Hopen as [Hopen _].
    destruct (lastBlock_shape ps lp (s_blockStart st) (s_time st)) as [c ->].
    assert (Hch : chain t0 (s_blocks st ++ [mkBlock lp (s_blockStart st) (s_time st) c])
                    (s_time st)) by (apply chain_snoc; [apply (si_chain Hinv)|assumption]).
    rewrite (chain_filter _ _ _ Hch).
    apply adjacent_snoc; [assumption|]. intros c0 Hc0. cbn [b_pid]. eauto.
  - rewrite (chain_filter _ _ _ (si_chain Hinv)). assumption.
Qed.

Lemma X14_srtf_blocks_are_maximal_runs_witness :
  validSet srtfTie /\
  exists out, srtf codeUnitCompare 5 srtfTie = Returned out /\
              adjacentDiffer (blocks out).
Proof.
  assert (Hv : validSet srtfTie) by concrete_valid.
  split; [exact Hv|]. eexists. split; [vm_compute; reflexivity|].
  apply (X14_srtf_blocks_are_maximal_runs codeUnitCompare srtfTie 5 _ Hv).
  vm_compute. reflexivity.
Defined.

Lemma onTick_next (t0 x : Q) : onTick t0 x -> onTick t0 (x + 1).
Proof.
  intros [k Hk]. exists (S k). rewrite Nat2Z.inj_succ. unfold Z.succ.
  rewrite inject_Z_plus. change (inject_Z 1) with 1. lra.
Qed.

Lemma srtfBody_no_break (localeCompare : string -> string -> Z) (ps : list Process)
    (st st' : SrtfState) :
  srtfBody localeCompare ps st <> Break st'.
Proof.
  unfold srtfBody.
  destruct (fst (pick localeCompare ps (s_rem st) (s_done st) (s_time st) 0 ps
                   None PInf)) as [best|].
  - destruct (nth_error ps best) as [p|]; [|discriminate]. cbv zeta.
    match goal with
    | |- (match ?X with Some _ => _ | None => _ end) <> _ =>
        destruct X as [blocks1|]; [|discriminate]
    end.
    destruct (Qeq_bool _ 0); [|discriminate].
    destruct (mapGet (pid p) _); discriminate.
  - destruct (s_lastPID st) as [lp|]; [|discriminate].
    destruct (String.eqb lp IDLE); [discriminate|].
    destruct (closeBlock ps lp (s_blockStart st) (s_time st)); discriminate.
Qed.

(** Over exact arithmetic.
    SRTF's clock moves in unit ticks from the earliest arrival: in
    every result it returns, each block starts and ends a whole number of
    time units after [min(arrival)], and so does [endTime]. *)
Lemma srtf_unit_ticks (localeCompare : string -> string -> Z)
    (ps : list Process) (t0 : Q) (fuel : nat) (out : SimulationResult) :
  mathMin (map arrival ps) = Fin t0 ->
  srtf localeCompare fuel ps = Returned out ->
  (forall b, In b (blocks out) -> onTick t0 (b_start b) /\ onTick t0 (b_end b)) /\
  exists tend, endTime out = Fin tend /\ onTick t0 tend.
Proof.
  intros Hmin. unfold srtf. rewrite Hmin.
  destruct (while _ _ fuel _) as [st| |] eqn:Hw; try discriminate.
  intros [= <-].
  destruct (while_returned_reaches _ _ _ _ _ Hw) as [s [Hreach Hs]].
  assert (Hst : st = s).
  { destruct Hs as [[_ E]|[_ Hbreak]]; [assumption|].
    exfalso. exact (srtfBody_no_break _ _ _ _ Hbreak). }
  subst s. clear Hs Hw.
  assert (Hinv : onTick t0 (s_time st) /\ onTick t0 (s_blockStart st) /\
            forall b, In b (s_blocks st) -> onTick t0 (b_start b) /\ onTick t0 (b_end b)).
  { refine (reaches_inv _ _ _
              (fun s => onTick t0 (s_time s) /\ onTick t0 (s_blockStart s) /\
                 forall b, In b (s_blocks s) ->
                           onTick t0 (b_start b) /\ onTick t0 (b_end b))
              _ _ _ st Hreach).
    - assert (H0 : onTick t0 t0) by (exists 0%nat; simpl; change (inject_Z 0) with 0; lra).
      simpl. split; [assumption|]. split; [assumption|]. intros b [].
    - intros s1 [Ht [Hbs Hbl]] _.
      destruct (srtfBody localeCompare ps s1) as [s2| |] eqn:Hb; try exact I.
      destruct (srtfBody_data _ _ _ _ Hb) as [Htime _].
      split; [rewrite Htime; apply onTick_next; assumption|].
      destruct (srtfBody_blocks _ _ _ _ Hb)
        as [[E1 [_ [E3 _]]]|[[E1 [_ [_ E3]]]|[lp [lp' [c [_ [E2 [_ [_ E3]]]]]]]]];
        rewrite E3.
      + rewrite E1. auto.
      + rewrite E1. auto.
      + split; [assumption|]. rewrite E2. intros b Hin.
        apply in_app_or in Hin. destruct Hin as [Hin|[<-|[]]]; [auto|].
        cbn [b_start b_end]. auto. }
  destruct Hinv as [Ht [Hbs Hbl]]. unfold srtfFinish. cbn [blocks endTime].
  split; [|eauto]. intros b Hb. apply filter_In in Hb. destruct Hb as [Hb _].
  destruct (s_lastPID st) as [lp|]; [|auto].
  apply in_app_or in Hb. destruct Hb as [Hb|[<-|[]]]; [auto|].
  destruct (lastBlock_shape ps lp (s_blockStart st) (s_time st)) as [c ->].
  cbn [b_start b_end]. auto.
Qed.

(** X15.  On a valid list of whole-number arrivals and bursts (horizon at
    most [2^53]) SRTF's clock, in double arithmetic, moves in unit ticks from
    the earliest arrival: in every result it returns, each block starts and
    ends a whole number of time units after [min(arrival)], and so does
    [endTime]. *)
Theorem X15_srtf_unit_ticks (localeCompare : string -> string -> Z)
    (ps : list Process) (t0 : Q) (fuel : nat) (out : SimulationResult) :
  validSet ps -> exactSet ps ->
  mathMin (map arrival ps) = Fin t0 ->
  srtf64 localeCompare fuel ps = Returned out ->
  (forall b, In b (blocks out) -> onTick t0 (b_start b) /\ onTick t0 (b_end b)) /\
  exists tend, endTime out = Fin tend /\ onTick t0 tend.
Proof.
  intros Hv He Hmin Hr. rewrite (srtf64_exact localeCompare ps fuel Hv He) in Hr.
  exact (srtf_unit_ticks localeCompare ps t0 fuel out Hmin Hr).
Qed.

Lemma srtfTie_valid : validSet srtfTie.
Proof. concrete_valid. Qed.

Lemma srtfTie_exact : exactSet srtfTie.
Proof. split; [repeat constructor|vm_compute; discriminate]. Qed.

Lemma X15_srtf_unit_ticks_witness :
  validSet srtfTie /\ exactSet srtfTie /\
  mathMin (map arrival srtfTie) = Fin 0 /\
  exists out, srtf64 codeUnitCompare 5 srtfTie = Returned out /\
    (forall b, In b (blocks out) -> onTick 0 (b_start b) /\ onTick 0 (b_end b)) /\
    exists tend, endTime out = Fin tend /\ onTick 0 tend.
Proof.
  assert (Hmin : mathMin (map arrival srtfTie) = Fin 0) by (vm_compute; reflexivity).
  split; [exact srtfTie_valid|]. split; [exact srtfTie_exact|].
  split; [exact Hmin|]. eexists. split; [vm_compute; reflexivity|].
  apply (X15_srtf_unit_ticks codeUnitCompare srtfTie 0 5 _ srtfTie_valid srtfTie_exact
           Hmin).
  vm_compute. reflexivity.
Defined.

(** ** The ruler of the Gantt chart *)

Lemma existsb_hasNum (l : list Q) (y : Q) :
  existsb (Qeq_bool y) l = true <-> hasNum l y.
Proof.
  unfold hasNum. rewrite existsb_exists. split; intros [x [Hx E]]; exists x.
  - apply Qeq_bool_iff in E. split; [assumption|]. symmetry. assumption.
  - split; [assumption|]. apply Qeq_bool_iff. symmetry. apply E.
Qed.

Lemma countNum_zero (l : list Q) (y : Q) : ~ hasNum l y -> countNum y l = 0%nat.
Proof.
  unfold countNum. induction l as [|x r IH]; intros Hn; simpl; [reflexivity|].
  destruct (Qeq_bool y x) eqn:E.
  - exfalso. apply Hn. exists x. split; [now left|]. apply Qeq_bool_iff in E.
    symmetry. assumption.
  - apply IH. intros [z [Hz Ez]]. apply Hn. exists z. split; [now right|assumption].
Qed.

Lemma countNum_app (y : Q) (a b : list Q) :
  countNum y (a ++ b) = (countNum y a + countNum y b)%nat.
Proof. unfold countNum. rewrite filter_app, length_app. reflexivity. Qed.

Lemma countNum_perm (y : Q) (a b : list Q) :
  Permutation a b -> countNum y a = countNum y b.
Proof.
  unfold countNum. induction 1 as [|x l l' H IH|x z l|l l' l'' H1 IH1 H2 IH2]; simpl.
  - reflexivity.
  - destruct (Qeq_bool y x); simpl; congruence.
  - destruct (Qeq_bool y x), (Qeq_bool y z); reflexivity.
  - congruence.
Qed.

Lemma hasNum_perm (y : Q) (a b : list Q) : Permutation a b -> hasNum a y -> hasNum b y.
Proof.
  intros Hp [x [Hx E]]. exists x. split; [|assumption]. eapply Permutation_in; eassumption.
Qed.

Lemma addNum_has (pts : list Q) (x y : Q) :
  hasNum (addNum pts x) y <-> hasNum pts y \/ y == x.
Proof.
  unfold addNum. destruct (existsb (Qeq_bool x) pts) eqn:E.
  - apply existsb_hasNum in E. split; [auto|]. intros [H|H]; [assumption|].
    destruct E as [z [Hz Ez]]. exists z. split; [assumption|].
    rewrite Ez. symmetry. assumption.
  - split.
    + intros [z [Hz Ez]]. apply in_app_or in Hz. destruct Hz as [Hz|[<-|[]]].
      * left. exists z. auto.
      * right. symmetry. assumption.
    + intros [[z [Hz Ez]]|H].
      * exists z. split; [apply in_or_app; now left|assumption].
      * exists x. split; [apply in_or_app; right; now left|]. symmetry. assumption.
Qed.

Lemma addNum_distinct (pts : list Q) (x : Q) :
  (forall y, (countNum y pts <= 1)%nat) ->
  forall y, (countNum y (addNum pts x) <= 1)%nat.
Proof.
  intros Hd y. unfold addNum. destruct (existsb (Qeq_bool x) pts) eqn:E; [apply Hd|].
  rewrite countNum_app. unfold countNum at 2. simpl.
  destruct (Qeq_bool y x) eqn:Eyx; simpl; [|specialize (Hd y); lia].
  rewrite countNum_zero; [lia|]. intros [z [Hz Ez]].
  assert (Hx : existsb (Qeq_bool x) pts = true); [|congruence].
  apply existsb_hasNum. exists z. split; [assumption|].
  apply Qeq_bool_iff in Eyx. rewrite Ez. assumption.
Qed.

Lemma points_spec (blocks : list Block) :
  forall pts,
  (forall y, (countNum y pts <= 1)%nat) ->
  let pts' := fold_left (fun pts b => addNum (addNum pts (b_start b)) (b_end b))
                blocks pts in
  (forall y, (countNum y pts' <= 1)%nat) /\
  forall y, hasNum pts' y <->
    hasNum pts y \/ exists b, In b blocks /\ (y == b_start b \/ y == b_end b).
Proof.
  induction blocks as [|b r IH]; intros pts Hd; simpl.
  - split; [assumption|]. intros y. split; [auto|]. intros [H|[b [[] _]]]. assumption.
  - destruct (IH (addNum (addNum pts (b_start b)) (b_end b))) as [Hd' Hin].
    { apply addNum_distinct, addNum_distinct. assumption. }
    split; [assumption|]. intros y. rewrite Hin, !addNum_has. split.
    + intros [[[H|H]|H]|[c [Hc H]]]; eauto 6.
    + intros [H|[c [[<-|Hc] H]]]; [tauto| |eauto]. destruct H; tauto.
Qed.

Lemma sorted_strict (l : list Q) :
  StronglySorted Qle l -> (forall y, (countNum y l <= 1)%nat) -> StronglySorted Qlt l.
Proof.
  induction 1 as [|a r Hr IH Ha]; intros Hd; constructor.
  - apply IH. intros y. specialize (Hd y). unfold countNum in *. simpl in Hd.
    destruct (Qeq_bool y a); simpl in Hd; lia.
  - rewrite Forall_forall in *. intros y Hy. specialize (Ha y Hy).
    destruct (Qlt_le_dec a y) as [Hlt|Hge]; [assumption|]. exfalso.
    specialize (Hd a). unfold countNum in Hd. simpl in Hd.
    assert (E1 : Qeq_bool a a = true) by (apply Qeq_bool_iff; reflexivity).
    rewrite E1 in Hd. simpl in Hd.
    assert (Hc : countNum a r = 0%nat) by (unfold countNum; lia).
    assert (Hin : hasNum r a) by (exists y; split; [assumption|lra]).
    apply existsb_hasNum in Hin. clear - Hin Hc. unfold countNum in Hc.
    induction r as [|x r IH]; simpl in *; [discriminate|].
    destruct (Qeq_bool a x); simpl in *; [discriminate|auto].
Qed.

Lemma ticks_sorted (l : list Q) : StronglySorted Qle (sortBy (fun a b => a - b) l).
Proof.
  apply (sortBy_sorted Q (fun a b => a - b) Qle).
  - intros a b c. apply Qle_trans.
  - intros x y H. lra.
  - intros x y H. lra.
Qed.

Lemma ticksFromBlocks_members (blocks : list Block) :
  StronglySorted Qle (ticks (ticksFromBlocks blocks)) /\
  (forall y, (countNum y (ticks (ticksFromBlocks blocks)) <= 1)%nat) /\
  forall y, hasNum (ticks (ticksFromBlocks blocks)) y <->
    y == 0 \/ exists b, In b blocks /\ (y == b_start b \/ y == b_end b).
Proof.
  unfold ticksFromBlocks. cbv zeta. cbn [ticks].
  destruct (points_spec blocks [0]) as [Hd Hin].
  { intros y. unfold countNum. simpl. destruct (Qeq_bool y 0); simpl; lia. }
  cbv zeta in Hd, Hin.
  set (pts := fold_left (fun pts b => addNum (addNum pts (b_start b)) (b_end b))
                blocks [0]) in *.
  pose proof (sortBy_perm (fun a b => a - b) pts) as Hperm.
  split; [apply ticks_sorted|]. split.
  - intros y. rewrite <- (countNum_perm y _ _ Hperm). apply Hd.
  - intros y. transitivity (hasNum pts y).
    + split; apply hasNum_perm; [symmetry|]; assumption.
    + rewrite Hin. split.
      * intros [[x [[<-|[]] E]]|H]; [left; symmetry; assumption|tauto].
      * intros [H|H]; [|tauto]. left. exists 0. split; [now left|].
        symmetry. assumption.
Qed.

(** X16.  The ticks [ticksFromBlocks] returns are in strictly increasing
    order; they are 0 and the start and end of every block, each once and
    nothing else; [origin] is the smallest of them, so never above 0. *)
Theorem X16_ticks_from_blocks (blocks : list Block) :
  StronglySorted Qlt (ticks (ticksFromBlocks blocks)) /\
  (forall y, hasNum (ticks (ticksFromBlocks blocks)) y <->
     y == 0 \/ exists b, In b blocks /\ (y == b_start b \/ y == b_end b)) /\
  exists m, origin (ticksFromBlocks blocks) = Fin m /\ m <= 0 /\
            hasNum (ticks (ticksFromBlocks blocks)) m /\
            forall y, hasNum (ticks (ticksFromBlocks blocks)) y -> m <= y.
Proof.
  destruct (ticksFromBlocks_members blocks) as [Hsorted [Hd Hin]].
  split; [apply sorted_strict; assumption|]. split; [assumption|].
  assert (H0 : hasNum (ticks (ticksFromBlocks blocks)) 0)
    by (apply Hin; left; reflexivity).
  change (origin (ticksFromBlocks blocks))
    with (mathMin (ticks (ticksFromBlocks blocks))).
  destruct (mathMin_nonempty (ticks (ticksFromBlocks blocks))) as [m Hm].
  { intro Hnil. rewrite Hnil in H0. destruct H0 as [x [[] _]]. }
  exists m. split; [assumption|]. apply mathMin_fin in Hm. destruct Hm as [Hmin Hle].
  rewrite Forall_forall in Hle.
  assert (Hbelow : forall y, hasNum (ticks (ticksFromBlocks blocks)) y -> m <= y).
  { intros y [x [Hx E]]. rewrite <- E. auto. }
  split; [auto|]. split; [|assumption].
  exists m. split; [assumption|reflexivity].
Qed.

Lemma tiles_chain (bs : list Block) :
  forall t0 tend, tiles t0 bs tend -> chain t0 bs tend.
Proof.
  induction bs as [|b r IH]; intros t0 tend [[x [Hx Hs]] [Hpos [Hadj [y [Hy He]]]]].
  - discriminate.
  - simpl in Hx. injection Hx as <-. simpl. split; [assumption|].
    split; [apply Hpos; now left|].
    destruct r as [|c r'].
    + simpl in Hy. injection Hy as <-. simpl. assumption.
    + apply IH. split; [|split; [|split]].
      * exists c. split; [reflexivity|]. symmetry. apply (Hadj 0%nat b c); reflexivity.
      * intros z Hz. apply Hpos. now right.
      * intros i u v Hu Hv. apply (Hadj (S i) u v); assumption.
      * exists y. split; [|assumption]. simpl in Hy. simpl.
        rewrite Nat.sub_0_r in *. assumption.
Qed.

Lemma last_cons (l : list Q) : forall t d, last (t :: l) d = last l t.
Proof.
  induction l as [|x r IH]; intros t d; [reflexivity|].
  change (last (t :: x :: r) d) with (last (x :: r) d). rewrite (IH x d), (IH x t).
  reflexivity.
Qed.

Lemma last_member (l : list Q) : forall a, In (last l a) (a :: l).
Proof.
  induction l as [|x r IH]; intros a; [now left|].
  rewrite last_cons. right. apply IH.
Qed.


Lemma tickDivs_total (scale : Q) (l : list Q) :
  forall prev, total (map td_width (tickDivs scale prev l)) == (last l prev - prev) * scale.
Proof.
  induction l as [|t r IH]; intros prev.
  - unfold total. simpl. lra.
  - rewrite last_cons. cbn [tickDivs map td_width]. unfold total in *. simpl.
    rewrite IH. lra.
Qed.

Lemma blockDivs_total (scale : Q) (bs : list Block) :
  forall t0 tend, chain t0 bs tend ->
  total (map bd_width (fst (renderGantt bs scale))) == (tend - t0) * scale.
Proof.
  unfold renderGantt. cbn [fst]. unfold total.
  induction bs as [|b r IH]; intros t0 tend; simpl.
  - intros ->. lra.
  - intros [<- [_ Hr]]. rewrite (IH _ _ Hr). lra.
Qed.

Lemma sorted_bounds (l : list Q) (a : Q) :
  StronglySorted Qle (a :: l) ->
  forall y, In y (a :: l) -> a <= y /\ y <= last l a.
Proof.
  revert a. induction l as [|x r IH]; intros a Hs y Hy.
  - destruct Hy as [<-|[]]. simpl. split; apply Qle_refl.
  - inversion Hs as [|a' l' Hr Ha]; subst. rewrite Forall_forall in Ha.
    change (last (x :: r) a) with (last (x :: r) a). rewrite last_cons.
    destruct Hy as [<-|Hy].
    + split; [apply Qle_refl|]. destruct (IH x Hr x (or_introl eq_refl)) as [_ H].
      specialize (Ha x (or_introl eq_refl)). lra.
    + destruct (IH x Hr y Hy) as [H1 H2]. split; [|assumption].
      apply Ha. assumption.
Qed.

(** Over exact arithmetic.
    For a timeline that tiles [[t0, tend)] with [t0 >= 0], the blocks
    [renderGantt] draws are together [(tend - t0) * scale] wide, while the
    ticks of the ruler under them are together [tend * scale] wide: the ruler
    starts at 0, the bar at the earliest arrival. *)
Lemma ruler_starts_at_zero (blocks : list Block) (t0 tend scale : Q) :
  tiles t0 blocks tend -> 0 <= t0 ->
  total (map bd_width (fst (renderGantt blocks scale))) == (tend - t0) * scale /\
  total (map td_width (snd (renderGantt blocks scale))) == tend * scale.
Proof.
  intros Htiles Hpos. pose proof (tiles_chain blocks t0 tend Htiles) as Hch.
  split; [apply blockDivs_total; assumption|].
  destruct (ticksFromBlocks_members blocks) as [Hsorted [_ Hin]].
  unfold renderGantt. cbn [snd]. unfold buildTicks.
  assert (Hrange : forall y, hasNum (ticks (ticksFromBlocks blocks)) y ->
                             0 <= y /\ y <= tend).
  { intros y Hy. apply Hin in Hy. pose proof (chain_le _ _ _ Hch) as Hle.
    destruct Hy as [E|[b [Hb E]]]; [lra|].
    apply In_nth_error in Hb. destruct Hb as [j Hj].
    destruct (chain_within _ _ _ Hch j b Hj) as [H1 H2].
    pose proof (chain_positive _ _ _ Hch b (nth_error_In _ _ Hj)) as H3.
    destruct E as [E|E]; lra. }
  assert (Hzero : hasNum (ticks (ticksFromBlocks blocks)) 0)
    by (apply Hin; left; reflexivity).
  assert (Hend : hasNum (ticks (ticksFromBlocks blocks)) tend).
  { apply Hin. right. destruct Htiles as [_ [_ [_ [b [Hb E]]]]].
    exists b. split; [eapply nth_error_In; eassumption|]. right. rewrite E. reflexivity. }
  destruct (ticks (ticksFromBlocks blocks)) as [|a r].
  { destruct Hzero as [x [[] _]]. }
  pose proof (sorted_bounds r a Hsorted) as Hb.
  assert (Ha : a == 0).
  { destruct Hzero as [x [Hx E]]. destruct (Hb x Hx) as [H1 _].
    destruct (Hrange a) as [H2 _]; [exists a; split; [now left|reflexivity]|]. lra. }
  assert (Hl : last r a == tend).
  { destruct Hend as [x [Hx E]]. destruct (Hb x Hx) as [_ H1].
    destruct (Hrange (last r a)) as [_ H2]; [|lra].
    exists (last r a). split; [apply last_member|reflexivity]. }
  change (0 + total (map td_width (tickDivs scale a r ++ [mkTickDiv 0 (last r a)]))
          == tend * scale).
  rewrite map_app, total_app, tickDivs_total.
  change (total (map td_width [mkTickDiv 0 (last r a)])) with (0 + 0).
  assert (E : (last r a - a) * scale == (tend - 0) * scale)
    by (rewrite Hl, Ha; reflexivity).
  rewrite E. lra.
Qed.

(** ** The Gantt chart in double arithmetic *)

Lemma whole_mult (x y : Q) : whole x -> whole y -> whole (x * y).
Proof. unfold whole. destruct x, y. simpl. intros -> ->. reflexivity. Qed.

Lemma fmul_whole (x y : Q) :
  whole x -> whole y -> Qabs (x * y) <= two53 -> fmul x y = x * y.
Proof.
  intros Hx Hy Hb. unfold fmul. apply round64_exact; [|assumption].
  apply whole_mult; assumption.
Qed.

Lemma sortBy_sign_in {A : Type} (cmp cmp' : A -> A -> Q) (l : list A) :
  (forall x y, In x l -> In y l -> Qltb 0 (cmp x y) = Qltb 0 (cmp' x y)) ->
  sortBy cmp l = sortBy cmp' l.
Proof.
  induction l as [|x r IH]; intros H; simpl; [reflexivity|].
  rewrite IH by (intros a b Ha Hb; apply H; now right).
  assert (Hs : forall y, In y (sortBy cmp' r) -> Qltb 0 (cmp x y) = Qltb 0 (cmp' x y)).
  { intros y Hy. apply H; [now left|]. right.
    eapply Permutation_in; [apply Permutation_sym, sortBy_perm|eassumption]. }
  revert Hs. generalize (sortBy cmp' r). intros s.
  induction s as [|y t IHs]; intros Hs; simpl; [reflexivity|].
  rewrite (Hs y (or_introl eq_refl)), IHs; [reflexivity|].
  intros z Hz. apply Hs. now right.
Qed.

Lemma inRange_time (tend x : Q) : tend <= two53 -> inRange tend x -> wholeTime x.
Proof. intros Ht [Hw [H0 H1]]. repeat split; try assumption. lra. Qed.

Lemma width_exact (tend scale x y : Q) :
  tend <= two53 -> whole scale -> 0 <= scale -> tend * scale <= two53 ->
  inRange tend x -> inRange tend y ->
  fmul (fsub x y) scale = (x - y) * scale.
Proof.
  intros Ht Hs Hs0 Hb Hx Hy.
  rewrite (fsub_whole x y (inRange_time _ _ Ht Hx) (inRange_time _ _ Ht Hy)).
  destruct Hx as [Hx [X0 X1]], Hy as [Hy [Y0 Y1]].
  apply fmul_whole; [apply whole_minus; assumption|assumption|].
  apply Qabs_bound; nra.
Qed.

Lemma addNum_Forall (P : Q -> Prop) (pts : list Q) (x : Q) :
  Forall P pts -> P x -> Forall P (addNum pts x).
Proof.
  intros Hp Hx. unfold addNum. destruct (existsb (Qeq_bool x) pts); [assumption|].
  apply Forall_app. split; [assumption|]. constructor; [assumption|constructor].
Qed.

Lemma points_Forall (P : Q -> Prop) (blocks : list Block) :
  Forall (fun b => P (b_start b) /\ P (b_end b)) blocks ->
  forall pts, Forall P pts ->
  Forall P (fold_left (fun pts b => addNum (addNum pts (b_start b)) (b_end b))
              blocks pts).
Proof.
  induction 1 as [|b r [Hs He] Hr IH]; intros pts Hp; simpl; [assumption|].
  apply IH. apply addNum_Forall; [apply addNum_Forall|]; assumption.
Qed.

Lemma tickDivs64_exact (tend scale : Q) (l : list Q) :
  tend <= two53 -> whole scale -> 0 <= scale -> tend * scale <= two53 ->
  Forall (inRange tend) l ->
  forall prev, inRange tend prev -> tickDivs64 scale prev l = tickDivs scale prev l.
Proof.
  intros Ht Hs Hs0 Hb. induction 1 as [|t r Ht' Hr IH]; intros prev Hp; simpl;
    [reflexivity|].
  rewrite (width_exact tend scale t prev), IH by assumption. reflexivity.
Qed.

Lemma renderGantt64_exact (blocks : list Block) (tend scale : Q) :
  tend <= two53 -> whole scale -> 0 <= scale -> tend * scale <= two53 ->
  0 <= tend ->
  Forall (fun b => inRange tend (b_start b) /\ inRange tend (b_end b)) blocks ->
  renderGantt64 blocks scale = renderGantt blocks scale.
Proof.
  intros Ht Hs Hs0 Hb Hpos Hall. unfold renderGantt64, renderGantt. f_equal.
  - apply map_ext_in. intros b Hin. rewrite Forall_forall in Hall.
    destruct (Hall b Hin) as [H1 H2].
    rewrite (width_exact tend scale (b_end b) (b_start b)) by assumption.
    reflexivity.
  - assert (Hpts : Forall (inRange tend)
              (fold_left (fun pts b => addNum (addNum pts (b_start b)) (b_end b))
                 blocks [0])).
    { apply points_Forall; [assumption|]. constructor; [|constructor].
      repeat split; [apply Qle_refl|assumption]. }
    assert (E : ticksFromBlocks64 blocks = ticksFromBlocks blocks).
    { unfold ticksFromBlocks64, ticksFromBlocks. cbv zeta.
      rewrite (sortBy_sign_in (fun a b => fsub a b) (fun a b => a - b)); [reflexivity|].
      rewrite Forall_forall in Hpts. intros x y Hx Hy.
      rewrite (fsub_whole x y); [reflexivity| |];
        apply (inRange_time tend); auto. }
    rewrite E. unfold buildTicks64, buildTicks.
    assert (Hticks : Forall (inRange tend) (ticks (ticksFromBlocks blocks))).
    { unfold ticksFromBlocks. cbv zeta. cbn [ticks].
      eapply Permutation_Forall; [apply sortBy_perm|exact Hpts]. }
    destruct (ticks (ticksFromBlocks blocks)) as [|t r]; [reflexivity|].
    inversion Hticks as [|a l Ha Hl]; subst.
    rewrite (tickDivs64_exact tend scale r) by assumption. reflexivity.
Qed.

(** X17.  For a timeline that tiles [[t0, tend)] with [t0 >= 0], with
    whole-number block boundaries, and a whole-number scale > 0 with
    [tend * scale] at most [2^53], the widths [renderGantt] computes in
    double arithmetic add up to [(tend - t0) * scale] for the blocks and to
    [tend * scale] for the ticks of the ruler under them: the ruler starts
    at 0, the bar at the earliest arrival. *)
Theorem X17_ruler_starts_at_zero (blocks : list Block) (t0 tend scale : Q) :
  tiles t0 blocks tend -> 0 <= t0 ->
  Forall (fun b => whole (b_start b) /\ whole (b_end b)) blocks ->
  whole scale -> 0 < scale -> tend * scale <= two53 ->
  total (map bd_width (fst (renderGantt64 blocks scale))) == (tend - t0) * scale /\
  total (map td_width (snd (renderGantt64 blocks scale))) == tend * scale.
Proof.
  intros Htiles Hpos Hwhole Hs Hs0 Hb.
  pose proof (tiles_chain blocks t0 tend Htiles) as Hch.
  pose proof (chain_le _ _ _ Hch) as Hle.
  assert (H1 : 1 <= scale).
  { rewrite (whole_inject scale Hs) in *. change 1 with (inject_Z 1).
    change 0 with (inject_Z 0) in Hs0. rewrite <- Zlt_Qlt in Hs0.
    rewrite <- Zle_Qle. lia. }
  assert (Ht : tend <= two53) by nra.
  rewrite (renderGantt64_exact blocks tend scale); try assumption; try lra.
  - apply ruler_starts_at_zero; assumption.
  - rewrite Forall_forall in *. intros b Hin. destruct (Hwhole b Hin) as [Hw1 Hw2].
    destruct (In_nth_error _ _ Hin) as [j Hj].
    destruct (chain_within _ _ _ Hch j b Hj) as [Hb0 Hb1].
    pose proof (chain_positive _ _ _ Hch b Hin) as Hb2.
    repeat split; try assumption; lra.
Qed.

Lemma X17_ruler_starts_at_zero_witness :
  tiles 2 [mkBlock "A" 2 5 "c"] 5 /\ 0 <= 2 /\
  Forall (fun b => whole (b_start b) /\ whole (b_end b)) [mkBlock "A" 2 5 "c"] /\
  whole 40 /\ 0 < 40 /\ 5 * 40 <= two53 /\
  total (map bd_width (fst (renderGantt64 [mkBlock "A" 2 5 "c"] 40))) == (5 - 2) * 40 /\
  total (map td_width (snd (renderGantt64 [mkBlock "A" 2 5 "c"] 40))) == 5 * 40.
Proof.
  assert (Ht : tiles 2 [mkBlock "A" 2 5 "c"] 5).
  { apply chain_tiles; [discriminate|]. simpl. repeat split. }
  assert (Hp : 0 <= 2) by (unfold Qle; simpl; lia).
  assert (Hw : Forall (fun b => whole (b_start b) /\ whole (b_end b))
                 [mkBlock "A" 2 5 "c"]) by (repeat constructor).
  assert (Hs : 0 < 40) by reflexivity.
  assert (Hb : 5 * 40 <= two53) by (vm_compute; discriminate).
  split; [exact Ht|]. split; [exact Hp|]. split; [exact Hw|].
  split; [reflexivity|]. split; [exact Hs|]. split; [exact Hb|].
  exact (X17_ruler_starts_at_zero [mkBlock "A" 2 5 "c"] 2 5 40 Ht Hp Hw eq_refl Hs Hb).
Defined.

(** ** The averages *)

Lemma sumOf_perm (f : ProcResult -> Q) (m : ResMap) (k k' : list string) :
  Permutation k k' -> sumOf f m k == sumOf f m k'.
Proof.
  induction 1 as [|x l l' H IH|x y l|l l' l'' H1 IH1 H2 IH2]; simpl.
  - reflexivity.
  - rewrite IH. reflexivity.
  - lra.
  - rewrite IH1. assumption.
Qed.

Lemma sumOf_served (m : ResMap) (ps : list Process) :
  (forall p, In p ps -> exists r, mapGet (pid p) m = Some r /\ served p r) ->
  sumOf r_tat m (map pid ps) == sumOf r_completion m (map pid ps) - total (map arrival ps) /\
  sumOf r_wt m (map pid ps) == sumOf r_tat m (map pid ps) - total (map burst ps) /\
  0 <= sumOf r_wt m (map pid ps).
Proof.
  unfold total. induction ps as [|p r IH]; intros Hall; simpl.
  - repeat split; lra.
  - destruct IH as [H1 [H2 H3]]; [intros p' Hp'; apply Hall; now right|].
    destruct (Hall p (or_introl eq_refl)) as [e [He Hs]]. rewrite He.
    destruct Hs as [_ [_ [_ [S1 [S2 [S3 [S4 S5]]]]]]].
    repeat split; lra.
Qed.

(** A result served without preemption is, in particular, served. *)
Lemma served_at_once (ps : list Process) (out : SimulationResult) :
  allServedAtOnce ps out -> allServed ps out.
Proof.
  intros [Hperm Hall]. split; [assumption|]. intros p Hp.
  destruct (Hall p Hp) as [r [Hr [[Hs _] Hc]]]. eauto.
Qed.

Lemma round64_compat (x y : Q) : x == y -> round64 x = round64 y.
Proof. intros H. unfold round64. rewrite (Qred_complete _ _ H). reflexivity. Qed.

Lemma round64_nonneg (x : Q) : 0 <= x -> 0 <= round64 x.
Proof.
  intros Hx. unfold round64. cbv zeta.
  destruct (Qeq_bool (Qred x) 0); [apply Qle_refl|].
  rewrite Qred_correct. set (e := Z.max (ilog2 (Qred x) - 52) (-1074)).
  pose proof (pow2_pos e) as Hp.
  assert (Hq : 0 <= Qred x / pow2 e).
  { rewrite Qred_correct. unfold Qdiv. apply Qmult_le_0_compat; [assumption|].
    apply Qinv_le_0_compat. lra. }
  pose proof (roundHalfEven_range (Qred x / pow2 e)) as [Hr _].
  assert (Hf : (Qfloor 0 <= Qfloor (Qred x / pow2 e))%Z)
    by (apply Qfloor_resp_le; assumption).
  change (Qfloor 0) with 0%Z in Hf.
  assert (Hz : 0 <= inject_Z (roundHalfEven (Qred x / pow2 e))).
  { change 0 with (inject_Z 0). rewrite <- Zle_Qle. lia. }
  nra.
Qed.

Lemma integral_whole (x : Q) : whole x -> integral x.
Proof. intros H. exists (Qnum x). rewrite (whole_inject x H) at 1. reflexivity. Qed.

Lemma integral_plus (x y : Q) : integral x -> integral y -> integral (x + y).
Proof.
  intros [a Ha] [b Hb]. exists (a + b)%Z. rewrite Ha, Hb, inject_Z_plus. reflexivity.
Qed.

Lemma integral_minus (x y : Q) : integral x -> integral y -> integral (x - y).
Proof.
  intros [a Ha] [b Hb]. exists (a - b)%Z. rewrite Ha, Hb. unfold Z.sub.
  rewrite inject_Z_plus, inject_Z_opp. reflexivity.
Qed.

Lemma integral_compat (x y : Q) : x == y -> integral y -> integral x.
Proof. intros E [a Ha]. exists a. rewrite E. assumption. Qed.

Lemma round64_integral (x : Q) :
  integral x -> Qabs x <= two53 -> round64 x == x.
Proof.
  intros [z Hz] Hb. rewrite (round64_compat _ _ Hz). rewrite Hz in Hb.
  rewrite (round64_exact (inject_Z z)); [symmetry; assumption|apply whole_Z|assumption].
Qed.

Lemma fadd_integral (x y : Q) :
  integral x -> integral y -> 0 <= x -> 0 <= y -> x + y <= two53 ->
  fadd x y == x + y.
Proof.
  intros Hx Hy H1 H2 H3. unfold fadd. apply round64_integral.
  - apply integral_plus; assumption.
  - apply Qabs_bound; lra.
Qed.

Lemma sumOf_order (m : ResMap) (keys : list string) :
  summable m keys ->
  0 <= sumOf r_wt m keys /\ sumOf r_wt m keys <= sumOf r_tat m keys /\
  sumOf r_tat m keys <= sumOf r_completion m keys.
Proof.
  induction keys as [|k rest IH]; intros Hs; simpl; [repeat split; lra|].
  destruct IH as [H1 [H2 H3]]; [intros k' Hk'; apply Hs; now right|].
  destruct (Hs k (or_introl eq_refl)) as [r [Hr [_ [_ [_ [A [B C]]]]]]]. rewrite Hr.
  repeat split; lra.
Qed.

Lemma sumResults64_spec (m : ResMap) (keys : list string) :
  summable m keys ->
  forall a b c,
  integral a -> integral b -> integral c -> 0 <= c -> c <= b -> b <= a ->
  a + sumOf r_completion m keys <= two53 ->
  exists a' b' c',
    sumResults64 keys m (a, b, c) = Some (a', b', c') /\
    a' == a + sumOf r_completion m keys /\
    b' == b + sumOf r_tat m keys /\
    c' == c + sumOf r_wt m keys.
Proof.
  induction keys as [|k rest IH]; intros Hs a b c Ia Ib Ic Hc Hcb Hba Hb.
  - exists a, b, c. split; [reflexivity|]. simpl. repeat split; lra.
  - cbn [sumOf sumResults64] in *.
    destruct (Hs k (or_introl eq_refl)) as [r [Hr [I1 [I2 [I3 [A [B C]]]]]]].
    rewrite Hr in *. cbv beta iota in *.
    assert (Hrest : summable m rest) by (intros k' Hk'; apply Hs; now right).
    destruct (sumOf_order m rest Hrest) as [O1 [O2 O3]].
    assert (Ea : fadd a (r_completion r) == a + r_completion r)
      by (apply fadd_integral; try assumption; lra).
    assert (Eb : fadd b (r_tat r) == b + r_tat r)
      by (apply fadd_integral; try assumption; lra).
    assert (Ec : fadd c (r_wt r) == c + r_wt r)
      by (apply fadd_integral; try assumption; lra).
    destruct (IH Hrest (fadd a (r_completion r)) (fadd b (r_tat r)) (fadd c (r_wt r)))
      as [a' [b' [c' [E [Ha' [Hb' Hc']]]]]].
    + eapply integral_compat; [exact Ea|]. apply integral_plus; assumption.
    + eapply integral_compat; [exact Eb|]. apply integral_plus; assumption.
    + eapply integral_compat; [exact Ec|]. apply integral_plus; assumption.
    + rewrite Ec. lra.
    + rewrite Ec, Eb. lra.
    + rewrite Eb, Ea. lra.
    + rewrite Ea. lra.
    + exists a', b', c'. split; [assumption|].
      rewrite Ha', Hb', Hc', Ea, Eb, Ec. repeat split; lra.
Qed.

Lemma sumOf_bound (f : ProcResult -> Q) (m : ResMap) (keys : list string) (B : Q) :
  (forall k, In k keys -> exists r, mapGet k m = Some r /\ f r <= B) ->
  sumOf f m keys <= inject_Z (Z.of_nat (length keys)) * B.
Proof.
  induction keys as [|k rest IH]; intros H.
  - cbn [sumOf length]. change (inject_Z (Z.of_nat 0)) with 0. lra.
  - cbn [sumOf length]. rewrite Nat2Z.inj_succ. unfold Z.succ. rewrite inject_Z_plus.
    destruct (H k (or_introl eq_refl)) as [r [Hr Hf]]. rewrite Hr.
    assert (IH' : sumOf f m rest <= inject_Z (Z.of_nat (length rest)) * B)
      by (apply IH; intros k' Hk'; apply H; now right).
    change (inject_Z 1) with 1. lra.
Qed.

(** X18.  The numbers [renderAverages] computes in double arithmetic for a
    result in which every process of a valid list of whole-number arrivals
    and bursts has its entry, whose timeline tiles [[min(arrival), endTime)],
    and whose completion times and [endTime] are whole numbers with
    [endTime] times the number of processes at most [2^53]: it throws
    nothing; the sums it takes are exact, so each average is the double
    nearest to the true quotient - of the sum of the completion times for
    the average completion, of that sum less the arrivals for the average
    turnaround, of that less the bursts for the average waiting time, which
    is >= 0; throughput is the double nearest to the number of processes
    over [endTime - min(arrival)], which is > 0, so its fallback value is
    never used. *)
Theorem X18_averages (ps : list Process) (t0 : Q) (out : SimulationResult) :
  validSet ps -> exactSet ps -> mathMin (map arrival ps) = Fin t0 ->
  allServed ps out -> covers t0 out -> wholeResult out ->
  let n := inject_Z (Z.of_nat (length ps)) in
  let sumCT := sumOf r_completion (results out) (map pid ps) in
  let sumTAT := sumCT - total (map arrival ps) in
  let sumWT := sumTAT - total (map burst ps) in
  exists a tend,
    renderAverages64 (results out) (endTime out) ps = Returned a /\
    endTime out = Fin tend /\ t0 < tend /\
    avgCT a = Fin (round64 (sumCT / n)) /\
    avgTAT a = Fin (round64 (sumTAT / n)) /\
    avgWT a = Fin (round64 (sumWT / n)) /\
    0 <= sumWT /\ 0 <= round64 (sumWT / n) /\
    throughput a = Fin (round64 (n / (tend - t0))).
Proof.
  intros Hv He Hmin [Hperm Hall] [tend [Hend [Htiles _]]] [[tend' [Hend' [It Hnt]]] Hwc]
    n sumCT sumTAT sumWT.
  rewrite Hend in Hend'. injection Hend' as <-.
  pose proof (exact_wholeTimes ps Hv He) as Hwt. rewrite Forall_forall in Hwt.
  assert (Hlen : length (results out) = length ps).
  { rewrite <- (length_map fst), (Permutation_length Hperm). apply length_map. }
  rewrite Hlen in Hnt. fold n in Hnt.
  assert (Hpos : (0 < length ps)%nat).
  { destruct ps; [destruct Hv as [H _]; congruence|simpl; lia]. }
  assert (Hn : 1 <= n).
  { unfold n. change 1 with (inject_Z 1). rewrite <- Zle_Qle. lia. }
  assert (Hlt : t0 < tend).
  { pose proof (tiles_chain _ _ _ Htiles) as Hch.
    destruct Htiles as [[x [Hx Hs]] [Hp _]].
    pose proof (Hp x (nth_error_In _ _ Hx)) as Hd.
    destruct (chain_within _ _ _ Hch 0%nat x Hx) as [Hb0 Hb1]. lra. }
  destruct (mathMin_arrival ps t0 Hmin) as [[p0 [Hp0 Ht0]] _].
  destruct (Hwt p0 Hp0) as [Hw0 [_ [Hnn0 _]]]. rewrite Ht0 in Hw0, Hnn0.
  assert (Hentry : forall p, In p ps ->
            exists r, mapGet (pid p) (results out) = Some r /\
              integral (r_completion r) /\ integral (r_tat r) /\ integral (r_wt r) /\
              0 <= r_wt r /\ r_wt r <= r_tat r /\ r_tat r <= r_completion r /\
              r_completion r <= tend).
  { intros p Hp. destruct (Hall p Hp) as [r [Hr [Hs [te [Hte Hc]]]]].
    rewrite Hend in Hte. injection Hte as <-.
    destruct (Hwt p Hp) as [Wa [Wb [Na Nb]]].
    destruct Hs as [_ [_ [_ [S1 [S2 [_ [S4 S5]]]]]]].
    pose proof (Hwc _ _ Hr) as Ic.
    assert (It' : integral (r_tat r)).
    { eapply integral_compat; [exact S4|].
      apply integral_minus; [assumption|apply integral_whole; assumption]. }
    exists r. split; [assumption|]. split; [assumption|]. split; [assumption|].
    split; [|repeat split; lra].
    eapply integral_compat; [exact S5|].
    apply integral_minus; [assumption|apply integral_whole; assumption]. }
  assert (Hsum : summable (results out) (map fst (results out))).
  { intros k Hk. apply (Permutation_in k Hperm) in Hk. apply in_map_iff in Hk.
    destruct Hk as [p [<- Hp]].
    destruct (Hentry p Hp) as [r [Hr [H1 [H2 [H3 [H4 [H5 [H6 _]]]]]]]].
    exists r. repeat split; assumption. }
  assert (Hbound : sumOf r_completion (results out) (map fst (results out)) <= two53).
  { eapply Qle_trans; [apply (sumOf_bound _ _ _ tend)|].
    - intros k Hk. apply (Permutation_in k Hperm) in Hk. apply in_map_iff in Hk.
      destruct Hk as [p [<- Hp]].
      destruct (Hentry p Hp) as [r [Hr [_ [_ [_ [_ [_ [_ H7]]]]]]]]. eauto.
    - rewrite length_map, Hlen. exact Hnt. }
  assert (I0 : integral 0) by (exists 0%Z; reflexivity).
  destruct (sumResults64_spec (results out) (map fst (results out)) Hsum 0 0 0)
    as [a [b [c [Hs64 [Ha [Hb Hc]]]]]];
    try assumption; try apply Qle_refl; [lra|].
  destruct (sumOf_served (results out) ps) as [H1 [H2 H3]].
  { intros p Hp. destruct (Hall p Hp) as [r [Hr [Hs _]]]. eauto. }
  rewrite (sumOf_perm r_completion _ _ _ Hperm) in Ha.
  rewrite (sumOf_perm r_tat _ _ _ Hperm) in Hb.
  rewrite (sumOf_perm r_wt _ _ _ Hperm) in Hc.
  assert (Ea : a == sumCT) by (unfold sumCT; lra).
  assert (Eb : b == sumTAT) by (unfold sumTAT, sumCT; lra).
  assert (Ec : c == sumWT) by (unfold sumWT, sumTAT, sumCT; lra).
  assert (Hw : 0 <= sumWT) by (rewrite <- Ec, Hc; lra).
  assert (Etime : fsub tend t0 == tend - t0).
  { unfold fsub. apply round64_integral.
    - apply integral_minus; [assumption|apply integral_whole; assumption].
    - apply Qabs_bound; nra. }
  unfold renderAverages64. rewrite Hs64, Hmin, Hend, Hlen. cbv zeta.
  unfold divCount64. destruct (Nat.eqb_spec (length ps) 0) as [E|_]; [lia|].
  cbn [jsSub64 gt0].
  assert (Hgt : Qltb 0 (fsub tend t0) = true) by (apply Qltb_lt; rewrite Etime; lra).
  rewrite Hgt. cbn [countPer64]. fold n.
  assert (Hnz : ~ n == 0) by lra.
  eexists. exists tend. split; [reflexivity|]. cbn [avgCT avgTAT avgWT throughput].
  split; [reflexivity|]. split; [assumption|].
  split; [f_equal; apply round64_compat; rewrite Ea; reflexivity|].
  split; [f_equal; apply round64_compat; rewrite Eb; reflexivity|].
  split; [f_equal; apply round64_compat; rewrite Ec; reflexivity|].
  split; [assumption|]. split.
  - apply round64_nonneg. unfold Qdiv. apply Qmult_le_0_compat; [assumption|].
    apply Qinv_le_0_compat. lra.
  - f_equal. apply round64_compat. rewrite Etime. reflexivity.
Qed.

Lemma mapGet_value (k : string) (m : ResMap) (r : ProcResult) :
  mapGet k m = Some r -> In r (map snd m).
Proof.
  induction m as [|[k' v] l IH]; simpl; [discriminate|].
  destruct (String.eqb k' k); [intros [= <-]; now left|]. intros H. right. auto.
Qed.

Lemma X18_averages_witness :
  validSet earlyFirst /\ exactSet earlyFirst /\
  mathMin (map arrival earlyFirst) = Fin 0 /\
  allServed earlyFirst (fcfs64 earlyFirst) /\ covers 0 (fcfs64 earlyFirst) /\
  wholeResult (fcfs64 earlyFirst) /\
  let n := inject_Z (Z.of_nat (length earlyFirst)) in
  let sumCT := sumOf r_completion (results (fcfs64 earlyFirst)) (map pid earlyFirst) in
  let sumTAT := sumCT - total (map arrival earlyFirst) in
  let sumWT := sumTAT - total (map burst earlyFirst) in
  exists a tend,
    renderAverages64 (results (fcfs64 earlyFirst)) (endTime (fcfs64 earlyFirst))
      earlyFirst = Returned a /\
    endTime (fcfs64 earlyFirst) = Fin tend /\ 0 < tend /\
    avgCT a = Fin (round64 (sumCT / n)) /\
    avgTAT a = Fin (round64 (sumTAT / n)) /\
    avgWT a = Fin (round64 (sumWT / n)) /\
    0 <= sumWT /\ 0 <= round64 (sumWT / n) /\
    throughput a = Fin (round64 (n / (tend - 0))).
Proof.
  assert (Hv : validSet earlyFirst) by concrete_valid.
  assert (Hmin : mathMin (map arrival earlyFirst) = Fin 0) by (vm_compute; reflexivity).
  assert (Hs : allServed earlyFirst (fcfs64 earlyFirst)).
  { rewrite (fcfs64_exact earlyFirst Hv earlyFirst_exact). apply served_at_once.
    apply fcfs_results. exact Hv. }
  assert (Hc : covers 0 (fcfs64 earlyFirst)).
  { rewrite (fcfs64_exact earlyFirst Hv earlyFirst_exact).
    apply fcfs_covers; assumption. }
  assert (Hw : wholeResult (fcfs64 earlyFirst)).
  { split.
    - exists 6. split; [vm_compute; reflexivity|]. split; [exists 6%Z; reflexivity|].
      vm_compute. discriminate.
    - intros k r Hr. apply mapGet_value in Hr. apply integral_whole.
      assert (Hall : exists l, map snd (results (fcfs64 earlyFirst)) = l /\
                               Forall (fun x => whole (r_completion x)) l).
      { eexists. split; [vm_compute; reflexivity|]. repeat constructor. }
      destruct Hall as [l [El Hl]]. rewrite El in Hr. rewrite Forall_forall in Hl.
      apply Hl. assumption. }
  split; [exact Hv|]. split; [exact earlyFirst_exact|]. split; [exact Hmin|].
  split; [exact Hs|]. split; [exact Hc|]. split; [exact Hw|].
  exact (X18_averages earlyFirst 0 (fcfs64 earlyFirst) Hv earlyFirst_exact Hmin Hs Hc Hw).
Defined.

(** ** Round Robin: when the CPU idles *)

Lemma findNotArrived_first (arrived : IdxSet) (ps : list Process) :
  forall k j, findNotArrived arrived k ps = Some j ->
  forall i, (k <= i < j)%nat -> has arrived i = true.
Proof.
  induction ps as [|p r IH]; intros k j; simpl; [discriminate|].
  destruct (has arrived k) eqn:E; simpl.
  - intros H i Hi. destruct (Nat.eq_dec i k) as [->|Hne]; [assumption|].
    apply (IH (S k) j H). lia.
  - intros [= <-] i Hi. lia.
Qed.

(** X21.  Round Robin (valid list, quantum > 0) takes an idle pass only when
    every process that has arrived is finished; the idle block then runs to
    the arrival of the process at the first index of the list that is not in
    [arrived] (every smaller index is), which on a list in arrival order (as
    [readProcesses] returns it) is the earliest arrival among the unfinished
    processes. *)
Theorem X21_round_robin_idle (ps : list Process) (q : jsnum) (t0 : Q)
    (st st' : RRState) :
  gt0 q = true -> validSet ps -> mathMin (map arrival ps) = Fin t0 ->
  reaches (rrCond (length ps)) (rrBody ps q) (rrInit ps t0) st ->
  rrCond (length ps) st = true ->
  rr_queue st = [] -> rrBody ps q st = Next st' ->
  rr_blocks st' = rr_blocks st ++ [idleBlock (rr_time st) (rr_time st')] /\
  rr_time st < rr_time st' /\
  (exists k pn, nth_error ps k = Some pn /\ rr_time st' = arrival pn /\
                ~ In k (rr_arrived st) /\
                forall j, (j < k)%nat -> In j (rr_arrived st)) /\
  (forall i p, nth_error ps i = Some p -> arrival p <= rr_time st ->
               nth i (rr_rem st) 0 == 0) /\
  (arrivalSorted ps ->
   forall i p, nth_error ps i = Some p -> 0 < nth i (rr_rem st) 0 ->
               rr_time st' <= arrival p).
Proof.
  intros Hq Hv Hmin Hreach _ Hqueue Hbody.
  pose proof (rr_reaches_inv ps q t0 st Hq Hv Hmin Hreach) as Hinv.
  assert (Hfin : forall i, In i (rr_arrived st) -> nth i (rr_rem st) 0 == 0).
  { intros i Hi. apply (rri_finished Hinv); [assumption|]. rewrite Hqueue. intros []. }
  unfold rrBody in Hbody. rewrite Hqueue in Hbody.
  destruct (findNotArrived (rr_arrived st) 0 ps) as [k|] eqn:Hf; [|discriminate].
  destruct (nth_error ps k) as [pn|] eqn:Hpn; [|discriminate].
  rewrite pushArrived_newly in Hbody. injection Hbody as <-.
  cbn [rr_blocks rr_time].
  pose proof (findNotArrived_some _ _ _ _ Hf) as [_ Hk]. apply has_notIn in Hk.
  split; [reflexivity|]. split; [|split; [|split]].
  - apply Qnot_le_lt. intro Hle. apply Hk. exact (rri_upto Hinv k Hpn Hle).
  - exists k, pn. split; [assumption|]. split; [reflexivity|]. split; [assumption|].
    intros j Hj. apply has_In. apply (findNotArrived_first _ _ _ _ Hf). lia.
  - intros i p Hp Ha. apply Hfin. exact (rri_upto Hinv i Hp Ha).
  - intros Hsorted i p Hp Hpos.
    assert (Hni : ~ In i (rr_arrived st)).
    { intro Hi. specialize (Hfin i Hi). lra. }
    destruct (Nat.lt_ge_cases i k) as [Hlt|Hge].
    + exfalso. apply Hni. apply has_In.
      apply (findNotArrived_first _ _ _ _ Hf). lia.
    + destruct (Nat.eq_dec i k) as [->|Hne].
      * assert (p = pn) by congruence. subst. apply Qle_refl.
      * apply (Hsorted k i pn p); [lia|assumption|assumption].
Qed.

Lemma X21_round_robin_idle_witness :
  gt0 (Fin 2) = true /\ validSet earlyFirst /\
  mathMin (map arrival earlyFirst) = Fin 0 /\
  exists st st',
    reaches (rrCond (length earlyFirst)) (rrBody earlyFirst (Fin 2))
      (rrInit earlyFirst 0) st /\
    rrCond (length earlyFirst) st = true /\
    rr_queue st = [] /\ rrBody earlyFirst (Fin 2) st = Next st' /\
    rr_blocks st' = rr_blocks st ++ [idleBlock (rr_time st) (rr_time st')] /\
    rr_time st < rr_time st' /\
    (exists k pn, nth_error earlyFirst k = Some pn /\ rr_time st' = arrival pn /\
                  ~ In k (rr_arrived st) /\
                  forall j, (j < k)%nat -> In j (rr_arrived st)) /\
    (forall i p, nth_error earlyFirst i = Some p -> arrival p <= rr_time st ->
                 nth i (rr_rem st) 0 == 0) /\
    (arrivalSorted earlyFirst ->
     forall i p, nth_error earlyFirst i = Some p -> 0 < nth i (rr_rem st) 0 ->
                 rr_time st' <= arrival p).
Proof.
  assert (Hv : validSet earlyFirst) by concrete_valid.
  assert (Hmin : mathMin (map arrival earlyFirst) = Fin 0) by (vm_compute; reflexivity).
  split; [reflexivity|]. split; [exact Hv|]. split; [exact Hmin|].
  assert (Hreach : exists st,
            reaches (rrCond (length earlyFirst)) (rrBody earlyFirst (Fin 2))
              (rrInit earlyFirst 0) st /\
            rrCond (length earlyFirst) st = true /\ rr_queue st = [] /\
            exists st', rrBody earlyFirst (Fin 2) st = Next st').
  { eexists. split; [|split; [|split]].
    - eapply reaches_next; [apply reaches_start|reflexivity|vm_compute; reflexivity].
    - reflexivity.
    - reflexivity.
    - eexists. vm_compute. reflexivity. }
  destruct Hreach as [st [Hreach [Hcond [Hqueue [st' Hbody]]]]].
  exists st, st'. split; [assumption|]. split; [assumption|]. split; [assumption|].
  split; [assumption|].
  exact (X21_round_robin_idle earlyFirst (Fin 2) 0 st st' eq_refl Hv Hmin Hreach Hcond
           Hqueue Hbody).
Defined.

(** ** The results table *)

Lemma findPid_unique (ps : list Process) (p : Process) :
  NoDup (map pid ps) -> In p ps -> findPid ps (pid p) = Some p.
Proof.
  unfold findPid. induction ps as [|a r IH]; intros Hnd Hin; [contradiction|].
  inversion Hnd as [|x l Hx Hr]; subst. simpl.
  destruct Hin as [->|Hin]; [rewrite String.eqb_refl; reflexivity|].
  destruct (String.eqb_spec (pid a) (pid p)) as [E|E]; [|auto].
  exfalso. apply Hx. rewrite E. apply in_map. assumption.
Qed.

(** X19.  For a list with unique pids and any result map,
    [renderResultsTable] throws nothing and builds one row per process, in
    the order of the list; each row shows that process's pid, arrival, burst
    and priority together with the entry the map holds under that pid, and
    when every process has an entry no row is left with dashes. *)
Theorem X19_results_table (ps : list Process) (resMap : ResMap) :
  NoDup (map pid ps) ->
  exists rows, renderResultsTable ps resMap = Returned rows /\
               Forall2 (rowOf resMap) ps rows /\
               ((forall p, In p ps -> mapGet (pid p) resMap <> None) ->
                Forall (fun row => tr_entry row <> None) rows).
Proof.
  intros Hnd. unfold renderResultsTable.
  assert (Hgen : forall l, incl l ps ->
            exists rows, tableRows ps resMap (map pid l) = Returned rows /\
                         Forall2 (rowOf resMap) l rows /\
                         ((forall p, In p l -> mapGet (pid p) resMap <> None) ->
                          Forall (fun row => tr_entry row <> None) rows)).
  { induction l as [|p r IH]; intros Hincl; simpl.
    - exists []. split; [reflexivity|]. split; constructor.
    - assert (Hp : In p ps) by (apply Hincl; now left).
      rewrite (findPid_unique ps p Hnd Hp).
      destruct IH as [rows [Hrows [HF Hfull]]]; [intros x Hx; apply Hincl; now right|].
      rewrite Hrows. eexists. split; [reflexivity|]. split.
      + constructor; [|assumption].
        unfold rowOf. cbn [tr_pid tr_arrival tr_burst tr_priority tr_entry].
        repeat split; reflexivity.
      + intros Hall. constructor.
        * cbn [tr_entry]. apply Hall. now left.
        * apply Hfull. intros x Hx. apply Hall. now right. }
  apply Hgen. intros x Hx. assumption.
Qed.

Lemma X19_results_table_witness :
  NoDup (map pid earlyFirst) /\
  exists rows,
    renderResultsTable earlyFirst (results (fcfs earlyFirst)) = Returned rows /\
    Forall2 (rowOf (results (fcfs earlyFirst))) earlyFirst rows /\
    ((forall p, In p earlyFirst -> mapGet (pid p) (results (fcfs earlyFirst)) <> None) ->
     Forall (fun row => tr_entry row <> None) rows).
Proof.
  assert (Hnd : NoDup (map pid earlyFirst)).
  { repeat constructor; simpl; intuition discriminate. }
  split; [exact Hnd|].
  exact (X19_results_table earlyFirst (results (fcfs earlyFirst)) Hnd).
Defined.

(** ** Generated colours *)


(** ** SRTF: bursts that are not whole numbers *)

(** X22.  SRTF never returns on a valid list that holds a process whose
    burst is not a whole number: its remaining burst goes down by 1 per tick
    and never passes the test [rem[best] === 0], so the process never enters
    [done] and the loop goes on for ever. *)
Theorem X22_srtf_needs_whole_bursts (localeCompare : string -> string -> Z)
    (ps : list Process) (p : Process) (fuel : nat) :
  validSet ps -> In p ps ->
  (forall k : nat, ~ burst p == inject_Z (Z.of_nat k)) ->
  srtf localeCompare fuel ps = OutOfFuel.
Proof.
  intros Hv Hp Hfrac. destruct (valid_min ps Hv) as [t0 Hmin].
  pose proof (valid_bursts ps Hv) as Hbursts.
  apply In_nth_error in Hp. destruct Hp as [i Hi].
  assert (Hlt : (i < length ps)%nat) by (eapply nth_error_lt; eassumption).
  unfold srtf. rewrite Hmin.
  rewrite (while_never _ (srtfCond (length ps)) (srtfBody localeCompare ps)
             (fun st => SrtfInv ps t0 st /\
                exists k : nat, nth i (s_rem st) 0 == burst p - inject_Z (Z.of_nat k)));
    [reflexivity| |].
  - intros st [Hinv [k Hk]].
    assert (Hcond : srtfCond (length ps) st = true).
    { unfold srtfCond. apply Nat.ltb_lt.
      destruct (Nat.lt_ge_cases (length (s_done st)) (length ps)) as [H|H];
        [assumption|]. exfalso.
      pose proof (goodSet_full _ _ (si_done Hinv) H i Hlt) as Hin.
      pose proof (si_done_zero Hinv i Hin) as Hz. apply (Hfrac k). lra. }
    split; [assumption|].
    pose proof (srtf_step localeCompare ps t0 st Hinv Hcond) as Hstep.
    destruct (srtfBody localeCompare ps st) as [st'| |] eqn:Hb; try contradiction.
    exists st'. split; [reflexivity|]. split; [tauto|].
    destruct (srtfBody_data _ _ _ _ Hb) as [_ Hdata].
    destruct (fst (pick localeCompare ps (s_rem st) (s_done st) (s_time st) 0 ps
                     None PInf)) as [best|].
    + destruct Hdata as [pb [Hpb [_ [_ [_ [Hrem _]]]]]]. rewrite Hrem.
      destruct (Nat.eq_dec best i) as [->|Hne].
      * exists (S k). rewrite nth_setNth_same by (rewrite (si_rem_len Hinv); assumption).
        rewrite Hk, Nat2Z.inj_succ. unfold Z.succ. rewrite inject_Z_plus.
        change (inject_Z 1) with 1. lra.
      * exists k. rewrite nth_setNth_other by assumption. assumption.
    + destruct Hdata as [_ [Hrem _]]. rewrite Hrem. eauto.
  - split; [apply srtfInit_inv; assumption|]. exists 0%nat.
    unfold srtfInit. cbn [s_rem]. rewrite (nth_burst ps i p Hi).
    simpl. change (inject_Z 0) with 0. lra.
Qed.

Lemma X22_srtf_needs_whole_bursts_witness :
  validSet [P "P1" 0 3; mkProcess "P2" 1 (3 # 2) 0 "c"] /\
  In (mkProcess "P2" 1 (3 # 2) 0 "c") [P "P1" 0 3; mkProcess "P2" 1 (3 # 2) 0 "c"] /\
  (forall k : nat, ~ burst (mkProcess "P2" 1 (3 # 2) 0 "c") == inject_Z (Z.of_nat k)) /\
  srtf codeUnitCompare 100 [P "P1" 0 3; mkProcess "P2" 1 (3 # 2) 0 "c"] = OutOfFuel.
Proof.
  assert (Hv : validSet [P "P1" 0 3; mkProcess "P2" 1 (3 # 2) 0 "c"]) by concrete_valid.
  assert (Hin : In (mkProcess "P2" 1 (3 # 2) 0 "c")
                  [P "P1" 0 3; mkProcess "P2" 1 (3 # 2) 0 "c"]) by (right; now left).
  assert (Hf : forall k : nat,
            ~ burst (mkProcess "P2" 1 (3 # 2) 0 "c") == inject_Z (Z.of_nat k)).
  { intros k. unfold Qeq. simpl. lia. }
  split; [exact Hv|]. split; [exact Hin|]. split; [exact Hf|].
  exact (X22_srtf_needs_whole_bursts codeUnitCompare _ _ 100 Hv Hin Hf).
Defined.

(** ** Round Robin: the number of slices *)

Lemma Qceiling_minus_one (y : Q) : Qceiling (y - 1) = (Qceiling y - 1)%Z.
Proof.
  apply Z.le_antisymm; [apply Qceiling_pred|].
  pose proof (Qle_ceiling (y - 1)) as Hc.
  assert (Hle : y <= inject_Z (Qceiling (y - 1) + 1)).
  { rewrite inject_Z_plus. change (inject_Z 1) with 1. lra. }
  apply Qceiling_resp_le in Hle. rewrite Qceiling_Z in Hle. lia.
Qed.

Lemma dispatchesLeft_step (q : jsnum) (r : Q) :
  gt0 q = true -> 0 < r ->
  (dispatchesLeft q (r - minQuantum q r) + 1 = dispatchesLeft q r)%nat.
Proof.
  destruct q as [x| | |]; simpl; intros Hq Hr; try discriminate.
  - qprop.
    assert (Hpos : (0 < Qceiling (r / x))%Z).
    { apply Qceiling_pos. apply Qlt_shift_div_l; lra. }
    destruct (Qmin_cases x r) as [[-> H]|[-> H]].
    + assert (E : (r - x) / x == r / x - 1) by (field; lra).
      rewrite (Qceiling_comp _ _ E), Qceiling_minus_one. lia.
    + assert (E : (r - r) / x == 0) by (field; lra).
      rewrite (Qceiling_comp _ _ E). change (Qceiling 0) with 0%Z.
      assert (Hone : r / x <= 1) by (apply Qle_shift_div_r; lra).
      apply Qceiling_resp_le in Hone. change (Qceiling 1) with 1%Z in Hone. lia.
  - assert (E : Qltb 0 (r - r) = false) by (apply Qltb_ge; lra).
    assert (E' : Qltb 0 r = true) by (apply Qltb_lt; lra).
    rewrite E, E'. lia.
Qed.

Lemma dispatchesLeft_zero (q : jsnum) (r : Q) :
  gt0 q = true -> r == 0 -> dispatchesLeft q r = 0%nat.
Proof.
  destruct q as [x| | |]; simpl; intros Hq Hr; try discriminate.
  - qprop. assert (E : r / x == 0) by (rewrite Hr; field; lra).
    rewrite (Qceiling_comp _ _ E). reflexivity.
  - assert (E : Qltb 0 r = false) by (apply Qltb_ge; lra). rewrite E. reflexivity.
Qed.

Lemma rrBody_break (ps : list Process) (q : jsnum) (s st : RRState) :
  rrBody ps q s = Break st -> st = s.
Proof.
  unfold rrBody. destruct (rr_queue s) as [|i queue0].
  - destruct (findNotArrived (rr_arrived s) 0 ps) as [k|].
    + destruct (nth_error ps k); [|discriminate].
      destruct (pushArrived _ 0 ps [] (rr_arrived s)); discriminate.
    + congruence.
  - destruct (nth_error ps i) as [p|]; [|discriminate].
    destruct (pushArrived _ 0 ps queue0 (rr_arrived s)).
    destruct (Qltb 0 _); [discriminate|].
    destruct (mapGet (pid p) _); discriminate.
Qed.

Lemma rr_slices_step (ps : list Process) (q : jsnum) (t0 : Q) (st st' : RRState) :
  gt0 q = true -> validSet ps -> Forall (fun p => pid p <> IDLE) ps ->
  RRInv ps t0 st -> rrBody ps q st = Next st' ->
  (forall i p, nth_error ps i = Some p ->
     (occurrences (pid p) (rr_blocks st) + dispatchesLeft q (nth i (rr_rem st) 0%Q)
      = dispatchesLeft q (burst p))%nat) ->
  forall i p, nth_error ps i = Some p ->
    (occurrences (pid p) (rr_blocks st') + dispatchesLeft q (nth i (rr_rem st') 0%Q)
     = dispatchesLeft q (burst p))%nat.
Proof.
  intros Hq Hv Hids Hinv Hbody Hold i p Hp.
  assert (Hnd : NoDup (map pid ps)) by apply Hv.
  assert (Hid : pid p <> IDLE).
  { rewrite Forall_forall in Hids. apply Hids. eapply nth_error_In; eassumption. }
  unfold rrBody in Hbody. destruct (rr_queue st) as [|j queue0] eqn:Hqueue.
  - destruct (findNotArrived (rr_arrived st) 0 ps) as [k|]; [|discriminate].
    destruct (nth_error ps k) as [pn|]; [|discriminate].
    rewrite pushArrived_newly in Hbody. injection Hbody as <-.
    cbn [rr_blocks rr_rem]. rewrite occurrences_snoc, carries_idle.
    specialize (Hold i p Hp). lia.
  - destruct (nth_error ps j) as [pj|] eqn:Hpj; [|discriminate].
    rewrite pushArrived_newly in Hbody. cbv zeta in Hbody.
    assert (Hjq : 0 < nth j (rr_rem st) 0).
    { apply (rri_queue_pos Hinv). rewrite Hqueue. now left. }
    assert (Hj : (j < length (rr_rem st))%nat).
    { rewrite (rri_rem_len Hinv). eapply nth_error_lt. eassumption. }
    assert (Hgoal : forall blocks0 rem0,
              blocks0 = rr_blocks st ++
                [mkBlock (pid pj) (rr_time st)
                   (rr_time st + minQuantum q (nth j (rr_rem st) 0)) (color pj)] ->
              rem0 = setNth j (nth j (rr_rem st) 0 - minQuantum q (nth j (rr_rem st) 0))
                       (rr_rem st) ->
              (occurrences (pid p) blocks0 + dispatchesLeft q (nth i rem0 0%Q)
               = dispatchesLeft q (burst p))%nat).
    { intros blocks0 rem0 -> ->. rewrite occurrences_snoc, carries_proc by assumption.
      specialize (Hold i p Hp). destruct (Nat.eq_dec i j) as [->|Hne].
      - assert (pj = p) by congruence. subst pj. rewrite String.eqb_refl.
        rewrite nth_setNth_same by assumption.
        pose proof (dispatchesLeft_step q (nth j (rr_rem st) 0) Hq Hjq). lia.
      - rewrite nth_setNth_other by auto.
        destruct (String.eqb_spec (pid pj) (pid p)) as [E|E]; [|lia].
        exfalso. apply Hne. exact (pid_injective ps i j p pj Hnd Hp Hpj (eq_sym E)). }
    destruct (Qltb 0 _) in Hbody.
    + injection Hbody as <-. cbn [rr_blocks rr_rem]. apply Hgoal; reflexivity.
    + destruct (mapGet (pid pj) _) in Hbody; [|discriminate].
      injection Hbody as <-. cbn [rr_blocks rr_rem]. apply Hgoal; reflexivity.
Qed.

(** Over exact arithmetic.
    Round Robin on a valid list without the pid 'IDLE': in the result
    it returns, a process with burst [b] runs in exactly ceil(b / quantum)
    blocks for a finite quantum > 0, and in exactly one block for the quantum
    [Infinity]. *)
Lemma round_robin_slice_count (ps : list Process) (q : jsnum) :
  gt0 q = true -> validSet ps -> Forall (fun p => pid p <> IDLE) ps ->
  returnsWith (fun fuel => roundRobin fuel ps q)
    (fun out => forall p, In p ps ->
       occurrences (pid p) (blocks out) =
       match q with
       | Fin x => Z.to_nat (Qceiling (burst p / x))
       | _ => 1%nat
       end).
Proof.
  intros Hq Hv Hids. destruct (valid_min ps Hv) as [t0 Hmin].
  exists (S (rrMeasure q (length ps) (rrInit ps t0))). intros fuel Hle.
  destruct (roundRobin_returns ps q t0 fuel Hq Hv Hmin)
    as [st [Hst [Hrr [Hinv [Hfin _]]]]]; [lia|].
  exists (mkSim (rr_blocks st) (rr_res st) (Fin (rr_time st))). split; [assumption|].
  destruct (while_returned_reaches _ _ _ _ _ Hst) as [s [Hreach Hs]].
  assert (Hsame : st = s).
  { destruct Hs as [[_ E]|[_ Hbreak]]; [assumption|]. eapply rrBody_break; eassumption. }
  subst s.
  assert (Hcount : RRInv ps t0 st /\
            forall i p, nth_error ps i = Some p ->
              (occurrences (pid p) (rr_blocks st)
               + dispatchesLeft q (nth i (rr_rem st) 0%Q)
               = dispatchesLeft q (burst p))%nat).
  { refine (reaches_inv _ _ _
              (fun s => RRInv ps t0 s /\
                 forall i p, nth_error ps i = Some p ->
                   (occurrences (pid p) (rr_blocks s)
                    + dispatchesLeft q (nth i (rr_rem s) 0%Q)
                    = dispatchesLeft q (burst p))%nat) _ _ _ st Hreach).
    - split; [apply rrInit_inv; assumption|]. intros i p Hp.
      unfold rrInit. cbn [rr_blocks rr_rem]. rewrite (nth_burst ps i p Hp). reflexivity.
    - intros s1 [Hi1 Hc1] _. pose proof (rr_step ps q t0 Hq Hv s1 Hi1) as Hstep.
      destruct (rrBody ps q s1) as [s2| |] eqn:Hb; try exact I.
      split; [tauto|]. exact (rr_slices_step ps q t0 s1 s2 Hq Hv Hids Hi1 Hb Hc1). }
  destruct Hcount as [_ Hcount]. intros p Hp. cbn [blocks].
  apply In_nth_error in Hp. destruct Hp as [i Hi].
  specialize (Hcount i p Hi).
  assert (Hz : nth i (rr_rem st) 0 == 0).
  { destruct Hfin as [Hempty Hall]. apply (rri_finished Hinv).
    - apply Hall. eapply nth_error_lt. eassumption.
    - rewrite Hempty. intros []. }
  rewrite (dispatchesLeft_zero q _ Hq Hz) in Hcount. rewrite Nat.add_0_r in Hcount.
  rewrite Hcount. destruct q as [x| | |]; try discriminate; [reflexivity|].
  simpl. assert (Hb : Qltb 0 (burst p) = true).
  { apply Qltb_lt. pose proof (valid_bursts ps Hv) as Hall.
    rewrite Forall_forall in Hall. apply Hall. eapply nth_error_In; eassumption. }
  rewrite Hb. reflexivity.
Qed.

(** X23.  Round Robin in double arithmetic on a valid list without the pid
    'IDLE', of whole-number arrivals and bursts (horizon at most [2^53]): in
    the result it returns, a process with burst [b] runs in exactly
    ceil(b / quantum) blocks for a whole-number quantum > 0, and in exactly
    one block for the quantum [Infinity]. *)
Theorem X23_round_robin_slice_count (ps : list Process) (q : jsnum) :
  gt0 q = true -> exactQuantum q -> validSet ps -> exactSet ps ->
  Forall (fun p => pid p <> IDLE) ps ->
  returnsWith (fun fuel => roundRobin64 fuel ps q)
    (fun out => forall p, In p ps ->
       occurrences (pid p) (blocks out) =
       match q with
       | Fin x => Z.to_nat (Qceiling (burst p / x))
       | _ => 1%nat
       end).
Proof.
  intros Hq Hx Hv He Hids.
  apply (returnsWith_ext (fun fuel => roundRobin fuel ps q));
    [intros fuel; apply roundRobin64_exact_valid; assumption|].
  apply round_robin_slice_count; assumption.
Qed.

Lemma X23_round_robin_slice_count_witness :
  gt0 (Fin 2) = true /\ exactQuantum (Fin 2) /\ validSet (rrScenario 0 0 "a" "b") /\
  exactSet (rrScenario 0 0 "a" "b") /\
  Forall (fun p => pid p <> IDLE) (rrScenario 0 0 "a" "b") /\
  returnsWith (fun fuel => roundRobin64 fuel (rrScenario 0 0 "a" "b") (Fin 2))
    (fun out => forall p, In p (rrScenario 0 0 "a" "b") ->
       occurrences (pid p) (blocks out) = Z.to_nat (Qceiling (burst p / 2))).
Proof.
  assert (Hids : Forall (fun p => pid p <> IDLE) (rrScenario 0 0 "a" "b"))
    by (repeat constructor; discriminate).
  split; [reflexivity|]. split; [reflexivity|]. split; [exact rrScenario_valid|].
  split; [exact rrScenario_exact|]. split; [exact Hids|].
  exact (X23_round_robin_slice_count (rrScenario 0 0 "a" "b") (Fin 2) eq_refl eq_refl
           rrScenario_valid rrScenario_exact Hids).
Defined.
